(** * SCOLT: structured columnar table encoder

    A shallow embedding of [src/scolt.ts] (class [SCOLT]) and the
    verification of its documented properties.

    Conventions of the embedding.
    - A JavaScript string is a [string]; every [ascii] is one code unit
      below 256.
    - A JSON number is an integer [Z], printed in decimal (the texts that
      [String(n)] and [JSON.stringify(n)] give for integers of the safe
      range).
    - A JSON object is the list of its own properties in enumeration order
      (the order of [Object.keys]); members inherited from a prototype are
      not part of the model.  The lookups [k in o], [o[k]],
      [defaultValues[k]] and [tableStructure[k]] of the model are those of
      the code for every name [k] that [Object.prototype] does not define
      ([ownName]); a statement that depends on such a lookup carries that
      restriction.
    - A JavaScript [Map] is an association list in insertion order; the
      per-table dedup maps are objects held by reference, so they live in a
      store and are named by their address.
    - A thrown [TypeError] is the result [TypeError]; recursion on the input
      is bounded by a fuel argument and [OutOfFuel] is the result of too
      small a bound. *)

From Stdlib Require Import String Ascii List ZArith NArith Arith Bool Lia.
From Stdlib Require Import DecimalString DecimalNat DecimalZ.
From Stdlib Require Import Permutation Sorted OrderedTypeEx Relations.
Import ListNotations.
Open Scope list_scope.
Open Scope string_scope.
Open Scope nat_scope.

Set Implicit Arguments.

(** ** Results of fallible code *)

Inductive Result (A : Type) : Type :=
| Ok (a : A)
| TypeError
| OutOfFuel.

Arguments Ok {A} a.
Arguments TypeError {A}.
Arguments OutOfFuel {A}.

Definition bind {A B} (r : Result A) (k : A -> Result B) : Result B :=
  match r with
  | Ok a => k a
  | TypeError => TypeError
  | OutOfFuel => OutOfFuel
  end.

Notation "x <- c ;; k" := (bind c (fun x => k))
  (at level 61, c at next level, right associativity).

(** [forEach]-style loops: a fold that stops at the first exception. *)
Fixpoint foldM {A S} (f : S -> A -> Result S) (s : S) (l : list A) : Result S :=
  match l with
  | [] => Ok s
  | x :: l' => s' <- f s x ;; foldM f s' l'
  end.

Fixpoint mapM {A B} (f : A -> Result B) (l : list A) : Result (list B) :=
  match l with
  | [] => Ok []
  | x :: l' => y <- f x ;; ys <- mapM f l' ;; Ok (y :: ys)
  end.

(** ** JavaScript strings and numbers *)

Module JS.

(** [String(n)] for a non-negative integer. *)
Definition showNat (n : nat) : string :=
  NilEmpty.string_of_uint (Nat.to_uint n).

(** [String(n)] for an integer. *)
Definition showZ (n : Z) : string :=
  NilEmpty.string_of_int (Z.to_int n).

(** [Number(s)] on a run of digits; the empty string gives 0. *)
Definition toNumber (s : string) : nat :=
  match NilEmpty.uint_of_string s with
  | Some d => Nat.of_uint d
  | None => 0
  end.

(** [l.join(sep)] on an array of strings. *)
Definition join (sep : string) (l : list string) : string :=
  String.concat sep l.

Definition startsWith (s p : string) : bool := String.prefix p s.

Definition code (c : ascii) : nat := nat_of_ascii c.

Definition isDigit (c : ascii) : bool :=
  (48 <=? code c) && (code c <=? 57).

(** The class [\w] of a regular expression. *)
Definition isWordChar (c : ascii) : bool :=
  isDigit c
  || ((65 <=? code c) && (code c <=? 90))
  || ((97 <=? code c) && (code c <=? 122))
  || (code c =? 95).

(** The class [\s], which is also what [trim] removes. *)
Definition isSpace (c : ascii) : bool :=
  ((9 <=? code c) && (code c <=? 13)) || (code c =? 32) || (code c =? 160).

(** [.] of a regular expression: anything but a line terminator. *)
Definition isLineTerminator (c : ascii) : bool :=
  (code c =? 10) || (code c =? 13).

Fixpoint all (p : ascii -> bool) (s : string) : bool :=
  match s with
  | EmptyString => true
  | String c s' => p c && all p s'
  end.

Fixpoint any (p : ascii -> bool) (s : string) : bool :=
  match s with
  | EmptyString => false
  | String c s' => p c || any p s'
  end.

(** The longest prefix of [s] whose characters satisfy [p], and the rest. *)
Fixpoint span (p : ascii -> bool) (s : string) : string * string :=
  match s with
  | EmptyString => (EmptyString, EmptyString)
  | String c s' =>
      if p c then let '(a, b) := span p s' in (String c a, b)
      else (EmptyString, s)
  end.

(** [s.split(sep)] for a one-character separator. *)
Fixpoint split (sep : ascii) (s : string) : list string :=
  match s with
  | EmptyString => [EmptyString]
  | String c s' =>
      if Ascii.eqb c sep then EmptyString :: split sep s'
      else match split sep s' with
           | [] => [String c EmptyString]
           | w :: ws => String c w :: ws
           end
  end.

(** The double quote and the backslash. *)
Definition dquoteChar : ascii := ascii_of_nat 34.
Definition backslashChar : ascii := ascii_of_nat 92.
Definition dquote : string := String dquoteChar EmptyString.
Definition backslash : string := String backslashChar EmptyString.

(** The replacement of every double quote by a backslash and a double
    quote. *)
Fixpoint escapeQuotes (s : string) : string :=
  match s with
  | EmptyString => EmptyString
  | String c s' =>
      if Ascii.eqb c dquoteChar
      then String backslashChar (String dquoteChar (escapeQuotes s'))
      else String c (escapeQuotes s')
  end.

Definition hexDigit (n : nat) : ascii :=
  if n <? 10 then ascii_of_nat (48 + n) else ascii_of_nat (87 + n).

(** The quoting of a string by [JSON.stringify]. *)
Fixpoint quoteBody (s : string) : string :=
  match s with
  | EmptyString => EmptyString
  | String c s' =>
      let n := code c in
      (if n =? 34 then backslash ++ dquote
       else if n =? 92 then backslash ++ backslash
       else if n =? 8 then backslash ++ "b"
       else if n =? 12 then backslash ++ "f"
       else if n =? 10 then backslash ++ "n"
       else if n =? 13 then backslash ++ "r"
       else if n =? 9 then backslash ++ "t"
       else if n <? 32
            then backslash ++ "u00" ++ String (hexDigit (n / 16))
                                  (String (hexDigit (n mod 16)) EmptyString)
            else String c EmptyString)
      ++ quoteBody s'
  end.

Definition quote (s : string) : string := dquote ++ quoteBody s ++ dquote.

(** An array index in the sense of the language: the canonical decimal
    text of an integer below 2^32 - 1.  Such property names are
    enumerated first, in increasing order. *)
Definition arrayIndex (s : string) : option N :=
  match NilEmpty.uint_of_string s with
  | Some d =>
      let n := N.of_uint d in
      if String.eqb (NilEmpty.string_of_uint (N.to_uint n)) s
         && (n <? 4294967295)%N
      then Some n else None
  | None => None
  end.

Definition isArrayIndex (s : string) : bool :=
  match arrayIndex s with Some _ => true | None => false end.

(** Array.prototype.sort with a comparison that is consistent: a stable
    insertion sort; [le a b] says that the comparison of [a] with [b] is
    not positive. *)
Section Sort.
Context {A : Type} (le : A -> A -> bool).

Fixpoint insert (x : A) (l : list A) : list A :=
  match l with
  | [] => [x]
  | y :: l' => if le x y then x :: l else y :: insert x l'
  end.

Fixpoint sort (l : list A) : list A :=
  match l with
  | [] => []
  | x :: l' => insert x (sort l')
  end.
End Sort.

End JS.

(** ** Maps in insertion order *)

Module OMap.
Section Defs.
Context {V : Type}.

Fixpoint get (m : list (string * V)) (k : string) : option V :=
  match m with
  | [] => None
  | (k', v) :: m' => if String.eqb k' k then Some v else get m' k
  end.

Definition has (m : list (string * V)) (k : string) : bool :=
  match get m k with Some _ => true | None => false end.

(** [m.set(k, v)]: an existing key keeps its place. *)
Fixpoint set (m : list (string * V)) (k : string) (v : V) : list (string * V) :=
  match m with
  | [] => [(k, v)]
  | (k', v') :: m' =>
      if String.eqb k' k then (k, v) :: m' else (k', v') :: set m' k v
  end.

Definition keys (m : list (string * V)) : list string := map fst m.
End Defs.
End OMap.

(** ** The input tree *)

#[warnings="-register-all"]
Inductive JSONValue : Type :=
| JNull
| JBool (b : bool)
| JNumber (n : Z)
| JString (s : string)
| JArray (items : list JSONValue)
| JObject (fields : list (string * JSONValue)).

Definition showBool (b : bool) : string := if b then "true" else "false".

(** [JSON.stringify(v)]. *)
Fixpoint stringify (v : JSONValue) : string :=
  match v with
  | JNull => "null"
  | JBool b => showBool b
  | JNumber n => JS.showZ n
  | JString s => JS.quote s
  | JArray items => "[" ++ JS.join "," (map stringify items) ++ "]"
  | JObject fields =>
      "{" ++ JS.join ","
               (map (fun p => let '(k, x) := p in JS.quote k ++ ":" ++ stringify x)
                    fields)
          ++ "}"
  end.

(** [String(v)]: an array is the join of its elements, [null] elements
    giving the empty text; an object is the fixed text of
    Object.prototype.toString. *)
Fixpoint toStringJS (v : JSONValue) : string :=
  match v with
  | JNull => "null"
  | JBool b => showBool b
  | JNumber n => JS.showZ n
  | JString s => s
  | JArray items =>
      JS.join "," (map (fun x => match x with
                                 | JNull => EmptyString
                                 | _ => toStringJS x
                                 end) items)
  | JObject _ => "[object Object]"
  end.

(** [v && typeof v === "object"]. *)
Definition isObjectLike (v : JSONValue) : bool :=
  match v with
  | JArray _ | JObject _ => true
  | _ => false
  end.

(** [typeof v === "object"]. *)
Definition typeofObject (v : JSONValue) : bool :=
  match v with
  | JNull | JArray _ | JObject _ => true
  | _ => false
  end.

Definition isArray (v : JSONValue) : bool :=
  match v with JArray _ => true | _ => false end.

(** [a ?? b] where [None] is [undefined]. *)
Definition coalesce (a : option JSONValue) (b : JSONValue) : JSONValue :=
  match a with
  | None | Some JNull => b
  | Some v => v
  end.

(** Whether a new key of index [i] is enumerated before an own key of index
    [j] ([None]: not an array index). *)
Definition indexBefore (i j : option N) : bool :=
  match i, j with
  | Some n, Some m => (n <? m)%N
  | Some _, None => true
  | None, _ => false
  end.

(** [o[k] = v] on an object: an own key keeps its place, a new array index
    goes among the indices in increasing order, any other new key goes
    last. *)
Fixpoint objSet (o : list (string * JSONValue)) (k : string) (v : JSONValue)
  : list (string * JSONValue) :=
  match o with
  | [] => [(k, v)]
  | (k', v') :: o' =>
      if String.eqb k' k then (k, v) :: o'
      else if indexBefore (JS.arrayIndex k) (JS.arrayIndex k')
                && negb (OMap.has o' k)
           then (k, v) :: o
           else (k', v') :: objSet o' k v
  end.

(** [v[k]]: [undefined] is [None]; reading a property of [null] throws.
    Own properties only: for a name that [Object.prototype] defines the
    code finds the inherited member instead of [undefined]. *)
Definition getProp (v : JSONValue) (k : string) : Result (option JSONValue) :=
  match v with
  | JNull => TypeError
  | JBool _ | JNumber _ => Ok None
  | JString s =>
      match JS.arrayIndex k with
      | Some i =>
          if (i <? N.of_nat (String.length s))%N
          then Ok (option_map (fun c => JString (String c EmptyString))
                              (String.get (N.to_nat i) s))
          else Ok None
      | None =>
          if String.eqb k "length"
          then Ok (Some (JNumber (Z.of_nat (String.length s))))
          else Ok None
      end
  | JArray items =>
      match JS.arrayIndex k with
      | Some i =>
          if (i <? N.of_nat (List.length items))%N
          then Ok (nth_error items (N.to_nat i))
          else Ok None
      | None =>
          if String.eqb k "length"
          then Ok (Some (JNumber (Z.of_nat (List.length items))))
          else Ok None
      end
  | JObject fields => Ok (OMap.get fields k)
  end.

(** [k in v]: throws unless [v] is an object.  Own properties only: the
    code answers true as well for a name that [Object.prototype] defines. *)
Definition hasProp (v : JSONValue) (k : string) : Result bool :=
  match v with
  | JArray items =>
      Ok (match JS.arrayIndex k with
          | Some i => (i <? N.of_nat (List.length items))%N
          | None => String.eqb k "length"
          end)
  | JObject fields => Ok (OMap.has fields k)
  | _ => TypeError
  end.

(** ** Configuration and engine state *)

Record SCOLTConfig : Type := mkConfig {
  cfgDefaultValues : list (string * JSONValue);
  cfgTableStructure : list (string * string)
}.

Record TableData : Type := mkTable {
  columns : list string;
  rows : list (list string);
  originalData : list JSONValue
}.

(** The fields of the class.  [objectToIndexMap] maps a table name to the
    address in [mapStore] of that table's dedup map. *)
Record State : Type := mkState {
  tableRegistry : list (string * TableData);
  arrayReferenceCache : list (string * string);
  tableIndexCounters : list (string * nat);
  rootLevelKeys : list string;
  objectToIndexMap : list (string * nat);
  mapStore : list (list (string * nat));
  defaultValues : list (string * JSONValue);
  tableStructure : list (string * string)
}.

Definition withRegistry (st : State) (r : list (string * TableData)) : State :=
  mkState r st.(arrayReferenceCache) st.(tableIndexCounters) st.(rootLevelKeys)
          st.(objectToIndexMap) st.(mapStore) st.(defaultValues)
          st.(tableStructure).

Definition withCache (st : State) (c : list (string * string)) : State :=
  mkState st.(tableRegistry) c st.(tableIndexCounters) st.(rootLevelKeys)
          st.(objectToIndexMap) st.(mapStore) st.(defaultValues)
          st.(tableStructure).

Definition withCounters (st : State) (c : list (string * nat)) : State :=
  mkState st.(tableRegistry) st.(arrayReferenceCache) c st.(rootLevelKeys)
          st.(objectToIndexMap) st.(mapStore) st.(defaultValues)
          st.(tableStructure).

Definition withIndexMap (st : State) (m : list (string * nat)) : State :=
  mkState st.(tableRegistry) st.(arrayReferenceCache) st.(tableIndexCounters)
          st.(rootLevelKeys) m st.(mapStore) st.(defaultValues)
          st.(tableStructure).

Definition withStore (st : State) (s : list (list (string * nat))) : State :=
  mkState st.(tableRegistry) st.(arrayReferenceCache) st.(tableIndexCounters)
          st.(rootLevelKeys) st.(objectToIndexMap) s st.(defaultValues)
          st.(tableStructure).

(** The map object at an address; every address handed out by [allocMap]
    is below the length of the store. *)
Definition deref (st : State) (addr : nat) : list (string * nat) :=
  nth addr st.(mapStore) [].

(** [new Map()]: the address of a fresh, empty map. *)
Definition allocMap (st : State) (m : list (string * nat)) : State * nat :=
  (withStore st (st.(mapStore) ++ [m])%list, List.length st.(mapStore)).

Fixpoint updateNth {A} (l : list A) (n : nat) (f : A -> A) : list A :=
  match l, n with
  | [], _ => []
  | x :: l', 0 => f x :: l'
  | x :: l', S n' => x :: updateNth l' n' f
  end.

(** [map.set(k, v)] on the map object at [addr]. *)
Definition storeSet (st : State) (addr : nat) (k : string) (v : nat) : State :=
  withStore st (updateNth st.(mapStore) addr (fun m => OMap.set m k v)).

Definition initialize (config : SCOLTConfig) : State :=
  mkState [] [] [] [] [] [] config.(cfgDefaultValues) config.(cfgTableStructure).

Definition mem (x : string) (l : list string) : bool :=
  existsb (String.eqb x) l.

(** [set.add(x)] on a Set in insertion order. *)
Definition setAdd (l : list string) (x : string) : list string :=
  if mem x l then l else (l ++ [x])%list.

(** [set.delete(x)]. *)
Definition setDelete (l : list string) (x : string) : list string :=
  filter (fun y => negb (String.eqb x y)) l.

(** ** The encoder *)

Section Encoder.

(** [a.localeCompare(b)] is the collation of the host; its sign is all
    that the code uses. *)
Variable localeCompare : string -> string -> Z.

(** *** Canonicalizer *)

(** The defaults are looked up, and the columns stored, as own properties:
    this is the code for column names that [Object.prototype] does not
    define. *)
Definition applyDefaultsToRow (st : State) (sourceObject : JSONValue)
           (columnNames : list string) : Result (list (string * JSONValue)) :=
  foldM (fun normalizedRow columnName =>
           present <- hasProp sourceObject columnName ;;
           if (present : bool) then
             own <- getProp sourceObject columnName ;;
             Ok (objSet normalizedRow columnName
                   (coalesce own
                      (coalesce (OMap.get st.(defaultValues) columnName) JNull)))
           else
             Ok (objSet normalizedRow columnName
                   (coalesce (OMap.get st.(defaultValues) columnName) JNull)))
        [] columnNames.

Definition generateCanonicalKey (st : State)
           (sourceObject : list (string * JSONValue))
           (columnNames : list string) : string :=
  stringify
    (JObject
       (fold_left
          (fun canonicalRepresentation columnName =>
             let value :=
               coalesce (OMap.get sourceObject columnName)
                 (coalesce (OMap.get st.(defaultValues) columnName) JNull) in
             objSet canonicalRepresentation columnName
               (if isObjectLike value then JString (stringify value)
                else value))
          columnNames [])).

(** *** Names, columns and primitive text *)

(** The renames are looked up as own properties: this is the code for a
    context that [Object.prototype] does not define. *)
Definition resolveTableName (st : State) (context : string) : string :=
  match OMap.get st.(tableStructure) context with
  | Some customMapping =>
      if String.eqb customMapping EmptyString then "@" ++ context
      else "@" ++ customMapping
  | None => "@" ++ context
  end.

Definition priorityColumns : list string := ["id"; "name"; "type"; "key"].

(** [l.indexOf(x)], -1 when absent. *)
Fixpoint indexOf (l : list string) (x : string) : Z :=
  match l with
  | [] => (-1)%Z
  | y :: l' =>
      if String.eqb y x then 0%Z
      else let i := indexOf l' x in
           if (i =? -1)%Z then (-1)%Z else (i + 1)%Z
  end.

(** The comparison function given to [sort]. *)
Definition compareColumns (a b : string) : Z :=
  let indexA := indexOf priorityColumns a in
  let indexB := indexOf priorityColumns b in
  if negb (indexA =? -1)%Z && negb (indexB =? -1)%Z then (indexA - indexB)%Z
  else if negb (indexA =? -1)%Z then (-1)%Z
  else if negb (indexB =? -1)%Z then 1%Z
  else localeCompare a b.

Definition sortColumnNames (names : list string) : list string :=
  JS.sort (fun a b => (compareColumns a b <=? 0)%Z) names.

Definition extractColumnNames (array : list JSONValue) : list string :=
  sortColumnNames
    (fold_left
       (fun columnSet item =>
          match item with
          | JObject fields => fold_left setAdd (OMap.keys fields) columnSet
          | _ => columnSet
          end)
       array []).

(** [newColumns.every((column, index) => column === oldColumns[index])]. *)
Fixpoint everyEqualAt (oldColumns newColumns : list string) (index : nat) : bool :=
  match newColumns with
  | [] => true
  | column :: rest =>
      match nth_error oldColumns index with
      | Some old => String.eqb column old
      | None => false
      end && everyEqualAt oldColumns rest (S index)
  end.

Definition hasColumnsChanged (oldColumns newColumns : list string) : bool :=
  negb (List.length oldColumns =? List.length newColumns)
  || negb (everyEqualAt oldColumns newColumns 0).

Definition serializePrimitive (value : JSONValue) : string :=
  match value with
  | JNull => "null"
  | JBool _ | JNumber _ => toStringJS value
  | JString s =>
      if JS.all JS.isSpace s then JS.dquote ++ JS.dquote
      else if JS.any (fun c => Ascii.eqb c ","%char || JS.isSpace c
                               || Ascii.eqb c JS.dquoteChar) s
           then JS.dquote ++ JS.escapeQuotes s ++ JS.dquote
           else s
  | _ => toStringJS value
  end.

(** *** Reference resolver *)

Definition resolveReference (st : State) (value : JSONValue) (context : string)
  : Result string :=
  if negb (isObjectLike value) then Ok (serializePrimitive value)
  else
    let cacheKey := stringify value in
    match OMap.get st.(arrayReferenceCache) cacheKey with
    | Some reference => Ok reference
    | None =>
        let tableName := resolveTableName st context in
        match OMap.get st.(tableRegistry) tableName with
        | None => Ok "null"
        | Some table =>
            let lastRow :=
              tableName ++ "["
                ++ JS.showZ (Z.of_nat (List.length table.(rows)) - 1) ++ "]" in
            if negb (isArray value) then
              let columns := table.(columns) in
              normalizedRow <- applyDefaultsToRow st value columns ;;
              let canonicalKey := generateCanonicalKey st normalizedRow columns in
              match OMap.get st.(objectToIndexMap) tableName with
              | Some canonicalKeyMap =>
                  match OMap.get (deref st canonicalKeyMap) canonicalKey with
                  | Some index =>
                      Ok (tableName ++ "[" ++ JS.showNat index ++ "]")
                  | None => Ok lastRow
                  end
              | None => Ok lastRow
              end
            else Ok lastRow
        end
    end.

(** The cells of one row: the callback given to [columns.map] by both
    [addRowToTable] and [rebuildTableWithNewColumns]. *)
Definition renderCells (st : State) (normalizedRow : list (string * JSONValue))
           (rowColumns : list string) : Result (list string) :=
  mapM (fun columnName =>
          match OMap.get normalizedRow columnName with
          | Some value =>
              if typeofObject value then resolveReference st value columnName
              else Ok (serializePrimitive value)
          | None => Ok (serializePrimitive JNull)
          end)
       rowColumns.

(** *** Table registry and schema merger *)

Definition createNewTable (st : State) (tableName : string)
           (newColumns : list string) : State :=
  let st1 := withRegistry st
               (OMap.set st.(tableRegistry) tableName
                  (mkTable newColumns [] [])) in
  let st2 := withCounters st1 (OMap.set st1.(tableIndexCounters) tableName 0) in
  let '(st3, addr) := allocMap st2 [] in
  withIndexMap st3 (OMap.set st3.(objectToIndexMap) tableName addr).

Definition addRowToTable (st : State) (tableName : string)
           (originalItem : JSONValue)
           (normalizedRow : list (string * JSONValue))
           (rowColumns : list string) (canonicalKey : string)
  : Result (State * nat) :=
  row <- renderCells st normalizedRow rowColumns ;;
  match OMap.get st.(tableRegistry) tableName,
        OMap.get st.(objectToIndexMap) tableName with
  | Some table, Some canonicalKeyMap =>
      let rowIndex := List.length table.(rows) in
      let table' := mkTable table.(columns) (table.(rows) ++ [row])%list
                            (table.(originalData) ++ [originalItem])%list in
      let st1 := withRegistry st (OMap.set st.(tableRegistry) tableName table') in
      let st2 := storeSet st1 canonicalKeyMap canonicalKey rowIndex in
      Ok (withCounters st2
            (OMap.set st2.(tableIndexCounters) tableName (rowIndex + 1)),
          rowIndex)
  | _, _ => TypeError
  end.

(** The body of [originalData.map((item, index) => ...)] in the rebuild:
    rows and the new dedup map are accumulated left to right. *)
Fixpoint rebuildRows (st : State) (newColumns : list string)
         (items : list JSONValue) (index : nat)
         (newCanonicalKeyMap : list (string * nat))
  : Result (list (list string) * list (string * nat)) :=
  match items with
  | [] => Ok ([], newCanonicalKeyMap)
  | item :: rest =>
      normalizedRow <- applyDefaultsToRow st item newColumns ;;
      let canonicalKey := generateCanonicalKey st normalizedRow newColumns in
      let newMap := OMap.set newCanonicalKeyMap canonicalKey index in
      row <- renderCells st normalizedRow newColumns ;;
      r <- rebuildRows st newColumns rest (S index) newMap ;;
      Ok (row :: fst r, snd r)
  end.

Definition rebuildTableWithNewColumns (st : State) (tableName : string)
           (newColumns : list string) : Result State :=
  match OMap.get st.(tableRegistry) tableName with
  | None => TypeError
  | Some table =>
      let st1 := withRegistry st
                   (OMap.set st.(tableRegistry) tableName
                      (mkTable newColumns table.(rows) table.(originalData))) in
      r <- rebuildRows st1 newColumns table.(originalData) 0 [] ;;
      let st2 := withRegistry st1
                   (OMap.set st1.(tableRegistry) tableName
                      (mkTable newColumns (fst r) table.(originalData))) in
      let '(st3, addr) := allocMap st2 (snd r) in
      Ok (withIndexMap st3 (OMap.set st3.(objectToIndexMap) tableName addr))
  end.

Definition mergeTableColumns (st : State) (tableName : string)
           (newColumns : list string) : Result State :=
  match OMap.get st.(tableRegistry) tableName with
  | None => TypeError
  | Some table =>
      let mergedColumns :=
        (table.(columns)
           ++ filter (fun column => negb (mem column table.(columns)))
                newColumns)%list in
      let sortedColumns := sortColumnNames mergedColumns in
      if hasColumnsChanged table.(columns) sortedColumns
      then rebuildTableWithNewColumns st tableName sortedColumns
      else Ok st
  end.

(** *** Traversal *)

(** The conditional with which [processArrayValue] and [processObjectValue]
    alike register the columns they extracted: a table not yet in the
    registry is created with them, a registered one merges them. *)
Definition registerColumns (st : State) (tableName : string)
           (extractedColumns : list string) : Result State :=
  if negb (OMap.has st.(tableRegistry) tableName)
  then Ok (createNewTable st tableName extractedColumns)
  else mergeTableColumns st tableName extractedColumns.

(** The text of one element of an array of primitives or arrays. *)
Definition serializeElement (item : JSONValue) : string :=
  match item with
  | JArray inner => "[" ++ JS.join "," (map serializePrimitive inner) ++ "]"
  | _ => serializePrimitive item
  end.

(** The loop over the columns of one record: every object-valued field is
    processed under the name of its column. *)
Definition processNested (processValue : State -> JSONValue -> string -> Result State)
           (st : State) (item : JSONValue) (columnNames : list string)
  : Result State :=
  foldM (fun st columnName =>
           nestedValue <- getProp item columnName ;;
           match nestedValue with
           | Some nested =>
               if isObjectLike nested then processValue st nested columnName
               else Ok st
           | None => Ok st
           end)
        st columnNames.

Definition processArrayValue
           (processValue : State -> JSONValue -> string -> Result State)
           (st : State) (array : list JSONValue) (context : string)
           (cacheKey : string) : Result State :=
  match array with
  | [] => Ok (withCache st (OMap.set st.(arrayReferenceCache) cacheKey "[]"))
  | firstElement :: _ =>
      if negb (typeofObject firstElement)
         || match firstElement with JNull => true | _ => false end
         || isArray firstElement
      then
        let serializedArray := JS.join "," (map serializeElement array) in
        Ok (withCache st
              (OMap.set st.(arrayReferenceCache) cacheKey
                 ("[" ++ serializedArray ++ "]")))
      else
        let tableName := resolveTableName st context in
        let extractedColumns := extractColumnNames array in
        if List.length extractedColumns =? 0 then
          let primitiveArray := JS.join "," (map serializePrimitive array) in
          Ok (withCache st
                (OMap.set st.(arrayReferenceCache) cacheKey
                   ("[" ++ primitiveArray ++ "]")))
        else
          st1 <- registerColumns st tableName extractedColumns ;;
          match OMap.get st1.(tableRegistry) tableName,
                OMap.get st1.(objectToIndexMap) tableName with
          | Some table, Some canonicalKeyMap =>
              let columns := table.(columns) in
              r <- foldM
                     (fun (acc : State * list nat) item =>
                        let '(st, rowIndices) := acc in
                        st' <- processNested processValue st item columns ;;
                        normalizedRow <- applyDefaultsToRow st' item columns ;;
                        let canonicalKey :=
                          generateCanonicalKey st' normalizedRow columns in
                        match OMap.get (deref st' canonicalKeyMap) canonicalKey with
                        | Some rowIndex => Ok (st', (rowIndices ++ [rowIndex])%list)
                        | None =>
                            a <- addRowToTable st' tableName item normalizedRow
                                   columns canonicalKey ;;
                            Ok (fst a, (rowIndices ++ [snd a])%list)
                        end)
                     (st1, []) array ;;
              let '(st2, rowIndices) := r in
              Ok (withCache st2
                    (OMap.set st2.(arrayReferenceCache) cacheKey
                       (tableName ++ "["
                          ++ JS.join "," (map JS.showNat rowIndices) ++ "]")))
          | _, _ => TypeError
          end
  end.

Definition processObjectValue
           (processValue : State -> JSONValue -> string -> Result State)
           (st : State) (object : list (string * JSONValue)) (context : string)
  : Result State :=
  let tableName := resolveTableName st context in
  let extractedColumns := sortColumnNames (OMap.keys object) in
  st1 <- registerColumns st tableName extractedColumns ;;
  match OMap.get st1.(tableRegistry) tableName,
        OMap.get st1.(objectToIndexMap) tableName with
  | Some table, Some canonicalKeyMap =>
      let columns := table.(columns) in
      st2 <- processNested processValue st1 (JObject object) columns ;;
      normalizedRow <- applyDefaultsToRow st2 (JObject object) columns ;;
      let canonicalKey := generateCanonicalKey st2 normalizedRow columns in
      if negb (OMap.has (deref st2 canonicalKeyMap) canonicalKey) then
        a <- addRowToTable st2 tableName (JObject object) normalizedRow
               columns canonicalKey ;;
        Ok (fst a)
      else Ok st2
  | _, _ => TypeError
  end.

(** The recursion follows the nesting of the input; [fuel] bounds its
    depth. *)
Fixpoint processValue (fuel : nat) (st : State) (value : JSONValue)
         (context : string) : Result State :=
  if negb (isObjectLike value) then Ok st
  else
    let cacheKey := stringify value in
    if OMap.has st.(arrayReferenceCache) cacheKey then Ok st
    else
      match fuel with
      | 0 => OutOfFuel
      | S fuel' =>
          match value with
          | JArray array =>
              processArrayValue (processValue fuel') st array context cacheKey
          | JObject object =>
              processObjectValue (processValue fuel') st object context
          | _ => Ok st
          end
      end.

(** *** Reference compaction *)

(** The match of the reference pattern, an at sign and a run of word
    characters, then a bracketed run of digits and commas up to the end of
    the text: the table name and the text of the index list.  No character
    of one part can start the next, so the greedy match never backtracks. *)
Definition matchReference (reference : string) : option (string * string) :=
  match reference with
  | String "@"%char rest =>
      let '(name, afterName) := JS.span JS.isWordChar rest in
      match name, afterName with
      | String _ _, String "["%char afterBracket =>
          let '(indexText, tail) :=
            JS.span (fun c => JS.isDigit c || Ascii.eqb c ","%char)
                    afterBracket in
          match indexText with
          | String _ _ =>
              if String.eqb tail "]" then Some ("@" ++ name, indexText)
              else None
          | EmptyString => None
          end
      | _, _ => None
      end
  | _ => None
  end.

(** [indices.every((value, index) => value === index)], from [index] on. *)
Fixpoint everyIsIndex (indices : list nat) (index : nat) : bool :=
  match indices with
  | [] => true
  | value :: rest => (value =? index) && everyIsIndex rest (S index)
  end.

Definition isSequentialFullTableReference (indices : list nat)
           (totalRows : nat) : bool :=
  (List.length indices =? totalRows) && everyIsIndex indices 0.

(** [match[2].split(",").map(Number).sort((a, b) => a - b)]. *)
Definition sortedIndices (indexText : string) : list nat :=
  JS.sort Nat.leb (map JS.toNumber (JS.split ","%char indexText)).

Definition compactArrayReferences (st : State) : State :=
  fold_left
    (fun st entry =>
       let '(cacheKey, reference) := (entry : string * string) in
       match matchReference reference with
       | None => st
       | Some (tableName, indexText) =>
           let indices := sortedIndices indexText in
           match OMap.get st.(tableRegistry) tableName with
           | None => st
           | Some table =>
               if isSequentialFullTableReference indices
                    (List.length table.(rows))
               then withCache st
                      (OMap.set st.(arrayReferenceCache) cacheKey tableName)
               else st
           end
       end)
    st.(arrayReferenceCache) st.

(** The callback given to [row.map] by [optimizeTableReferences]. *)
Definition optimizeCell (st : State) (cell : string) : string :=
  if negb (JS.startsWith cell "@") then cell
  else
    match matchReference cell with
    | None => cell
    | Some (tableName, indexText) =>
        let indices := sortedIndices indexText in
        match OMap.get st.(tableRegistry) tableName with
        | None => cell
        | Some referencedTable =>
            if isSequentialFullTableReference indices
                 (List.length referencedTable.(rows))
            then tableName
            else cell
        end
    end.

Definition optimizeTableReferences (st : State) : State :=
  fold_left
    (fun st entry =>
       let '(tableName, table) := (entry : string * TableData) in
       withRegistry st
         (OMap.set st.(tableRegistry) tableName
            (mkTable table.(columns)
                     (map (map (optimizeCell st)) table.(rows))
                     table.(originalData))))
    st.(tableRegistry) st.

(** *** Dependency orderer *)

(** The first piece of the cell split at brackets and braces. *)
Definition referencedTableOf (cell : string) : string :=
  fst (JS.span (fun c => negb (Ascii.eqb c "["%char || Ascii.eqb c "{"%char))
               cell).

Definition tableDependencies (tableName : string) (table : TableData)
  : list string :=
  fold_left
    (fun dependencies row =>
       fold_left
         (fun dependencies cell =>
            if JS.startsWith cell "@" then
              let referencedTable := referencedTableOf cell in
              if negb (String.eqb referencedTable tableName)
              then setAdd dependencies referencedTable
              else dependencies
            else dependencies)
         row dependencies)
    table.(rows) [].

Definition buildDependencyGraph (st : State) : list (string * list string) :=
  fold_left
    (fun dependencyGraph entry =>
       let '(tableName, table) := (entry : string * TableData) in
       OMap.set dependencyGraph tableName (tableDependencies tableName table))
    st.(tableRegistry) [].

(** The three variables that [visitNode] closes over. *)
Record Visit : Type := mkVisit {
  sortedOrder : list string;
  visitedNodes : list string;
  visitingNodes : list string
}.

Fixpoint visitNode (fuel : nat) (dependencyGraph : list (string * list string))
         (v : Visit) (node : string) : Result Visit :=
  if mem node v.(visitedNodes) then Ok v
  else if mem node v.(visitingNodes) then Ok v
  else
    match fuel with
    | 0 => OutOfFuel
    | S fuel' =>
        let v1 := mkVisit v.(sortedOrder) v.(visitedNodes)
                          (setAdd v.(visitingNodes) node) in
        let dependencies :=
          match OMap.get dependencyGraph node with
          | Some d => d
          | None => []
          end in
        v2 <- foldM (fun v dependency =>
                       if OMap.has dependencyGraph dependency
                       then visitNode fuel' dependencyGraph v dependency
                       else Ok v)
                    v1 dependencies ;;
        Ok (mkVisit (v2.(sortedOrder) ++ [node])%list
                    (setAdd v2.(visitedNodes) node)
                    (setDelete v2.(visitingNodes) node))
    end.

(** The order of a graph; the recursion of [visitNode] is never deeper
    than the number of nodes. *)
Definition topologicalOrder (dependencyGraph : list (string * list string))
  : Result (list string) :=
  v <- foldM (visitNode (List.length dependencyGraph) dependencyGraph)
             (mkVisit [] [] []) (OMap.keys dependencyGraph) ;;
  Ok v.(sortedOrder).

Definition computeTopologicalOrder (st : State) : Result (list string) :=
  topologicalOrder (buildDependencyGraph st).

(** *** Output formatter *)

Definition newline : string := String (ascii_of_nat 10) EmptyString.

Definition formatRows (header : string) (table : TableData) : string :=
  match table.(rows) with
  | [row] => header ++ " " ++ JS.join "," row
  | _ =>
      let formattedRows :=
        JS.join newline (map (fun row => "  " ++ JS.join "," row) table.(rows)) in
      header ++ newline ++ formattedRows
  end.

Definition formatTableOutput (tableName : string) (table : TableData) : string :=
  formatRows (tableName ++ "{" ++ JS.join "," table.(columns) ++ "}:") table.

Definition formatRootTable (key : string) (table : TableData) : string :=
  formatRows ("#" ++ key ++ "{" ++ JS.join "," table.(columns) ++ "}:") table.

(** The first group of the pattern of [buildRootOutput]: an at sign and
    a run of word characters, then either the end of the text or an
    opening bracket followed by anything but a line terminator. *)
Definition matchRootReference (reference : string) : option string :=
  match reference with
  | String "@"%char rest =>
      let '(name, afterName) := JS.span JS.isWordChar rest in
      match name, afterName with
      | String _ _, EmptyString => Some ("@" ++ name)
      | String _ _, String "["%char tail =>
          if JS.any JS.isLineTerminator tail then None else Some ("@" ++ name)
      | _, _ => None
      end
  | _ => None
  end.

Definition buildRootOutput (st : State) (rootData : JSONValue)
  : Result (list string) :=
  match rootData with
  | JArray _ =>
      reference <- resolveReference st rootData "root" ;;
      Ok [reference]
  | JObject entries =>
      mapM (fun entry =>
              let '(key, value) := (entry : string * JSONValue) in
              reference <- resolveReference st value key ;;
              let plain := "#" ++ key ++ ": " ++ reference in
              match matchRootReference reference with
              | Some tableName =>
                  if String.eqb tableName (resolveTableName st key) then
                    match OMap.get st.(tableRegistry) tableName with
                    | Some table => Ok (formatRootTable key table)
                    | None => Ok plain
                    end
                  else Ok plain
              | None => Ok plain
              end)
           entries
  | _ => Ok [toStringJS rootData]
  end.

(** [tableName.slice(1)]. *)
Definition slice1 (s : string) : string :=
  match s with
  | EmptyString => EmptyString
  | String _ s' => s'
  end.

Definition buildTabularOutput (st : State) (rootData : JSONValue)
  : Result string :=
  dependencyOrder <- computeTopologicalOrder st ;;
  let tableLines :=
    flat_map
      (fun tableName =>
         if String.eqb tableName "@root" then []
         else if mem (slice1 tableName) st.(rootLevelKeys) then []
         else match OMap.get st.(tableRegistry) tableName with
              | Some table =>
                  match table.(rows) with
                  | [] => []
                  | _ => [formatTableOutput tableName table]
                  end
              | None => []
              end)
      dependencyOrder in
  rootLines <- buildRootOutput st rootData ;;
  let tablesSection := JS.join (newline ++ newline) tableLines in
  let rootSection := JS.join newline rootLines in
  Ok (if String.eqb tablesSection EmptyString then rootSection
      else if String.eqb rootSection EmptyString then tablesSection
           else tablesSection ++ newline ++ newline ++ rootSection).

(** The nesting depth of a value: enough fuel for its traversal. *)
Fixpoint depth (v : JSONValue) : nat :=
  match v with
  | JArray items => S (fold_right (fun x d => Nat.max (depth x) d) 0 items)
  | JObject fields =>
      S (fold_right (fun p d => Nat.max (let '(_, x) := p in depth x) d)
                    0 fields)
  | _ => 0
  end.

(** [parse(data, config)] on a tree already parsed from its text. *)
Definition parse (data : JSONValue) (config : SCOLTConfig) : Result string :=
  let st0 := initialize config in
  let st1 :=
    match data with
    | JObject fields =>
        mkState st0.(tableRegistry) st0.(arrayReferenceCache)
                st0.(tableIndexCounters)
                (fold_left setAdd (OMap.keys fields) st0.(rootLevelKeys))
                st0.(objectToIndexMap) st0.(mapStore) st0.(defaultValues)
                st0.(tableStructure)
    | _ => st0
    end in
  st2 <- processValue (depth data) st1 data "root" ;;
  let st3 := compactArrayReferences st2 in
  let st4 := optimizeTableReferences st3 in
  buildTabularOutput st4 data.

End Encoder.

Unset Implicit Arguments.

(** * Vocabulary of the statements *)

(** The names that [Object.prototype] defines: a lookup of one of them on a
    plain object finds the inherited member when the object has no such
    property of its own. *)
Definition inheritedNames : list string :=
  ["constructor"; "__defineGetter__"; "__defineSetter__"; "hasOwnProperty";
   "__lookupGetter__"; "__lookupSetter__"; "isPrototypeOf";
   "propertyIsEnumerable"; "toString"; "valueOf"; "__proto__";
   "toLocaleString"].

(** A name that a plain object can only have as a property of its own. *)
Definition ownName (name : string) : bool := negb (mem name inheritedNames).

(** Every key of every record of the value is such a name. *)
Fixpoint ownKeys (v : JSONValue) : bool :=
  match v with
  | JArray items => forallb ownKeys items
  | JObject fields =>
      forallb (fun p => let '(k, x) := (p : string * JSONValue) in
                        ownName k && ownKeys x)
              fields
  | _ => true
  end.

(** The value that normalization gives to a column of a record. *)
Definition normalizedValue (st : State) (fields : list (string * JSONValue))
           (c : string) : JSONValue :=
  coalesce (OMap.get fields c) (coalesce (OMap.get st.(defaultValues) c) JNull).

(** The state in which the root array [[1,2]] has been traversed: its
    bracket literal is memoized and no table exists. *)
Definition stateAfterPrimitiveArray : Result State :=
  processValue (fun _ _ => 0%Z) 1 (initialize (mkConfig [] []))
               (JArray [JNumber 1; JNumber 2]) "root".

(** That state itself: the memo holds the literal of [[1,2]] and nothing
    else is registered. *)
Definition memoizedListState : State :=
  withCache (initialize (mkConfig [] []))
            [(stringify (JArray [JNumber 1; JNumber 2]), "[1,2]")].

(** A collation for concrete runs: the order of code units, which is the
    collation of the host on words of lower-case letters. *)
Definition codeUnitCompare (a b : string) : Z :=
  match String.compare a b with
  | Lt => (-1)%Z
  | Eq => 0%Z
  | Gt => 1%Z
  end.

(** An element that contributes no column: anything but a record with at
    least one field. *)
Definition contributesNoColumn (item : JSONValue) : Prop :=
  match item with
  | JObject (_ :: _) => False
  | _ => True
  end.

(** The texts that a list nested below an element of a bracket literal is
    flattened to, left to right: one for each scalar at any depth, a string
    as it is, and the empty text for Null and for an empty list; a record
    gives the fixed text of Object.prototype.toString. *)
Fixpoint leafTexts (v : JSONValue) : list string :=
  match v with
  | JNull => [EmptyString]
  | JArray items =>
      match items with
      | [] => [EmptyString]
      | _ => flat_map leafTexts items
      end
  | _ => [toStringJS v]
  end.

(** The text of one element of a bracket literal, as C5 amended states it:
    primitive serialization for an element that is no list; for a list,
    brackets around its elements, each given by primitive serialization
    unless it is a list itself, which is flattened to its leaf texts. *)
Definition elementText (item : JSONValue) : string :=
  match item with
  | JArray inner =>
      "[" ++ JS.join ","
               (map (fun x => match x with
                              | JArray _ => JS.join "," (leafTexts x)
                              | _ => serializePrimitive x
                              end) inner)
          ++ "]"
  | _ => serializePrimitive item
  end.

(** The rendering that C5 states: every scalar, at any depth, is given by
    primitive serialization, and the lists nested below an element are
    flattened. *)
Fixpoint flatRendering (v : JSONValue) : list string :=
  match v with
  | JArray items => flat_map flatRendering items
  | _ => [serializePrimitive v]
  end.

Definition statedElementText (item : JSONValue) : string :=
  match item with
  | JArray inner => "[" ++ JS.join "," (flat_map flatRendering inner) ++ "]"
  | _ => serializePrimitive item
  end.

Definition isRecord (v : JSONValue) : bool :=
  match v with JObject _ => true | _ => false end.

Definition isPriority (c : string) : bool := mem c priorityColumns.

(** The order that the comparison function induces. *)
Definition columnLe (cmp : string -> string -> Z) (a b : string) : bool :=
  (compareColumns cmp a b <=? 0)%Z.

Definition rankLe (a b : string) : bool :=
  (indexOf priorityColumns a <=? indexOf priorityColumns b)%Z.

Definition localeLe (cmp : string -> string -> Z) (a b : string) : bool :=
  (cmp a b <=? 0)%Z.

Definition rankLt (a b : string) : Prop :=
  (indexOf priorityColumns a < indexOf priorityColumns b)%Z.

(** The rendering of one stored source record against a column list, and
    its canonical key: what the rebuild computes for every record. *)
Definition renderRecord (st : State) (cols : list string) (item : JSONValue)
  : Result (list string) :=
  normalizedRow <- applyDefaultsToRow st item cols ;;
  renderCells st normalizedRow cols.

Definition canonicalKeyOf (st : State) (cols : list string) (item : JSONValue)
  : Result string :=
  normalizedRow <- applyDefaultsToRow st item cols ;;
  Ok (generateCanonicalKey st normalizedRow cols).

(** A dedup map filled with the given keys, numbered from [index] on. *)
Definition indexKeys (keys : list string) (index : nat)
           (m : list (string * nat)) : list (string * nat) :=
  fold_left (fun m ki => OMap.set m (fst ki) (snd ki))
            (combine keys (seq index (List.length keys))) m.

(** The columns that a merge computes. *)
Definition mergedColumns (cmp : string -> string -> Z) (table : TableData)
           (newColumns : list string) : list string :=
  sortColumnNames cmp
    (table.(columns)
       ++ filter (fun column => negb (mem column table.(columns))) newColumns)%list.

(** What the rendering callbacks of the rebuild see: the table already
    carries its new column list, and still its old rows and dedup map. *)
Definition duringRebuild (st : State) (tableName : string) (table : TableData)
           (newColumns : list string) : State :=
  withRegistry st
    (OMap.set st.(tableRegistry) tableName
       (mkTable newColumns table.(rows) table.(originalData))).

(** The state reached by a traversal, for concrete runs. *)
Definition stateOf (r : Result State) : State :=
  match r with
  | Ok st => st
  | _ => initialize (mkConfig [] [])
  end.

(** The table [@t] holding the two records [{id: 1}] and [{id: 2}]. *)
Definition twoRowState : State :=
  stateOf (processValue codeUnitCompare 2 (initialize (mkConfig [] []))
             (JArray [JObject [("id", JNumber 1)]; JObject [("id", JNumber 2)]])
             "t").

Definition twoRowTable : TableData :=
  mkTable ["id"] [["1"]; ["2"]]
          [JObject [("id", JNumber 1)]; JObject [("id", JNumber 2)]].

(** [Rows(table, indices)] as the traversal writes it. *)
Definition referenceText (tableName : string) (indices : list nat) : string :=
  tableName ++ "[" ++ JS.join "," (map JS.showNat indices) ++ "]".

(** A text that does not begin with a character of the class. *)
Definition stopsAt (p : ascii -> bool) (s : string) : Prop :=
  match s with
  | EmptyString => True
  | String c _ => p c = false
  end.

Definition notComma (c : ascii) : bool := negb (Ascii.eqb c ","%char).

Definition isIndexChar (c : ascii) : bool :=
  JS.isDigit c || Ascii.eqb c ","%char.

(** The table name that replaces a reference, when one does: the test
    shared by [compactArrayReferences] and [optimizeCell]. *)
Definition compaction (registry : list (string * TableData)) (reference : string)
  : option string :=
  match matchReference reference with
  | None => None
  | Some (tableName, indexText) =>
      match OMap.get registry tableName with
      | None => None
      | Some table =>
          if isSequentialFullTableReference (sortedIndices indexText)
               (List.length table.(rows))
          then Some tableName
          else None
      end
  end.

Definition compacted (registry : list (string * TableData)) (reference : string)
  : string :=
  match compaction registry reference with
  | Some tableName => tableName
  | None => reference
  end.

(** The number of rows of a table of a registry. *)
Definition rowCount (registry : list (string * TableData)) (tableName : string)
  : option nat :=
  option_map (fun table => List.length table.(rows)) (OMap.get registry tableName).

(** The input [{x: [{t: [{id: 1}]}, {t: [{id: 2}, {id: 1}]}]}]: its second
    list meets row 1 of the table [@t] before row 0. *)
Definition reorderedInput : JSONValue :=
  JObject
    [("x",
      JArray
        [JObject [("t", JArray [JObject [("id", JNumber 1)]])];
         JObject [("t", JArray [JObject [("id", JNumber 2)];
                                JObject [("id", JNumber 1)]])]])].

Definition reorderedState : State :=
  stateOf (processValue codeUnitCompare (depth reorderedInput)
             (initialize (mkConfig [] [])) reorderedInput "root").

Definition reorderedTable : TableData :=
  mkTable ["id"] [["1"]; ["2"]]
          [JObject [("id", JNumber 1)]; JObject [("id", JNumber 2)]].

(** A record all of whose fields are scalars or Null. *)
Definition flatRecord (fields : list (string * JSONValue)) : Prop :=
  Forall (fun p => isObjectLike (snd p) = false) fields.

(** The state after [addRowToTable], given the cells of the new row. *)
Definition rowAdded (st : State) (tableName : string) (table : TableData)
           (canonicalKeyMap : nat) (originalItem : JSONValue)
           (cells : list string) (canonicalKey : string) : State :=
  mkState
    (OMap.set st.(tableRegistry) tableName
       (mkTable table.(columns) (table.(rows) ++ [cells])%list
                (table.(originalData) ++ [originalItem])%list))
    st.(arrayReferenceCache)
    (OMap.set st.(tableIndexCounters) tableName (List.length table.(rows) + 1))
    st.(rootLevelKeys) st.(objectToIndexMap)
    (updateNth st.(mapStore) canonicalKeyMap
       (fun m => OMap.set m canonicalKey (List.length table.(rows))))
    st.(defaultValues) st.(tableStructure).

(** The input of the scenario: three copies of one record under [users]. *)
Definition threeAdmins : JSONValue :=
  JObject
    [("users",
      JArray [JObject [("id", JNumber 1); ("role", JString "admin")];
              JObject [("id", JNumber 1); ("role", JString "admin")];
              JObject [("id", JNumber 1); ("role", JString "admin")]])].

(** The nodes of the graph that are not in progress: what bounds the depth
    of the recursion. *)
Definition idleNodes (dependencyGraph : list (string * list string))
           (visiting : list string) : nat :=
  List.length (filter (fun k => negb (mem k visiting)) (OMap.keys dependencyGraph)).

(** An edge of the graph without its self-edges: [n] depends on another
    table [d] of the graph. *)
Definition dependsOn (g : list (string * list string)) (n d : string) : Prop :=
  exists deps, OMap.get g n = Some deps /\ In d deps
               /\ OMap.has g d = true /\ d <> n.

Definition reaches (g : list (string * list string)) : string -> string -> Prop :=
  clos_trans string (dependsOn g).

Definition acyclicGraph (g : list (string * list string)) : Prop :=
  forall n, ~ reaches g n n.

(** [d] occurs before [n] in the order. *)
Definition before (d n : string) (order : list string) : Prop :=
  exists l1 l2 l3, order = (l1 ++ d :: l2 ++ n :: l3)%list.

(** What holds of the three variables between two visits. *)
Record VisitInv (g : list (string * list string)) (v : Visit) : Prop := {
  inv_same : forall x, In x v.(sortedOrder) <-> In x v.(visitedNodes);
  inv_nodup : NoDup v.(sortedOrder);
  inv_nodes : forall x, In x v.(visitedNodes) -> In x (OMap.keys g);
  inv_before : forall n d, In n v.(visitedNodes) -> dependsOn g n d ->
                           before d n v.(sortedOrder)
}.

Arguments inv_same {g v} _ _.
Arguments inv_nodup {g v} _.
Arguments inv_nodes {g v} _ _ _.
Arguments inv_before {g v} _ _ _ _ _.

(** The outcome of one visit in a graph without cycles. *)
Record VisitPost (g : list (string * list string)) (v : Visit) (node : string)
       (v' : Visit) : Prop := {
  post_inv : VisitInv g v';
  post_visiting : v'.(visitingNodes) = v.(visitingNodes);
  post_visited : In node v'.(visitedNodes);
  post_keeps : forall x, In x v.(visitedNodes) -> In x v'.(visitedNodes);
  post_order : exists extra, v'.(sortedOrder) = (v.(sortedOrder) ++ extra)%list;
  post_new : forall x, In x v'.(visitedNodes) ->
                       In x v.(visitedNodes) \/ ~ In x v.(visitingNodes)
}.

Arguments post_inv {g v node v'} _.
Arguments post_visiting {g v node v'} _.
Arguments post_visited {g v node v'} _.
Arguments post_keeps {g v node v'} _ _ _.
Arguments post_order {g v node v'} _.
Arguments post_new {g v node v'} _ _ _.

(** A graph for concrete runs: [@content] refers to [@styles] and to
    itself, [@items] to [@styles], and [@root] to a table that is not in
    the graph. *)
Definition exampleGraph : list (string * list string) :=
  [("@content", ["@styles"; "@content"; "@items"]);
   ("@styles", []);
   ("@items", ["@styles"]);
   ("@root", ["@missing"])].

Definition exampleRank (n : string) : nat :=
  if String.eqb n "@content" then 2
  else if String.eqb n "@items" then 1
  else 0.

(** The name of the [i]-th property of an array. *)
Definition indexName (i : nat) : string :=
  NilEmpty.string_of_uint (N.to_uint (N.of_nat i)).

(** The contexts under which the values nested in [v] are processed: the
    keys of its object-valued fields, at every depth. *)
Fixpoint contextsIn (v : JSONValue) : list string :=
  match v with
  | JObject fields =>
      flat_map (fun p => let '(k, x) := (p : string * JSONValue) in
                         if isObjectLike x then k :: contextsIn x else [])
               fields
  | JArray items =>
      flat_map
        (fun item =>
           match item with
           | JObject fields =>
               flat_map (fun p => let '(k, x) := (p : string * JSONValue) in
                                  if isObjectLike x then k :: contextsIn x else [])
                        fields
           | JArray inner =>
               (fix indexed (l : list JSONValue) (i : nat) : list string :=
                  match l with
                  | [] => []
                  | x :: l' =>
                      ((if isObjectLike x then indexName i :: contextsIn x else [])
                         ++ indexed l' (S i))%list
                  end) inner 0
           | _ => []
           end)
        items
  | _ => []
  end.

(** The contexts of the properties of one element of an array. *)
Fixpoint indexedContexts (l : list JSONValue) (i : nat) : list string :=
  match l with
  | [] => []
  | x :: l' =>
      ((if isObjectLike x then indexName i :: contextsIn x else [])
       ++ indexedContexts l' (S i))%list
  end.

Definition propContexts (item : JSONValue) : list string :=
  match item with
  | JObject _ => contextsIn item
  | JArray inner => indexedContexts inner 0
  | _ => []
  end.

Definition tableNameOf (ts : list (string * string)) (context : string) : string :=
  match OMap.get ts context with
  | Some customMapping =>
      if String.eqb customMapping EmptyString then "@" ++ context
      else "@" ++ customMapping
  | None => "@" ++ context
  end.

(** Every dedup map of the registry has its own address in the store. *)
Definition wellFormed (st : State) : Prop :=
  (forall T a, OMap.get st.(objectToIndexMap) T = Some a ->
               a < List.length st.(mapStore))
  /\ (forall T1 T2 a, OMap.get st.(objectToIndexMap) T1 = Some a ->
                      OMap.get st.(objectToIndexMap) T2 = Some a -> T1 = T2).

(** What a step that works on other tables leaves as it is. *)
Record Frame (T : string) (st st' : State) : Prop := {
  frame_registry : OMap.get st'.(tableRegistry) T = OMap.get st.(tableRegistry) T;
  frame_map : OMap.get st'.(objectToIndexMap) T = OMap.get st.(objectToIndexMap) T;
  frame_store : forall a, OMap.get st.(objectToIndexMap) T = Some a ->
                          deref st' a = deref st a;
  frame_defaults : st'.(defaultValues) = st.(defaultValues);
  frame_structure : st'.(tableStructure) = st.(tableStructure)
}.

Arguments frame_registry {T st st'} _.
Arguments frame_map {T st st'} _.
Arguments frame_store {T st st'} _ _ _.
Arguments frame_defaults {T st st'} _.
Arguments frame_structure {T st st'} _.

(** The recursive calls on the properties of [item] leave the table [T] as
    it is. *)
Definition recFrames (T : string) (ts : list (string * string))
           (rec : State -> JSONValue -> string -> Result State)
           (item : JSONValue) : Prop :=
  forall st0 st0' k x,
    getProp item k = Ok (Some x) -> isObjectLike x = true ->
    wellFormed st0 -> st0.(tableStructure) = ts ->
    rec st0 x k = Ok st0' ->
    wellFormed st0' /\ Frame T st0 st0'.

(** A record with fields of every kind: a number, a list of scalars and a
    record of its own. *)
Definition nestedRecord : list (string * JSONValue) :=
  [("id", JNumber 1);
   ("tags", JArray [JString "a"; JString "b"]);
   ("boss", JObject [("id", JNumber 2)])].

(** Three copies of [nestedRecord] traversed under the context [users]. *)
Definition nestedCopiesRun : Result State :=
  processArrayValue codeUnitCompare (processValue codeUnitCompare 3)
    (initialize (mkConfig [] [])) (repeat (JObject nestedRecord) 3) "users" "k".

(** [nestedRecord] registered under [manager], and then under [lead]. *)
Definition nestedManagerRun : Result State :=
  processObjectValue codeUnitCompare (processValue codeUnitCompare 2)
    (initialize (mkConfig [] [])) nestedRecord "manager".

Definition nestedLeadRun : Result State :=
  processObjectValue codeUnitCompare (processValue codeUnitCompare 2)
    (stateOf nestedManagerRun) nestedRecord "lead".

(** A table whose rows and stored source records run in parallel, every
    source record being a record or a list. *)
Definition tableInvariant (table : TableData) : Prop :=
  List.length table.(rows) = List.length table.(originalData)
  /\ Forall (fun item => isObjectLike item = true) table.(originalData).

(** What holds of every state that the traversal reaches. *)
Record StateInvariant (st : State) : Prop := {
  inv_store : wellFormed st;
  inv_registry : NoDup (OMap.keys st.(tableRegistry));
  inv_cache : NoDup (OMap.keys st.(arrayReferenceCache));
  inv_tables : forall T table, OMap.get st.(tableRegistry) T = Some table ->
                               tableInvariant table
}.

Arguments inv_store {st} _.
Arguments inv_registry {st} _.
Arguments inv_cache {st} _.
Arguments inv_tables {st} _ _ _ _.

(** A run that never stops for want of fuel. *)
Definition fuelSuffices {A : Type} (r : Result A) : Prop := r <> OutOfFuel.

(** A character that makes [serializePrimitive] quote a string: a comma,
    white space or a double quote. *)
Definition needsQuotes (c : ascii) : bool :=
  Ascii.eqb c ","%char || JS.isSpace c || Ascii.eqb c JS.dquoteChar.

(** A scalar that is not a string. *)
Definition isBareScalar (v : JSONValue) : bool :=
  match v with
  | JNull | JBool _ | JNumber _ => true
  | _ => false
  end.

(** What the canonical key records of a column: the value of the record,
    else the default, else Null, a list or a record being replaced by its
    JSON text. *)
Definition canonicalValue (st : State) (fields : list (string * JSONValue))
           (c : string) : JSONValue :=
  let value := normalizedValue st fields c in
  if isObjectLike value then JString (stringify value) else value.

(** A memo entry after [compactArrayReferences], and a table after
    [optimizeTableReferences]: every reference is replaced by its compacted
    form with respect to the registry. *)
Definition compactedEntry (registry : list (string * TableData))
           (entry : string * string) : string * string :=
  (fst entry, compacted registry (snd entry)).

Definition optimizedTable (registry : list (string * TableData))
           (entry : string * TableData) : string * TableData :=
  (fst entry,
   mkTable (snd entry).(columns)
           (map (map (compacted registry)) (snd entry).(rows))
           (snd entry).(originalData)).

(** What holds of the three variables of the orderer in any graph, with or
    without cycles: the order lists the visited nodes, each once, and all
    of them are nodes of the graph. *)
Definition VisitCover (g : list (string * list string)) (v : Visit) : Prop :=
  (forall x, In x v.(sortedOrder) <-> In x v.(visitedNodes))
  /\ NoDup v.(sortedOrder)
  /\ (forall x, In x v.(visitedNodes) -> In x (OMap.keys g)).

(** An input whose tables refer to one another in a cycle: the record
    under [a] holds a record under [b], which holds a record under [a]. *)
Definition cyclicInput : JSONValue :=
  JObject
    [("a", JObject
             [("b", JObject
                      [("a", JObject [("b", JNumber 1)])])])].

Definition cyclicState : State :=
  stateOf (processValue codeUnitCompare (depth cyclicInput)
             (initialize (mkConfig [] [])) cyclicInput "root").

(** What holds of every state that the traversal reaches, beyond
    [StateInvariant]: every registered table has a dedup map, its counter
    is the number of its rows, and every index of its dedup map is the
    index of one of its rows. *)
Record EngineInvariant (st : State) : Prop := {
  eng_state : StateInvariant st;
  eng_map : forall T, OMap.has st.(tableRegistry) T = true ->
                      OMap.has st.(objectToIndexMap) T = true;
  eng_counter : forall T table,
      OMap.get st.(tableRegistry) T = Some table ->
      OMap.get st.(tableIndexCounters) T = Some (List.length table.(rows));
  eng_range : forall T a table key i,
      OMap.get st.(objectToIndexMap) T = Some a ->
      OMap.get st.(tableRegistry) T = Some table ->
      OMap.get (deref st a) key = Some i ->
      i < List.length table.(rows)
}.

Arguments eng_state {st} _.
Arguments eng_map {st} _ _ _.
Arguments eng_counter {st} _ _ _ _.
Arguments eng_range {st} _ _ _ _ _ _ _ _ _.

(** An input on which the traversal never throws: every list that begins
    with a record holds records and lists only, at every depth. *)
Fixpoint wellShaped (v : JSONValue) : bool :=
  match v with
  | JArray items =>
      match items with
      | JObject _ :: _ => forallb isObjectLike items
      | _ => true
      end
      && forallb wellShaped items
  | JObject fields =>
      forallb (fun p => let '(_, x) := (p : string * JSONValue) in wellShaped x)
              fields
  | _ => true
  end.

(** The state of the engine while the table [T] is registered. *)
Definition EngineWith (T : string) (st : State) : Prop :=
  EngineInvariant st /\ OMap.has st.(tableRegistry) T = true.

(** The state in which [parse] starts the traversal: nothing is registered
    or memoized; [keys] are the keys of a root record. *)
Definition startState (config : SCOLTConfig) (keys : list string) : State :=
  mkState [] [] [] keys [] [] config.(cfgDefaultValues)
          config.(cfgTableStructure).

(** The table [T] has grown from [table]: it has at least the same columns,
    and the same stored source records followed by new ones. *)
Definition grownFrom (T : string) (table : TableData) (st : State) : Prop :=
  exists table',
    OMap.get st.(tableRegistry) T = Some table'
    /\ incl table.(columns) table'.(columns)
    /\ exists added, table'.(originalData) = (table.(originalData) ++ added)%list.

(** The map object at address [a] is, or once was, the dedup map of the
    table [T]: no other table has it, and each of its indices is the index
    of a row of [T].  A traversal step may hold such an address after a
    rebuild has given the table a new map. *)
Definition ownedMap (a : nat) (T : string) (st : State) : Prop :=
  a < List.length st.(mapStore)
  /\ (forall T', OMap.get st.(objectToIndexMap) T' = Some a -> T' = T)
  /\ (forall key i,
        OMap.get (deref st a) key = Some i ->
        exists table, OMap.get st.(tableRegistry) T = Some table
                      /\ i < List.length table.(rows)).

Definition EngineOwning (a : nat) (T : string) (st : State) : Prop :=
  EngineInvariant st /\ ownedMap a T st.

(** The table [T] has at least [n] rows. *)
Definition hasRows (T : string) (n : nat) (st : State) : Prop :=
  exists table, OMap.get st.(tableRegistry) T = Some table
                /\ n <= List.length table.(rows).

(** Every registered table has a row, except perhaps the tables of
    [pending], whose first record is still being traversed. *)
Definition nonEmptyExcept (pending : list string) (st : State) : Prop :=
  forall T, OMap.has st.(tableRegistry) T = true -> ~ In T pending ->
            hasRows T 1 st.

(** The normalized row of a record and its canonical key, under a column
    list. *)
Definition normalizedRowOf (st : State) (cols : list string)
           (fields : list (string * JSONValue)) : list (string * JSONValue) :=
  fold_left (fun row c => objSet row c (normalizedValue st fields c)) cols [].

Definition recordKey (st : State) (cols : list string)
           (fields : list (string * JSONValue)) : string :=
  generateCanonicalKey st (normalizedRowOf st cols fields) cols.

(** The cells of a record when every value is a scalar or Null. *)
Definition flatCells (st : State) (cols : list string)
           (fields : list (string * JSONValue)) : list string :=
  map (fun c => serializePrimitive (normalizedValue st fields c)) cols.

(** The records with distinct canonical keys, in the order of their first
    occurrence. *)
Definition addDistinct {A : Type} (key : A -> string) (distinct : list A) (x : A)
  : list A :=
  if mem (key x) (map key distinct) then distinct else (distinct ++ [x])%list.

Definition distinctBy {A : Type} (key : A -> string) (l : list A) : list A :=
  fold_left (addDistinct key) l [].

(** Defaults that are scalars or Null. *)
Definition scalarDefaults (st : State) : Prop :=
  Forall (fun p => isObjectLike (snd p) = false) st.(defaultValues).

(** The state in which the table [T], registered afresh with the columns
    [cols], holds one row for each record of [distinct]. *)
Definition flatState (st : State) (T : string) (cols : list string)
           (distinct : list (list (string * JSONValue))) : State :=
  mkState
    (OMap.set st.(tableRegistry) T
       (mkTable cols (map (flatCells st cols) distinct) (map JObject distinct)))
    st.(arrayReferenceCache)
    (OMap.set st.(tableIndexCounters) T (List.length distinct))
    st.(rootLevelKeys)
    (OMap.set st.(objectToIndexMap) T (List.length st.(mapStore)))
    (st.(mapStore)
       ++ [combine (map (recordKey st cols) distinct)
                   (seq 0 (List.length distinct))])%list
    st.(defaultValues) st.(tableStructure).

(** * Verification *)

(** ** Insertion-ordered maps and objects *)

Lemma OMap_get_set_eq {V} (m : list (string * V)) k v :
  OMap.get (OMap.set m k v) k = Some v.
Proof.
  induction m as [|[k' v'] m IH]; simpl.
  - now rewrite String.eqb_refl.
  - destruct (String.eqb k' k) eqn:E; simpl.
    + now rewrite String.eqb_refl.
    + now rewrite E.
Qed.

Lemma OMap_get_set_neq {V} (m : list (string * V)) k k' v :
  k <> k' -> OMap.get (OMap.set m k v) k' = OMap.get m k'.
Proof.
  intros Hne. induction m as [|[k0 v0] m IH]; simpl.
  - destruct (String.eqb k k') eqn:E; [apply String.eqb_eq in E; contradiction | reflexivity].
  - destruct (String.eqb k0 k) eqn:E; simpl.
    + apply String.eqb_eq in E. subst k0.
      destruct (String.eqb k k') eqn:E'; [apply String.eqb_eq in E'; contradiction | reflexivity].
    + destruct (String.eqb k0 k'); [reflexivity | exact IH].
Qed.

Lemma OMap_get_set {V} (m : list (string * V)) k k' v :
  OMap.get (OMap.set m k v) k' = if String.eqb k k' then Some v else OMap.get m k'.
Proof.
  destruct (String.eqb k k') eqn:E.
  - apply String.eqb_eq in E. subst. apply OMap_get_set_eq.
  - apply String.eqb_neq in E. now apply OMap_get_set_neq.
Qed.

Lemma OMap_set_set {V} (m : list (string * V)) k v v' :
  OMap.set (OMap.set m k v) k v' = OMap.set m k v'.
Proof.
  induction m as [|[k0 v0] m IH]; simpl.
  - now rewrite String.eqb_refl.
  - destruct (String.eqb k0 k) eqn:E; simpl.
    + now rewrite String.eqb_refl.
    + now rewrite E, IH.
Qed.

Lemma OMap_has_set {V} (m : list (string * V)) k k' v :
  OMap.has (OMap.set m k v) k' = String.eqb k k' || OMap.has m k'.
Proof.
  unfold OMap.has. rewrite OMap_get_set. now destruct (String.eqb k k').
Qed.

Lemma OMap_keys_set {V} (m : list (string * V)) k v :
  OMap.keys (OMap.set m k v)
  = if OMap.has m k then OMap.keys m else (OMap.keys m ++ [k])%list.
Proof.
  unfold OMap.has, OMap.keys.
  induction m as [|[k' v'] m IH]; simpl; [reflexivity|].
  destruct (String.eqb k' k) eqn:E; simpl.
  - apply String.eqb_eq in E. now subst.
  - rewrite IH. now destruct (OMap.get m k).
Qed.

Lemma OMap_get_In {V} (m : list (string * V)) k v :
  OMap.get m k = Some v -> In (k, v) m.
Proof.
  induction m as [|[k' v'] m IH]; simpl; [discriminate|].
  destruct (String.eqb k' k) eqn:E.
  - apply String.eqb_eq in E. intros [= ->]. left. now subst.
  - intros H. right. now apply IH.
Qed.

Lemma OMap_In_get {V} (m : list (string * V)) k v :
  NoDup (OMap.keys m) -> In (k, v) m -> OMap.get m k = Some v.
Proof.
  unfold OMap.keys.
  induction m as [|[k' v'] m IH]; simpl; [contradiction|].
  intros Hnd [Heq | Hin].
  - injection Heq as -> ->. now rewrite String.eqb_refl.
  - inversion Hnd as [|? ? Hnotin Hnd']; subst.
    destruct (String.eqb k' k) eqn:E.
    + apply String.eqb_eq in E. subst k'. exfalso. apply Hnotin.
      change k with (fst (k, v)). now apply in_map.
    + now apply IH.
Qed.

Lemma OMap_get_None_keys {V} (m : list (string * V)) k :
  OMap.get m k = None <-> ~ In k (OMap.keys m).
Proof.
  unfold OMap.keys.
  induction m as [|[k' v'] m IH]; simpl; [tauto|].
  destruct (String.eqb k' k) eqn:E.
  - apply String.eqb_eq in E. subst. split; [discriminate | tauto].
  - apply String.eqb_neq in E. rewrite IH. tauto.
Qed.

Lemma objSet_get_eq o k v : OMap.get (objSet o k v) k = Some v.
Proof.
  induction o as [|[k' v'] o IH]; simpl.
  - now rewrite String.eqb_refl.
  - destruct (String.eqb k' k) eqn:E; simpl.
    + now rewrite String.eqb_refl.
    + destruct (indexBefore _ _ && _); simpl.
      * now rewrite String.eqb_refl.
      * now rewrite E.
Qed.

Lemma objSet_get_neq o k k' v :
  k <> k' -> OMap.get (objSet o k v) k' = OMap.get o k'.
Proof.
  intros Hne. apply String.eqb_neq in Hne.
  induction o as [|[k0 v0] o IH]; simpl.
  - now rewrite Hne.
  - destruct (String.eqb k0 k) eqn:E; simpl.
    + apply String.eqb_eq in E. subst k0. now rewrite Hne.
    + destruct (indexBefore _ _ && _); simpl.
      * now rewrite Hne.
      * destruct (String.eqb k0 k'); [reflexivity | exact IH].
Qed.

Lemma mem_In x l : mem x l = true <-> In x l.
Proof.
  unfold mem. rewrite existsb_exists. split.
  - intros [y [Hin Heq]]. apply String.eqb_eq in Heq. now subst.
  - intros Hin. exists x. split; [assumption | apply String.eqb_refl].
Qed.

Lemma mem_false_In x l : mem x l = false <-> ~ In x l.
Proof.
  rewrite <- mem_In. destruct (mem x l); split; intros; congruence.
Qed.

(** A row built by assigning [f c] to every column [c] in turn. *)
Lemma fold_objSet_get (f : string -> JSONValue) cols : forall row c,
  OMap.get (fold_left (fun row c => objSet row c (f c)) cols row) c
  = if mem c cols then Some (f c) else OMap.get row c.
Proof.
  induction cols as [|c0 cols IH]; intros row c; simpl; [reflexivity|].
  rewrite IH. destruct (mem c cols) eqn:Hm.
  - now rewrite orb_true_r.
  - rewrite orb_false_r. destruct (String.eqb c c0) eqn:E.
    + apply String.eqb_eq in E. subst. apply objSet_get_eq.
    + apply String.eqb_neq in E. apply objSet_get_neq. congruence.
Qed.

Lemma foldM_Ok {A S} (f : S -> A -> Result S) (g : S -> A -> S) l :
  (forall s x, In x l -> f s x = Ok (g s x)) ->
  forall s, foldM f s l = Ok (fold_left g l s).
Proof.
  induction l as [|x l IH]; intros Hf s; simpl; [reflexivity|].
  rewrite Hf by now left. simpl. apply IH. intros. apply Hf. now right.
Qed.

Lemma mapM_Ok {A B} (f : A -> Result B) (g : A -> B) l :
  (forall x, In x l -> f x = Ok (g x)) -> mapM f l = Ok (map g l).
Proof.
  induction l as [|x l IH]; intros Hf; simpl; [reflexivity|].
  rewrite Hf by now left. simpl. rewrite IH; [reflexivity|].
  intros. apply Hf. now right.
Qed.

(** ** Canonicalizer *)

Lemma applyDefaultsToRow_record st fields cols :
  applyDefaultsToRow st (JObject fields) cols
  = Ok (fold_left (fun row c => objSet row c (normalizedValue st fields c)) cols []).
Proof.
  unfold applyDefaultsToRow. apply foldM_Ok. intros row c _.
  unfold normalizedValue. simpl. unfold OMap.has.
  destruct (OMap.get fields c) eqn:E; reflexivity.
Qed.

(** C1, as amended.  For a column list without names inherited from
    Object.prototype, normalization of a record succeeds, and for every
    column of the list: a key present with a value other than Null keeps
    that value; a key that is absent, or present with Null, takes the
    configured default when there is one other than Null, and Null
    otherwise.  So Null does not win over the default. *)
Theorem C1_normalize_defaults :
  forall (st : State) (fields : list (string * JSONValue)) (cols : list string),
  (forall c, In c cols -> ownName c = true) ->
  exists row,
    applyDefaultsToRow st (JObject fields) cols = Ok row /\
    forall c, In c cols ->
      (forall v, OMap.get fields c = Some v -> v <> JNull ->
                 OMap.get row c = Some v) /\
      (OMap.get fields c = None \/ OMap.get fields c = Some JNull ->
       (forall d, OMap.get st.(defaultValues) c = Some d -> d <> JNull ->
                  OMap.get row c = Some d) /\
       (OMap.get st.(defaultValues) c = None
        \/ OMap.get st.(defaultValues) c = Some JNull ->
        OMap.get row c = Some JNull)).
Proof.
  intros st fields cols _. eexists. split; [apply applyDefaultsToRow_record|].
  intros c Hin. apply mem_In in Hin.
  rewrite fold_objSet_get, Hin. unfold normalizedValue.
  split; [|split].
  - intros v -> Hv. destruct v; simpl; congruence.
  - intros d -> Hd. destruct H as [-> | ->]; destruct d; simpl; congruence.
  - intros Hd. destruct H as [-> | ->]; destruct Hd as [-> | ->]; reflexivity.
Qed.

Lemma C1_normalize_defaults_witness :
  exists row,
    applyDefaultsToRow
      (initialize (mkConfig [("status", JString "active")] []))
      (JObject [("id", JNumber 1); ("status", JNull)]) ["id"; "status"; "role"]
    = Ok row /\
    OMap.get row "id" = Some (JNumber 1) /\
    OMap.get row "status" = Some (JString "active") /\
    OMap.get row "role" = Some JNull.
Proof.
  destruct (C1_normalize_defaults
              (initialize (mkConfig [("status", JString "active")] []))
              [("id", JNumber 1); ("status", JNull)] ["id"; "status"; "role"])
    as [row [Hrow Hcols]].
  { intros c [<-|[<-|[<-|[]]]]; reflexivity. }
  exists row. split; [exact Hrow|].
  split; [|split].
  - apply (proj1 (Hcols "id" (or_introl eq_refl)) (JNumber 1) eq_refl).
    discriminate.
  - apply (proj1 (proj2 (Hcols "status" (or_intror (or_introl eq_refl)))
                        (or_intror eq_refl))
                 (JString "active") eq_refl).
    discriminate.
  - apply (proj2 (proj2 (Hcols "role" (or_intror (or_intror (or_introl eq_refl))))
                        (or_introl eq_refl))
                 (or_introl eq_refl)).
Defined.

(** C1, as stated, fails: with the default [status: "active"], the record
    [{status: null}] has the key, yet its normalized value is the default
    and not its own Null. *)
Lemma C1_null_wins_counterexample :
  ~ (forall (st : State) (fields : list (string * JSONValue))
            (cols : list string) (c : string) (v : JSONValue),
        In c cols -> OMap.get fields c = Some v ->
        exists row, applyDefaultsToRow st (JObject fields) cols = Ok row
                    /\ OMap.get row c = Some v).
Proof.
  intros H.
  destruct (H (initialize (mkConfig [("status", JString "active")] []))
              [("status", JNull)] ["status"] "status" JNull
              (or_introl eq_refl) eq_refl) as [row [Hrow Hget]].
  vm_compute in Hrow. injection Hrow as <-. vm_compute in Hget. discriminate.
Qed.

(** ** Reference resolver *)

(** C9, as amended.  Resolution looks a value up in the memo of array
    references before it looks for the table.  For an object-like value with
    no memoized reference whose resolved table name is not in the registry,
    the result is the text [null]; an object-like value that is memoized
    resolves to its memoized reference instead; and whenever the table is
    not in the registry, whatever the value, resolution returns a text and
    raises no error. *)
Theorem C9_unregistered_table_null :
  forall (st : State) (value : JSONValue) (context : string),
    OMap.get st.(tableRegistry) (resolveTableName st context) = None ->
    (isObjectLike value = true ->
     OMap.get st.(arrayReferenceCache) (stringify value) = None ->
     resolveReference st value context = Ok "null") /\
    (forall reference,
        isObjectLike value = true ->
        OMap.get st.(arrayReferenceCache) (stringify value) = Some reference ->
        resolveReference st value context = Ok reference) /\
    (exists text, resolveReference st value context = Ok text).
Proof.
  intros st value context Hreg. unfold resolveReference. split; [|split].
  - intros -> Hcache. simpl. now rewrite Hcache, Hreg.
  - intros reference -> Hcache. simpl. now rewrite Hcache.
  - destruct (isObjectLike value); simpl; [|eauto].
    destruct (OMap.get (arrayReferenceCache st) (stringify value)); [eauto|].
    rewrite Hreg. eauto.
Qed.

Lemma C9_unregistered_table_null_witness :
  resolveReference (initialize (mkConfig [] [])) (JObject [("id", JNumber 1)])
                   "manager" = Ok "null"
  /\ resolveReference memoizedListState (JArray [JNumber 1; JNumber 2])
                      "manager" = Ok "[1,2]"
  /\ exists text,
       resolveReference (initialize (mkConfig [] [])) (JObject [("id", JNumber 1)])
                        "manager" = Ok text.
Proof.
  destruct (C9_unregistered_table_null (initialize (mkConfig [] []))
              (JObject [("id", JNumber 1)]) "manager" eq_refl) as [H1 [_ H3]].
  destruct (C9_unregistered_table_null memoizedListState
              (JArray [JNumber 1; JNumber 2]) "manager" eq_refl) as [_ [H2 _]].
  split; [exact (H1 eq_refl eq_refl)|].
  split; [exact (H2 "[1,2]" eq_refl eq_refl) | exact H3].
Defined.

(** C9, as stated, fails: after the traversal of the root array [[1,2]] the
    table of its context is not registered, and the resolution of that
    array gives its memoized bracket literal, not [null]. *)
Lemma C9_memo_first_counterexample :
  ~ (forall (st : State) (value : JSONValue) (context : string),
        isObjectLike value = true ->
        OMap.get st.(tableRegistry) (resolveTableName st context) = None ->
        resolveReference st value context = Ok "null").
Proof.
  intros H.
  destruct stateAfterPrimitiveArray as [st| |] eqn:E; try discriminate E.
  specialize (H st (JArray [JNumber 1; JNumber 2]) "root" eq_refl).
  vm_compute in E. injection E as <-.
  specialize (H eq_refl). vm_compute in H. discriminate.
Qed.

(** ** Arrays rendered as bracket literals *)

Lemma extractColumnNames_none cmp (array : list JSONValue) :
  Forall contributesNoColumn array -> extractColumnNames cmp array = [].
Proof.
  intros H. unfold extractColumnNames.
  assert (Hfold : forall acc,
    fold_left (fun columnSet item =>
                 match item with
                 | JObject fields => fold_left setAdd (OMap.keys fields) columnSet
                 | _ => columnSet
                 end) array acc = acc).
  { induction H as [|item array Hitem _ IH]; intros acc; simpl; [reflexivity|].
    destruct item as [| | | | |[|? ?]]; simpl in *; try apply IH; contradiction. }
  now rewrite Hfold.
Qed.



(** *** Texts *)

Lemma append_nil_r (s : string) : s ++ EmptyString = s.
Proof. induction s as [|c s IH]; simpl; [reflexivity | now rewrite IH]. Qed.

Lemma append_assoc (a b c : string) : (a ++ b) ++ c = a ++ (b ++ c).
Proof. induction a as [|x a IH]; simpl; [reflexivity | now rewrite IH]. Qed.

Lemma join_cons sep x l :
  l <> [] -> JS.join sep (x :: l) = x ++ sep ++ JS.join sep l.
Proof. destruct l; [congruence | reflexivity]. Qed.

Lemma join_app sep l1 l2 :
  l1 <> [] -> l2 <> [] ->
  JS.join sep (l1 ++ l2) = JS.join sep l1 ++ sep ++ JS.join sep l2.
Proof.
  intros H1 H2. induction l1 as [|x l1 IH]; [congruence|].
  destruct l1 as [|y l1].
  - simpl app. now rewrite join_cons.
  - change ((x :: y :: l1) ++ l2)%list with (x :: ((y :: l1) ++ l2))%list.
    rewrite join_cons by discriminate. rewrite IH by discriminate.
    rewrite (join_cons sep x (y :: l1)) by discriminate.
    now rewrite !append_assoc.
Qed.

(** Joining the joins of non-empty lists is joining their concatenation. *)
Lemma join_flat_map {A} sep (f : A -> list string) l :
  Forall (fun x => f x <> []) l ->
  JS.join sep (map (fun x => JS.join sep (f x)) l) = JS.join sep (flat_map f l).
Proof.
  induction 1 as [|x l Hx Hl IH]; [reflexivity|].
  destruct l as [|y l].
  - simpl. now rewrite app_nil_r.
  - change (map (fun x => JS.join sep (f x)) (x :: y :: l))
      with (JS.join sep (f x) :: map (fun x => JS.join sep (f x)) (y :: l)).
    rewrite join_cons by discriminate. rewrite IH.
    change (flat_map f (x :: y :: l)) with (f x ++ flat_map f (y :: l))%list.
    rewrite join_app; [reflexivity | assumption |].
    inversion Hl as [|? ? Hy _]; subst. simpl.
    destruct (f y); [congruence | discriminate].
Qed.

(** *** Flattening *)

(** Induction on a value that reaches the values nested in its lists and
    records. *)
Lemma JSONValue_nested_ind (P : JSONValue -> Prop) :
  P JNull ->
  (forall b, P (JBool b)) ->
  (forall n, P (JNumber n)) ->
  (forall s, P (JString s)) ->
  (forall items, Forall P items -> P (JArray items)) ->
  (forall fields, Forall (fun p => P (snd p)) fields -> P (JObject fields)) ->
  forall v, P v.
Proof.
  intros HNull HBool HNumber HString HArray HObject.
  fix IH 1. intros [| b | n | s | items | fields].
  - exact HNull.
  - apply HBool.
  - apply HNumber.
  - apply HString.
  - apply HArray. induction items as [|x items IHitems]; constructor;
      [apply IH | exact IHitems].
  - apply HObject. induction fields as [|p fields IHfields]; constructor;
      [apply IH | exact IHfields].
Qed.

Lemma leafTexts_nonempty v : leafTexts v <> [].
Proof.
  induction v as [| | | |items IH|] using JSONValue_nested_ind;
    simpl; try discriminate.
  destruct items as [|x items]; [discriminate|].
  inversion IH as [|? ? IHx _]; subst. simpl.
  destruct (leafTexts x); [congruence | discriminate].
Qed.

(** [String(v)] on a list is the comma-separated list of its leaf texts:
    the nesting is lost at every depth, a Null leaves the empty text and a
    string is not quoted. *)
Lemma toStringJS_leafTexts items :
  toStringJS (JArray items) = JS.join "," (leafTexts (JArray items)).
Proof.
  assert (H : forall v,
             match v with JNull => EmptyString | _ => toStringJS v end
             = JS.join "," (leafTexts v)).
  { induction v as [| | | |l IH|] using JSONValue_nested_ind; try reflexivity.
    destruct l as [|x l]; [reflexivity|].
    cbn [toStringJS leafTexts].
    transitivity (JS.join "," (map (fun y => JS.join "," (leafTexts y)) (x :: l))).
    - f_equal. apply map_ext_in. intros y Hy.
      rewrite Forall_forall in IH. exact (IH y Hy).
    - apply join_flat_map. apply Forall_forall. intros y _.
      apply leafTexts_nonempty. }
  exact (H (JArray items)).
Qed.

(** The text that the code gives to an element of a bracket literal is the
    one that C5 amended states. *)
Lemma serializeElement_elementText item :
  serializeElement item = elementText item.
Proof.
  destruct item as [| | | |inner|]; try reflexivity.
  unfold serializeElement, elementText. do 3 f_equal.
  apply map_ext. intros x. destruct x as [| | | |deep|]; try reflexivity.
  exact (toStringJS_leafTexts deep).
Qed.




(** ** Sorting *)

Section SortFacts.
  Context {A : Type} (le : A -> A -> bool).

Lemma insert_perm x l : Permutation (JS.insert le x l) (x :: l).
Proof.
  induction l as [|y l IH]; simpl; [reflexivity|].
  destruct (le x y); [reflexivity|].
  rewrite IH. apply perm_swap.
Qed.

Lemma sort_perm l : Permutation (JS.sort le l) l.
Proof.
  induction l as [|x l IH]; simpl; [reflexivity|].
  rewrite insert_perm. now constructor.
Qed.

Lemma sort_In x l : In x (JS.sort le l) <-> In x l.
Proof.
  split; apply Permutation_in; [|symmetry]; apply sort_perm.
Qed.

  Hypothesis le_total : forall a b, le a b = true \/ le b a = true.
  Hypothesis le_trans : forall a b c, le a b = true -> le b c = true -> le a c = true.

Lemma insert_sorted x l :
  StronglySorted (fun a b => le a b = true) l ->
  StronglySorted (fun a b => le a b = true) (JS.insert le x l).
Proof.
  induction 1 as [|y l Hl IH Hy]; simpl.
  - constructor; constructor.
  - destruct (le x y) eqn:E.
    + constructor; [now constructor|].
      constructor; [assumption|].
      eapply Forall_impl; [|exact Hy]. intros z Hz. now apply le_trans with y.
    + constructor; [assumption|].
      assert (Hyx : le y x = true) by (destruct (le_total x y); congruence).
      apply Forall_forall. intros z Hz.
      apply (Permutation_in _ (insert_perm x l)) in Hz.
      destruct Hz as [<- | Hz]; [assumption|].
      rewrite Forall_forall in Hy. now apply Hy.
Qed.

Lemma sort_sorted l : StronglySorted (fun a b => le a b = true) (JS.sort le l).
Proof.
  induction l as [|x l IH]; simpl; [constructor | now apply insert_sorted].
Qed.

End SortFacts.

Lemma insert_ext_in {A} (le1 le2 : A -> A -> bool) x l :
  (forall y, In y l -> le1 x y = le2 x y) ->
  JS.insert le1 x l = JS.insert le2 x l.
Proof.
  induction l as [|y l IH]; intros H; simpl; [reflexivity|].
  rewrite (H y) by now left. rewrite IH; [reflexivity|].
  intros. apply H. now right.
Qed.

Lemma sort_ext_in {A} (le1 le2 : A -> A -> bool) l :
  (forall x y, In x l -> In y l -> le1 x y = le2 x y) ->
  JS.sort le1 l = JS.sort le2 l.
Proof.
  induction l as [|x l IH]; intros H; simpl; [reflexivity|].
  rewrite IH by (intros; apply H; now right).
  apply insert_ext_in. intros y Hy. apply sort_In in Hy.
  apply H; [now left | now right].
Qed.

(** When every element of one class goes before every element of the
    other, sorting sorts the two classes apart. *)
Section SortPartition.
  Context {A : Type} (le : A -> A -> bool) (p : A -> bool).
  Hypothesis le_first : forall a b, p a = true -> p b = false -> le a b = true.
  Hypothesis le_last : forall a b, p a = true -> p b = false -> le b a = false.

Lemma insert_first x P R :
  p x = true -> Forall (fun y => p y = false) R ->
  JS.insert le x (P ++ R) = (JS.insert le x P ++ R)%list.
Proof.
  intros Hx HR. induction P as [|y P IH]; simpl.
  - destruct R as [|z R]; [reflexivity|]. simpl.
    inversion HR; subst. now rewrite le_first.
  - destruct (le x y); [reflexivity|]. simpl. now rewrite IH.
Qed.

Lemma insert_last x P R :
  p x = false -> Forall (fun y => p y = true) P ->
  JS.insert le x (P ++ R) = (P ++ JS.insert le x R)%list.
Proof.
  intros Hx HP. induction HP as [|y P Hy HP IH]; simpl; [reflexivity|].
  rewrite le_last by assumption. now rewrite IH.
Qed.

Lemma sort_partition l :
  JS.sort le l
  = (JS.sort le (filter p l) ++ JS.sort le (filter (fun x => negb (p x)) l))%list.
Proof.
  induction l as [|x l IH]; simpl; [reflexivity|].
  rewrite IH. destruct (p x) eqn:Hx; simpl.
  - apply insert_first; [assumption|].
    apply Forall_forall. intros y Hy. apply sort_In in Hy.
    apply filter_In in Hy. destruct Hy as [_ Hy]. now destruct (p y).
  - apply insert_last; [assumption|].
    apply Forall_forall. intros y Hy. apply sort_In in Hy.
    apply filter_In in Hy. now destruct Hy.
Qed.

End SortPartition.

(** Two lists sorted by a strict order that have the same elements are
    equal. *)
Lemma strictly_sorted_unique {A} (lt : A -> A -> Prop) :
  (forall a, ~ lt a a) -> (forall a b c, lt a b -> lt b c -> lt a c) ->
  forall l1 l2,
    StronglySorted lt l1 -> StronglySorted lt l2 ->
    (forall x, In x l1 <-> In x l2) -> l1 = l2.
Proof.
  intros Hirr Htr. induction l1 as [|a l1 IH]; intros l2 H1 H2 Hin.
  - destruct l2 as [|b l2]; [reflexivity|].
    exfalso. apply (Hin b). now left.
  - destruct l2 as [|b l2]; [exfalso; apply (Hin a); now left|].
    inversion H1 as [|? ? Hs1 Ha]; subst.
    inversion H2 as [|? ? Hs2 Hb]; subst.
    rewrite Forall_forall in Ha, Hb.
    assert (a = b).
    { destruct (proj1 (Hin a) (or_introl eq_refl)) as [E | Hab]; [now subst|].
      destruct (proj2 (Hin b) (or_introl eq_refl)) as [E | Hba]; [assumption|].
      exfalso. apply (Hirr a). apply Htr with b; [apply Ha | apply Hb]; assumption. }
    subst b. f_equal. apply IH; try assumption.
    intros x. split; intros Hx.
    + destruct (proj1 (Hin x) (or_intror Hx)) as [E | ?]; [|assumption].
      subst x. exfalso. apply (Hirr a). now apply Ha.
    + destruct (proj2 (Hin x) (or_intror Hx)) as [E | ?]; [|assumption].
      subst x. exfalso. apply (Hirr a). now apply Hb.
Qed.

(** ** Column order *)

Lemma indexOf_range l x : (-1 <= indexOf l x)%Z.
Proof.
  induction l as [|y l IH]; simpl; [lia|].
  destruct (String.eqb y x); [lia|].
  destruct (indexOf l x =? -1)%Z; lia.
Qed.

Lemma indexOf_absent l x : indexOf l x = (-1)%Z <-> mem x l = false.
Proof.
  induction l as [|y l IH]; simpl; [tauto|].
  rewrite (String.eqb_sym x y).
  destruct (String.eqb y x); simpl; [split; discriminate|].
  rewrite <- IH. pose proof (indexOf_range l x).
  destruct (indexOf l x =? -1)%Z eqn:E; [apply Z.eqb_eq in E | apply Z.eqb_neq in E];
    split; intros; lia.
Qed.

Lemma indexOf_inj l a b :
  mem a l = true -> indexOf l a = indexOf l b -> a = b.
Proof.
  induction l as [|y l IH]; simpl; [discriminate|].
  rewrite (String.eqb_sym a y).
  pose proof (indexOf_range l a). pose proof (indexOf_range l b).
  destruct (String.eqb y a) eqn:Ea; destruct (String.eqb y b) eqn:Eb; simpl.
  - apply String.eqb_eq in Ea, Eb. congruence.
  - destruct (indexOf l b =? -1)%Z eqn:E;
      [apply Z.eqb_eq in E | apply Z.eqb_neq in E]; intros; exfalso; lia.
  - destruct (indexOf l a =? -1)%Z eqn:E;
      [apply Z.eqb_eq in E | apply Z.eqb_neq in E]; intros; exfalso; lia.
  - intros Hm.
    destruct (indexOf l a =? -1)%Z eqn:E1.
    + apply Z.eqb_eq in E1. apply indexOf_absent in E1. congruence.
    + apply Z.eqb_neq in E1.
      destruct (indexOf l b =? -1)%Z eqn:E2; intros; [exfalso; lia|].
      apply IH; [assumption | lia].
Qed.

Lemma isPriority_index c :
  isPriority c = negb (indexOf priorityColumns c =? -1)%Z.
Proof.
  unfold isPriority. destruct (indexOf priorityColumns c =? -1)%Z eqn:E.
  - apply Z.eqb_eq in E. now apply indexOf_absent in E.
  - apply Z.eqb_neq in E. destruct (mem c priorityColumns) eqn:M; [reflexivity|].
    apply indexOf_absent in M. contradiction.
Qed.

Lemma columnLe_priority cmp a b :
  isPriority a = true -> isPriority b = true -> columnLe cmp a b = rankLe a b.
Proof.
  unfold columnLe, compareColumns, rankLe. rewrite !isPriority_index.
  intros -> ->. simpl.
  destruct (_ - _ <=? 0)%Z eqn:E1; destruct (_ <=? _)%Z eqn:E2; try reflexivity;
    rewrite ?Z.leb_le, ?Z.leb_gt in *; lia.
Qed.

Lemma columnLe_other cmp a b :
  isPriority a = false -> isPriority b = false ->
  columnLe cmp a b = localeLe cmp a b.
Proof.
  unfold columnLe, compareColumns, localeLe. rewrite !isPriority_index.
  intros -> ->. reflexivity.
Qed.

Lemma columnLe_first cmp a b :
  isPriority a = true -> isPriority b = false -> columnLe cmp a b = true.
Proof.
  unfold columnLe, compareColumns. rewrite !isPriority_index.
  intros -> ->. reflexivity.
Qed.

Lemma columnLe_last cmp a b :
  isPriority a = true -> isPriority b = false -> columnLe cmp b a = false.
Proof.
  unfold columnLe, compareColumns. rewrite !isPriority_index.
  intros -> ->. reflexivity.
Qed.

Lemma sortColumnNames_partition cmp names :
  sortColumnNames cmp names
  = (JS.sort rankLe (filter isPriority names)
     ++ JS.sort (localeLe cmp) (filter (fun c => negb (isPriority c)) names))%list.
Proof.
  unfold sortColumnNames. fold (columnLe cmp).
  rewrite (sort_partition (columnLe cmp) isPriority
             (columnLe_first cmp) (columnLe_last cmp)).
  f_equal; apply sort_ext_in; intros x y Hx Hy;
    apply filter_In in Hx, Hy; destruct Hx as [_ Hx], Hy as [_ Hy].
  - now apply columnLe_priority.
  - apply columnLe_other; [now destruct (isPriority x) | now destruct (isPriority y)].
Qed.

Lemma StronglySorted_filter {A} (R : A -> A -> Prop) (p : A -> bool) l :
  StronglySorted R l -> StronglySorted R (filter p l).
Proof.
  induction 1 as [|x l Hl IH Hx]; simpl; [constructor|].
  destruct (p x); [|assumption].
  constructor; [assumption|].
  apply Forall_forall. intros y Hy. apply filter_In in Hy.
  rewrite Forall_forall in Hx. now apply Hx.
Qed.

Lemma StronglySorted_strict {A} (R R' : A -> A -> Prop) l :
  NoDup l ->
  (forall a b, In a l -> In b l -> a <> b -> R a b -> R' a b) ->
  StronglySorted R l -> StronglySorted R' l.
Proof.
  intros Hnd Himp Hs. induction Hs as [|x l Hl IH Hx]; [constructor|].
  inversion Hnd as [|? ? Hnotin Hnd']; subst.
  constructor.
  - apply IH; [assumption|]. intros a b Ha Hb. apply Himp; now right.
  - rewrite Forall_forall in *. intros y Hy.
    apply Himp; [now left | now right | | now apply Hx].
    intros ->. contradiction.
Qed.

(** The priority columns of a set of names come out in the literal order
    of the priority list. *)
Lemma sort_priority names :
  NoDup names ->
  JS.sort rankLe (filter isPriority names)
  = filter (fun p => mem p names) priorityColumns.
Proof.
  intros Hnd.
  apply (strictly_sorted_unique rankLt).
  - unfold rankLt. intros a. lia.
  - unfold rankLt. intros a b c. lia.
  - apply StronglySorted_strict with (R := fun a b => rankLe a b = true).
    + eapply Permutation_NoDup; [symmetry; apply sort_perm|].
      now apply NoDup_filter.
    + intros a b Ha Hb Hne Hle. apply sort_In in Ha. apply filter_In in Ha.
      unfold rankLe in Hle. apply Z.leb_le in Hle. unfold rankLt.
      destruct (Z.eq_dec (indexOf priorityColumns a) (indexOf priorityColumns b))
        as [E|E]; [|lia].
      exfalso. apply Hne. eapply indexOf_inj; [|exact E]. apply Ha.
    + apply sort_sorted; unfold rankLe.
      * intros a b. rewrite !Z.leb_le. lia.
      * intros a b c. rewrite !Z.leb_le. lia.
  - apply StronglySorted_filter. unfold rankLt.
    repeat (constructor; [|repeat constructor; vm_compute; reflexivity]).
    constructor.
  - intros x. rewrite sort_In, !filter_In, !mem_In. unfold isPriority.
    rewrite mem_In. tauto.
Qed.

(** ** Totality of the row operations *)

Lemma foldM_total {A S} (f : S -> A -> Result S) l :
  (forall s x, In x l -> exists s', f s x = Ok s') ->
  forall s, exists s', foldM f s l = Ok s'.
Proof.
  induction l as [|x l IH]; intros Hf s; simpl; [eauto|].
  destruct (Hf s x (or_introl eq_refl)) as [s1 ->]. simpl.
  apply IH. intros. apply Hf. now right.
Qed.

Lemma mapM_total {A B} (f : A -> Result B) l :
  (forall x, In x l -> exists y, f x = Ok y) -> exists ys, mapM f l = Ok ys.
Proof.
  induction l as [|x l IH]; intros Hf; simpl; [eauto|].
  destruct (Hf x (or_introl eq_refl)) as [y ->]. simpl.
  destruct IH as [ys ->]; [intros; apply Hf; now right|]. simpl. eauto.
Qed.

Lemma mapM_length {A B} (f : A -> Result B) l ys :
  mapM f l = Ok ys -> List.length ys = List.length l.
Proof.
  revert ys. induction l as [|x l IH]; intros ys; simpl.
  - now intros [= <-].
  - destruct (f x); simpl; try discriminate.
    destruct (mapM f l); simpl; try discriminate.
    intros [= <-]. simpl. f_equal. now apply IH.
Qed.

Lemma mapM_nth {A B} (f : A -> Result B) l ys :
  mapM f l = Ok ys ->
  forall i x, nth_error l i = Some x ->
              exists y, f x = Ok y /\ nth_error ys i = Some y.
Proof.
  revert ys. induction l as [|x0 l IH]; intros ys H i x Hi.
  - destruct i; discriminate.
  - simpl in H. destruct (f x0) as [y0| |] eqn:E0; simpl in H; try discriminate.
    destruct (mapM f l) as [ys0| |]; simpl in H; try discriminate.
    injection H as <-. destruct i as [|i]; simpl in *.
    + injection Hi as <-. eauto.
    + now apply (IH ys0 eq_refl).
Qed.

Lemma applyDefaultsToRow_total st v cols :
  isObjectLike v = true -> exists row, applyDefaultsToRow st v cols = Ok row.
Proof.
  intros Hv. unfold applyDefaultsToRow. apply foldM_total.
  intros row c _. destruct v; try discriminate; simpl.
  - destruct (JS.arrayIndex c) as [i|].
    + destruct (i <? N.of_nat (List.length items))%N; simpl; eauto.
    + destruct (String.eqb c "length"); simpl; eauto.
  - destruct (OMap.has fields c); simpl; eauto.
Qed.

Lemma resolveReference_total st v context :
  exists text, resolveReference st v context = Ok text.
Proof.
  unfold resolveReference.
  destruct (isObjectLike v) eqn:Hv; simpl; [|eauto].
  destruct (OMap.get (arrayReferenceCache st) (stringify v)); [eauto|].
  destruct (OMap.get (tableRegistry st) (resolveTableName st context)) as [table|];
    [|eauto].
  destruct (isArray v); simpl; [eauto|].
  destruct (applyDefaultsToRow_total st v (columns table) Hv) as [row ->]. simpl.
  destruct (OMap.get (objectToIndexMap st) (resolveTableName st context)); [|eauto].
  destruct (OMap.get _ _); eauto.
Qed.

Lemma renderCells_total st row cols :
  exists cells, renderCells st row cols = Ok cells.
Proof.
  unfold renderCells. apply mapM_total. intros c _.
  destruct (OMap.get row c) as [v|]; [|eauto].
  destruct (typeofObject v); [apply resolveReference_total | eauto].
Qed.

Lemma renderCells_length st row cols cells :
  renderCells st row cols = Ok cells -> List.length cells = List.length cols.
Proof. apply mapM_length. Qed.

(** ** Schema merge *)

Lemma rebuildRows_spec st cols items :
  Forall (fun item => isObjectLike item = true) items ->
  forall index m,
  exists newRows keys,
    rebuildRows st cols items index m = Ok (newRows, indexKeys keys index m) /\
    mapM (renderRecord st cols) items = Ok newRows /\
    mapM (canonicalKeyOf st cols) items = Ok keys.
Proof.
  induction 1 as [|item items Hitem _ IH]; intros index m.
  - exists [], []. repeat split.
  - destruct (applyDefaultsToRow_total st item cols Hitem) as [row Hrow].
    destruct (renderCells_total st row cols) as [cells Hcells].
    destruct (IH (S index) (OMap.set m (generateCanonicalKey st row cols) index))
      as [newRows [keys [Hrec [Hrows Hkeys]]]].
    exists (cells :: newRows), (generateCanonicalKey st row cols :: keys).
    split; [|split].
    + simpl. rewrite Hrow. simpl. rewrite Hcells. simpl. now rewrite Hrec.
    + cbn [mapM]. unfold renderRecord at 1. rewrite Hrow. simpl.
      rewrite Hcells. simpl. now rewrite Hrows.
    + cbn [mapM]. unfold canonicalKeyOf at 1. rewrite Hrow. simpl.
      now rewrite Hkeys.
Qed.

Lemma skipn_nth_error {A} (l : list A) i x :
  nth_error l i = Some x -> skipn i l = x :: skipn (S i) l.
Proof.
  revert i. induction l as [|y l IH]; intros [|i]; simpl; try discriminate.
  - now intros [= ->].
  - intros H. now rewrite (IH i H).
Qed.

Lemma everyEqualAt_spec old new : forall index,
  everyEqualAt old new index = true ->
  firstn (List.length new) (skipn index old) = new.
Proof.
  induction new as [|c new IH]; intros index; simpl; [reflexivity|].
  destruct (nth_error old index) as [o|] eqn:E; simpl; [|discriminate].
  intros H. apply andb_prop in H. destruct H as [Hc Hrest].
  apply String.eqb_eq in Hc. subst o.
  rewrite (skipn_nth_error old index c E). cbn [firstn]. f_equal. now apply IH.
Qed.

Lemma hasColumnsChanged_false old new :
  hasColumnsChanged old new = false -> new = old.
Proof.
  unfold hasColumnsChanged. intros H. apply orb_false_elim in H.
  destruct H as [Hlen Hall].
  apply negb_false_iff in Hlen, Hall. apply Nat.eqb_eq in Hlen.
  apply everyEqualAt_spec in Hall. rewrite <- Hlen in Hall.
  simpl in Hall. now rewrite firstn_all in Hall.
Qed.

Lemma hasColumnsChanged_length old new :
  List.length old <> List.length new -> hasColumnsChanged old new = true.
Proof.
  intros H. unfold hasColumnsChanged.
  apply Nat.eqb_neq in H. now rewrite H.
Qed.

Lemma rebuildTableWithNewColumns_spec st tableName table newColumns :
  OMap.get st.(tableRegistry) tableName = Some table ->
  Forall (fun item => isObjectLike item = true) table.(originalData) ->
  exists newRows keys,
    mapM (renderRecord (duringRebuild st tableName table newColumns) newColumns)
         table.(originalData) = Ok newRows /\
    mapM (canonicalKeyOf (duringRebuild st tableName table newColumns) newColumns)
         table.(originalData) = Ok keys /\
    rebuildTableWithNewColumns st tableName newColumns
    = Ok (mkState
            (OMap.set st.(tableRegistry) tableName
               (mkTable newColumns newRows table.(originalData)))
            st.(arrayReferenceCache) st.(tableIndexCounters) st.(rootLevelKeys)
            (OMap.set st.(objectToIndexMap) tableName (List.length st.(mapStore)))
            (st.(mapStore) ++ [indexKeys keys 0 []])%list
            st.(defaultValues) st.(tableStructure)).
Proof.
  intros Hget Hitems. unfold rebuildTableWithNewColumns. rewrite Hget.
  fold (duringRebuild st tableName table newColumns).
  destruct (rebuildRows_spec (duringRebuild st tableName table newColumns)
              newColumns table.(originalData) Hitems 0 [])
    as [newRows [keys [-> [Hrows Hkeys]]]].
  exists newRows, keys. split; [assumption|]. split; [assumption|].
  simpl. unfold withIndexMap, withStore, withRegistry, duringRebuild. simpl.
  now rewrite OMap_set_set.
Qed.

Lemma merge_grows cmp table newColumns :
  (exists c, In c newColumns /\ ~ In c table.(columns)) ->
  hasColumnsChanged table.(columns) (mergedColumns cmp table newColumns) = true.
Proof.
  intros [c [Hin Hnew]]. apply hasColumnsChanged_length.
  unfold mergedColumns, sortColumnNames.
  rewrite (Permutation_length (sort_perm _ _)), length_app.
  assert (Hc : In c (filter (fun column => negb (mem column table.(columns)))
                            newColumns)).
  { apply filter_In. split; [assumption|].
    apply negb_true_iff. now apply mem_false_In. }
  destruct (filter _ newColumns); [contradiction | simpl; lia].
Qed.

(** C3.  Take a registered table whose rows and stored source records run
    in parallel, and merge in columns of which at least one is new.  The
    merge succeeds and rebuilds the table: the stored source records are
    the same, in the same order; there are as many rows as before; row [i]
    is the rendering, against the merged and sorted columns, of the source
    record stored at [i]; and the dedup index of the table is a fresh map
    that holds exactly the canonical keys of the source records against the
    new columns, each with the index of its record. *)
Theorem C3_merge_keeps_row_order :
  forall (cmp : string -> string -> Z) (st : State) (tableName : string)
         (table : TableData) (newColumns : list string),
    OMap.get st.(tableRegistry) tableName = Some table ->
    List.length table.(rows) = List.length table.(originalData) ->
    Forall (fun item => isObjectLike item = true) table.(originalData) ->
    (exists c, In c newColumns /\ ~ In c table.(columns)) ->
    let cols := mergedColumns cmp table newColumns in
    let during := duringRebuild st tableName table cols in
    exists st' table' keys addr,
      mergeTableColumns cmp st tableName newColumns = Ok st' /\
      OMap.get st'.(tableRegistry) tableName = Some table' /\
      table'.(columns) = cols /\
      table'.(originalData) = table.(originalData) /\
      List.length table'.(rows) = List.length table.(rows) /\
      (forall i item,
          nth_error table.(originalData) i = Some item ->
          exists row, renderRecord during cols item = Ok row /\
                      nth_error table'.(rows) i = Some row) /\
      mapM (canonicalKeyOf during cols) table.(originalData) = Ok keys /\
      OMap.get st'.(objectToIndexMap) tableName = Some addr /\
      deref st' addr = indexKeys keys 0 [].
Proof.
  intros cmp st tableName table newColumns Hget Hlen Hitems Hnew cols during.
  destruct (rebuildTableWithNewColumns_spec st tableName table cols Hget Hitems)
    as [newRows [keys [Hrows [Hkeys Hrebuild]]]].
  fold during in Hrows, Hkeys.
  eexists. exists (mkTable cols newRows table.(originalData)), keys,
                  (List.length st.(mapStore)).
  split; [|split; [|split; [|split; [|split; [|split; [|split; [|split]]]]]]].
  - unfold mergeTableColumns. rewrite Hget.
    fold (mergedColumns cmp table newColumns). fold cols.
    unfold cols at 1. rewrite (merge_grows cmp table newColumns Hnew).
    exact Hrebuild.
  - simpl. apply OMap_get_set_eq.
  - reflexivity.
  - reflexivity.
  - simpl. rewrite (mapM_length _ _ _ Hrows). now symmetry.
  - intros i item Hi. exact (mapM_nth _ _ _ Hrows i item Hi).
  - exact Hkeys.
  - simpl. apply OMap_get_set_eq.
  - unfold deref. simpl. rewrite app_nth2 by lia. now rewrite Nat.sub_diag.
Qed.

Lemma C3_merge_keeps_row_order_witness :
  exists st' table' keys addr,
    mergeTableColumns codeUnitCompare twoRowState "@t" ["role"] = Ok st' /\
    OMap.get st'.(tableRegistry) "@t" = Some table' /\
    table'.(columns) = ["id"; "role"] /\
    table'.(originalData) = twoRowTable.(originalData) /\
    List.length table'.(rows) = 2 /\
    (forall i item,
        nth_error twoRowTable.(originalData) i = Some item ->
        exists row,
          renderRecord (duringRebuild twoRowState "@t" twoRowTable ["id"; "role"])
                       ["id"; "role"] item = Ok row /\
          nth_error table'.(rows) i = Some row) /\
    mapM (canonicalKeyOf (duringRebuild twoRowState "@t" twoRowTable ["id"; "role"])
                         ["id"; "role"])
         twoRowTable.(originalData) = Ok keys /\
    OMap.get st'.(objectToIndexMap) "@t" = Some addr /\
    deref st' addr = indexKeys keys 0 [].
Proof.
  apply (C3_merge_keeps_row_order codeUnitCompare twoRowState "@t" twoRowTable
           ["role"]).
  - vm_compute. reflexivity.
  - reflexivity.
  - repeat constructor.
  - exists "role". split; [now left|]. simpl. intros [H|[]]. discriminate.
Defined.

Lemma createNewTable_columns st tableName cols :
  OMap.get (createNewTable st tableName cols).(tableRegistry) tableName
  = Some (mkTable cols [] []).
Proof. unfold createNewTable. simpl. apply OMap_get_set_eq. Qed.

Lemma mergeTableColumns_columns cmp st tableName table newColumns st' :
  OMap.get st.(tableRegistry) tableName = Some table ->
  mergeTableColumns cmp st tableName newColumns = Ok st' ->
  exists table', OMap.get st'.(tableRegistry) tableName = Some table' /\
                 table'.(columns) = mergedColumns cmp table newColumns.
Proof.
  intros Hget. unfold mergeTableColumns. rewrite Hget.
  fold (mergedColumns cmp table newColumns).
  destruct (hasColumnsChanged _ _) eqn:E.
  - unfold rebuildTableWithNewColumns. rewrite Hget.
    destruct (rebuildRows _ _ _ _ _) as [r| |]; simpl; try discriminate.
    intros [= <-]. eexists. split; [simpl; apply OMap_get_set_eq | reflexivity].
  - intros [= <-]. exists table. split; [assumption|].
    symmetry. now apply hasColumnsChanged_false.
Qed.

Lemma codeUnitCompare_le a b :
  (codeUnitCompare a b <= 0)%Z <-> a = b \/ String_as_OT.lt a b.
Proof.
  unfold codeUnitCompare.
  destruct (String.compare a b) eqn:E.
  - apply String_as_OT.cmp_eq in E. split; [now left | lia].
  - apply String_as_OT.cmp_lt in E. split; [now right | lia].
  - split; [lia|]. intros [-> | H].
    + assert (String.compare b b = Eq) by now apply String_as_OT.cmp_eq.
      congruence.
    + apply String_as_OT.cmp_lt in H. unfold String_as_OT.cmp in H. congruence.
Qed.

Lemma codeUnitCompare_total a b :
  (codeUnitCompare a b <= 0)%Z \/ (codeUnitCompare b a <= 0)%Z.
Proof.
  rewrite !codeUnitCompare_le.
  destruct (String.compare a b) eqn:E.
  - apply String_as_OT.cmp_eq in E. now left; left.
  - apply String_as_OT.cmp_lt in E. now left; right.
  - right. right. apply String_as_OT.cmp_lt.
    rewrite String_as_OT.cmp_antisym. unfold String_as_OT.cmp. now rewrite E.
Qed.

Lemma codeUnitCompare_trans a b c :
  (codeUnitCompare a b <= 0)%Z -> (codeUnitCompare b c <= 0)%Z ->
  (codeUnitCompare a c <= 0)%Z.
Proof.
  rewrite !codeUnitCompare_le.
  intros [-> | H1] [-> | H2]; auto.
  right. now apply String_as_OT.lt_trans with b.
Qed.

Lemma StronglySorted_impl {A} (R R' : A -> A -> Prop) l :
  (forall a b, R a b -> R' a b) -> StronglySorted R l -> StronglySorted R' l.
Proof.
  intros Himp. induction 1 as [|x l Hl IH Hx]; constructor; [assumption|].
  eapply Forall_impl; [|exact Hx]. intros y. apply Himp.
Qed.

Lemma setAdd_NoDup l x : NoDup l -> NoDup (setAdd l x).
Proof.
  intros H. unfold setAdd. destruct (mem x l) eqn:E; [assumption|].
  apply mem_false_In in E.
  apply (Permutation_NoDup (l := x :: l)).
  - apply Permutation_cons_append.
  - now constructor.
Qed.

Lemma fold_setAdd_NoDup xs : forall l, NoDup l -> NoDup (fold_left setAdd xs l).
Proof.
  induction xs as [|x xs IH]; intros l H; simpl; [assumption|].
  apply IH. now apply setAdd_NoDup.
Qed.

(** The example set: its priority names and its other names. *)
Lemma example_columns cmp names :
  (cmp "a" "b" <= 0)%Z -> (cmp "b" "a" > 0)%Z ->
  NoDup names ->
  (forall x, In x names <-> In x ["b"; "id"; "a"; "name"]) ->
  filter (fun p => mem p names) priorityColumns = ["id"; "name"]
  /\ JS.sort (localeLe cmp) (filter (fun c => negb (isPriority c)) names)
     = ["a"; "b"].
Proof.
  intros Hab Hba Hnd Hin. split.
  - assert (Hid : mem "id" names = true) by (apply mem_In, Hin; simpl; tauto).
    assert (Hname : mem "name" names = true) by (apply mem_In, Hin; simpl; tauto).
    assert (Htype : mem "type" names = false).
    { apply mem_false_In. rewrite Hin. simpl.
      intros [H|[H|[H|[H|[]]]]]; discriminate. }
    assert (Hkey : mem "key" names = false).
    { apply mem_false_In. rewrite Hin. simpl.
      intros [H|[H|[H|[H|[]]]]]; discriminate. }
    simpl. now rewrite Hid, Hname, Htype, Hkey.
  - assert (Hperm : Permutation ["a"; "b"]
                      (filter (fun c => negb (isPriority c)) names)).
    { apply NoDup_Permutation.
      - repeat constructor; simpl; intuition discriminate.
      - now apply NoDup_filter.
      - intros x. rewrite filter_In, Hin. simpl. split.
        + intros [<-|[<-|[]]]; split; try reflexivity; tauto.
        + intros [[<-|[<-|[<-|[<-|[]]]]] Hp]; try discriminate Hp; tauto. }
    apply Permutation_length_2_inv in Hperm.
    unfold localeLe.
    destruct Hperm as [-> | ->]; simpl.
    + apply Z.leb_le in Hab. now rewrite Hab.
    + assert (Hgt : (cmp "b" "a" <=? 0)%Z = false) by (apply Z.leb_gt; lia).
      now rewrite Hgt.
Qed.

(** C6.  For the comparison function of [sortColumnNames], with
    [localeCompare] as the order of the remaining columns:
    - on a set of names, the schema is the priority list [id], [name],
      [type], [key] restricted to the names present, followed by the other
      names sorted by [localeCompare];
    - when [localeCompare] is a total preorder, that second part is in
      non-decreasing order and is a rearrangement of the other names;
    - the set [{b, id, a, name}], in whatever order its names are met, gives
      [id,name,a,b] as soon as [a] collates before [b];
    - a table is created with the columns it is given, which both callers
      take from [sortColumnNames], and every merge leaves the table with
      [sortColumnNames] of the old and the new columns. *)
Theorem C6_column_order :
  forall (cmp : string -> string -> Z),
    (forall names, NoDup names ->
       sortColumnNames cmp names
       = (filter (fun p => mem p names) priorityColumns
          ++ JS.sort (localeLe cmp)
               (filter (fun c => negb (isPriority c)) names))%list)
    /\ ((forall a b, (cmp a b <= 0)%Z \/ (cmp b a <= 0)%Z) ->
        (forall a b c, (cmp a b <= 0)%Z -> (cmp b c <= 0)%Z -> (cmp a c <= 0)%Z) ->
        forall names,
          StronglySorted (fun a b => (cmp a b <= 0)%Z)
                         (JS.sort (localeLe cmp) names)
          /\ Permutation (JS.sort (localeLe cmp) names) names)
    /\ ((cmp "a" "b" <= 0)%Z -> (cmp "b" "a" > 0)%Z ->
        forall names, NoDup names ->
          (forall x, In x names <-> In x ["b"; "id"; "a"; "name"]) ->
          sortColumnNames cmp names = ["id"; "name"; "a"; "b"])
    /\ (forall st tableName names,
          OMap.has st.(tableRegistry) tableName = false ->
          exists st',
            registerColumns cmp st tableName (sortColumnNames cmp names) = Ok st' /\
            OMap.get st'.(tableRegistry) tableName
            = Some (mkTable (sortColumnNames cmp names) [] []))
    /\ (forall st tableName table newColumns st',
          OMap.get st.(tableRegistry) tableName = Some table ->
          registerColumns cmp st tableName newColumns = Ok st' ->
          exists table',
            OMap.get st'.(tableRegistry) tableName = Some table' /\
            table'.(columns)
            = sortColumnNames cmp
                (table.(columns)
                   ++ filter (fun column => negb (mem column table.(columns)))
                        newColumns)%list)
    /\ (forall array, exists names,
          NoDup names /\ extractColumnNames cmp array = sortColumnNames cmp names).
Proof.
  intros cmp. split; [|split; [|split; [|split; [|split]]]].
  - intros names Hnd. rewrite sortColumnNames_partition.
    now rewrite sort_priority.
  - intros Htotal Htrans names. split; [|apply sort_perm].
    apply StronglySorted_impl with (R := fun a b => localeLe cmp a b = true).
    + intros a b. unfold localeLe. apply Z.leb_le.
    + apply sort_sorted; unfold localeLe.
      * intros a b. rewrite !Z.leb_le. apply Htotal.
      * intros a b c. rewrite !Z.leb_le. apply Htrans.
  - intros Hab Hba names Hnd Hin.
    rewrite sortColumnNames_partition, sort_priority by assumption.
    destruct (example_columns cmp names Hab Hba Hnd Hin) as [-> ->].
    reflexivity.
  - intros st tableName names Habsent. unfold registerColumns.
    rewrite Habsent. simpl. eexists. split; [reflexivity|].
    apply createNewTable_columns.
  - intros st tableName table newColumns st' Hget. unfold registerColumns.
    unfold OMap.has. rewrite Hget. simpl.
    apply mergeTableColumns_columns. assumption.
  - intros array. unfold extractColumnNames. eexists. split; [|reflexivity].
    assert (H : forall acc, NoDup acc ->
              NoDup (fold_left
                       (fun columnSet item =>
                          match item with
                          | JObject fields =>
                              fold_left setAdd (OMap.keys fields) columnSet
                          | _ => columnSet
                          end) array acc)).
    { induction array as [|item array IH]; intros acc Hacc; simpl; [assumption|].
      apply IH. destruct item; try assumption. now apply fold_setAdd_NoDup. }
    apply H. constructor.
Qed.

Lemma C6_column_order_witness :
  sortColumnNames codeUnitCompare ["b"; "id"; "a"; "name"]
  = ["id"; "name"; "a"; "b"]
  /\ StronglySorted (fun a b => (codeUnitCompare a b <= 0)%Z)
                    (JS.sort (localeLe codeUnitCompare) ["b"; "a"; "c"])
  /\ sortColumnNames codeUnitCompare ["name"; "a"; "b"; "id"]
     = ["id"; "name"; "a"; "b"].
Proof.
  pose proof (C6_column_order codeUnitCompare) as [H1 [H2 [H3 _]]].
  split; [|split].
  - apply H3; [vm_compute; discriminate | reflexivity | |].
    + repeat constructor; simpl; intuition discriminate.
    + intros x. tauto.
  - apply (H2 codeUnitCompare_total codeUnitCompare_trans).
  - apply H3; [vm_compute; discriminate | reflexivity | |].
    + repeat constructor; simpl; intuition discriminate.
    + intros x. simpl. tauto.
Defined.

(** ** The text of a reference *)

Lemma all_app p a b : JS.all p (a ++ b) = JS.all p a && JS.all p b.
Proof.
  induction a as [|c a IH]; simpl; [reflexivity|].
  now rewrite IH, andb_assoc.
Qed.

Lemma span_app p a b :
  JS.all p a = true -> stopsAt p b -> JS.span p (a ++ b) = (a, b).
Proof.
  intros Ha Hb. induction a as [|c a IH]; simpl in *.
  - destruct b as [|c b]; simpl in *; [reflexivity | now rewrite Hb].
  - apply andb_prop in Ha. destruct Ha as [Hc Ha].
    now rewrite Hc, (IH Ha).
Qed.

Lemma string_of_uint_digits d :
  JS.all JS.isDigit (NilEmpty.string_of_uint d) = true.
Proof. induction d; simpl; try reflexivity; exact IHd. Qed.

Lemma showNat_digits n : JS.all JS.isDigit (JS.showNat n) = true.
Proof. apply string_of_uint_digits. Qed.

Lemma showNat_nonempty n : JS.showNat n <> EmptyString.
Proof.
  unfold JS.showNat. intros H.
  assert (Hnil : Nat.to_uint n = Decimal.Nil).
  { destruct (Nat.to_uint n); simpl in H; try discriminate; reflexivity. }
  apply (DecimalFacts.unorm_nonnil (Nat.to_uint n)).
  rewrite <- Unsigned.to_of, Unsigned.of_to. exact Hnil.
Qed.

Lemma toNumber_showNat n : JS.toNumber (JS.showNat n) = n.
Proof.
  unfold JS.toNumber, JS.showNat. rewrite NilEmpty.usu. apply Unsigned.of_to.
Qed.

Lemma split_single s :
  JS.all notComma s = true -> JS.split ","%char s = [s].
Proof.
  induction s as [|c s IH]; simpl; [reflexivity|].
  intros H. apply andb_prop in H. destruct H as [Hc Hs].
  unfold notComma in Hc. apply negb_true_iff in Hc. rewrite Hc.
  now rewrite (IH Hs).
Qed.

Lemma split_app s t :
  JS.all notComma s = true ->
  JS.split ","%char (s ++ String ","%char t) = s :: JS.split ","%char t.
Proof.
  induction s as [|c s IH]; simpl; [reflexivity|].
  intros H. apply andb_prop in H. destruct H as [Hc Hs].
  unfold notComma in Hc. apply negb_true_iff in Hc. rewrite Hc.
  now rewrite (IH Hs).
Qed.

Lemma split_join ss :
  ss <> [] -> Forall (fun s => JS.all notComma s = true) ss ->
  JS.split ","%char (JS.join "," ss) = ss.
Proof.
  intros Hne Hall. induction Hall as [|s ss Hs Hss IH]; [congruence|].
  destruct ss as [|s' ss].
  - simpl. now apply split_single.
  - rewrite join_cons by discriminate.
    change ("," ++ JS.join "," (s' :: ss))
      with (String ","%char (JS.join "," (s' :: ss))).
    rewrite split_app by assumption. f_equal. apply IH. discriminate.
Qed.

Lemma all_impl (p q : ascii -> bool) s :
  (forall c, p c = true -> q c = true) -> JS.all p s = true -> JS.all q s = true.
Proof.
  intros Hpq. induction s as [|c s IH]; simpl; [reflexivity|].
  intros H. apply andb_prop in H. destruct H as [Hc Hs].
  now rewrite (Hpq c Hc), (IH Hs).
Qed.

Lemma isDigit_notComma c : JS.isDigit c = true -> notComma c = true.
Proof.
  unfold JS.isDigit, notComma, JS.code. intros H.
  destruct (Ascii.eqb c ","%char) eqn:E; [|reflexivity].
  apply Ascii.eqb_eq in E. subst c. discriminate H.
Qed.

Lemma join_indexChars indices :
  JS.all isIndexChar (JS.join "," (map JS.showNat indices)) = true.
Proof.
  induction indices as [|n indices IH]; [reflexivity|].
  assert (Hn : JS.all isIndexChar (JS.showNat n) = true).
  { apply all_impl with (p := JS.isDigit); [|apply showNat_digits].
    intros c Hc. unfold isIndexChar. now rewrite Hc. }
  destruct indices as [|m indices]; [exact Hn|].
  change (map JS.showNat (n :: m :: indices))
    with (JS.showNat n :: map JS.showNat (m :: indices)).
  rewrite join_cons by discriminate.
  rewrite !all_app, Hn. simpl JS.all at 1. exact IH.
Qed.

Lemma join_nonempty indices :
  indices <> [] -> JS.join "," (map JS.showNat indices) <> EmptyString.
Proof.
  destruct indices as [|n indices]; [congruence|]. intros _.
  pose proof (showNat_nonempty n) as Hn.
  destruct indices as [|m indices]; [exact Hn|].
  change (map JS.showNat (n :: m :: indices))
    with (JS.showNat n :: map JS.showNat (m :: indices)).
  rewrite join_cons by discriminate.
  destruct (JS.showNat n); [congruence | discriminate].
Qed.

Lemma sortedIndices_join indices :
  indices <> [] ->
  sortedIndices (JS.join "," (map JS.showNat indices)) = JS.sort Nat.leb indices.
Proof.
  intros Hne. unfold sortedIndices. rewrite split_join.
  - rewrite map_map. f_equal. rewrite <- (map_id indices) at 2.
    apply map_ext. apply toNumber_showNat.
  - destruct indices; [congruence | discriminate].
  - apply Forall_forall. intros s Hs. apply in_map_iff in Hs.
    destruct Hs as [n [<- _]].
    apply all_impl with (p := JS.isDigit); [apply isDigit_notComma|].
    apply showNat_digits.
Qed.

(** The reference pattern recognizes the text of a reference to a table
    whose name is made of word characters. *)
Lemma matchReference_referenceText w indices :
  w <> EmptyString -> JS.all JS.isWordChar w = true -> indices <> [] ->
  matchReference (referenceText ("@" ++ w) indices)
  = Some ("@" ++ w, JS.join "," (map JS.showNat indices)).
Proof.
  intros Hw Hword Hne. unfold referenceText, matchReference.
  change (("@" ++ w) ++ "[" ++ JS.join "," (map JS.showNat indices) ++ "]")
    with (String "@"%char
            (w ++ String "["%char (JS.join "," (map JS.showNat indices) ++ "]"))).
  cbv iota.
  rewrite (span_app JS.isWordChar w _ Hword) by reflexivity.
  destruct w as [|c w]; [congruence|].
  fold isIndexChar.
  rewrite (span_app isIndexChar _ "]" (join_indexChars indices)) by reflexivity.
  pose proof (join_nonempty indices Hne) as Hidx.
  destruct (JS.join "," (map JS.showNat indices)); [congruence|].
  reflexivity.
Qed.

(** ** Whole-table compaction *)

Lemma everyIsIndex_spec indices : forall index,
  everyIsIndex indices index = true <-> indices = seq index (List.length indices).
Proof.
  induction indices as [|v indices IH]; intros index; simpl; [tauto|].
  rewrite andb_true_iff, Nat.eqb_eq, IH. split.
  - intros [-> H]. now rewrite <- H.
  - intros [= -> H]. split; [reflexivity | exact H].
Qed.

Lemma isSequentialFullTableReference_spec indices totalRows :
  isSequentialFullTableReference indices totalRows = true
  <-> indices = seq 0 totalRows.
Proof.
  unfold isSequentialFullTableReference.
  rewrite andb_true_iff, Nat.eqb_eq, everyIsIndex_spec. split.
  - intros [<- H]. exact H.
  - intros ->. rewrite length_seq. tauto.
Qed.

Lemma seq_strictly_sorted len : forall start, StronglySorted lt (seq start len).
Proof.
  induction len as [|len IH]; intros start; simpl; constructor; [apply IH|].
  apply Forall_forall. intros x Hx. apply in_seq in Hx. lia.
Qed.

(** Sorting gives [0, 1, ..., n-1] exactly for the lists that hold each of
    these indices once, in any order. *)
Lemma sort_indices_full indices n :
  JS.sort Nat.leb indices = seq 0 n <-> Permutation indices (seq 0 n).
Proof.
  split.
  - intros <-. symmetry. apply sort_perm.
  - intros Hperm.
    assert (Hsorted : Permutation (JS.sort Nat.leb indices) (seq 0 n)).
    { now rewrite sort_perm. }
    apply (strictly_sorted_unique lt).
    + intros a. lia.
    + intros a b c. lia.
    + apply StronglySorted_strict with (R := fun a b => Nat.leb a b = true).
      * eapply Permutation_NoDup; [symmetry; exact Hsorted | apply seq_NoDup].
      * intros a b _ _ Hne Hle. apply Nat.leb_le in Hle. lia.
      * apply sort_sorted.
        -- intros a b. rewrite !Nat.leb_le. lia.
        -- intros a b c. rewrite !Nat.leb_le. lia.
    + apply seq_strictly_sorted.
    + intros x. split; apply Permutation_in; [|symmetry]; exact Hsorted.
Qed.

Lemma optimizeCell_compacted st cell :
  optimizeCell st cell = compacted st.(tableRegistry) cell.
Proof.
  unfold optimizeCell, compacted, compaction.
  destruct (JS.startsWith cell "@") eqn:E; simpl.
  - destruct (matchReference cell) as [[tableName indexText]|]; [|reflexivity].
    destruct (OMap.get _ tableName); [|reflexivity].
    now destruct (isSequentialFullTableReference _ _).
  - assert (H : matchReference cell = None).
    { destruct cell as [|c cell]; [reflexivity|].
      unfold JS.startsWith in E. simpl in E.
      unfold matchReference.
      destruct c as [[] [] [] [] [] [] [] []]; try reflexivity.
      simpl in E. destruct cell; discriminate. }
    now rewrite H.
Qed.

(** A reference to a registered table is compacted exactly when its indices
    are a rearrangement of all the row indices of the table. *)
Lemma compacted_referenceText registry w indices table :
  w <> EmptyString -> JS.all JS.isWordChar w = true -> indices <> [] ->
  OMap.get registry ("@" ++ w) = Some table ->
  (Permutation indices (seq 0 (List.length table.(rows))) ->
   compacted registry (referenceText ("@" ++ w) indices) = "@" ++ w)
  /\ (~ Permutation indices (seq 0 (List.length table.(rows))) ->
      compacted registry (referenceText ("@" ++ w) indices)
      = referenceText ("@" ++ w) indices).
Proof.
  intros Hw Hword Hne Hget. unfold compacted, compaction.
  rewrite (matchReference_referenceText w indices Hw Hword Hne), Hget.
  rewrite (sortedIndices_join indices Hne).
  destruct (isSequentialFullTableReference _ _) eqn:E.
  - split; [reflexivity|]. intros Hnot. exfalso. apply Hnot.
    apply sort_indices_full. now apply isSequentialFullTableReference_spec.
  - split; [|reflexivity]. intros Hperm.
    apply sort_indices_full in Hperm.
    apply isSequentialFullTableReference_spec in Hperm. congruence.
Qed.

Lemma compactArrayReferences_fold entries : forall st,
  let st' :=
    fold_left
      (fun st entry =>
         let '(cacheKey, reference) := (entry : string * string) in
         match matchReference reference with
         | None => st
         | Some (tableName, indexText) =>
             let indices := sortedIndices indexText in
             match OMap.get st.(tableRegistry) tableName with
             | None => st
             | Some table =>
                 if isSequentialFullTableReference indices
                      (List.length table.(rows))
                 then withCache st
                        (OMap.set st.(arrayReferenceCache) cacheKey tableName)
                 else st
             end
         end) entries st in
  st'.(tableRegistry) = st.(tableRegistry) /\
  (NoDup (OMap.keys entries) ->
   forall k, OMap.get st'.(arrayReferenceCache) k
             = match OMap.get entries k with
               | Some reference =>
                   match compaction st.(tableRegistry) reference with
                   | Some tableName => Some tableName
                   | None => OMap.get st.(arrayReferenceCache) k
                   end
               | None => OMap.get st.(arrayReferenceCache) k
               end).
Proof.
  induction entries as [|[k0 ref0] entries IH]; intros st; simpl.
  - split; [reflexivity | intros _ k; reflexivity].
  - match goal with |- context [fold_left ?f entries ?s] =>
      set (st1 := s); specialize (IH st1) end.
    assert (Hst1 : tableRegistry st1 = tableRegistry st /\
                   arrayReferenceCache st1
                   = match compaction st.(tableRegistry) ref0 with
                     | Some tableName =>
                         OMap.set st.(arrayReferenceCache) k0 tableName
                     | None => arrayReferenceCache st
                     end).
    { subst st1. unfold compaction.
      destruct (matchReference ref0) as [[tableName indexText]|]; [|now split].
      destruct (OMap.get _ tableName); [|now split].
      destruct (isSequentialFullTableReference _ _); now split. }
    destruct Hst1 as [Hreg Hcache]. simpl in IH. destruct IH as [IHreg IHcache].
    split; [congruence|].
    intros Hnd k. inversion Hnd as [|? ? Hnotin Hnd']; subst.
    rewrite (IHcache Hnd' k), Hreg, Hcache.
    destruct (String.eqb k0 k) eqn:E.
    + apply String.eqb_eq in E. subst k0.
      apply OMap_get_None_keys in Hnotin. rewrite Hnotin.
      destruct (compaction _ ref0); [apply OMap_get_set_eq | reflexivity].
    + apply String.eqb_neq in E.
      assert (Hk : OMap.get match compaction (tableRegistry st) ref0 with
                            | Some tableName =>
                                OMap.set (arrayReferenceCache st) k0 tableName
                            | None => arrayReferenceCache st
                            end k
                   = OMap.get (arrayReferenceCache st) k).
      { destruct (compaction _ ref0); [now apply OMap_get_set_neq | reflexivity]. }
      rewrite Hk. reflexivity.
Qed.

Lemma compactArrayReferences_spec st :
  NoDup (OMap.keys st.(arrayReferenceCache)) ->
  (compactArrayReferences st).(tableRegistry) = st.(tableRegistry) /\
  forall k reference,
    OMap.get st.(arrayReferenceCache) k = Some reference ->
    OMap.get (compactArrayReferences st).(arrayReferenceCache) k
    = Some (compacted st.(tableRegistry) reference).
Proof.
  intros Hnd. unfold compactArrayReferences.
  destruct (compactArrayReferences_fold st.(arrayReferenceCache) st) as [Hreg Hcache].
  split; [exact Hreg|]. intros k reference Hk.
  etransitivity; [exact (Hcache Hnd k)|].
  rewrite Hk. unfold compacted.
  now destruct (compaction _ reference).
Qed.

Lemma compaction_ext registry1 registry2 reference :
  (forall tableName, rowCount registry1 tableName = rowCount registry2 tableName) ->
  compaction registry1 reference = compaction registry2 reference.
Proof.
  intros H. unfold compaction.
  destruct (matchReference reference) as [[tableName indexText]|]; [|reflexivity].
  specialize (H tableName). unfold rowCount in H.
  destruct (OMap.get registry1 tableName), (OMap.get registry2 tableName);
    simpl in H; try discriminate; [|reflexivity].
  injection H as ->. reflexivity.
Qed.

Lemma optimizeTableReferences_fold (registry0 : list (string * TableData)) entries :
  forall st,
  (forall tableName, rowCount st.(tableRegistry) tableName
                     = rowCount registry0 tableName) ->
  (forall tableName table,
      In (tableName, table) entries ->
      rowCount st.(tableRegistry) tableName = Some (List.length table.(rows))) ->
  NoDup (OMap.keys entries) ->
  let st' :=
    fold_left
      (fun st entry =>
         let '(tableName, table) := (entry : string * TableData) in
         withRegistry st
           (OMap.set st.(tableRegistry) tableName
              (mkTable table.(columns)
                       (map (map (optimizeCell st)) table.(rows))
                       table.(originalData)))) entries st in
  forall tableName,
    OMap.get st'.(tableRegistry) tableName
    = match OMap.get entries tableName with
      | Some table =>
          Some (mkTable table.(columns)
                        (map (map (compacted registry0)) table.(rows))
                        table.(originalData))
      | None => OMap.get st.(tableRegistry) tableName
      end.
Proof.
  induction entries as [|[T0 table0] entries IH]; intros st Hcounts Hentries Hnd;
    simpl; [reflexivity|].
  inversion Hnd as [|? ? Hnotin Hnd']; subst.
  match goal with |- context [fold_left ?f entries ?s] => set (st1 := s) end.
  assert (Hcells : map (map (optimizeCell st)) (rows table0)
                   = map (map (compacted registry0)) (rows table0)).
  { apply map_ext. intros row. apply map_ext. intros cell.
    rewrite optimizeCell_compacted. unfold compacted.
    now rewrite (compaction_ext _ registry0 cell Hcounts). }
  assert (Hget1 : forall T, OMap.get st1.(tableRegistry) T
                            = if String.eqb T0 T
                              then Some (mkTable table0.(columns)
                                           (map (map (compacted registry0))
                                                table0.(rows))
                                           table0.(originalData))
                              else OMap.get st.(tableRegistry) T).
  { intros T. subst st1. simpl. rewrite OMap_get_set, Hcells. reflexivity. }
  assert (Hcounts1 : forall T, rowCount st1.(tableRegistry) T = rowCount registry0 T).
  { intros T. unfold rowCount at 1. rewrite Hget1.
    destruct (String.eqb T0 T) eqn:E; [|apply Hcounts].
    apply String.eqb_eq in E. subst T. simpl. rewrite !length_map.
    rewrite <- Hcounts. symmetry. apply Hentries. now left. }
  intros T. specialize (IH st1 Hcounts1). simpl in IH. rewrite IH; try assumption.
  - rewrite Hget1. destruct (String.eqb T0 T) eqn:E; [|reflexivity].
    apply String.eqb_eq in E. subst T.
    apply OMap_get_None_keys in Hnotin. now rewrite Hnotin.
  - intros T' table' Hin. unfold rowCount. rewrite Hget1.
    destruct (String.eqb T0 T') eqn:E.
    + apply String.eqb_eq in E. subst T'. exfalso. apply Hnotin.
      change T0 with (fst (T0, table')). now apply in_map.
    + apply Hentries. now right.
Qed.

Lemma optimizeTableReferences_spec st tableName table :
  NoDup (OMap.keys st.(tableRegistry)) ->
  OMap.get st.(tableRegistry) tableName = Some table ->
  OMap.get (optimizeTableReferences st).(tableRegistry) tableName
  = Some (mkTable table.(columns)
                  (map (map (compacted st.(tableRegistry))) table.(rows))
                  table.(originalData)).
Proof.
  intros Hnd Hget. unfold optimizeTableReferences.
  etransitivity;
    [apply (optimizeTableReferences_fold st.(tableRegistry) st.(tableRegistry) st)|].
  - reflexivity.
  - intros T t Hin. unfold rowCount.
    now rewrite (OMap_In_get _ _ _ Hnd Hin).
  - assumption.
  - now rewrite Hget.
Qed.

(** C2, as amended.  Both passes sort the indices of a reference before
    they compare them with the row indices of the table.  So, for a
    reference to a registered table whose name is made of word characters:
    in the memo of array references, and in every cell of every stored row,
    [Rows(table, indices)] is rewritten to the bare table name when its
    index list holds every row index of the table exactly once, in whatever
    order, and is left with its explicit indices otherwise (partial lists,
    lists with duplicates). *)
Theorem C2_whole_table_compaction :
  forall (st : State) (w : string) (indices : list nat) (table : TableData),
    w <> EmptyString -> JS.all JS.isWordChar w = true -> indices <> [] ->
    OMap.get st.(tableRegistry) ("@" ++ w) = Some table ->
    NoDup (OMap.keys st.(arrayReferenceCache)) ->
    NoDup (OMap.keys st.(tableRegistry)) ->
    let name := "@" ++ w in
    let reference := referenceText name indices in
    let full := Permutation indices (seq 0 (List.length table.(rows))) in
    (forall cacheKey,
        OMap.get st.(arrayReferenceCache) cacheKey = Some reference ->
        (full -> OMap.get (compactArrayReferences st).(arrayReferenceCache) cacheKey
                 = Some name) /\
        (~ full -> OMap.get (compactArrayReferences st).(arrayReferenceCache) cacheKey
                   = Some reference))
    /\ (forall tableName stored i row j,
           OMap.get st.(tableRegistry) tableName = Some stored ->
           nth_error stored.(rows) i = Some row ->
           nth_error row j = Some reference ->
           exists stored' row',
             OMap.get (optimizeTableReferences st).(tableRegistry) tableName
             = Some stored' /\
             nth_error stored'.(rows) i = Some row' /\
             (full -> nth_error row' j = Some name) /\
             (~ full -> nth_error row' j = Some reference))
    /\ (indices = seq 0 (List.length table.(rows)) -> full).
Proof.
  intros st w indices table Hw Hword Hne Hget Hcache Hreg name reference full.
  destruct (compacted_referenceText st.(tableRegistry) w indices table
              Hw Hword Hne Hget) as [Hfull Hpart].
  fold name in Hfull, Hpart. fold reference in Hfull, Hpart.
  fold full in Hfull, Hpart.
  split; [|split].
  - intros cacheKey Hk.
    destruct (compactArrayReferences_spec st Hcache) as [_ Hspec].
    rewrite (Hspec cacheKey reference Hk).
    split; intros H; f_equal; [now apply Hfull | now apply Hpart].
  - intros tableName stored i row j Hstored Hrow Hcell.
    eexists. exists (map (compacted st.(tableRegistry)) row).
    split; [apply (optimizeTableReferences_spec st tableName stored Hreg Hstored)|].
    simpl. split; [now apply map_nth_error|].
    split; intros H; rewrite (map_nth_error _ _ _ Hcell); f_equal;
      [now apply Hfull | now apply Hpart].
  - intros ->. unfold full. reflexivity.
Qed.

Lemma C2_whole_table_compaction_witness :
  (forall cacheKey,
      OMap.get reorderedState.(arrayReferenceCache) cacheKey = Some "@t[1,0]" ->
      (Permutation [1; 0] (seq 0 2) ->
       OMap.get (compactArrayReferences reorderedState).(arrayReferenceCache)
                cacheKey = Some "@t") /\
      (~ Permutation [1; 0] (seq 0 2) ->
       OMap.get (compactArrayReferences reorderedState).(arrayReferenceCache)
                cacheKey = Some "@t[1,0]"))
  /\ (forall tableName stored i row j,
         OMap.get reorderedState.(tableRegistry) tableName = Some stored ->
         nth_error stored.(rows) i = Some row ->
         nth_error row j = Some "@t[1,0]" ->
         exists stored' row',
           OMap.get (optimizeTableReferences reorderedState).(tableRegistry)
                    tableName = Some stored' /\
           nth_error stored'.(rows) i = Some row' /\
           (Permutation [1; 0] (seq 0 2) -> nth_error row' j = Some "@t") /\
           (~ Permutation [1; 0] (seq 0 2) -> nth_error row' j = Some "@t[1,0]"))
  /\ ([1; 0] = seq 0 2 -> Permutation [1; 0] (seq 0 2)).
Proof.
  apply (C2_whole_table_compaction reorderedState "t" [1; 0] reorderedTable).
  - discriminate.
  - reflexivity.
  - discriminate.
  - vm_compute. reflexivity.
  - vm_compute. repeat constructor; simpl; intuition discriminate.
  - vm_compute. repeat constructor; simpl; intuition discriminate.
Defined.

(** The traversal of [reorderedInput] leaves the reordered reference in a
    cell of the table [@x], and the output gives that cell as the bare name
    of the table. *)
Lemma reordered_reference_reached :
  (exists stored row,
      OMap.get reorderedState.(tableRegistry) "@x" = Some stored /\
      nth_error stored.(rows) 1 = Some row /\
      nth_error row 0 = Some (referenceText "@t" [1; 0]))
  /\ parse codeUnitCompare reorderedInput (mkConfig [] [])
     = Ok (JS.join newline
             ["@t{id}:"; "  1"; "  2"; EmptyString; "#x{t}:"; "  @t[0]"; "  @t"]).
Proof.
  split; [eexists; eexists; vm_compute; repeat split | vm_compute; reflexivity].
Qed.

(** C2, as stated, fails: the second list of [reorderedInput] is memoized
    as [@t[1,0]], a reordered enumeration of the two rows of [@t], and the
    cell that holds it is rewritten to the bare name [@t]. *)
Lemma C2_reordered_counterexample :
  ~ (forall (st : State) (w : string) (indices : list nat) (table : TableData),
        w <> EmptyString -> JS.all JS.isWordChar w = true -> indices <> [] ->
        OMap.get st.(tableRegistry) ("@" ++ w) = Some table ->
        (optimizeCell st (referenceText ("@" ++ w) indices) = "@" ++ w
         <-> indices = seq 0 (List.length table.(rows)))).
Proof.
  intros H.
  specialize (H reorderedState "t" [1; 0] reorderedTable).
  assert (Hw : "t" <> EmptyString) by discriminate.
  assert (Hne : [1; 0] <> []) by discriminate.
  specialize (H Hw eq_refl Hne).
  assert (Hget : OMap.get reorderedState.(tableRegistry) ("@" ++ "t")
                 = Some reorderedTable) by (vm_compute; reflexivity).
  destruct (H Hget) as [Hto _].
  assert (Hopt : optimizeCell reorderedState (referenceText ("@" ++ "t") [1; 0])
                 = "@" ++ "t") by (vm_compute; reflexivity).
  specialize (Hto Hopt). discriminate Hto.
Qed.

(** ** Registration of records *)

Lemma fold_left_const {A S} (l : list A) (s : S) :
  fold_left (fun s _ => s) l s = s.
Proof. induction l as [|x l IH]; simpl; [reflexivity | exact IH]. Qed.

Lemma processNested_flat rec st fields cols :
  flatRecord fields -> processNested rec st (JObject fields) cols = Ok st.
Proof.
  intros Hflat. unfold processNested.
  rewrite (foldM_Ok _ (fun st _ => st)); [now rewrite fold_left_const|].
  intros s c _. simpl.
  destruct (OMap.get fields c) as [v|] eqn:E; [|reflexivity].
  apply OMap_get_In in E. unfold flatRecord in Hflat.
  rewrite Forall_forall in Hflat. specialize (Hflat (c, v) E). simpl in Hflat.
  now rewrite Hflat.
Qed.

Lemma nth_updateNth {A} (l : list A) n f d :
  n < List.length l -> nth n (updateNth l n f) d = f (nth n l d).
Proof.
  revert n. induction l as [|x l IH]; intros [|n] H; simpl in *; try lia.
  - reflexivity.
  - apply IH. lia.
Qed.

Lemma addRowToTable_spec st tableName originalItem normalizedRow cols
      canonicalKey table canonicalKeyMap :
  OMap.get st.(tableRegistry) tableName = Some table ->
  OMap.get st.(objectToIndexMap) tableName = Some canonicalKeyMap ->
  exists cells,
    renderCells st normalizedRow cols = Ok cells /\
    addRowToTable st tableName originalItem normalizedRow cols canonicalKey
    = Ok (rowAdded st tableName table canonicalKeyMap originalItem cells
                   canonicalKey,
          List.length table.(rows)).
Proof.
  intros Hreg Hmap. unfold addRowToTable.
  destruct (renderCells_total st normalizedRow cols) as [cells Hcells].
  exists cells. split; [assumption|].
  rewrite Hcells. simpl. rewrite Hreg, Hmap. reflexivity.
Qed.

Lemma createNewTable_spec st tableName cols :
  createNewTable st tableName cols
  = mkState (OMap.set st.(tableRegistry) tableName (mkTable cols [] []))
            st.(arrayReferenceCache)
            (OMap.set st.(tableIndexCounters) tableName 0)
            st.(rootLevelKeys)
            (OMap.set st.(objectToIndexMap) tableName (List.length st.(mapStore)))
            (st.(mapStore) ++ [[]])%list
            st.(defaultValues) st.(tableStructure).
Proof. reflexivity. Qed.

Lemma has_false_get {V} (m : list (string * V)) k :
  OMap.has m k = false <-> OMap.get m k = None.
Proof. unfold OMap.has. destruct (OMap.get m k); split; congruence. Qed.

(** A flat record met under a context whose table is not registered: the
    table is created with the sorted keys of the record and receives one
    row; no other table changes. *)
Lemma processObjectValue_fresh cmp rec st fields context :
  flatRecord fields ->
  OMap.has st.(tableRegistry) (resolveTableName st context) = false ->
  exists st' cells,
    processObjectValue cmp rec st fields context = Ok st' /\
    OMap.get st'.(tableRegistry) (resolveTableName st context)
    = Some (mkTable (sortColumnNames cmp (OMap.keys fields)) [cells]
                    [JObject fields]) /\
    (forall other, other <> resolveTableName st context ->
                   OMap.get st'.(tableRegistry) other
                   = OMap.get st.(tableRegistry) other) /\
    st'.(tableStructure) = st.(tableStructure).
Proof.
  intros Hflat Habsent. unfold processObjectValue, registerColumns.
  rewrite Habsent. cbn [negb bind].
  set (T := resolveTableName st context).
  set (cols := sortColumnNames cmp (OMap.keys fields)).
  rewrite createNewTable_spec. cbn [tableRegistry objectToIndexMap].
  rewrite !OMap_get_set_eq. cbn [columns].
  rewrite (processNested_flat rec _ fields cols Hflat). cbn [bind].
  rewrite applyDefaultsToRow_record. cbn [bind].
  match goal with |- context [generateCanonicalKey ?s _ cols] =>
    set (st1 := s) end.
  match goal with |- context [generateCanonicalKey st1 ?r cols] =>
    set (row := r) end.
  assert (Hempty : deref st1 (List.length st.(mapStore)) = []).
  { unfold deref, st1. cbn [mapStore]. rewrite app_nth2 by lia.
    now rewrite Nat.sub_diag. }
  rewrite Hempty. cbn [OMap.has OMap.get negb].
  destruct (addRowToTable_spec st1 T (JObject fields) row cols
              (generateCanonicalKey st1 row cols) (mkTable cols [] [])
              (List.length st.(mapStore)))
    as [cells [_ Hadd]].
  { unfold st1. cbn [tableRegistry]. apply OMap_get_set_eq. }
  { unfold st1. cbn [objectToIndexMap]. apply OMap_get_set_eq. }
  rewrite Hadd. cbn [bind fst].
  eexists. exists cells. split; [reflexivity|].
  unfold rowAdded, st1. cbn [tableRegistry tableStructure columns rows originalData].
  rewrite OMap_set_set. split; [apply OMap_get_set_eq|]. split; [|reflexivity].
  intros other Hother. apply OMap_get_set_neq. congruence.
Qed.

Lemma fold_setAdd_In xs : forall l x,
  In x (fold_left setAdd xs l) <-> In x l \/ In x xs.
Proof.
  induction xs as [|y xs IH]; intros l x; simpl; [tauto|].
  rewrite IH. unfold setAdd. destruct (mem y l) eqn:E.
  - apply mem_In in E. split; [tauto|]. intros [H|[<-|H]]; tauto.
  - rewrite in_app_iff. simpl. tauto.
Qed.

Lemma extractColumnNames_In cmp array k :
  In k (extractColumnNames cmp array)
  <-> exists fields, In (JObject fields) array /\ In k (OMap.keys fields).
Proof.
  unfold extractColumnNames, sortColumnNames. rewrite sort_In.
  assert (H : forall acc,
    In k (fold_left
            (fun columnSet item =>
               match item with
               | JObject fields => fold_left setAdd (OMap.keys fields) columnSet
               | _ => columnSet
               end) array acc)
    <-> In k acc \/ exists fields, In (JObject fields) array /\ In k (OMap.keys fields)).
  { induction array as [|item array IH]; intros acc; simpl.
    - split; [tauto|]. intros [H|[f [[] _]]]. assumption.
    - rewrite IH. split.
      + intros [H|[f [Hf Hk]]]; [|right; exists f; tauto].
        destruct item; try (left; assumption).
        apply fold_setAdd_In in H. destruct H as [H|H]; [now left|].
        right. eexists. split; [left; reflexivity | assumption].
      + intros [H|[f [[Hf|Hf] Hk]]].
        * left. destruct item; try assumption. apply fold_setAdd_In. now left.
        * left. subst item. apply fold_setAdd_In. now right.
        * right. exists f. tauto. }
  rewrite H. simpl. tauto.
Qed.

(** An array of [S n] copies of one flat record with at least one field,
    met under a context whose table is not registered: the table receives
    one row and the array is memoized as that row's index, [S n] times. *)
Lemma processArrayValue_fresh_repeat cmp rec st fields n context cacheKey :
  fields <> [] -> flatRecord fields ->
  OMap.has st.(tableRegistry) (resolveTableName st context) = false ->
  exists st' cells,
    processArrayValue cmp rec st (repeat (JObject fields) (S n)) context cacheKey
    = Ok st' /\
    OMap.get st'.(tableRegistry) (resolveTableName st context)
    = Some (mkTable (extractColumnNames cmp (repeat (JObject fields) (S n)))
                    [cells] [JObject fields]) /\
    OMap.get st'.(arrayReferenceCache) cacheKey
    = Some (referenceText (resolveTableName st context) (repeat 0 (S n))) /\
    (forall other, other <> resolveTableName st context ->
                   OMap.get st'.(tableRegistry) other
                   = OMap.get st.(tableRegistry) other).
Proof.
  intros Hne Hflat Habsent.
  set (T := resolveTableName st context) in *.
  set (item := JObject fields).
  set (cols := extractColumnNames cmp (repeat item (S n))).
  assert (Hcols : (List.length cols =? 0) = false).
  { apply Nat.eqb_neq. destruct fields as [|[k v] fields]; [congruence|].
    assert (Hk : In k cols).
    { apply extractColumnNames_In. eexists. split; [left; reflexivity | now left]. }
    destruct cols; [contradiction | discriminate]. }
  unfold processArrayValue. cbn [repeat]. unfold item at 1 2 3.
  cbn [typeofObject isArray negb orb]. fold T.
  change (item :: repeat item n) with (repeat item (S n)). fold cols.
  rewrite Hcols. unfold registerColumns. rewrite Habsent. cbn [negb bind].
  rewrite createNewTable_spec. cbn [tableRegistry objectToIndexMap].
  rewrite !OMap_get_set_eq. cbn [columns].
  match goal with |- context [foldM ?f (?s, [])] =>
    set (body := f); set (st1 := s) end.
  set (addr := List.length st.(mapStore)).
  set (row := fold_left (fun row c => objSet row c (normalizedValue st1 fields c))
                        cols []).
  set (key := generateCanonicalKey st1 row cols).
  destruct (addRowToTable_spec st1 T item row cols key (mkTable cols [] []) addr)
    as [cells [_ Hadd]].
  { unfold st1. cbn [tableRegistry]. apply OMap_get_set_eq. }
  { unfold st1. cbn [objectToIndexMap]. apply OMap_get_set_eq. }
  set (st2 := rowAdded st1 T (mkTable cols [] []) addr item cells key) in *.
  assert (Hfirst : body (st1, []) item = Ok (st2, [0])).
  { unfold body. unfold item at 1.
    rewrite (processNested_flat rec st1 fields cols Hflat). cbn [bind].
    unfold item at 1. rewrite applyDefaultsToRow_record. cbn [bind].
    fold row. fold key. fold addr.
    assert (Hempty : deref st1 addr = []).
    { unfold deref, st1, addr. cbn [mapStore]. rewrite app_nth2 by lia.
      now rewrite Nat.sub_diag. }
    rewrite Hempty. cbn [OMap.get]. rewrite Hadd. reflexivity. }
  assert (Hnext : forall indices, body (st2, indices) item
                                  = Ok (st2, (indices ++ [0])%list)).
  { intros indices. unfold body. unfold item at 1.
    rewrite (processNested_flat rec st2 fields cols Hflat). cbn [bind].
    unfold item at 1. rewrite applyDefaultsToRow_record. cbn [bind].
    change (fold_left (fun row c => objSet row c (normalizedValue st2 fields c))
                      cols []) with row.
    change (generateCanonicalKey st2 row cols) with key. fold addr.
    assert (Hseen : deref st2 addr = [(key, 0)]).
    { unfold deref, st2, rowAdded. cbn [mapStore rows List.length].
      unfold st1. cbn [mapStore].
      rewrite nth_updateNth by (rewrite length_app; simpl; unfold addr; lia).
      unfold addr. rewrite app_nth2 by lia. now rewrite Nat.sub_diag. }
    rewrite Hseen. cbn [OMap.get]. now rewrite String.eqb_refl. }
  assert (Hloop : forall m indices,
             foldM body (st2, indices) (repeat item m)
             = Ok (st2, (indices ++ repeat 0 m)%list)).
  { induction m as [|m IH]; intros indices; cbn [repeat foldM].
    - now rewrite app_nil_r.
    - rewrite Hnext. cbn [bind]. rewrite IH. now rewrite <- app_assoc. }
  change (repeat item (S n)) with (item :: repeat item n).
  cbn [foldM]. rewrite Hfirst. cbn [bind]. rewrite Hloop. cbn [bind].
  eexists. exists cells. split; [reflexivity|].
  cbn [tableRegistry arrayReferenceCache withCache].
  split; [|split].
  - unfold st2, rowAdded, st1. cbn [tableRegistry columns rows originalData].
    rewrite OMap_set_set. simpl. apply OMap_get_set_eq.
  - rewrite OMap_get_set_eq. reflexivity.
  - intros other Hother. unfold st2, rowAdded, st1. cbn [tableRegistry].
    rewrite OMap_set_set. apply OMap_get_set_neq. congruence.
Qed.

(** ** Frames: what a traversal leaves alone *)

Lemma resolveTableName_tableNameOf st c :
  resolveTableName st c = tableNameOf st.(tableStructure) c.
Proof. reflexivity. Qed.

Lemma contextsIn_array items :
  contextsIn (JArray items) = flat_map propContexts items.
Proof.
  simpl. apply flat_map_ext. intros item.
  destruct item; reflexivity.
Qed.

Lemma indexedContexts_nth l : forall i j x,
  nth_error l j = Some x -> isObjectLike x = true ->
  In (indexName (i + j)) (indexedContexts l i)
  /\ incl (contextsIn x) (indexedContexts l i).
Proof.
  induction l as [|y l IH]; intros i j x Hj Hx; [destruct j; discriminate|].
  destruct j as [|j]; simpl in Hj.
  - injection Hj as ->. simpl. rewrite Hx, Nat.add_0_r. split.
    + now left.
    + intros c Hc. right. apply in_or_app. now left.
  - destruct (IH (S i) j x Hj Hx) as [H1 H2]. simpl. split.
    + apply in_or_app. right. now replace (i + S j) with (S i + j) by lia.
    + intros c Hc. apply in_or_app. right. now apply H2.
Qed.

Lemma arrayIndex_indexName k i :
  JS.arrayIndex k = Some i -> k = indexName (N.to_nat i).
Proof.
  unfold JS.arrayIndex, indexName.
  destruct (NilEmpty.uint_of_string k) as [d|]; [|discriminate].
  destruct (String.eqb _ k && _)%bool eqn:E; [|discriminate].
  intros [= <-]. apply andb_prop in E. destruct E as [E _].
  apply String.eqb_eq in E. now rewrite N2Nat.id.
Qed.

(** An object held by a property of an element is processed under a
    context of that element. *)
Lemma getProp_contexts item k x :
  getProp item k = Ok (Some x) -> isObjectLike x = true ->
  In k (propContexts item) /\ incl (contextsIn x) (propContexts item).
Proof.
  intros Hget Hx. destruct item as [| | |s|inner|fields]; simpl in Hget;
    try discriminate.
  - destruct (JS.arrayIndex k) as [i|].
    + destruct (_ <? _)%N; [|discriminate].
      destruct (String.get _ s); simpl in Hget; [|discriminate].
      injection Hget as <-. discriminate.
    + destruct (String.eqb k "length"); [|discriminate].
      injection Hget as <-. discriminate.
  - destruct (JS.arrayIndex k) as [i|] eqn:Ek.
    + destruct (_ <? _)%N; [|discriminate].
      injection Hget as Hnth.
      destruct (indexedContexts_nth inner 0 (N.to_nat i) x Hnth Hx) as [H1 H2].
      rewrite (arrayIndex_indexName k i Ek). simpl. split; assumption.
    + destruct (String.eqb k "length"); [|discriminate].
      injection Hget as <-. discriminate.
  - injection Hget as Hget. apply OMap_get_In in Hget.
    unfold propContexts. simpl. split.
    + apply in_flat_map. exists (k, x). split; [assumption|].
      rewrite Hx. now left.
    + intros c Hc. apply in_flat_map. exists (k, x). split; [assumption|].
      rewrite Hx. now right.
Qed.

Lemma Frame_refl T st : Frame T st st.
Proof. constructor; auto. Qed.

Lemma Frame_trans T st1 st2 st3 :
  Frame T st1 st2 -> Frame T st2 st3 -> Frame T st1 st3.
Proof.
  intros H12 H23. constructor.
  - now rewrite (frame_registry H23), (frame_registry H12).
  - now rewrite (frame_map H23), (frame_map H12).
  - intros a Ha. rewrite (frame_store H23 a), (frame_store H12 a Ha);
      [reflexivity|]. now rewrite (frame_map H12).
  - now rewrite (frame_defaults H23), (frame_defaults H12).
  - now rewrite (frame_structure H23), (frame_structure H12).
Qed.

Lemma nth_updateNth_neq {A} (l : list A) n m f d :
  n <> m -> nth n (updateNth l m f) d = nth n l d.
Proof.
  revert n m. induction l as [|x l IH]; intros [|n] [|m] H; simpl;
    try reflexivity; try lia.
  apply IH. lia.
Qed.

Lemma length_updateNth {A} (l : list A) n f :
  List.length (updateNth l n f) = List.length l.
Proof.
  revert n. induction l as [|x l IH]; intros [|n]; simpl; try reflexivity.
  now rewrite IH.
Qed.

(** A step that gives a table a fresh dedup map: creation and rebuild. *)
Lemma alloc_frame T T' st registry' counters' m :
  T' <> T -> wellFormed st ->
  OMap.get registry' T = OMap.get st.(tableRegistry) T ->
  let st' :=
    mkState registry' st.(arrayReferenceCache) counters' st.(rootLevelKeys)
            (OMap.set st.(objectToIndexMap) T' (List.length st.(mapStore)))
            (st.(mapStore) ++ [m])%list
            st.(defaultValues) st.(tableStructure) in
  wellFormed st' /\ Frame T st st'.
Proof.
  intros Hne [Hbound Hinj] Hreg st'. split.
  - split.
    + intros T0 a. unfold st'. simpl. rewrite OMap_get_set, length_app. simpl.
      destruct (String.eqb T' T0); [intros [= <-]; lia|].
      intros H. specialize (Hbound T0 a H). lia.
    + intros T1 T2 a. unfold st'. simpl. rewrite !OMap_get_set.
      destruct (String.eqb T' T1) eqn:E1; destruct (String.eqb T' T2) eqn:E2.
      * apply String.eqb_eq in E1, E2. congruence.
      * intros [= <-] H. specialize (Hbound T2 _ H). lia.
      * intros H [= <-]. specialize (Hbound T1 _ H). lia.
      * apply Hinj.
  - constructor; unfold st'; simpl; try reflexivity.
    + assumption.
    + now apply OMap_get_set_neq.
    + intros a Ha. unfold deref. simpl. apply app_nth1. now apply (Hbound T).
Qed.

Lemma createNewTable_frame T T' st cols :
  T' <> T -> wellFormed st ->
  wellFormed (createNewTable st T' cols) /\ Frame T st (createNewTable st T' cols).
Proof.
  intros Hne Hwf. rewrite createNewTable_spec.
  apply alloc_frame; try assumption. now apply OMap_get_set_neq.
Qed.

Lemma rebuildTableWithNewColumns_frame T T' st cols st' :
  T' <> T -> wellFormed st ->
  rebuildTableWithNewColumns st T' cols = Ok st' ->
  wellFormed st' /\ Frame T st st'.
Proof.
  intros Hne Hwf. unfold rebuildTableWithNewColumns.
  destruct (OMap.get (tableRegistry st) T') as [table|]; [|discriminate].
  destruct (rebuildRows _ _ _ _ _) as [[newRows newMap]| |]; simpl;
    try discriminate.
  intros [= <-].
  apply (alloc_frame T T' st _ (tableIndexCounters st) newMap Hne Hwf).
  rewrite OMap_set_set. now apply OMap_get_set_neq.
Qed.

Lemma mergeTableColumns_frame cmp T T' st cols st' :
  T' <> T -> wellFormed st ->
  mergeTableColumns cmp st T' cols = Ok st' ->
  wellFormed st' /\ Frame T st st'.
Proof.
  intros Hne Hwf. unfold mergeTableColumns.
  destruct (OMap.get (tableRegistry st) T') as [table|]; [|discriminate].
  destruct (hasColumnsChanged _ _).
  - now apply rebuildTableWithNewColumns_frame.
  - intros [= <-]. split; [assumption | apply Frame_refl].
Qed.

Lemma registerColumns_frame cmp T T' st cols st' :
  T' <> T -> wellFormed st ->
  registerColumns cmp st T' cols = Ok st' ->
  wellFormed st' /\ Frame T st st'.
Proof.
  intros Hne Hwf. unfold registerColumns.
  destruct (negb _).
  - intros [= <-]. now apply createNewTable_frame.
  - now apply mergeTableColumns_frame.
Qed.

Lemma addRowToTable_frame T T' st item row cols key st' index :
  T' <> T -> wellFormed st ->
  addRowToTable st T' item row cols key = Ok (st', index) ->
  wellFormed st' /\ Frame T st st'.
Proof.
  intros Hne [Hbound Hinj]. unfold addRowToTable.
  destruct (renderCells st row cols) as [cells| |]; simpl; try discriminate.
  destruct (OMap.get (tableRegistry st) T') as [table|]; [|discriminate].
  destruct (OMap.get (objectToIndexMap st) T') as [addr|] eqn:Eaddr;
    [|discriminate].
  intros [= <- _]. split.
  - split; simpl.
    + intros T0 a H. rewrite length_updateNth. now apply (Hbound T0).
    + apply Hinj.
  - constructor; simpl; try reflexivity.
    + now apply OMap_get_set_neq.
    + intros a Ha. unfold deref. simpl. apply nth_updateNth_neq.
      intros ->. apply Hne. now apply (Hinj T' T addr).
Qed.

Lemma withCache_frame T st cache :
  wellFormed st -> wellFormed (withCache st cache) /\ Frame T st (withCache st cache).
Proof. intros Hwf. split; [exact Hwf | constructor; reflexivity]. Qed.

Lemma processNested_frame T ts rec item cols : forall st st',
  recFrames T ts rec item ->
  wellFormed st -> st.(tableStructure) = ts ->
  processNested rec st item cols = Ok st' ->
  wellFormed st' /\ Frame T st st'.
Proof.
  unfold processNested.
  induction cols as [|c cols IH]; intros st st' Hrec Hwf Hts; simpl.
  - intros [= <-]. split; [assumption | apply Frame_refl].
  - destruct (getProp item c) as [[x|]| |] eqn:Eget; simpl; try discriminate.
    + destruct (isObjectLike x) eqn:Ex.
      * destruct (rec st x c) as [st1| |] eqn:Erec; simpl; try discriminate.
        destruct (Hrec st st1 c x Eget Ex Hwf Hts Erec) as [Hwf1 Hfr1].
        intros Hfold.
        destruct (IH st1 st' Hrec Hwf1) as [Hwf' Hfr']; try assumption.
        { rewrite (frame_structure Hfr1). assumption. }
        split; [assumption | now apply Frame_trans with st1].
      * simpl. now apply IH.
    + now apply IH.
Qed.

Lemma processObjectValue_frame cmp T ts rec fields context st st' :
  tableNameOf ts context <> T ->
  recFrames T ts rec (JObject fields) ->
  wellFormed st -> st.(tableStructure) = ts ->
  processObjectValue cmp rec st fields context = Ok st' ->
  wellFormed st' /\ Frame T st st'.
Proof.
  intros Hne Hrec Hwf Hts. unfold processObjectValue.
  rewrite resolveTableName_tableNameOf, Hts.
  set (T' := tableNameOf ts context) in *.
  destruct (registerColumns cmp st T' _) as [st1| |] eqn:Ereg; simpl;
    try discriminate.
  destruct (registerColumns_frame cmp T T' st _ st1 Hne Hwf Ereg) as [Hwf1 Hfr1].
  destruct (OMap.get (tableRegistry st1) T') as [table|]; [|discriminate].
  destruct (OMap.get (objectToIndexMap st1) T') as [addr|]; [|discriminate].
  destruct (processNested rec st1 (JObject fields) (columns table))
    as [st2| |] eqn:Enested; simpl; try discriminate.
  destruct (processNested_frame T ts rec (JObject fields) (columns table)
              st1 st2 Hrec Hwf1) as [Hwf2 Hfr2]; try assumption.
  { rewrite (frame_structure Hfr1). assumption. }
  destruct (applyDefaultsToRow st2 (JObject fields) (columns table))
    as [row| |]; simpl; try discriminate.
  destruct (negb _).
  - destruct (addRowToTable st2 T' _ _ _ _) as [[st3 index]| |] eqn:Eadd;
      simpl; try discriminate.
    intros [= <-].
    destruct (addRowToTable_frame T T' st2 _ _ _ _ st3 index Hne Hwf2 Eadd)
      as [Hwf3 Hfr3].
    split; [assumption|].
    apply Frame_trans with st2; [|assumption].
    now apply Frame_trans with st1.
  - intros [= <-]. split; [assumption | now apply Frame_trans with st1].
Qed.

Lemma processArrayValue_frame cmp T ts rec array context cacheKey st st' :
  tableNameOf ts context <> T ->
  (forall item, In item array -> recFrames T ts rec item) ->
  wellFormed st -> st.(tableStructure) = ts ->
  processArrayValue cmp rec st array context cacheKey = Ok st' ->
  wellFormed st' /\ Frame T st st'.
Proof.
  intros Hne Hrec Hwf Hts. unfold processArrayValue.
  destruct array as [|first rest]; [intros [= <-]; now apply withCache_frame|].
  cbv iota beta. remember (first :: rest) as array eqn:Harray.
  destruct (_ || _ || _)%bool; [intros [= <-]; now apply withCache_frame|].
  destruct (_ =? 0); [intros [= <-]; now apply withCache_frame|].
  rewrite resolveTableName_tableNameOf, Hts.
  set (T' := tableNameOf ts context) in *.
  destruct (registerColumns cmp st T' _) as [st1| |] eqn:Ereg; simpl;
    try discriminate.
  destruct (registerColumns_frame cmp T T' st _ st1 Hne Hwf Ereg) as [Hwf1 Hfr1].
  destruct (OMap.get (tableRegistry st1) T') as [table|]; [|discriminate].
  destruct (OMap.get (objectToIndexMap st1) T') as [addr|]; [|discriminate].
  match goal with |- context [foldM ?f _ _] => set (body := f) end.
  assert (Hloop : forall items acc acc',
             (forall item, In item items -> recFrames T ts rec item) ->
             wellFormed (fst acc) -> (fst acc).(tableStructure) = ts ->
             foldM body acc items = Ok acc' ->
             wellFormed (fst acc') /\ Frame T (fst acc) (fst acc')).
  { induction items as [|item items IH]; intros [s indices] acc' Hitems Hs Hsts;
      simpl.
    - intros [= <-]. split; [assumption | apply Frame_refl].
    - destruct (processNested rec s item (columns table)) as [s1| |] eqn:Enested;
        simpl; try discriminate.
      destruct (processNested_frame T ts rec item (columns table) s s1)
        as [Hs1 Hfr]; try assumption.
      { apply Hitems. now left. }
      assert (Hts1 : tableStructure s1 = ts).
      { rewrite (frame_structure Hfr). assumption. }
      destruct (applyDefaultsToRow s1 item (columns table)) as [row| |];
        simpl; try discriminate.
      destruct (OMap.get (deref s1 addr) _) as [rowIndex|].
      + simpl. intros Hfold.
        destruct (IH (s1, (indices ++ [rowIndex])%list) acc') as [H1 H2];
          try assumption.
        { intros i Hi. apply Hitems. now right. }
        split; [assumption | now apply Frame_trans with s1].
      + destruct (addRowToTable s1 T' _ _ _ _) as [[s2 index]| |] eqn:Eadd;
          simpl; try discriminate.
        destruct (addRowToTable_frame T T' s1 _ _ _ _ s2 index Hne Hs1 Eadd)
          as [Hs2 Hfr2].
        intros Hfold.
        destruct (IH (s2, (indices ++ [index])%list) acc') as [H1 H2];
          try assumption.
        { intros i Hi. apply Hitems. now right. }
        { simpl. rewrite (frame_structure Hfr2). assumption. }
        split; [assumption|]. simpl in *.
        apply Frame_trans with s1; [assumption|].
        now apply Frame_trans with s2. }
  destruct (foldM body (st1, []) array) as [[st2 indices]| |] eqn:Efold;
    simpl; try discriminate.
  intros [= <-].
  destruct (Hloop array (st1, []) (st2, indices)) as [Hwf2 Hfr2];
    try assumption.
  { simpl. rewrite (frame_structure Hfr1). assumption. }
  simpl in *. split; [exact Hwf2|].
  apply Frame_trans with st2; [now apply Frame_trans with st1|].
  constructor; reflexivity.
Qed.

(** The traversal of a value leaves alone every table that is named
    neither by its context nor by a context nested in it. *)
Lemma processValue_frame cmp T ts : forall fuel st v context st',
  tableNameOf ts context <> T ->
  (forall c, In c (contextsIn v) -> tableNameOf ts c <> T) ->
  wellFormed st -> st.(tableStructure) = ts ->
  processValue cmp fuel st v context = Ok st' ->
  wellFormed st' /\ Frame T st st'.
Proof.
  induction fuel as [|fuel IH]; intros st v context st' Hne Havoid Hwf Hts; simpl.
  - destruct (isObjectLike v); simpl;
      [|intros [= <-]; split; [assumption | apply Frame_refl]].
    destruct (OMap.has _ _); [|discriminate].
    intros [= <-]. split; [assumption | apply Frame_refl].
  - destruct (isObjectLike v) eqn:Ev; simpl;
      [|intros [= <-]; split; [assumption | apply Frame_refl]].
    destruct (OMap.has _ _);
      [intros [= <-]; split; [assumption | apply Frame_refl]|].
    destruct v as [| | | |items|fields]; try discriminate.
    + apply (processArrayValue_frame cmp T ts); try assumption.
      intros item Hitem st0 st0' k x Hget Hx Hwf0 Hts0 Hrun.
      destruct (getProp_contexts item k x Hget Hx) as [Hk Hsub].
      assert (Hin : incl (propContexts item) (contextsIn (JArray items))).
      { rewrite contextsIn_array. intros c Hc. apply in_flat_map.
        exists item. split; assumption. }
      apply (IH st0 x k st0'); try assumption.
      * apply Havoid. now apply Hin.
      * intros c Hc. apply Havoid. apply Hin. now apply Hsub.
    + apply (processObjectValue_frame cmp T ts); try assumption.
      intros st0 st0' k x Hget Hx Hwf0 Hts0 Hrun.
      destruct (getProp_contexts (JObject fields) k x Hget Hx) as [Hk Hsub].
      apply (IH st0 x k st0'); try assumption.
      * apply Havoid. exact Hk.
      * intros c Hc. apply Havoid. now apply Hsub.
Qed.

Lemma createNewTable_wellFormed st T cols :
  wellFormed st -> wellFormed (createNewTable st T cols).
Proof.
  intros [Hbound Hinj]. rewrite createNewTable_spec. split; simpl.
  - intros T0 a. rewrite OMap_get_set, length_app. simpl.
    destruct (String.eqb T T0); [intros [= <-]; lia|].
    intros H. specialize (Hbound T0 a H). lia.
  - intros T1 T2 a. rewrite !OMap_get_set.
    destruct (String.eqb T T1) eqn:E1; destruct (String.eqb T T2) eqn:E2.
    + apply String.eqb_eq in E1, E2. congruence.
    + intros [= <-] H. specialize (Hbound T2 _ H). lia.
    + intros H [= <-]. specialize (Hbound T1 _ H). lia.
    + apply Hinj.
Qed.

Lemma applyDefaultsToRow_defaults st1 st2 v cols :
  st1.(defaultValues) = st2.(defaultValues) ->
  applyDefaultsToRow st1 v cols = applyDefaultsToRow st2 v cols.
Proof. intros H. unfold applyDefaultsToRow. now rewrite H. Qed.

Lemma generateCanonicalKey_defaults st1 st2 row cols :
  st1.(defaultValues) = st2.(defaultValues) ->
  generateCanonicalKey st1 row cols = generateCanonicalKey st2 row cols.
Proof. intros H. unfold generateCanonicalKey. now rewrite H. Qed.

(** The recursive calls of the traversal on the properties of an element
    whose nested contexts do not name [T]. *)
Lemma processValue_recFrames cmp T ts fuel item :
  (forall c, In c (propContexts item) -> tableNameOf ts c <> T) ->
  recFrames T ts (processValue cmp fuel) item.
Proof.
  intros Havoid st0 st0' k x Hget Hx Hwf0 Hts0 Hrun.
  destruct (getProp_contexts item k x Hget Hx) as [Hk Hsub].
  apply (processValue_frame cmp T ts fuel st0 x k st0'); try assumption.
  - now apply Havoid.
  - intros c Hc. apply Havoid. now apply Hsub.
Qed.

(** A record met under a context whose table is not registered, no nested
    context naming that table: when the registration completes, the table
    holds one row, made from this record. *)
Lemma processObjectValue_fresh_nested cmp fuel st fields context st' :
  wellFormed st ->
  OMap.has st.(tableRegistry) (resolveTableName st context) = false ->
  (forall c, In c (contextsIn (JObject fields)) ->
             resolveTableName st c <> resolveTableName st context) ->
  processObjectValue cmp (processValue cmp fuel) st fields context = Ok st' ->
  exists cells,
    OMap.get st'.(tableRegistry) (resolveTableName st context)
    = Some (mkTable (sortColumnNames cmp (OMap.keys fields)) [cells]
                    [JObject fields]).
Proof.
  intros Hwf Habsent Havoid. unfold processObjectValue, registerColumns.
  rewrite Habsent. cbn [negb bind].
  set (T := resolveTableName st context) in *.
  set (cols := sortColumnNames cmp (OMap.keys fields)).
  pose proof (createNewTable_wellFormed st T cols Hwf) as Hwf1.
  rewrite createNewTable_spec in *. cbn [tableRegistry objectToIndexMap].
  rewrite !OMap_get_set_eq. cbn [columns].
  match goal with |- context [processNested _ ?s _ _] => set (st1 := s) in * end.
  set (addr := List.length st.(mapStore)) in *.
  destruct (processNested (processValue cmp fuel) st1 (JObject fields) cols)
    as [st2| |] eqn:Enested; cbn [bind]; try discriminate.
  destruct (processNested_frame T st.(tableStructure) (processValue cmp fuel)
              (JObject fields) cols st1 st2) as [Hwf2 Hfr]; try assumption.
  { apply processValue_recFrames. exact Havoid. }
  { reflexivity. }
  rewrite applyDefaultsToRow_record. cbn [bind].
  match goal with |- context [generateCanonicalKey st2 ?r cols] =>
    set (row := r) end.
  assert (Hempty : deref st2 addr = []).
  { rewrite (frame_store Hfr addr).
    - unfold deref, st1, addr. cbn [mapStore]. rewrite app_nth2 by lia.
      now rewrite Nat.sub_diag.
    - unfold st1. cbn [objectToIndexMap]. apply OMap_get_set_eq. }
  rewrite Hempty. cbn [OMap.has OMap.get negb].
  destruct (addRowToTable_spec st2 T (JObject fields) row cols
              (generateCanonicalKey st2 row cols) (mkTable cols [] []) addr)
    as [cells [_ Hadd]].
  { rewrite (frame_registry Hfr). unfold st1. cbn [tableRegistry].
    apply OMap_get_set_eq. }
  { rewrite (frame_map Hfr). unfold st1. cbn [objectToIndexMap].
    apply OMap_get_set_eq. }
  rewrite Hadd. cbn [bind fst]. intros [= <-].
  exists cells. unfold rowAdded. cbn [tableRegistry columns rows originalData].
  apply OMap_get_set_eq.
Qed.

Lemma registration_apart cmp fuel st fields context1 context2 st1 st2 :
  wellFormed st ->
  resolveTableName st context1 <> resolveTableName st context2 ->
  OMap.has st.(tableRegistry) (resolveTableName st context1) = false ->
  OMap.has st.(tableRegistry) (resolveTableName st context2) = false ->
  (forall c, In c (contextsIn (JObject fields)) ->
             resolveTableName st c <> resolveTableName st context1
             /\ resolveTableName st c <> resolveTableName st context2) ->
  processObjectValue cmp (processValue cmp fuel) st fields context1 = Ok st1 ->
  processObjectValue cmp (processValue cmp fuel) st1 fields context2 = Ok st2 ->
  exists row1 row2,
    OMap.get st2.(tableRegistry) (resolveTableName st context1)
    = Some (mkTable (sortColumnNames cmp (OMap.keys fields)) [row1]
                    [JObject fields]) /\
    OMap.get st2.(tableRegistry) (resolveTableName st context2)
    = Some (mkTable (sortColumnNames cmp (OMap.keys fields)) [row2]
                    [JObject fields]).
Proof.
  intros Hwf Hdiff Habsent1 Habsent2 Havoid Hrun1 Hrun2.
  set (ts := st.(tableStructure)).
  set (rec := processValue cmp fuel) in *.
  set (T1 := resolveTableName st context1) in *.
  set (T2 := resolveTableName st context2) in *.
  assert (Hrec1 : recFrames T1 ts rec (JObject fields)).
  { apply processValue_recFrames. intros c Hc. now apply Havoid. }
  assert (Hrec2 : recFrames T2 ts rec (JObject fields)).
  { apply processValue_recFrames. intros c Hc. now apply Havoid. }
  assert (Havoid1 : forall c, In c (contextsIn (JObject fields)) ->
                              resolveTableName st c <> T1).
  { intros c Hc. now apply Havoid. }
  destruct (processObjectValue_fresh_nested cmp fuel st fields context1 st1
              Hwf Habsent1 Havoid1 Hrun1) as [row1 Hrow1].
  fold T1 in Hrow1.
  destruct (processObjectValue_frame cmp T2 ts rec fields context1 st st1
              Hdiff Hrec2 Hwf eq_refl Hrun1) as [Hwf1 Hfr1].
  assert (Hname : forall c, resolveTableName st1 c = resolveTableName st c).
  { intros c. rewrite !resolveTableName_tableNameOf.
    now rewrite (frame_structure Hfr1). }
  assert (Habsent2' : OMap.has st1.(tableRegistry) (resolveTableName st1 context2)
                      = false).
  { rewrite Hname. fold T2. apply has_false_get.
    rewrite (frame_registry Hfr1). now apply has_false_get. }
  assert (Havoid2 : forall c, In c (contextsIn (JObject fields)) ->
                              resolveTableName st1 c
                              <> resolveTableName st1 context2).
  { intros c Hc. rewrite !Hname. now apply Havoid. }
  destruct (processObjectValue_fresh_nested cmp fuel st1 fields context2 st2
              Hwf1 Habsent2' Havoid2 Hrun2) as [row2 Hrow2].
  rewrite Hname in Hrow2. fold T2 in Hrow2.
  assert (Hdiff' : tableNameOf ts context2 <> T1).
  { intros H. apply Hdiff. symmetry. exact H. }
  destruct (processObjectValue_frame cmp T1 ts rec fields context2 st1 st2
              Hdiff' Hrec1 Hwf1 (frame_structure Hfr1) Hrun2) as [Hwf2 Hfr2].
  exists row1, row2. split; [|assumption].
  rewrite (frame_registry Hfr2). assumption.
Qed.

(** An array of copies of one record with at least one field, met under a
    context whose table is not registered, no nested context naming that
    table: when the traversal completes, the table holds one row and the
    array is memoized as that row's index, once per copy. *)
Lemma processArrayValue_fresh_nested cmp fuel st fields n context cacheKey st' :
  wellFormed st -> fields <> [] ->
  OMap.has st.(tableRegistry) (resolveTableName st context) = false ->
  (forall c, In c (contextsIn (JObject fields)) ->
             resolveTableName st c <> resolveTableName st context) ->
  processArrayValue cmp (processValue cmp fuel) st
                    (repeat (JObject fields) (S n)) context cacheKey = Ok st' ->
  exists cells,
    OMap.get st'.(tableRegistry) (resolveTableName st context)
    = Some (mkTable (extractColumnNames cmp (repeat (JObject fields) (S n)))
                    [cells] [JObject fields]) /\
    OMap.get st'.(arrayReferenceCache) cacheKey
    = Some (referenceText (resolveTableName st context) (repeat 0 (S n))).
Proof.
  intros Hwf Hne Habsent Havoid.
  set (T := resolveTableName st context) in *.
  set (ts := st.(tableStructure)).
  set (rec := processValue cmp fuel).
  set (item := JObject fields).
  set (cols := extractColumnNames cmp (repeat item (S n))).
  assert (Hcols : (List.length cols =? 0) = false).
  { apply Nat.eqb_neq. destruct fields as [|[k v] fields]; [congruence|].
    assert (Hk : In k cols).
    { apply extractColumnNames_In. eexists. split; [left; reflexivity | now left]. }
    destruct cols; [contradiction | discriminate]. }
  assert (Hrec : recFrames T ts rec item).
  { apply processValue_recFrames. exact Havoid. }
  unfold processArrayValue. cbn [repeat]. unfold item at 1 2 3.
  cbn [typeofObject isArray negb orb]. fold T.
  change (item :: repeat item n) with (repeat item (S n)). fold cols.
  rewrite Hcols. unfold registerColumns. rewrite Habsent. cbn [negb bind].
  pose proof (createNewTable_wellFormed st T cols Hwf) as Hwf1.
  rewrite createNewTable_spec in *. cbn [tableRegistry objectToIndexMap].
  rewrite !OMap_get_set_eq. cbn [columns].
  match goal with |- context [foldM ?f (?s, [])] =>
    set (body := f); set (st1 := s) in * end.
  set (addr := List.length st.(mapStore)) in *.
  set (row := fold_left (fun row c => objSet row c (normalizedValue st fields c))
                        cols []).
  set (key := generateCanonicalKey st row cols).
  assert (Hrow : forall s, s.(defaultValues) = st.(defaultValues) ->
                           applyDefaultsToRow s item cols = Ok row
                           /\ generateCanonicalKey s row cols = key).
  { intros s Hs. split.
    - rewrite (applyDefaultsToRow_defaults s st item cols Hs).
      apply applyDefaultsToRow_record.
    - now apply generateCanonicalKey_defaults. }
  (* the first copy adds the row *)
  assert (Hfirst : forall acc,
             body (st1, []) item = Ok acc ->
             exists cells,
               snd acc = [0] /\ wellFormed (fst acc) /\
               (fst acc).(tableStructure) = ts /\
               (fst acc).(defaultValues) = st.(defaultValues) /\
               OMap.get (fst acc).(tableRegistry) T
               = Some (mkTable cols [cells] [item]) /\
               OMap.get (fst acc).(objectToIndexMap) T = Some addr /\
               deref (fst acc) addr = [(key, 0)]).
  { intros acc. unfold body. fold addr.
    destruct (processNested rec st1 item cols) as [s1| |] eqn:Enested;
      cbn [bind]; try discriminate.
    destruct (processNested_frame T ts rec item cols st1 s1 Hrec Hwf1 eq_refl
                Enested) as [Hs1 Hfr].
    destruct (Hrow s1) as [Hr Hk]; [now rewrite (frame_defaults Hfr)|].
    rewrite Hr. cbn [bind]. rewrite Hk.
    assert (Hempty : deref s1 addr = []).
    { rewrite (frame_store Hfr addr).
      - unfold deref, st1, addr. cbn [mapStore]. rewrite app_nth2 by lia.
        now rewrite Nat.sub_diag.
      - unfold st1. cbn [objectToIndexMap]. apply OMap_get_set_eq. }
    rewrite Hempty. cbn [OMap.get].
    assert (Hreg1 : OMap.get s1.(tableRegistry) T = Some (mkTable cols [] [])).
    { rewrite (frame_registry Hfr). unfold st1. cbn [tableRegistry].
      apply OMap_get_set_eq. }
    assert (Hmap1 : OMap.get s1.(objectToIndexMap) T = Some addr).
    { rewrite (frame_map Hfr). unfold st1. cbn [objectToIndexMap].
      apply OMap_get_set_eq. }
    destruct (addRowToTable_spec s1 T item row cols key (mkTable cols [] []) addr
                Hreg1 Hmap1) as [cells [_ Hadd]].
    rewrite Hadd. cbn [bind fst snd]. intros [= <-]. exists cells.
    cbn [fst snd]. unfold rowAdded.
    cbn [tableRegistry objectToIndexMap tableStructure defaultValues
         columns rows originalData List.length].
    split; [reflexivity|].
    split.
    { destruct Hs1 as [Hbound Hinj]. split; cbn [objectToIndexMap mapStore].
      - intros T0 a H. rewrite length_updateNth. now apply (Hbound T0).
      - apply Hinj. }
    split; [exact (frame_structure Hfr)|].
    split; [exact (frame_defaults Hfr)|].
    split; [apply OMap_get_set_eq|].
    split; [exact Hmap1|].
    unfold deref. cbn [mapStore].
    rewrite nth_updateNth by (destruct Hs1 as [Hbound _]; now apply (Hbound T)).
    fold (deref s1 addr). now rewrite Hempty. }
  (* every further copy finds it *)
  assert (Hnext : forall m cells s indices acc,
             wellFormed s -> s.(tableStructure) = ts ->
             s.(defaultValues) = st.(defaultValues) ->
             OMap.get s.(tableRegistry) T = Some (mkTable cols [cells] [item]) ->
             OMap.get s.(objectToIndexMap) T = Some addr ->
             deref s addr = [(key, 0)] ->
             foldM body (s, indices) (repeat item m) = Ok acc ->
             snd acc = (indices ++ repeat 0 m)%list /\
             OMap.get (fst acc).(tableRegistry) T
             = Some (mkTable cols [cells] [item])).
  { induction m as [|m IH]; intros cells s indices acc Hs Hts Hdv Hreg Hmap Hseen;
      cbn [repeat foldM].
    - intros [= <-]. cbn [fst snd]. now rewrite app_nil_r.
    - unfold body at 1. fold addr.
      destruct (processNested rec s item cols) as [s1| |] eqn:Enested;
        cbn [bind]; try discriminate.
      destruct (processNested_frame T ts rec item cols s s1 Hrec Hs Hts Enested)
        as [Hs1 Hfr].
      destruct (Hrow s1) as [Hr Hk];
        [rewrite (frame_defaults Hfr); assumption|].
      rewrite Hr. cbn [bind]. rewrite Hk.
      rewrite (frame_store Hfr addr Hmap), Hseen. cbn [OMap.get].
      rewrite String.eqb_refl. cbn [bind]. intros Hfold.
      destruct (IH cells s1 (indices ++ [0])%list acc) as [H1 H2]; try assumption.
      + rewrite (frame_structure Hfr). assumption.
      + rewrite (frame_defaults Hfr). assumption.
      + rewrite (frame_registry Hfr). assumption.
      + rewrite (frame_map Hfr). assumption.
      + rewrite (frame_store Hfr addr Hmap). assumption.
      + split; [|assumption]. rewrite H1. now rewrite <- app_assoc. }
  change (repeat item (S n)) with (item :: repeat item n). cbn [foldM].
  destruct (body (st1, []) item) as [[s2 indices2]| |] eqn:Ebody; cbn [bind];
    try discriminate.
  destruct (Hfirst (s2, indices2) eq_refl)
    as [cells [Hidx [Hs2 [Hts2 [Hdv2 [Hreg2 [Hmap2 Hseen2]]]]]]].
  cbn [fst snd] in *. subst indices2.
  destruct (foldM body (s2, [0]) (repeat item n)) as [[s3 indices3]| |] eqn:Efold;
    cbn [bind]; try discriminate.
  destruct (Hnext n cells s2 [0] (s3, indices3) Hs2 Hts2 Hdv2 Hreg2 Hmap2 Hseen2
              Efold) as [Hidx3 Hreg3].
  cbn [fst snd] in *. subst indices3.
  intros [= <-]. exists cells.
  cbn [tableRegistry arrayReferenceCache withCache].
  split; [exact Hreg3|].
  rewrite OMap_get_set_eq. reflexivity.
Qed.


Lemma initialize_wellFormed config : wellFormed (initialize config).
Proof. split; simpl; intros; discriminate. Qed.



(** The dedup map that [processArrayValue] reads is the one it captured
    before the nested values were processed.  When a nested value rebuilds
    the array's own table, the rows are added to the new map and looked up
    in the old one: the two copies of [{a: {x: 1}}] under the context [a]
    give two rows. *)
Lemma stale_dedup_map_example :
  parse codeUnitCompare
        (JObject [("a", JArray [JObject [("a", JObject [("x", JNumber 1)])];
                                JObject [("a", JObject [("x", JNumber 1)])]])])
        (mkConfig [] [])
  = Ok (JS.join newline ["#a{a,x}:"; "  null,1"; "  @a[0]"; "  @a[0]"]).
Proof. vm_compute. reflexivity. Qed.

(** ** Scope of deduplication *)




(** ** Dependency orderer *)

Lemma setAdd_In l x y : In y (setAdd l x) <-> In y l \/ y = x.
Proof.
  unfold setAdd. destruct (mem x l) eqn:E.
  - apply mem_In in E. split; [tauto|]. intros [H| ->]; assumption.
  - rewrite in_app_iff. simpl. split; intros [H|H]; try tauto.
    + destruct H as [<-|[]]. now right.
    + subst. tauto.
Qed.

Lemma setDelete_In l x y : In y (setDelete l x) <-> In y l /\ y <> x.
Proof.
  unfold setDelete. rewrite filter_In, negb_true_iff, String.eqb_neq.
  split; intros [H1 H2]; split; congruence.
Qed.

Lemma setDelete_absent l x : ~ In x l -> setDelete l x = l.
Proof.
  intros H. unfold setDelete. induction l as [|y l IH]; simpl; [reflexivity|].
  destruct (String.eqb x y) eqn:E; simpl.
  - apply String.eqb_eq in E. subst. exfalso. apply H. now left.
  - f_equal. apply IH. intros Hin. apply H. now right.
Qed.

Lemma setDelete_setAdd l x : mem x l = false -> setDelete (setAdd l x) x = l.
Proof.
  intros H. unfold setAdd. rewrite H. apply mem_false_In in H.
  unfold setDelete. rewrite filter_app. simpl. rewrite String.eqb_refl. simpl.
  rewrite app_nil_r. now apply setDelete_absent.
Qed.

Lemma filter_length_le {A} (p q : A -> bool) l :
  (forall x, p x = true -> q x = true) ->
  List.length (filter p l) <= List.length (filter q l).
Proof.
  intros H. induction l as [|x l IH]; simpl; [lia|].
  destruct (p x) eqn:Ep.
  - rewrite (H x Ep). simpl. lia.
  - destruct (q x); simpl; lia.
Qed.

Lemma filter_length_lt {A} (p q : A -> bool) l x :
  (forall y, p y = true -> q y = true) ->
  In x l -> p x = false -> q x = true ->
  List.length (filter p l) < List.length (filter q l).
Proof.
  intros H Hin Hp Hq. induction l as [|y l IH]; [contradiction|].
  simpl. destruct Hin as [-> | Hin].
  - rewrite Hp, Hq. simpl. pose proof (filter_length_le p q l H). lia.
  - specialize (IH Hin). destruct (p y) eqn:Ep.
    + rewrite (H y Ep). simpl. lia.
    + destruct (q y); simpl; lia.
Qed.

Lemma idleNodes_add g visiting node :
  In node (OMap.keys g) -> mem node visiting = false ->
  idleNodes g (setAdd visiting node) < idleNodes g visiting.
Proof.
  intros Hin Hmem. unfold idleNodes.
  apply filter_length_lt with (x := node); try assumption.
  - intros y Hy. apply negb_true_iff in Hy. apply negb_true_iff.
    apply mem_false_In. apply mem_false_In in Hy.
    intros H. apply Hy. apply setAdd_In. now left.
  - apply negb_false_iff. apply mem_In. apply setAdd_In. now right.
  - now rewrite Hmem.
Qed.

Lemma has_In_keys {V} (m : list (string * V)) k :
  OMap.has m k = true <-> In k (OMap.keys m).
Proof.
  pose proof (OMap_get_None_keys m k) as H. unfold OMap.has.
  destruct (OMap.get m k).
  - split; [|reflexivity]. intros _.
    destruct (in_dec string_dec k (OMap.keys m)) as [Hin|Hnot]; [assumption|].
    apply H in Hnot. discriminate.
  - split; [discriminate|]. intros Hin. exfalso. now apply (proj1 H).
Qed.

(** One visit returns, and leaves the set of nodes in progress as it found
    it, whenever the fuel covers the nodes that are not in progress. *)
Lemma visitNode_returns g : forall fuel v node,
  In node (OMap.keys g) ->
  idleNodes g v.(visitingNodes) <= fuel ->
  exists v', visitNode fuel g v node = Ok v'
             /\ v'.(visitingNodes) = v.(visitingNodes).
Proof.
  induction fuel as [|fuel IH]; intros v node Hnode Hfuel.
  - simpl. destruct (mem node (visitedNodes v)) eqn:Ev; [eauto|].
    destruct (mem node (visitingNodes v)) eqn:Eg; [eauto|].
    pose proof (idleNodes_add g _ node Hnode Eg). lia.
  - simpl. destruct (mem node (visitedNodes v)) eqn:Ev; [eauto|].
    destruct (mem node (visitingNodes v)) eqn:Eg; [eauto|].
    pose proof (idleNodes_add g _ node Hnode Eg) as Hlt.
    set (deps := match OMap.get g node with Some d => d | None => [] end).
    assert (Hloop : forall v1,
               visitingNodes v1 = setAdd (visitingNodes v) node ->
               exists v2,
                 foldM (fun v dependency =>
                          if OMap.has g dependency
                          then visitNode fuel g v dependency
                          else Ok v) v1 deps = Ok v2
                 /\ visitingNodes v2 = setAdd (visitingNodes v) node).
    { induction deps as [|d deps IHd]; intros v1 Hv1; simpl; [eauto|].
      destruct (OMap.has g d) eqn:Ed.
      - destruct (IH v1 d) as [v1' [Hrun Hkeep]].
        + now apply has_In_keys.
        + rewrite Hv1. lia.
        + rewrite Hrun. simpl. apply IHd. congruence.
      - simpl. now apply IHd. }
    destruct (Hloop (mkVisit (sortedOrder v) (visitedNodes v)
                             (setAdd (visitingNodes v) node)) eq_refl)
      as [v2 [Hrun Hkeep]].
    rewrite Hrun. simpl. eexists. split; [reflexivity|]. simpl.
    rewrite Hkeep. now apply setDelete_setAdd.
Qed.

Lemma topologicalOrder_returns g : exists order, topologicalOrder g = Ok order.
Proof.
  unfold topologicalOrder.
  assert (H : forall nodes v,
             (forall n, In n nodes -> In n (OMap.keys g)) ->
             visitingNodes v = [] ->
             exists v', foldM (visitNode (List.length g) g) v nodes = Ok v').
  { induction nodes as [|n nodes IHn]; intros v Hnodes Hv; simpl; [eauto|].
    destruct (visitNode_returns g (List.length g) v n) as [v1 [Hrun Hkeep]].
    - apply Hnodes. now left.
    - rewrite Hv. unfold idleNodes.
      pose proof (filter_length_le (fun k => negb (mem k [])) (fun _ => true)
                    (OMap.keys g) (fun _ _ => eq_refl)) as Hle.
      assert (Hall : filter (fun _ : string => true) (OMap.keys g) = OMap.keys g).
      { clear. induction (OMap.keys g) as [|k ks IHk]; simpl;
          [reflexivity | now f_equal]. }
      rewrite Hall in Hle. unfold OMap.keys in Hle at 2.
      rewrite length_map in Hle. exact Hle.
    - rewrite Hrun. simpl. apply IHn; [|congruence].
      intros m Hm. apply Hnodes. now right. }
  destruct (H (OMap.keys g) (mkVisit [] [] [])) as [v' Hrun]; [auto | reflexivity|].
  rewrite Hrun. simpl. eauto.
Qed.

Lemma before_app d n order extra :
  before d n order -> before d n (order ++ extra).
Proof.
  intros [l1 [l2 [l3 ->]]]. exists l1, l2, (l3 ++ extra)%list.
  now rewrite <- !app_assoc, <- !app_comm_cons, <- app_assoc.
Qed.

Lemma before_last d n order : In d order -> before d n (order ++ [n]).
Proof.
  intros H. apply in_split in H. destruct H as [l1 [l2 ->]].
  exists l1, l2, []. now rewrite <- app_assoc.
Qed.

Lemma before_positions d n order :
  before d n order ->
  exists i j, i < j /\ nth_error order i = Some d /\ nth_error order j = Some n.
Proof.
  intros [l1 [l2 [l3 ->]]].
  exists (List.length l1), (List.length l1 + S (List.length l2)).
  split; [lia|]. split.
  - rewrite nth_error_app2 by lia. now rewrite Nat.sub_diag.
  - rewrite nth_error_app2 by lia.
    replace (List.length l1 + S (List.length l2) - List.length l1)
      with (S (List.length l2)) by lia.
    simpl. rewrite nth_error_app2 by lia. now rewrite Nat.sub_diag.
Qed.

Lemma visitNode_skips fuel g v node :
  mem node v.(visitedNodes) || mem node v.(visitingNodes) = true ->
  visitNode fuel g v node = Ok v.
Proof.
  intros H. destruct fuel; simpl;
    destruct (mem node (visitedNodes v)); try reflexivity;
    destruct (mem node (visitingNodes v)); try reflexivity; discriminate.
Qed.

Lemma visitNode_sorts g : acyclicGraph g -> forall fuel v node v',
  visitNode fuel g v node = Ok v' ->
  In node (OMap.keys g) ->
  VisitInv g v ->
  (forall s, In s v.(visitingNodes) -> reaches g s node) ->
  VisitPost g v node v'.
Proof.
  intros Hacyclic. induction fuel as [|fuel IH]; intros v node v' Hrun Hnode Hinv Hstack.
  - simpl in Hrun. destruct (mem node (visitedNodes v)) eqn:Ev.
    + injection Hrun as <-. apply mem_In in Ev.
      constructor; auto. exists []. now rewrite app_nil_r.
    + destruct (mem node (visitingNodes v)) eqn:Eg; [|discriminate].
      apply mem_In in Eg. exfalso. apply (Hacyclic node). now apply Hstack.
  - simpl in Hrun. destruct (mem node (visitedNodes v)) eqn:Ev.
    { injection Hrun as <-. apply mem_In in Ev.
      constructor; auto. exists []. now rewrite app_nil_r. }
    destruct (mem node (visitingNodes v)) eqn:Eg.
    { apply mem_In in Eg. exfalso. apply (Hacyclic node). now apply Hstack. }
    apply mem_false_In in Ev. pose proof Eg as Eg'. apply mem_false_In in Eg.
    set (deps := match OMap.get g node with Some d => d | None => [] end) in *.
    assert (Hdeps : forall d, In d deps -> OMap.has g d = true -> d <> node ->
                              dependsOn g node d).
    { intros d Hd Hhas Hne. unfold deps in Hd.
      destruct (OMap.get g node) as [ds|] eqn:E; [|contradiction].
      exists ds. auto. }
    set (stack := setAdd (visitingNodes v) node) in *.
    assert (Hloop : forall rest v1 v2,
      (forall d, In d rest -> In d deps) ->
      foldM (fun v dependency =>
               if OMap.has g dependency
               then visitNode fuel g v dependency
               else Ok v) v1 rest = Ok v2 ->
      VisitInv g v1 -> visitingNodes v1 = stack ->
      (forall x, In x (visitedNodes v1) ->
                 In x (visitedNodes v) \/ ~ In x stack) ->
      VisitInv g v2 /\ visitingNodes v2 = stack /\
      (forall x, In x (visitedNodes v1) -> In x (visitedNodes v2)) /\
      (exists extra, sortedOrder v2 = (sortedOrder v1 ++ extra)%list) /\
      (forall x, In x (visitedNodes v2) ->
                 In x (visitedNodes v) \/ ~ In x stack) /\
      (forall d, In d rest -> OMap.has g d = true -> d <> node ->
                 In d (visitedNodes v2))).
    { induction rest as [|d rest IHrest]; intros v1 v2 Hsub Hfold Hinv1 Hvis1 Hnew1.
      - simpl in Hfold. injection Hfold as <-.
        repeat split; auto; try apply Hinv1.
        + exists []. now rewrite app_nil_r.
        + intros d [].
      - simpl in Hfold.
        destruct (OMap.has g d) eqn:Ed.
        + destruct (visitNode fuel g v1 d) as [v1'| |] eqn:Evisit;
            simpl in Hfold; try discriminate.
          assert (Hpost : VisitPost g v1 d v1' \/ (d = node /\ v1' = v1)).
          { destruct (string_dec d node) as [-> | Hne].
            - right. split; [reflexivity|].
              rewrite visitNode_skips in Evisit; [congruence|].
              apply orb_true_iff. right. apply mem_In. rewrite Hvis1.
              apply setAdd_In. now right.
            - left. apply (IH v1 d v1' Evisit); [now apply has_In_keys | assumption|].
              intros s Hs. rewrite Hvis1 in Hs. apply setAdd_In in Hs.
              assert (Hstep : dependsOn g node d).
              { apply Hdeps; [apply Hsub; now left | assumption | assumption]. }
              destruct Hs as [Hs | ->].
              + apply t_trans with node; [now apply Hstack | now apply t_step].
              + now apply t_step. }
          destruct Hpost as [Hpost | [-> ->]].
          * destruct (IHrest v1' v2) as [H1 [H2 [H3 [H4 [H5 H6]]]]]; try assumption.
            -- intros d' Hd'. apply Hsub. now right.
            -- apply Hpost.
            -- rewrite (post_visiting Hpost). assumption.
            -- intros x Hx. destruct (post_new Hpost x Hx) as [Hold | Hnot].
               ++ now apply Hnew1.
               ++ right. now rewrite <- Hvis1.
            -- repeat split; try assumption; try apply H1.
               ++ intros x Hx. apply H3. now apply (post_keeps Hpost).
               ++ destruct H4 as [extra2 H4].
                  destruct (post_order Hpost) as [extra1 H4'].
                  exists (extra1 ++ extra2)%list.
                  now rewrite H4, H4', app_assoc.
               ++ intros d' [<- | Hd'] Hhas Hne.
                  ** apply H3. apply (post_visited Hpost).
                  ** now apply H6.
          * destruct (IHrest v1 v2) as [H1 [H2 [H3 [H4 [H5 H6]]]]]; try assumption.
            -- intros d' Hd'. apply Hsub. now right.
            -- repeat split; try assumption; try apply H1.
               intros d' [<- | Hd'] Hhas Hne; [congruence | now apply H6].
        + simpl in Hfold.
          destruct (IHrest v1 v2) as [H1 [H2 [H3 [H4 [H5 H6]]]]]; try assumption.
          * intros d' Hd'. apply Hsub. now right.
          * repeat split; try assumption; try apply H1.
            intros d' [<- | Hd'] Hhas Hne; [congruence | now apply H6]. }
    match type of Hrun with
    | context [foldM ?f ?v1 deps] => destruct (foldM f v1 deps) as [v2| |] eqn:Efold
    end; simpl in Hrun; try discriminate.
    injection Hrun as <-.
    destruct (Hloop deps _ v2 (fun d H => H) Efold) as [H1 [H2 [H3 [H4 [H5 H6]]]]].
    + constructor; simpl; apply Hinv.
    + reflexivity.
    + simpl. intros x Hx. now left.
    + simpl in H3, H4. destruct H4 as [extra H4].
      assert (Hfresh : ~ In node (visitedNodes v2)).
      { intros Hin. destruct (H5 node Hin) as [Hold | Hnot]; [contradiction|].
        apply Hnot. apply setAdd_In. now right. }
      constructor; simpl.
      * constructor; simpl.
        -- intros x. rewrite in_app_iff, setAdd_In, (inv_same H1). simpl.
           split; intros [H | H]; try tauto.
           ++ destruct H as [<- | []]. now right.
           ++ subst. right. now left.
        -- apply (Permutation_NoDup (l := node :: sortedOrder v2)).
           ++ apply Permutation_cons_append.
           ++ constructor; [|apply H1]. now rewrite (inv_same H1).
        -- intros x Hx. apply setAdd_In in Hx. destruct Hx as [Hx | ->];
             [now apply (inv_nodes H1) | assumption].
        -- intros n d Hn Hdep. apply setAdd_In in Hn. destruct Hn as [Hn | ->].
           ++ apply before_app. now apply (inv_before H1).
           ++ apply before_last. apply (inv_same H1).
              destruct Hdep as [ds [Hget [Hd [Hhas Hne]]]].
              apply H6; try assumption. unfold deps. now rewrite Hget.
      * rewrite H2. now apply setDelete_setAdd.
      * apply setAdd_In. now right.
      * intros x Hx. apply setAdd_In. left. now apply H3.
      * exists (extra ++ [node])%list. now rewrite H4, app_assoc.
      * intros x Hx. apply setAdd_In in Hx. destruct Hx as [Hx | ->].
        -- destruct (H5 x Hx) as [Hold | Hnot]; [now left|].
           right. intros Hin. apply Hnot. apply setAdd_In. now left.
        -- now right.
Qed.

Lemma topologicalOrder_sorts g order :
  acyclicGraph g -> topologicalOrder g = Ok order ->
  NoDup order /\
  (forall n, In n order <-> In n (OMap.keys g)) /\
  (forall n d, dependsOn g n d -> before d n order).
Proof.
  intros Hacyclic. unfold topologicalOrder.
  assert (H : forall nodes v v',
             (forall n, In n nodes -> In n (OMap.keys g)) ->
             foldM (visitNode (List.length g) g) v nodes = Ok v' ->
             VisitInv g v -> visitingNodes v = [] ->
             VisitInv g v' /\
             (forall x, In x (visitedNodes v) -> In x (visitedNodes v')) /\
             (forall n, In n nodes -> In n (visitedNodes v'))).
  { induction nodes as [|n nodes IHn]; intros v v' Hnodes Hfold Hinv Hvis.
    - simpl in Hfold. injection Hfold as <-.
      split; [assumption|]. split; [auto|]. intros n [].
    - simpl in Hfold.
      destruct (visitNode (List.length g) g v n) as [v1| |] eqn:E;
        simpl in Hfold; try discriminate.
      assert (Hpost : VisitPost g v n v1).
      { apply (visitNode_sorts g Hacyclic _ v n v1 E);
          [apply Hnodes; now left | assumption|].
        rewrite Hvis. intros s []. }
      destruct (IHn v1 v') as [H1 [H2 H3]]; try assumption.
      + intros m Hm. apply Hnodes. now right.
      + apply Hpost.
      + rewrite (post_visiting Hpost). assumption.
      + split; [assumption|]. split.
        * intros x Hx. apply H2. now apply (post_keeps Hpost).
        * intros m [<- | Hm]; [apply H2, (post_visited Hpost) | now apply H3]. }
  destruct (foldM _ _ _) as [v'| |] eqn:Efold; simpl; try discriminate.
  intros [= <-].
  destruct (H (OMap.keys g) (mkVisit [] [] []) v' (fun n Hn => Hn) Efold)
    as [Hinv [_ Hall]].
  - constructor; simpl.
    + tauto.
    + constructor.
    + intros x [].
    + intros n d [].
  - reflexivity.
  - split; [apply Hinv|]. split.
    + intros n. rewrite (inv_same Hinv). split; [apply (inv_nodes Hinv) | apply Hall].
    + intros n d Hdep. apply (inv_before Hinv); [|assumption].
      apply Hall. destruct Hdep as [deps [Hget _]].
      apply has_In_keys. unfold OMap.has. now rewrite Hget.
Qed.

Lemma tableDependencies_no_self tableName table :
  ~ In tableName (tableDependencies tableName table).
Proof.
  unfold tableDependencies.
  assert (Hcells : forall row deps,
             ~ In tableName deps ->
             ~ In tableName
                 (fold_left
                    (fun dependencies cell =>
                       if JS.startsWith cell "@" then
                         let referencedTable := referencedTableOf cell in
                         if negb (String.eqb referencedTable tableName)
                         then setAdd dependencies referencedTable
                         else dependencies
                       else dependencies) row deps)).
  { induction row as [|cell row IH]; intros deps Hdeps; simpl; [assumption|].
    apply IH. destruct (JS.startsWith cell "@"); [|assumption].
    destruct (String.eqb (referencedTableOf cell) tableName) eqn:E; simpl;
      [assumption|].
    apply String.eqb_neq in E. rewrite setAdd_In. intros [H | H]; congruence. }
  assert (Hrows : forall rs deps,
             ~ In tableName deps ->
             ~ In tableName
                 (fold_left
                    (fun dependencies row =>
                       fold_left
                         (fun dependencies cell =>
                            if JS.startsWith cell "@" then
                              let referencedTable := referencedTableOf cell in
                              if negb (String.eqb referencedTable tableName)
                              then setAdd dependencies referencedTable
                              else dependencies
                            else dependencies) row dependencies) rs deps)).
  { induction rs as [|row rs IH]; intros deps Hdeps; simpl; [assumption|].
    apply IH. now apply Hcells. }
  apply Hrows. intros [].
Qed.

Lemma buildDependencyGraph_no_self st n deps :
  OMap.get (buildDependencyGraph st) n = Some deps -> ~ In n deps.
Proof.
  unfold buildDependencyGraph.
  assert (H : forall registry graph,
             (forall k ds, OMap.get graph k = Some ds -> ~ In k ds) ->
             forall k ds,
               OMap.get
                 (fold_left
                    (fun dependencyGraph entry =>
                       let '(tableName, table) := (entry : string * TableData) in
                       OMap.set dependencyGraph tableName
                                (tableDependencies tableName table))
                    registry graph) k = Some ds ->
               ~ In k ds).
  { induction registry as [|[T table] registry IH]; intros graph Hgraph k ds;
      simpl; [apply Hgraph|].
    apply IH. intros k' ds'. rewrite OMap_get_set.
    destruct (String.eqb T k') eqn:E; [|apply Hgraph].
    apply String.eqb_eq in E. subst k'. intros [= <-].
    apply tableDependencies_no_self. }
  apply H. intros k ds. discriminate.
Qed.

(** A graph whose edges go down a rank has no cycle. *)
Lemma ranked_acyclic g (rank : string -> nat) :
  (forall n d, dependsOn g n d -> rank d < rank n) -> acyclicGraph g.
Proof.
  intros Hrank.
  assert (H : forall a b, reaches g a b -> rank b < rank a).
  { induction 1 as [a b Hab | a b c _ IH1 _ IH2]; [now apply Hrank | lia]. }
  intros n Hn. specialize (H n n Hn). lia.
Qed.

(** C8.  The depth-first sort returns an order for every dependency graph,
    with or without cycles and self-references, and so for the graph of
    every state; that graph has no self-edge.  Whenever a graph, its
    self-edges left aside, has no cycle, the order lists every table of
    the graph exactly once and every table comes after each table of the
    graph that it depends on. *)
Theorem C8_topological_order :
  (forall g, exists order, topologicalOrder g = Ok order)
  /\ (forall st, exists order, computeTopologicalOrder st = Ok order)
  /\ (forall st n deps,
         OMap.get (buildDependencyGraph st) n = Some deps -> ~ In n deps)
  /\ (forall g order,
         topologicalOrder g = Ok order -> acyclicGraph g ->
         NoDup order /\
         (forall n, In n order <-> In n (OMap.keys g)) /\
         (forall n d, dependsOn g n d ->
                      exists i j, i < j /\ nth_error order i = Some d
                                  /\ nth_error order j = Some n)).
Proof.
  split; [|split; [|split]].
  - apply topologicalOrder_returns.
  - intros st. apply topologicalOrder_returns.
  - apply buildDependencyGraph_no_self.
  - intros g order Hrun Hacyclic.
    destruct (topologicalOrder_sorts g order Hacyclic Hrun) as [H1 [H2 H3]].
    split; [assumption|]. split; [assumption|].
    intros n d Hdep. apply before_positions. now apply H3.
Qed.

Lemma exampleGraph_acyclic : acyclicGraph exampleGraph.
Proof.
  apply (ranked_acyclic exampleGraph exampleRank).
  intros n d [deps [Hget [Hd [Hhas Hne]]]].
  unfold exampleGraph in Hget. cbn [OMap.get] in Hget.
  destruct (String.eqb "@content" n) eqn:E1.
  { apply String.eqb_eq in E1. subst n. injection Hget as <-.
    destruct Hd as [<- | [<- | [<- | []]]]; try (vm_compute; lia). congruence. }
  destruct (String.eqb "@styles" n) eqn:E2.
  { injection Hget as <-. destruct Hd. }
  destruct (String.eqb "@items" n) eqn:E3.
  { apply String.eqb_eq in E3. subst n. injection Hget as <-.
    destruct Hd as [<- | []]. vm_compute. lia. }
  destruct (String.eqb "@root" n) eqn:E4; [|discriminate].
  injection Hget as <-. destruct Hd as [<- | []]. discriminate Hhas.
Qed.

Lemma C8_topological_order_witness :
  topologicalOrder exampleGraph = Ok ["@styles"; "@items"; "@content"; "@root"]
  /\ NoDup ["@styles"; "@items"; "@content"; "@root"]
  /\ (forall n, In n ["@styles"; "@items"; "@content"; "@root"]
                <-> In n (OMap.keys exampleGraph))
  /\ (forall n d, dependsOn exampleGraph n d ->
                  exists i j, i < j
                              /\ nth_error ["@styles"; "@items"; "@content"; "@root"] i
                                 = Some d
                              /\ nth_error ["@styles"; "@items"; "@content"; "@root"] j
                                 = Some n).
Proof.
  split; [reflexivity|].
  exact (proj2 (proj2 (proj2 C8_topological_order)) exampleGraph
               ["@styles"; "@items"; "@content"; "@root"] eq_refl
               exampleGraph_acyclic).
Defined.

(** ** States that the traversal reaches *)

Lemma NoDup_keys_set {V} (m : list (string * V)) k v :
  NoDup (OMap.keys m) -> NoDup (OMap.keys (OMap.set m k v)).
Proof.
  intros H. rewrite OMap_keys_set. destruct (OMap.has m k) eqn:E; [assumption|].
  apply (Permutation_NoDup (l := k :: OMap.keys m)).
  - apply Permutation_cons_append.
  - constructor; [|assumption]. apply OMap_get_None_keys. now apply has_false_get.
Qed.

Lemma initialize_invariant config : StateInvariant (initialize config).
Proof.
  constructor; simpl.
  - apply initialize_wellFormed.
  - constructor.
  - constructor.
  - intros T table H. discriminate.
Qed.

Lemma withCache_invariant st k v :
  StateInvariant st ->
  StateInvariant (withCache st (OMap.set st.(arrayReferenceCache) k v)).
Proof.
  intros H. constructor; simpl; try apply H.
  apply NoDup_keys_set, H.
Qed.

Lemma tables_set registry T table :
  (forall T0 t, OMap.get registry T0 = Some t -> tableInvariant t) ->
  tableInvariant table ->
  forall T0 t, OMap.get (OMap.set registry T table) T0 = Some t -> tableInvariant t.
Proof.
  intros Hall Htable T0 t. rewrite OMap_get_set.
  destruct (String.eqb T T0); [intros [= <-]; assumption | apply Hall].
Qed.

(** A step that gives a table a fresh dedup map keeps the store in order. *)
Lemma alloc_wellFormed st st' T m :
  wellFormed st ->
  st'.(objectToIndexMap)
  = OMap.set st.(objectToIndexMap) T (List.length st.(mapStore)) ->
  st'.(mapStore) = (st.(mapStore) ++ [m])%list ->
  wellFormed st'.
Proof.
  intros [Hbound Hinj] Hmap Hstore. split; rewrite Hmap, ?Hstore.
  - intros T0 a. rewrite OMap_get_set, length_app. simpl.
    destruct (String.eqb T T0); [intros [= <-]; lia|].
    intros H. specialize (Hbound T0 a H). lia.
  - intros T1 T2 a. rewrite !OMap_get_set.
    destruct (String.eqb T T1) eqn:E1; destruct (String.eqb T T2) eqn:E2.
    + apply String.eqb_eq in E1, E2. congruence.
    + intros [= <-] H. specialize (Hbound T2 _ H). lia.
    + intros H [= <-]. specialize (Hbound T1 _ H). lia.
    + apply Hinj.
Qed.

Lemma createNewTable_invariant st T cols :
  StateInvariant st -> StateInvariant (createNewTable st T cols).
Proof.
  intros H. rewrite createNewTable_spec. constructor; simpl.
  - apply (alloc_wellFormed st _ T []); [apply H | reflexivity | reflexivity].
  - apply NoDup_keys_set, H.
  - apply H.
  - apply tables_set; [apply H|]. split; [reflexivity | constructor].
Qed.

Lemma rebuildRows_length st cols items : forall index m newRows newMap,
  rebuildRows st cols items index m = Ok (newRows, newMap) ->
  List.length newRows = List.length items.
Proof.
  induction items as [|item items IH]; intros index m newRows newMap; simpl.
  - now intros [= <- _].
  - destruct (applyDefaultsToRow st item cols) as [row| |]; simpl; try discriminate.
    destruct (renderCells st row cols) as [cells| |]; simpl; try discriminate.
    destruct (rebuildRows st cols items (S index) _) as [[rest restMap]| |] eqn:E;
      simpl; try discriminate.
    intros [= <- _]. simpl. f_equal. now apply (IH _ _ _ _ E).
Qed.

Lemma rebuildTableWithNewColumns_invariant st T cols st' :
  StateInvariant st ->
  rebuildTableWithNewColumns st T cols = Ok st' -> StateInvariant st'.
Proof.
  intros H. unfold rebuildTableWithNewColumns.
  destruct (OMap.get (tableRegistry st) T) as [table|] eqn:Eget; [|discriminate].
  destruct (rebuildRows _ _ _ _ _) as [[newRows newMap]| |] eqn:Erows; simpl;
    try discriminate.
  intros [= <-]. constructor; simpl.
  - apply (alloc_wellFormed st _ T newMap); [apply H | reflexivity | reflexivity].
  - apply NoDup_keys_set, NoDup_keys_set, H.
  - apply H.
  - rewrite OMap_set_set. apply tables_set; [apply H|].
    destruct (inv_tables H T table Eget) as [_ Hitems].
    split; [|assumption]. simpl. now apply (rebuildRows_length _ _ _ _ _ _ _ Erows).
Qed.

Lemma mergeTableColumns_invariant cmp st T cols st' :
  StateInvariant st ->
  mergeTableColumns cmp st T cols = Ok st' -> StateInvariant st'.
Proof.
  intros H. unfold mergeTableColumns.
  destruct (OMap.get (tableRegistry st) T) as [table|]; [|discriminate].
  destruct (hasColumnsChanged _ _).
  - now apply rebuildTableWithNewColumns_invariant.
  - now intros [= <-].
Qed.

Lemma registerColumns_invariant cmp st T cols st' :
  StateInvariant st ->
  registerColumns cmp st T cols = Ok st' -> StateInvariant st'.
Proof.
  intros H. unfold registerColumns. destruct (negb _).
  - intros [= <-]. now apply createNewTable_invariant.
  - now apply mergeTableColumns_invariant.
Qed.

Lemma addRowToTable_invariant st T item row cols key st' index :
  StateInvariant st -> isObjectLike item = true ->
  addRowToTable st T item row cols key = Ok (st', index) -> StateInvariant st'.
Proof.
  intros H Hitem. unfold addRowToTable.
  destruct (renderCells st row cols) as [cells| |]; simpl; try discriminate.
  destruct (OMap.get (tableRegistry st) T) as [table|] eqn:Eget; [|discriminate].
  destruct (OMap.get (objectToIndexMap st) T) as [addr|]; [|discriminate].
  intros [= <- _]. constructor; simpl.
  - destruct (inv_store H) as [Hbound Hinj]. split; simpl.
    + intros T0 a Ha. rewrite length_updateNth. now apply (Hbound T0).
    + apply Hinj.
  - apply NoDup_keys_set, H.
  - apply H.
  - apply tables_set; [apply H|].
    destruct (inv_tables H T table Eget) as [Hlen Hitems].
    split; simpl.
    + rewrite !length_app. simpl. lia.
    + apply Forall_app. split; [assumption | now constructor].
Qed.

(** The columns of the table after its registration include the columns
    that were registered. *)
Lemma registerColumns_columns cmp st T cols st' table c :
  registerColumns cmp st T cols = Ok st' ->
  OMap.get st'.(tableRegistry) T = Some table ->
  In c cols -> In c table.(columns).
Proof.
  unfold registerColumns. destruct (OMap.has (tableRegistry st) T) eqn:Ehas; simpl.
  - unfold OMap.has in Ehas.
    destruct (OMap.get (tableRegistry st) T) as [old|] eqn:Eold; [|discriminate].
    intros Hmerge Hget Hc.
    destruct (mergeTableColumns_columns cmp st T old cols st' Eold Hmerge)
      as [table' [Hget' Hcols]].
    rewrite Hget in Hget'. injection Hget' as <-. rewrite Hcols.
    unfold mergedColumns, sortColumnNames. apply sort_In.
    apply in_or_app. destruct (mem c (columns old)) eqn:Em.
    + left. now apply mem_In.
    + right. apply filter_In. split; [assumption | now rewrite Em].
  - intros [= <-]. rewrite createNewTable_columns. intros [= <-] Hc. exact Hc.
Qed.

Lemma applyDefaultsToRow_objectLike st item c cols row :
  applyDefaultsToRow st item (c :: cols) = Ok row -> isObjectLike item = true.
Proof.
  unfold applyDefaultsToRow. simpl.
  destruct item; simpl; try discriminate; reflexivity.
Qed.

Lemma processNested_invariant rec item cols : forall st st',
  (forall st0 st0' k x, StateInvariant st0 -> rec st0 x k = Ok st0' ->
                        StateInvariant st0') ->
  StateInvariant st ->
  processNested rec st item cols = Ok st' -> StateInvariant st'.
Proof.
  unfold processNested.
  induction cols as [|c cols IH]; intros st st' Hrec Hinv; simpl.
  - now intros [= <-].
  - destruct (getProp item c) as [[x|]| |]; simpl; try discriminate.
    + destruct (isObjectLike x).
      * destruct (rec st x c) as [st1| |] eqn:Erec; simpl; try discriminate.
        apply IH; [assumption|]. now apply (Hrec st st1 c x).
      * simpl. now apply IH.
    + now apply IH.
Qed.

Lemma processObjectValue_invariant cmp rec fields context st st' :
  (forall st0 st0' k x, StateInvariant st0 -> rec st0 x k = Ok st0' ->
                        StateInvariant st0') ->
  StateInvariant st ->
  processObjectValue cmp rec st fields context = Ok st' -> StateInvariant st'.
Proof.
  intros Hrec Hinv. unfold processObjectValue.
  destruct (registerColumns cmp st _ _) as [st1| |] eqn:Ereg; simpl;
    try discriminate.
  pose proof (registerColumns_invariant cmp st _ _ st1 Hinv Ereg) as Hinv1.
  destruct (OMap.get (tableRegistry st1) _) as [table|]; [|discriminate].
  destruct (OMap.get (objectToIndexMap st1) _) as [addr|]; [|discriminate].
  destruct (processNested rec st1 (JObject fields) (columns table))
    as [st2| |] eqn:Enested; simpl; try discriminate.
  pose proof (processNested_invariant rec _ _ st1 st2 Hrec Hinv1 Enested) as Hinv2.
  destruct (applyDefaultsToRow st2 (JObject fields) (columns table))
    as [row| |]; simpl; try discriminate.
  destruct (negb _).
  - destruct (addRowToTable st2 _ _ _ _ _) as [[st3 index]| |] eqn:Eadd;
      simpl; try discriminate.
    intros [= <-].
    eapply addRowToTable_invariant; [exact Hinv2 | | exact Eadd]. reflexivity.
  - now intros [= <-].
Qed.

Lemma processArrayValue_invariant cmp rec array context cacheKey st st' :
  (forall st0 st0' k x, StateInvariant st0 -> rec st0 x k = Ok st0' ->
                        StateInvariant st0') ->
  StateInvariant st ->
  processArrayValue cmp rec st array context cacheKey = Ok st' ->
  StateInvariant st'.
Proof.
  intros Hrec Hinv. unfold processArrayValue.
  destruct array as [|first rest]; [intros [= <-]; now apply withCache_invariant|].
  cbv iota beta. remember (first :: rest) as items eqn:Hitems.
  destruct (_ || _ || _)%bool; [intros [= <-]; now apply withCache_invariant|].
  destruct (List.length (extractColumnNames cmp items) =? 0) eqn:Ecols;
    [intros [= <-]; now apply withCache_invariant|].
  destruct (registerColumns cmp st _ _) as [st1| |] eqn:Ereg; simpl;
    try discriminate.
  pose proof (registerColumns_invariant cmp st _ _ st1 Hinv Ereg) as Hinv1.
  destruct (OMap.get (tableRegistry st1) _) as [table|] eqn:Etable; [|discriminate].
  destruct (OMap.get (objectToIndexMap st1) _) as [addr|]; [|discriminate].
  assert (Hnonempty : exists c cols, columns table = c :: cols).
  { apply Nat.eqb_neq in Ecols.
    destruct (extractColumnNames cmp items) as [|c0 cs] eqn:E; [contradiction|].
    pose proof (registerColumns_columns cmp st _ _ st1 table c0 Ereg Etable
                  (or_introl eq_refl)) as Hc.
    destruct (columns table) as [|c cols]; [contradiction | eauto]. }
  destruct Hnonempty as [c [cols Hcols]].
  match goal with |- context [foldM ?f _ _] => set (body := f) end.
  assert (Hloop : forall l acc acc',
             StateInvariant (fst acc) -> foldM body acc l = Ok acc' ->
             StateInvariant (fst acc')).
  { induction l as [|item l IH]; intros [s indices] acc' Hs; simpl.
    - now intros [= <-].
    - destruct (processNested rec s item (columns table)) as [s1| |] eqn:Enested;
        simpl; try discriminate.
      pose proof (processNested_invariant rec _ _ s s1 Hrec Hs Enested) as Hs1.
      destruct (applyDefaultsToRow s1 item (columns table)) as [row| |] eqn:Erow;
        simpl; try discriminate.
      assert (Hitem : isObjectLike item = true).
      { rewrite Hcols in Erow. now apply (applyDefaultsToRow_objectLike _ _ _ _ _ Erow). }
      destruct (OMap.get (deref s1 addr) _) as [rowIndex|].
      + simpl. now apply IH.
      + destruct (addRowToTable s1 _ _ _ _ _) as [[s2 index]| |] eqn:Eadd;
          simpl; try discriminate.
        apply IH. simpl.
        eapply addRowToTable_invariant; [exact Hs1 | exact Hitem | exact Eadd]. }
  destruct (foldM body (st1, []) items) as [[st2 indices]| |] eqn:Efold;
    simpl; try discriminate.
  intros [= <-]. apply withCache_invariant.
  exact (Hloop items (st1, []) (st2, indices) Hinv1 Efold).
Qed.

(** Every state that the traversal reaches is in order. *)
Lemma processValue_invariant cmp : forall fuel st v context st',
  StateInvariant st ->
  processValue cmp fuel st v context = Ok st' -> StateInvariant st'.
Proof.
  induction fuel as [|fuel IH]; intros st v context st' Hinv; simpl.
  - destruct (isObjectLike v); simpl; [|now intros [= <-]].
    destruct (OMap.has _ _); [now intros [= <-] | discriminate].
  - destruct (isObjectLike v); simpl; [|now intros [= <-]].
    destruct (OMap.has _ _); [now intros [= <-]|].
    destruct v as [| | | |items|fields]; try (now intros [= <-]).
    + apply processArrayValue_invariant; [|assumption].
      intros st0 st0' k x H0. now apply IH.
    + apply processObjectValue_invariant; [|assumption].
      intros st0 st0' k x H0. now apply IH.
Qed.

(** ** The fuel of the traversal *)

Lemma bind_fuel {A B : Type} (c : Result A) (k : A -> Result B) :
  fuelSuffices c -> (forall x, c = Ok x -> fuelSuffices (k x)) ->
  fuelSuffices (bind c k).
Proof.
  unfold fuelSuffices. intros Hc Hk. destruct c as [x| |]; simpl.
  - now apply Hk.
  - discriminate.
  - contradiction.
Qed.

Lemma foldM_fuel {A B : Type} (f : A -> B -> Result A) (P : A -> Prop) :
  (forall a b a', P a -> f a b = Ok a' -> P a') ->
  forall l a, P a ->
  (forall a b, P a -> In b l -> fuelSuffices (f a b)) ->
  fuelSuffices (foldM f a l).
Proof.
  intros Hkeep. induction l as [|b l IH]; intros a Ha Hf; simpl.
  - discriminate.
  - apply bind_fuel.
    + apply Hf; [assumption | now left].
    + intros a' Ea. apply IH.
      * now apply (Hkeep a b).
      * intros a0 b0 H0 Hin. apply Hf; [assumption | now right].
Qed.

Lemma mapM_fuel {A B : Type} (f : A -> Result B) : forall l,
  (forall a, In a l -> fuelSuffices (f a)) -> fuelSuffices (mapM f l).
Proof.
  induction l as [|a l IH]; intros Hf; simpl.
  - discriminate.
  - apply bind_fuel; [apply Hf; now left|]. intros b _.
    apply bind_fuel; [apply IH; intros; apply Hf; now right|].
    intros bs _. discriminate.
Qed.

Lemma foldM_fuel_all {A B : Type} (f : A -> B -> Result A) l a :
  (forall a b, fuelSuffices (f a b)) -> fuelSuffices (foldM f a l).
Proof.
  intros Hf. apply (foldM_fuel f (fun _ => True)); auto.
Qed.

Lemma getProp_fuel v k : fuelSuffices (getProp v k).
Proof.
  unfold fuelSuffices.
  destruct v as [| | |s|items|fields]; simpl; try discriminate.
  - destruct (JS.arrayIndex k); [destruct (_ <? _)%N | destruct (String.eqb _ _)];
      discriminate.
  - destruct (JS.arrayIndex k); [destruct (_ <? _)%N | destruct (String.eqb _ _)];
      discriminate.
Qed.

Lemma hasProp_fuel v k : fuelSuffices (hasProp v k).
Proof.
  unfold fuelSuffices. destruct v; simpl; discriminate.
Qed.

Lemma applyDefaultsToRow_fuel st item cols :
  fuelSuffices (applyDefaultsToRow st item cols).
Proof.
  unfold applyDefaultsToRow. apply foldM_fuel_all. intros row c.
  apply bind_fuel; [apply hasProp_fuel|]. intros [|] _.
  - apply bind_fuel; [apply getProp_fuel|]. intros own _. discriminate.
  - discriminate.
Qed.

Lemma resolveReference_fuel st v context :
  fuelSuffices (resolveReference st v context).
Proof.
  unfold resolveReference.
  destruct (negb (isObjectLike v)); [discriminate|].
  destruct (OMap.get (arrayReferenceCache st) _); [discriminate|].
  destruct (OMap.get (tableRegistry st) _) as [table|]; [|discriminate].
  destruct (negb (isArray v)); [|discriminate].
  apply bind_fuel; [apply applyDefaultsToRow_fuel|]. intros row _.
  destruct (OMap.get (objectToIndexMap st) _); [|discriminate].
  destruct (OMap.get (deref st _) _); discriminate.
Qed.

Lemma renderCells_fuel st row cols : fuelSuffices (renderCells st row cols).
Proof.
  unfold renderCells. apply mapM_fuel. intros c _.
  destruct (OMap.get row c) as [value|]; [|discriminate].
  destruct (typeofObject value); [apply resolveReference_fuel | discriminate].
Qed.

Lemma addRowToTable_fuel st T item row cols key :
  fuelSuffices (addRowToTable st T item row cols key).
Proof.
  unfold addRowToTable. apply bind_fuel; [apply renderCells_fuel|].
  intros cells _.
  destruct (OMap.get (tableRegistry st) T); [|discriminate].
  destruct (OMap.get (objectToIndexMap st) T); discriminate.
Qed.

Lemma rebuildRows_fuel st cols : forall items index m,
  fuelSuffices (rebuildRows st cols items index m).
Proof.
  induction items as [|item items IH]; intros index m; simpl; [discriminate|].
  apply bind_fuel; [apply applyDefaultsToRow_fuel|]. intros row _.
  apply bind_fuel; [apply renderCells_fuel|]. intros cells _.
  apply bind_fuel; [apply IH|]. intros r _. discriminate.
Qed.

Lemma rebuildTableWithNewColumns_fuel st T cols :
  fuelSuffices (rebuildTableWithNewColumns st T cols).
Proof.
  unfold rebuildTableWithNewColumns.
  destruct (OMap.get (tableRegistry st) T) as [table|]; [|discriminate].
  apply bind_fuel; [apply rebuildRows_fuel|]. intros r _.
  destruct (allocMap _ _). discriminate.
Qed.

Lemma mergeTableColumns_fuel cmp st T cols :
  fuelSuffices (mergeTableColumns cmp st T cols).
Proof.
  unfold mergeTableColumns.
  destruct (OMap.get (tableRegistry st) T) as [table|]; [|discriminate].
  destruct (hasColumnsChanged _ _);
    [apply rebuildTableWithNewColumns_fuel | discriminate].
Qed.

Lemma registerColumns_fuel cmp st T cols :
  fuelSuffices (registerColumns cmp st T cols).
Proof.
  unfold registerColumns.
  destruct (negb _); [discriminate | apply mergeTableColumns_fuel].
Qed.

(** A property is never deeper than its holder; a property of an array or
    of a record is less deep than it. *)
Lemma getProp_depth item c x :
  getProp item c = Ok (Some x) -> depth x <= Nat.pred (depth item).
Proof.
  destruct item as [| | |s|items|fields]; simpl; try discriminate.
  - destruct (JS.arrayIndex c) as [i|].
    + destruct (_ <? _)%N; [|discriminate].
      destruct (String.get _ s); simpl; [|discriminate]. intros [= <-]. simpl. lia.
    + destruct (String.eqb _ _); [|discriminate]. intros [= <-]. simpl. lia.
  - destruct (JS.arrayIndex c) as [i|].
    + destruct (_ <? _)%N; [|discriminate]. intros [= H].
      apply nth_error_In in H. clear - H.
      induction items as [|y items IH]; [contradiction|]. simpl.
      destruct H as [->|H]; [lia | specialize (IH H); lia].
    + destruct (String.eqb _ _); [|discriminate]. intros [= <-]. simpl. lia.
  - intros [= H]. revert H. clear.
    induction fields as [|[k y] fields IH]; simpl; [discriminate|].
    destruct (String.eqb _ _).
    + intros [= ->]. lia.
    + intros H. specialize (IH H). lia.
Qed.

Lemma depth_element items item :
  In item items -> depth item <= Nat.pred (depth (JArray items)).
Proof.
  simpl. induction items as [|y items IH]; [contradiction|]. simpl.
  intros [->|H]; [lia | specialize (IH H); lia].
Qed.

Lemma processNested_fuel rec n item cols : forall st,
  (forall st0 x k, depth x <= n -> fuelSuffices (rec st0 x k)) ->
  Nat.pred (depth item) <= n ->
  fuelSuffices (processNested rec st item cols).
Proof.
  intros st Hrec Hdepth. unfold processNested. apply foldM_fuel_all.
  intros s c. apply bind_fuel; [apply getProp_fuel|].
  intros [x|] Ex; [|discriminate].
  destruct (isObjectLike x); [|discriminate].
  apply Hrec. apply getProp_depth in Ex. lia.
Qed.

Lemma processObjectValue_fuel cmp rec n fields context st :
  (forall st0 x k, depth x <= n -> fuelSuffices (rec st0 x k)) ->
  depth (JObject fields) <= S n ->
  fuelSuffices (processObjectValue cmp rec st fields context).
Proof.
  intros Hrec Hdepth. unfold processObjectValue.
  apply bind_fuel; [apply registerColumns_fuel|]. intros st1 _.
  destruct (OMap.get (tableRegistry st1) _) as [table|]; [|discriminate].
  destruct (OMap.get (objectToIndexMap st1) _) as [addr|]; [|discriminate].
  apply bind_fuel; [apply (processNested_fuel rec n); [assumption | lia]|].
  intros st2 _.
  apply bind_fuel; [apply applyDefaultsToRow_fuel|]. intros row _.
  destruct (negb _); [|discriminate].
  apply bind_fuel; [apply addRowToTable_fuel|]. intros a _. discriminate.
Qed.

Lemma processArrayValue_fuel cmp rec n array context cacheKey st :
  (forall st0 x k, depth x <= n -> fuelSuffices (rec st0 x k)) ->
  depth (JArray array) <= S n ->
  fuelSuffices (processArrayValue cmp rec st array context cacheKey).
Proof.
  intros Hrec Hdepth. unfold processArrayValue.
  destruct array as [|first rest]; [discriminate|].
  cbv iota beta. remember (first :: rest) as items eqn:Hitems.
  destruct (_ || _ || _)%bool; [discriminate|].
  destruct (List.length _ =? 0); [discriminate|].
  apply bind_fuel; [apply registerColumns_fuel|]. intros st1 _.
  destruct (OMap.get (tableRegistry st1) _) as [table|]; [|discriminate].
  destruct (OMap.get (objectToIndexMap st1) _) as [addr|]; [|discriminate].
  apply bind_fuel.
  - apply (foldM_fuel _ (fun _ => True)); [trivial | trivial |].
    intros [s indices] item _ Hitem.
    apply bind_fuel.
    + apply (processNested_fuel rec n); [assumption|].
      apply depth_element in Hitem. lia.
    + intros s1 _. apply bind_fuel; [apply applyDefaultsToRow_fuel|].
      intros row _. destruct (OMap.get (deref s1 addr) _); [discriminate|].
      apply bind_fuel; [apply addRowToTable_fuel|]. intros a _. discriminate.
  - intros [st2 indices] _. discriminate.
Qed.

(** The nesting depth of a value is fuel enough for its traversal. *)
Lemma processValue_fuel cmp : forall fuel st v context,
  depth v <= fuel -> fuelSuffices (processValue cmp fuel st v context).
Proof.
  induction fuel as [|fuel IH]; intros st v context Hdepth.
  - destruct v; simpl in *; try discriminate; lia.
  - simpl. destruct (negb (isObjectLike v)); [discriminate|].
    destruct (OMap.has _ _); [discriminate|].
    destruct v as [| | | |items|fields]; try discriminate.
    + apply (processArrayValue_fuel cmp _ fuel); [|assumption].
      intros st0 x k Hx. now apply IH.
    + apply (processObjectValue_fuel cmp _ fuel); [|assumption].
      intros st0 x k Hx. now apply IH.
Qed.

Lemma buildRootOutput_fuel st data : fuelSuffices (buildRootOutput st data).
Proof.
  destruct data as [| | | |items|entries]; simpl; try discriminate.
  - apply bind_fuel; [apply resolveReference_fuel|]. intros r _. discriminate.
  - apply mapM_fuel. intros [key value] _.
    apply bind_fuel; [apply resolveReference_fuel|]. intros reference _.
    destruct (matchRootReference reference); [|discriminate].
    destruct (String.eqb _ _); [|discriminate].
    destruct (OMap.get _ _); discriminate.
Qed.

(** The encoder never stops for want of fuel: it returns its text, or the
    exception of the code. *)
Lemma parse_fuel cmp data config : fuelSuffices (parse cmp data config).
Proof.
  unfold parse. apply bind_fuel; [now apply processValue_fuel|].
  intros st2 _. unfold buildTabularOutput.
  apply bind_fuel.
  - unfold computeTopologicalOrder.
    match goal with |- fuelSuffices (topologicalOrder ?g) =>
      destruct (topologicalOrder_returns g) as [order ->] end.
    discriminate.
  - intros order _. apply bind_fuel; [apply buildRootOutput_fuel|].
    intros rootLines _. discriminate.
Qed.

(** ** Cells of scalars *)

Lemma length_append (a b : string) :
  String.length (a ++ b) = String.length a + String.length b.
Proof. induction a as [|x a IH]; simpl; [reflexivity | now rewrite IH]. Qed.

Lemma append_cancel_r (a b c : string) : a ++ c = b ++ c -> a = b.
Proof.
  revert b. induction a as [|x a IH]; intros [|y b] H; simpl in *.
  - reflexivity.
  - exfalso. apply (f_equal String.length) in H. simpl in H.
    rewrite length_append in H. lia.
  - exfalso. apply (f_equal String.length) in H. simpl in H.
    rewrite length_append in H. lia.
  - injection H as -> H. f_equal. now apply IH.
Qed.

Lemma escapeQuotes_head s c rest :
  JS.escapeQuotes s = String c rest -> c <> JS.dquoteChar.
Proof.
  destruct s as [|x s]; simpl; [discriminate|].
  destruct (Ascii.eqb x JS.dquoteChar) eqn:E.
  - intros [= <- _]. discriminate.
  - intros [= <- _]. now apply Ascii.eqb_neq.
Qed.

Lemma escapeQuotes_inj : forall s t,
  JS.escapeQuotes s = JS.escapeQuotes t -> s = t.
Proof.
  induction s as [|x s IH]; intros [|y t]; simpl.
  - reflexivity.
  - destruct (Ascii.eqb y JS.dquoteChar); discriminate.
  - destruct (Ascii.eqb x JS.dquoteChar); discriminate.
  - destruct (Ascii.eqb x JS.dquoteChar) eqn:Ex;
      destruct (Ascii.eqb y JS.dquoteChar) eqn:Ey.
    + intros [= H]. apply Ascii.eqb_eq in Ex, Ey. subst. f_equal. now apply IH.
    + intros [= Hy H]. symmetry in H. apply escapeQuotes_head in H.
      now contradiction H.
    + intros [= Hx H]. apply escapeQuotes_head in H. now contradiction H.
    + intros [= -> H]. f_equal. now apply IH.
Qed.

Lemma serializePrimitive_string s :
  serializePrimitive (JString s)
  = if JS.all JS.isSpace s then JS.dquote ++ JS.dquote
    else if JS.any needsQuotes s
         then JS.dquote ++ JS.escapeQuotes s ++ JS.dquote
         else s.
Proof. reflexivity. Qed.

Lemma any_needsQuotes_dquote x : JS.any needsQuotes (JS.dquote ++ x) = true.
Proof.
  change (JS.dquote ++ x) with (String JS.dquoteChar x). cbn [JS.any].
  unfold needsQuotes. now rewrite Ascii.eqb_refl, orb_true_r.
Qed.

(** X1.  Two strings that are not blank and have the same cell text are the
    same string: the quoting of [serializePrimitive] loses nothing on
    them. *)
Theorem serializePrimitive_string_injective :
  (forall s t : string,
      JS.all JS.isSpace s = false -> JS.all JS.isSpace t = false ->
      serializePrimitive (JString s) = serializePrimitive (JString t) ->
      s = t)
  /\ (forall s : string,
         JS.all JS.isSpace s = true ->
         serializePrimitive (JString s) = JS.dquote ++ JS.dquote).
Proof.
  split; [|intros s Hs; now rewrite serializePrimitive_string, Hs].
  intros s t Hs Ht. rewrite !serializePrimitive_string, Hs, Ht.
  destruct (JS.any needsQuotes s) eqn:Qs; destruct (JS.any needsQuotes t) eqn:Qt.
  - intros H. injection H as H. apply append_cancel_r in H.
    now apply escapeQuotes_inj.
  - intros <-. rewrite any_needsQuotes_dquote in Qt. discriminate.
  - intros ->. rewrite any_needsQuotes_dquote in Qs. discriminate.
  - trivial.
Qed.

Lemma serializePrimitive_string_injective_witness :
  (serializePrimitive (JString "a,b") = serializePrimitive (JString "a,b") ->
   "a,b" = "a,b")
  /\ serializePrimitive (JString " ") = JS.dquote ++ JS.dquote.
Proof.
  split.
  - apply (proj1 serializePrimitive_string_injective "a,b" "a,b"); reflexivity.
  - apply (proj2 serializePrimitive_string_injective " "). reflexivity.
Defined.

Lemma string_of_uint_plain d :
  JS.any needsQuotes (NilEmpty.string_of_uint d) = false
  /\ (d <> Decimal.Nil -> JS.all JS.isSpace (NilEmpty.string_of_uint d) = false).
Proof.
  induction d as [|d [IH _]|d [IH _]|d [IH _]|d [IH _]|d [IH _]|d [IH _]
                  |d [IH _]|d [IH _]|d [IH _]|d [IH _]];
    (split; [|intros H]); try contradiction; try reflexivity;
    cbn [NilEmpty.string_of_uint JS.any JS.all]; try (rewrite IH); reflexivity.
Qed.

Lemma showZ_plain n :
  JS.any needsQuotes (JS.showZ n) = false
  /\ JS.all JS.isSpace (JS.showZ n) = false.
Proof.
  unfold JS.showZ. destruct n as [|p|p]; cbn [Z.to_int NilEmpty.string_of_int].
  - split; reflexivity.
  - destruct (string_of_uint_plain (Pos.to_uint p)) as [H1 H2].
    split; [assumption|]. apply H2, DecimalPos.Unsigned.to_uint_nonnil.
  - destruct (string_of_uint_plain (Pos.to_uint p)) as [H1 H2].
    cbn [JS.any JS.all]. rewrite H1. split; reflexivity.
Qed.

(** X2.  A string that spells a number, a boolean or [null] is written
    exactly as that number, boolean or [null]: the cell text does not tell
    the two apart. *)
Theorem serializePrimitive_forgets_type :
  forall v : JSONValue,
    isBareScalar v = true ->
    serializePrimitive (JString (toStringJS v)) = serializePrimitive v.
Proof.
  intros [| [|] |n| | |] Hv; try discriminate; try reflexivity.
  rewrite serializePrimitive_string. cbn [toStringJS].
  destruct (showZ_plain n) as [-> ->]. reflexivity.
Qed.

Lemma serializePrimitive_forgets_type_witness :
  serializePrimitive (JString (toStringJS (JNumber (-42))))
  = serializePrimitive (JNumber (-42)).
Proof.
  apply (serializePrimitive_forgets_type (JNumber (-42))). reflexivity.
Defined.

(** ** Columns of an array *)

(** X3.  The columns extracted from an array are the keys of its records,
    each key once; elements that are not records contribute nothing. *)
Theorem extractColumnNames_keys_once :
  forall (cmp : string -> string -> Z) (array : list JSONValue),
    NoDup (extractColumnNames cmp array)
    /\ (forall k, In k (extractColumnNames cmp array)
                  <-> exists fields, In (JObject fields) array
                                     /\ In k (OMap.keys fields)).
Proof.
  intros cmp array. split; [|intros k; apply extractColumnNames_In].
  unfold extractColumnNames, sortColumnNames.
  eapply Permutation_NoDup; [apply Permutation_sym, sort_perm|].
  assert (H : forall l acc, NoDup acc ->
            NoDup (fold_left
                     (fun columnSet item =>
                        match item with
                        | JObject fields =>
                            fold_left setAdd (OMap.keys fields) columnSet
                        | _ => columnSet
                        end) l acc)).
  { induction l as [|item l IH]; intros acc Hacc; simpl; [assumption|].
    apply IH. destruct item; try assumption. now apply fold_setAdd_NoDup. }
  apply H. constructor.
Qed.

(** ** Merging columns that are known already *)

Lemma everyEqualAt_same l : forall pre,
  everyEqualAt (pre ++ l)%list l (List.length pre) = true.
Proof.
  induction l as [|c l IH]; intros pre; simpl; [reflexivity|].
  rewrite nth_error_app2 by lia. rewrite Nat.sub_diag. simpl.
  rewrite String.eqb_refl. simpl.
  specialize (IH (pre ++ [c])%list).
  rewrite <- app_assoc, length_app in IH. simpl in IH.
  now rewrite Nat.add_1_r in IH.
Qed.

Lemma hasColumnsChanged_same l : hasColumnsChanged l l = false.
Proof.
  unfold hasColumnsChanged. rewrite Nat.eqb_refl.
  pose proof (everyEqualAt_same l []) as H. simpl in H. now rewrite H.
Qed.

(** X4.  [hasColumnsChanged] reports a change exactly when the two column
    lists differ, in length or at some position. *)
Theorem hasColumnsChanged_iff_differ :
  forall oldColumns newColumns : list string,
    hasColumnsChanged oldColumns newColumns = false <-> newColumns = oldColumns.
Proof.
  intros old new. split; [apply hasColumnsChanged_false|].
  intros ->. apply hasColumnsChanged_same.
Qed.

Lemma sort_sorted_id {A} (le : A -> A -> bool) l :
  StronglySorted (fun a b => le a b = true) l -> JS.sort le l = l.
Proof.
  induction 1 as [|x l Hl IH Hx]; simpl; [reflexivity|].
  rewrite IH. destruct l as [|y l']; simpl; [reflexivity|].
  inversion Hx as [|? ? Hxy _]; subst. now rewrite Hxy.
Qed.

Lemma columnLe_total cmp :
  (forall a b, (cmp a b <= 0)%Z \/ (cmp b a <= 0)%Z) ->
  forall a b, columnLe cmp a b = true \/ columnLe cmp b a = true.
Proof.
  intros Htotal a b.
  destruct (isPriority a) eqn:Pa; destruct (isPriority b) eqn:Pb.
  - rewrite !columnLe_priority by assumption. unfold rankLe.
    destruct (Z.leb_spec (indexOf priorityColumns a) (indexOf priorityColumns b));
      [now left | right; apply Z.leb_le; lia].
  - left. now apply columnLe_first.
  - right. now apply columnLe_first.
  - rewrite !columnLe_other by assumption. unfold localeLe.
    destruct (Htotal a b); [left | right]; now apply Z.leb_le.
Qed.

Lemma columnLe_trans cmp :
  (forall a b c, (cmp a b <= 0)%Z -> (cmp b c <= 0)%Z -> (cmp a c <= 0)%Z) ->
  forall a b c, columnLe cmp a b = true -> columnLe cmp b c = true ->
                columnLe cmp a c = true.
Proof.
  intros Htrans a b c Hab Hbc.
  destruct (isPriority a) eqn:Pa; destruct (isPriority c) eqn:Pc.
  - destruct (isPriority b) eqn:Pb.
    + rewrite columnLe_priority in * by assumption. unfold rankLe in *.
      apply Z.leb_le in Hab, Hbc. apply Z.leb_le. lia.
    + rewrite (columnLe_last cmp c b) in Hbc by assumption. discriminate.
  - now apply columnLe_first.
  - destruct (isPriority b) eqn:Pb.
    + rewrite (columnLe_last cmp b a) in Hab by assumption. discriminate.
    + rewrite (columnLe_last cmp c b) in Hbc by assumption. discriminate.
  - destruct (isPriority b) eqn:Pb.
    + rewrite (columnLe_last cmp b a) in Hab by assumption. discriminate.
    + rewrite columnLe_other in * by assumption. unfold localeLe in *.
      apply Z.leb_le in Hab, Hbc. apply Z.leb_le. now apply (Htrans a b c).
Qed.

Lemma sortColumnNames_idempotent cmp names :
  (forall a b, (cmp a b <= 0)%Z \/ (cmp b a <= 0)%Z) ->
  (forall a b c, (cmp a b <= 0)%Z -> (cmp b c <= 0)%Z -> (cmp a c <= 0)%Z) ->
  sortColumnNames cmp (sortColumnNames cmp names) = sortColumnNames cmp names.
Proof.
  intros Htotal Htrans. apply (sort_sorted_id (columnLe cmp)).
  apply sort_sorted; [now apply columnLe_total | now apply columnLe_trans].
Qed.

(** X5.  Merging columns that the table has already changes nothing: no
    rebuild takes place and the state is returned as it is.  This needs the
    columns of the table to be in sorted order, which they are whenever
    they were sorted by a collation that is total and transitive. *)
Theorem mergeTableColumns_known_columns :
  forall (cmp : string -> string -> Z),
    (forall (st : State) (tableName : string) (table : TableData)
            (newColumns : list string),
        OMap.get st.(tableRegistry) tableName = Some table ->
        sortColumnNames cmp table.(columns) = table.(columns) ->
        (forall c, In c newColumns -> In c table.(columns)) ->
        mergeTableColumns cmp st tableName newColumns = Ok st)
    /\ ((forall a b, (cmp a b <= 0)%Z \/ (cmp b a <= 0)%Z) ->
        (forall a b c, (cmp a b <= 0)%Z -> (cmp b c <= 0)%Z -> (cmp a c <= 0)%Z) ->
        forall names,
          sortColumnNames cmp (sortColumnNames cmp names)
          = sortColumnNames cmp names).
Proof.
  intros cmp. split.
  - intros st T table newColumns Hget Hsorted Hknown.
    unfold mergeTableColumns. rewrite Hget.
    assert (Hnone : filter (fun column => negb (mem column (columns table)))
                           newColumns = []).
    { clear - Hknown. induction newColumns as [|c l IH]; simpl; [reflexivity|].
      assert (Hc : mem c (columns table) = true)
        by (apply mem_In, Hknown; now left).
      rewrite Hc. simpl. apply IH. intros x Hx. apply Hknown. now right. }
    rewrite Hnone, app_nil_r, Hsorted.
    now rewrite hasColumnsChanged_same.
  - intros Htotal Htrans names. now apply sortColumnNames_idempotent.
Qed.

Lemma mergeTableColumns_known_columns_witness :
  mergeTableColumns codeUnitCompare twoRowState "@t" ["id"] = Ok twoRowState
  /\ sortColumnNames codeUnitCompare (sortColumnNames codeUnitCompare ["b"; "a"])
     = sortColumnNames codeUnitCompare ["b"; "a"].
Proof.
  split.
  - apply (proj1 (mergeTableColumns_known_columns codeUnitCompare)
             twoRowState "@t" twoRowTable ["id"]);
      [reflexivity | reflexivity | intros c [<-|[]]; now left].
  - apply (proj2 (mergeTableColumns_known_columns codeUnitCompare));
      [apply codeUnitCompare_total | apply codeUnitCompare_trans].
Defined.

(** ** What the canonical key tells apart *)

Lemma fold_left_ext_in {A B} (f g : A -> B -> A) l :
  (forall a b, In b l -> f a b = g a b) ->
  forall a, fold_left f l a = fold_left g l a.
Proof.
  induction l as [|b l IH]; intros H a; simpl; [reflexivity|].
  rewrite H by now left. apply IH. intros a0 b0 Hb. apply H. now right.
Qed.

Lemma coalesce_normalized o d :
  coalesce (Some (coalesce o (coalesce d JNull))) (coalesce d JNull)
  = coalesce o (coalesce d JNull).
Proof.
  destruct o as [[]|]; simpl; try reflexivity;
    destruct d as [[]|]; reflexivity.
Qed.

Lemma canonicalKeyOf_record st cols fields :
  canonicalKeyOf st cols (JObject fields)
  = Ok (stringify
          (JObject (fold_left (fun acc c => objSet acc c (canonicalValue st fields c))
                              cols []))).
Proof.
  unfold canonicalKeyOf. rewrite applyDefaultsToRow_record. cbn [bind].
  unfold generateCanonicalKey. do 3 f_equal.
  apply fold_left_ext_in. intros acc c Hc. f_equal.
  rewrite fold_objSet_get.
  assert (Hm : mem c cols = true) by now apply mem_In.
  rewrite Hm. unfold canonicalValue, normalizedValue.
  now rewrite coalesce_normalized.
Qed.

(** X6.  Under a column list without names inherited from
    Object.prototype, the canonical key of a record depends only
    on what [canonicalValue] gives for each column.  So a nested list or
    record and the string that holds its JSON text get the same key, as do
    a Null field, an absent field and a field equal to the default; fields
    outside the column list are ignored. *)
Theorem canonical_key_conflates :
  forall (st : State) (cols : list string),
    (forall c, In c cols -> ownName c = true) ->
    (forall fields1 fields2,
        (forall c, In c cols ->
                   canonicalValue st fields1 c = canonicalValue st fields2 c) ->
        canonicalKeyOf st cols (JObject fields1)
        = canonicalKeyOf st cols (JObject fields2))
    /\ (forall c v,
           isObjectLike v = true ->
           canonicalKeyOf st cols (JObject [(c, v)])
           = canonicalKeyOf st cols (JObject [(c, JString (stringify v))]))
    /\ (forall c d,
           OMap.get st.(defaultValues) c = Some d ->
           canonicalKeyOf st cols (JObject [(c, JNull)])
           = canonicalKeyOf st cols (JObject [(c, d)])
           /\ canonicalKeyOf st cols (JObject [])
              = canonicalKeyOf st cols (JObject [(c, d)])).
Proof.
  intros st cols _.
  assert (Hmain : forall fields1 fields2,
             (forall c, In c cols ->
                        canonicalValue st fields1 c = canonicalValue st fields2 c) ->
             canonicalKeyOf st cols (JObject fields1)
             = canonicalKeyOf st cols (JObject fields2)).
  { intros fields1 fields2 H. rewrite !canonicalKeyOf_record. do 3 f_equal.
    apply fold_left_ext_in. intros acc c Hc. now rewrite H. }
  split; [exact Hmain|]. split.
  - intros c v Hv. apply Hmain. intros c' _.
    unfold canonicalValue, normalizedValue. cbn [OMap.get].
    destruct (String.eqb c c'); [|reflexivity].
    destruct v; try discriminate; reflexivity.
  - intros c d Hd. split; apply Hmain; intros c' _;
      unfold canonicalValue, normalizedValue; cbn [OMap.get].
    + destruct (String.eqb c c') eqn:E; [|reflexivity].
      apply String.eqb_eq in E. subst c'. rewrite Hd.
      destruct d; reflexivity.
    + destruct (String.eqb c c') eqn:E; [|reflexivity].
      apply String.eqb_eq in E. subst c'. rewrite Hd.
      destruct d; reflexivity.
Qed.

Lemma canonical_key_conflates_witness :
  canonicalKeyOf (initialize (mkConfig [("role", JString "user")] []))
                 ["id"; "role"]
                 (JObject [("id", JArray [JNumber 1]); ("x", JNull)])
  = canonicalKeyOf (initialize (mkConfig [("role", JString "user")] []))
                   ["id"; "role"]
                   (JObject [("role", JString "user"); ("id", JString "[1]")]).
Proof.
  apply (proj1 (canonical_key_conflates
                  (initialize (mkConfig [("role", JString "user")] []))
                  ["id"; "role"]
                  ltac:(intros c [<-|[<-|[]]]; reflexivity))).
  intros c [<-|[<-|[]]]; reflexivity.
Defined.

(** ** Reading a reference back *)

Lemma all_false_split p s :
  JS.all p s = false ->
  exists a c post, s = a ++ String c post /\ JS.all p a = true /\ p c = false.
Proof.
  induction s as [|x s IH]; simpl; [discriminate|].
  destruct (p x) eqn:Px; simpl.
  - intros H. destruct (IH H) as [a [c [post [-> [Ha Hc]]]]].
    exists (String x a), c, post. simpl. now rewrite Px, Ha.
  - intros _. exists EmptyString, x, s. now rewrite Px.
Qed.

Lemma span_keeps_bracket q : forall u v,
  q "["%char = false ->
  exists u', snd (JS.span q (u ++ String "["%char v)) = u' ++ String "["%char v.
Proof.
  intros u v Hq. induction u as [|x u IH]; simpl.
  - rewrite Hq. now exists EmptyString.
  - destruct (q x).
    + destruct IH as [u' IH].
      destruct (JS.span q (u ++ String "["%char v)) as [a b]. simpl in *.
      now exists u'.
    + now exists (String x u).
Qed.

Lemma matchReference_after_name w c tail :
  JS.all JS.isWordChar w = true -> JS.isWordChar c = false ->
  matchReference (String "@"%char (w ++ String c tail))
  = match w with
    | EmptyString => None
    | String _ _ =>
        if Ascii.eqb c "["%char then
          let '(indexText, rest) := JS.span isIndexChar tail in
          match indexText with
          | String _ _ =>
              if String.eqb rest "]" then Some ("@" ++ w, indexText) else None
          | EmptyString => None
          end
        else None
    end.
Proof.
  intros Hw Hc. unfold matchReference.
  rewrite (span_app JS.isWordChar w (String c tail) Hw) by exact Hc.
  destruct w as [|x w]; [reflexivity|].
  destruct (Ascii.eqb c "["%char) eqn:E.
  - apply Ascii.eqb_eq in E. subst c. reflexivity.
  - destruct c as [[] [] [] [] [] [] [] []]; try reflexivity. discriminate.
Qed.

Lemma matchReference_other_name name indices :
  JS.all JS.isWordChar name = false ->
  matchReference (referenceText ("@" ++ name) indices) = None.
Proof.
  intros Hname. destruct (all_false_split _ _ Hname) as [a [c [post [-> [Ha Hc]]]]].
  unfold referenceText.
  set (J := JS.join "," (map JS.showNat indices)).
  change (("@" ++ a ++ String c post) ++ "[" ++ J ++ "]")
    with (String "@"%char ((a ++ String c post) ++ String "["%char (J ++ "]"))).
  rewrite append_assoc. cbn [append].
  rewrite (matchReference_after_name a c _ Ha Hc).
  destruct a as [|x a]; [reflexivity|].
  destruct (Ascii.eqb c "["%char); [|reflexivity].
  destruct (span_keeps_bracket isIndexChar post (J ++ "]") eq_refl) as [u' Hu].
  destruct (JS.span isIndexChar (post ++ String "["%char (J ++ "]")))
    as [indexText rest].
  simpl in Hu. subst rest.
  destruct indexText; [reflexivity|].
  destruct u' as [|y u']; simpl.
  - reflexivity.
  - destruct (Ascii.eqb y "]"%char); [|reflexivity].
    destruct u'; reflexivity.
Qed.

(** X7.  The reference that the traversal writes for a table whose name is
    made of word characters is read back by the compaction pass as that
    table and the same row indices, in increasing order.  The reference to
    a table whose name has any other character is never read back, so it is
    never compacted, whatever rows it lists. *)
Theorem reference_read_back :
  (forall (w : string) (indices : list nat),
      w <> EmptyString -> JS.all JS.isWordChar w = true -> indices <> [] ->
      exists indexText,
        matchReference (referenceText ("@" ++ w) indices)
        = Some ("@" ++ w, indexText)
        /\ sortedIndices indexText = JS.sort Nat.leb indices)
  /\ (forall (st : State) (name : string) (indices : list nat),
         JS.all JS.isWordChar name = false ->
         matchReference (referenceText ("@" ++ name) indices) = None
         /\ optimizeCell st (referenceText ("@" ++ name) indices)
            = referenceText ("@" ++ name) indices).
Proof.
  split.
  - intros w indices Hw Hword Hne.
    exists (JS.join "," (map JS.showNat indices)). split.
    + now apply matchReference_referenceText.
    + now apply sortedIndices_join.
  - intros st name indices Hname.
    pose proof (matchReference_other_name name indices Hname) as H.
    split; [exact H|].
    rewrite optimizeCell_compacted. unfold compacted, compaction. now rewrite H.
Qed.

Lemma reference_read_back_witness :
  (exists indexText,
      matchReference (referenceText "@users" [2; 0; 1]) = Some ("@users", indexText)
      /\ sortedIndices indexText = JS.sort Nat.leb [2; 0; 1])
  /\ (matchReference (referenceText "@user-list" [0; 1]) = None
      /\ optimizeCell twoRowState (referenceText "@user-list" [0; 1])
         = referenceText "@user-list" [0; 1]).
Proof.
  split.
  - apply (proj1 reference_read_back "users" [2; 0; 1]);
      [discriminate | reflexivity | discriminate].
  - apply (proj2 reference_read_back twoRowState "user-list" [0; 1]). reflexivity.
Defined.

(** ** The two compaction passes *)

Lemma OMap_set_app_fresh {V} (pre rest : list (string * V)) k v v' :
  ~ In k (OMap.keys pre) ->
  OMap.set (pre ++ (k, v) :: rest)%list k v' = (pre ++ (k, v') :: rest)%list.
Proof.
  induction pre as [|[k0 v0] pre IH]; simpl; intros H.
  - now rewrite String.eqb_refl.
  - destruct (String.eqb k0 k) eqn:E.
    + apply String.eqb_eq in E. subst. exfalso. apply H. now left.
    + f_equal. apply IH. intros Hin. apply H. now right.
Qed.

Lemma keys_app {V} (a b : list (string * V)) :
  OMap.keys (a ++ b)%list = (OMap.keys a ++ OMap.keys b)%list.
Proof. unfold OMap.keys. apply map_app. Qed.

Lemma compactArrayReferences_map st :
  NoDup (OMap.keys st.(arrayReferenceCache)) ->
  compactArrayReferences st
  = withCache st (map (compactedEntry st.(tableRegistry)) st.(arrayReferenceCache)).
Proof.
  intros Hnd. unfold compactArrayReferences.
  set (F := fun (st0 : State) (entry : string * string) => _).
  assert (H : forall entries pre,
             NoDup (OMap.keys (pre ++ entries)%list) ->
             fold_left F entries (withCache st (pre ++ entries)%list)
             = withCache st (pre ++ map (compactedEntry st.(tableRegistry)) entries)%list).
  { induction entries as [|[k v] entries IH]; intros pre Hpre; [reflexivity|].
    cbn [fold_left map].
    assert (Hstep : F (withCache st (pre ++ (k, v) :: entries)%list) (k, v)
                    = withCache st
                        ((pre ++ [compactedEntry st.(tableRegistry) (k, v)])
                           ++ entries)%list).
    { unfold F, compactedEntry, compacted, compaction. cbn [fst snd].
      rewrite <- app_assoc. cbn [app].
      destruct (matchReference v) as [[tableName indexText]|]; [|reflexivity].
      cbn [tableRegistry withCache].
      destruct (OMap.get (tableRegistry st) tableName) as [table|]; [|reflexivity].
      destruct (isSequentialFullTableReference _ _); [|reflexivity].
      cbn [arrayReferenceCache withCache]. unfold withCache at 1.
      cbn [tableRegistry tableIndexCounters rootLevelKeys objectToIndexMap
           mapStore defaultValues tableStructure withCache].
      rewrite OMap_set_app_fresh; [reflexivity|].
      rewrite keys_app in Hpre. apply NoDup_remove_2 in Hpre.
      intros Hin. apply Hpre. apply in_or_app. now left. }
    rewrite Hstep.
    etransitivity; [apply IH|].
    - rewrite keys_app in *. rewrite keys_app. cbn [OMap.keys map fst] in *.
      unfold compactedEntry. cbn [fst]. rewrite <- app_assoc. exact Hpre.
    - now rewrite <- app_assoc. }
  specialize (H st.(arrayReferenceCache) [] Hnd).
  cbn [app] in H. rewrite <- H. f_equal. now destruct st.
Qed.

Lemma rowCount_optimized registry0 pre entries tableName :
  rowCount (map (optimizedTable registry0) pre ++ entries)%list tableName
  = rowCount (pre ++ entries)%list tableName.
Proof.
  unfold rowCount. induction pre as [|[k t] pre IH]; simpl; [reflexivity|].
  destruct (String.eqb k tableName); [|exact IH].
  simpl. now rewrite !length_map.
Qed.

Lemma compacted_ext registry1 registry2 reference :
  (forall tableName, rowCount registry1 tableName = rowCount registry2 tableName) ->
  compacted registry1 reference = compacted registry2 reference.
Proof.
  intros H. unfold compacted. now rewrite (compaction_ext registry1 registry2).
Qed.

Lemma keys_optimized registry0 l :
  OMap.keys (map (optimizedTable registry0) l) = OMap.keys l.
Proof. unfold OMap.keys. rewrite map_map. reflexivity. Qed.

Lemma optimizeTableReferences_map st :
  NoDup (OMap.keys st.(tableRegistry)) ->
  optimizeTableReferences st
  = withRegistry st (map (optimizedTable st.(tableRegistry)) st.(tableRegistry)).
Proof.
  intros Hnd. unfold optimizeTableReferences.
  set (F := fun (st0 : State) (entry : string * TableData) => _).
  set (registry0 := st.(tableRegistry)).
  assert (H : forall entries pre,
             NoDup (OMap.keys (pre ++ entries)%list) ->
             (forall tableName, rowCount (pre ++ entries)%list tableName
                                = rowCount registry0 tableName) ->
             fold_left F entries
               (withRegistry st (map (optimizedTable registry0) pre ++ entries)%list)
             = withRegistry st
                 (map (optimizedTable registry0) pre
                    ++ map (optimizedTable registry0) entries)%list).
  { induction entries as [|[k t] entries IH]; intros pre Hpre Hcount; [reflexivity|].
    cbn [fold_left map].
    assert (Hstep :
              F (withRegistry st
                   (map (optimizedTable registry0) pre ++ (k, t) :: entries)%list)
                (k, t)
              = withRegistry st
                  (map (optimizedTable registry0) (pre ++ [(k, t)])
                     ++ entries)%list).
    { unfold F. unfold withRegistry at 1.
      cbn [tableRegistry arrayReferenceCache tableIndexCounters rootLevelKeys
           objectToIndexMap mapStore defaultValues tableStructure withRegistry].
      unfold withRegistry at 2. f_equal.
      rewrite OMap_set_app_fresh.
      - rewrite map_app, <- app_assoc. cbn [map app]. do 2 f_equal.
        unfold optimizedTable at 2. cbn [fst snd]. do 2 f_equal.
        apply map_ext. intros row. apply map_ext. intros cell.
        rewrite optimizeCell_compacted. cbn [tableRegistry withRegistry].
        apply compacted_ext. intros tableName.
        etransitivity; [apply (rowCount_optimized registry0)|]. apply Hcount.
      - rewrite keys_optimized. rewrite keys_app in Hpre.
        apply NoDup_remove_2 in Hpre.
        intros Hin. apply Hpre. apply in_or_app. now left. }
    rewrite Hstep.
    etransitivity; [apply IH|].
    - now rewrite <- app_assoc.
    - intros tableName. rewrite <- app_assoc. apply Hcount.
    - rewrite map_app, <- app_assoc. reflexivity. }
  specialize (H st.(tableRegistry) [] Hnd (fun _ => eq_refl)).
  cbn [app map] in H.
  transitivity (fold_left F (tableRegistry st) (withRegistry st (tableRegistry st)));
    [f_equal; now destruct st | exact H].
Qed.

Lemma compaction_name registry reference tableName :
  compaction registry reference = Some tableName ->
  matchReference tableName = None.
Proof.
  unfold compaction.
  destruct (matchReference reference) as [[name indexText]|] eqn:E; [|discriminate].
  destruct (OMap.get registry name); [|discriminate].
  destruct (isSequentialFullTableReference _ _); [|discriminate].
  intros [= <-]. revert E. unfold matchReference.
  destruct reference as [|c rest]; [discriminate|].
  destruct c as [[] [] [] [] [] [] [] []]; try discriminate.
  destruct (JS.span JS.isWordChar rest) as [w afterName] eqn:Espan.
  destruct w as [|x w]; [discriminate|].
  destruct afterName as [|b afterBracket]; [discriminate|].
  destruct b as [[] [] [] [] [] [] [] []]; try discriminate.
  destruct (JS.span _ afterBracket) as [indexText' tail].
  destruct indexText'; [discriminate|].
  destruct (String.eqb tail "]"); [|discriminate].
  intros [= <- _].
  assert (Hw : JS.all JS.isWordChar (String x w) = true).
  { clear - Espan. revert x w afterBracket Espan.
    induction rest as [|y rest IH]; intros x w afterBracket; simpl; [discriminate|].
    destruct (JS.isWordChar y) eqn:Ey; [|discriminate].
    destruct (JS.span JS.isWordChar rest) as [a b] eqn:Erest.
    intros [= <- <- ->]. simpl. rewrite Ey. simpl.
    destruct a as [|z a]; [reflexivity|]. now apply (IH z a afterBracket). }
  pose proof (span_app JS.isWordChar (String x w) EmptyString Hw I) as Hs.
  rewrite append_nil_r in Hs.
  change ("@" ++ String x w) with (String "@"%char (String x w)).
  cbv iota beta. rewrite Hs. reflexivity.
Qed.

Lemma compacted_idempotent registry registry' reference :
  compacted registry' (compacted registry reference)
  = match compaction registry reference with
    | Some tableName => tableName
    | None => compacted registry' reference
    end.
Proof.
  unfold compacted at 2.
  destruct (compaction registry reference) as [tableName|] eqn:E; [|reflexivity].
  apply compaction_name in E. unfold compacted, compaction. now rewrite E.
Qed.

Lemma rowCount_optimized_all registry tableName :
  rowCount (map (optimizedTable registry) registry) tableName
  = rowCount registry tableName.
Proof.
  pose proof (rowCount_optimized registry registry [] tableName) as H.
  now rewrite !app_nil_r in H.
Qed.

Lemma compacted_twice registry registry' reference :
  (forall tableName, rowCount registry' tableName = rowCount registry tableName) ->
  compacted registry' (compacted registry reference) = compacted registry reference.
Proof.
  intros H. rewrite compacted_idempotent.
  rewrite (compacted_ext registry' registry) by exact H.
  unfold compacted. now destruct (compaction registry reference).
Qed.

Lemma startsWith_false_compacted registry cell :
  JS.startsWith cell "@" = false -> compacted registry cell = cell.
Proof.
  intros H. pose proof (optimizeCell_compacted (mkState registry [] [] [] [] [] [] []) cell) as E.
  cbn [tableRegistry] in E. rewrite <- E. unfold optimizeCell. now rewrite H.
Qed.

(** X8.  The two compaction passes change references and nothing else.
    [compactArrayReferences] keeps every key of the memo in its place and
    replaces each memoized text by its compacted form;
    [optimizeTableReferences] keeps every table, its columns, its stored
    source records, the number of its rows and the width of each row, and
    replaces each cell by its compacted form; a cell that does not begin
    with an at sign is its own compacted form. *)
Theorem compaction_changes_references_only :
  forall st : State,
    (NoDup (OMap.keys st.(arrayReferenceCache)) ->
     compactArrayReferences st
     = withCache st (map (compactedEntry st.(tableRegistry))
                         st.(arrayReferenceCache)))
    /\ (NoDup (OMap.keys st.(tableRegistry)) ->
        optimizeTableReferences st
        = withRegistry st (map (optimizedTable st.(tableRegistry))
                               st.(tableRegistry)))
    /\ (forall cell, JS.startsWith cell "@" = false ->
                     compacted st.(tableRegistry) cell = cell).
Proof.
  intros st. split; [apply compactArrayReferences_map|].
  split; [apply optimizeTableReferences_map|].
  intros cell. apply startsWith_false_compacted.
Qed.

(** X9.  Each compaction pass is idempotent, and the two passes commute:
    running a pass a second time, or running them in the other order,
    gives the same state. *)
Theorem compaction_passes_idempotent_commute :
  forall st : State,
    NoDup (OMap.keys st.(arrayReferenceCache)) ->
    NoDup (OMap.keys st.(tableRegistry)) ->
    compactArrayReferences (compactArrayReferences st) = compactArrayReferences st
    /\ optimizeTableReferences (optimizeTableReferences st)
       = optimizeTableReferences st
    /\ optimizeTableReferences (compactArrayReferences st)
       = compactArrayReferences (optimizeTableReferences st).
Proof.
  intros st Hc Hr.
  assert (Hkeys : forall registry (cache : list (string * string)),
             OMap.keys (map (compactedEntry registry) cache) = OMap.keys cache).
  { intros. unfold OMap.keys. rewrite map_map. reflexivity. }
  split; [|split].
  - rewrite (compactArrayReferences_map st Hc).
    rewrite compactArrayReferences_map
      by (cbn [arrayReferenceCache withCache]; now rewrite Hkeys).
    cbn [arrayReferenceCache tableRegistry withCache]. unfold withCache at 1.
    cbn [tableRegistry tableIndexCounters rootLevelKeys objectToIndexMap
         mapStore defaultValues tableStructure withCache].
    unfold withCache. f_equal. rewrite map_map. apply map_ext.
    intros [k v]. unfold compactedEntry. cbn [fst snd]. f_equal.
    now apply compacted_twice.
  - rewrite (optimizeTableReferences_map st Hr).
    rewrite optimizeTableReferences_map
      by (cbn [tableRegistry withRegistry]; now rewrite keys_optimized).
    cbn [tableRegistry withRegistry]. unfold withRegistry at 1.
    cbn [arrayReferenceCache tableIndexCounters rootLevelKeys objectToIndexMap
         mapStore defaultValues tableStructure withRegistry].
    unfold withRegistry. f_equal. rewrite map_map. apply map_ext.
    intros [k t]. unfold optimizedTable. cbn [fst snd columns rows originalData].
    do 2 f_equal. rewrite map_map. apply map_ext. intros row.
    rewrite map_map. apply map_ext. intros cell.
    apply compacted_twice. apply rowCount_optimized_all.
  - rewrite (compactArrayReferences_map st Hc).
    rewrite optimizeTableReferences_map by exact Hr.
    rewrite (optimizeTableReferences_map st Hr).
    rewrite compactArrayReferences_map by exact Hc.
    cbn [arrayReferenceCache tableRegistry withCache withRegistry].
    unfold withCache, withRegistry.
    cbn [tableRegistry arrayReferenceCache tableIndexCounters rootLevelKeys
         objectToIndexMap mapStore defaultValues tableStructure].
    f_equal. apply map_ext. intros [k v]. unfold compactedEntry.
    cbn [fst snd]. f_equal. symmetry. apply compacted_ext.
    apply rowCount_optimized_all.
Qed.

Lemma compaction_passes_idempotent_commute_witness :
  compactArrayReferences (compactArrayReferences twoRowState)
  = compactArrayReferences twoRowState
  /\ optimizeTableReferences (optimizeTableReferences twoRowState)
     = optimizeTableReferences twoRowState
  /\ optimizeTableReferences (compactArrayReferences twoRowState)
     = compactArrayReferences (optimizeTableReferences twoRowState).
Proof.
  apply (compaction_passes_idempotent_commute twoRowState).
  - vm_compute. repeat constructor; simpl; intuition discriminate.
  - vm_compute. repeat constructor; simpl; intuition discriminate.
Defined.

Lemma compaction_changes_references_only_witness :
  compactArrayReferences twoRowState
  = withCache twoRowState
      (map (compactedEntry twoRowState.(tableRegistry))
           twoRowState.(arrayReferenceCache))
  /\ compacted twoRowState.(tableRegistry) "1" = "1".
Proof.
  split.
  - apply (proj1 (compaction_changes_references_only twoRowState)).
    vm_compute. repeat constructor; simpl; intuition discriminate.
  - apply (proj2 (proj2 (compaction_changes_references_only twoRowState))).
    reflexivity.
Defined.

(** ** The order of the tables, cycles or not *)

Lemma visitNode_covers g : forall fuel v node v',
  visitNode fuel g v node = Ok v' ->
  In node (OMap.keys g) ->
  VisitCover g v ->
  VisitCover g v'
  /\ v'.(visitingNodes) = v.(visitingNodes)
  /\ (forall x, In x v.(visitedNodes) -> In x v'.(visitedNodes))
  /\ (forall x, In x v'.(visitedNodes) ->
                In x v.(visitedNodes) \/ ~ In x v.(visitingNodes))
  /\ (In node v'.(visitedNodes) \/ In node v.(visitingNodes)).
Proof.
  induction fuel as [|fuel IH]; intros v node v' Hrun Hnode Hinv.
  - simpl in Hrun. destruct (mem node (visitedNodes v)) eqn:Ev.
    + injection Hrun as <-. apply mem_In in Ev. repeat split; auto; apply Hinv.
    + destruct (mem node (visitingNodes v)) eqn:Eg; [|discriminate].
      injection Hrun as <-. apply mem_In in Eg. repeat split; auto; apply Hinv.
  - simpl in Hrun. destruct (mem node (visitedNodes v)) eqn:Ev.
    { injection Hrun as <-. apply mem_In in Ev. repeat split; auto; apply Hinv. }
    destruct (mem node (visitingNodes v)) eqn:Eg.
    { injection Hrun as <-. apply mem_In in Eg. repeat split; auto; apply Hinv. }
    apply mem_false_In in Ev. pose proof Eg as Eg'. apply mem_false_In in Eg.
    set (deps := match OMap.get g node with Some d => d | None => [] end) in *.
    set (stack := setAdd (visitingNodes v) node) in *.
    assert (Hloop : forall rest v1 v2,
      foldM (fun v dependency =>
               if OMap.has g dependency
               then visitNode fuel g v dependency
               else Ok v) v1 rest = Ok v2 ->
      VisitCover g v1 -> visitingNodes v1 = stack ->
      (forall x, In x (visitedNodes v1) ->
                 In x (visitedNodes v) \/ ~ In x stack) ->
      VisitCover g v2 /\ visitingNodes v2 = stack /\
      (forall x, In x (visitedNodes v1) -> In x (visitedNodes v2)) /\
      (forall x, In x (visitedNodes v2) ->
                 In x (visitedNodes v) \/ ~ In x stack)).
    { induction rest as [|d rest IHrest]; intros v1 v2 Hfold Hinv1 Hvis1 Hnew1.
      - simpl in Hfold. injection Hfold as <-. repeat split; auto; apply Hinv1.
      - simpl in Hfold. destruct (OMap.has g d) eqn:Ed.
        + destruct (visitNode fuel g v1 d) as [v1'| |] eqn:Evisit;
            simpl in Hfold; try discriminate.
          destruct (IH v1 d v1' Evisit) as [P1 [P2 [P3 [P4 _]]]];
            [now apply has_In_keys | assumption|].
          destruct (IHrest v1' v2) as [H1 [H2 [H3 H4]]]; try assumption.
          * now rewrite P2.
          * intros x Hx. destruct (P4 x Hx) as [Hold | Hnot].
            -- now apply Hnew1.
            -- right. now rewrite <- Hvis1.
          * repeat split; try assumption; try apply H1.
            intros x Hx. apply H3. now apply P3.
        + simpl in Hfold. now apply (IHrest v1 v2). }
    match type of Hrun with
    | context [foldM ?f ?v1 deps] => destruct (foldM f v1 deps) as [v2| |] eqn:Efold
    end; simpl in Hrun; try discriminate.
    injection Hrun as <-.
    destruct (Hloop deps _ v2 Efold) as [H1 [H2 [H3 H5]]].
    + exact Hinv.
    + reflexivity.
    + simpl. intros x Hx. now left.
    + simpl in H3.
      assert (Hfresh : ~ In node (visitedNodes v2)).
      { intros Hin. destruct (H5 node Hin) as [Hold | Hnot]; [contradiction|].
        apply Hnot. apply setAdd_In. now right. }
      destruct H1 as [S1 [S2 S3]]. simpl. split; [|split; [|split; [|split]]].
      * split; [|split]; simpl.
        -- intros x. rewrite in_app_iff, setAdd_In, S1. simpl.
           split; intros [H | H]; try tauto.
           ++ destruct H as [<- | []]. now right.
           ++ subst. right. now left.
        -- apply (Permutation_NoDup (l := node :: sortedOrder v2)).
           ++ apply Permutation_cons_append.
           ++ constructor; [|assumption]. now rewrite S1.
        -- intros x Hx. apply setAdd_In in Hx. destruct Hx as [Hx | ->];
             [now apply S3 | assumption].
      * rewrite H2. now apply setDelete_setAdd.
      * intros x Hx. apply setAdd_In. left. now apply H3.
      * intros x Hx. apply setAdd_In in Hx. destruct Hx as [Hx | ->].
        -- destruct (H5 x Hx) as [Hold | Hnot]; [now left|].
           right. intros Hin. apply Hnot. apply setAdd_In. now left.
        -- now right.
      * left. apply setAdd_In. now right.
Qed.

Lemma topologicalOrder_covers g order :
  topologicalOrder g = Ok order ->
  NoDup order /\ (forall n, In n order <-> In n (OMap.keys g)).
Proof.
  unfold topologicalOrder.
  assert (H : forall nodes v v',
             (forall n, In n nodes -> In n (OMap.keys g)) ->
             foldM (visitNode (List.length g) g) v nodes = Ok v' ->
             VisitCover g v -> visitingNodes v = [] ->
             VisitCover g v' /\
             (forall x, In x (visitedNodes v) -> In x (visitedNodes v')) /\
             (forall n, In n nodes -> In n (visitedNodes v'))).
  { induction nodes as [|n nodes IHn]; intros v v' Hnodes Hfold Hinv Hvis.
    - simpl in Hfold. injection Hfold as <-.
      split; [assumption|]. split; [auto|]. intros n [].
    - simpl in Hfold.
      destruct (visitNode (List.length g) g v n) as [v1| |] eqn:E;
        simpl in Hfold; try discriminate.
      destruct (visitNode_covers g _ v n v1 E) as [P1 [P2 [P3 [P4 P5]]]];
        [apply Hnodes; now left | assumption|].
      destruct (IHn v1 v') as [H1 [H2 H3]]; try assumption.
      + intros m Hm. apply Hnodes. now right.
      + now rewrite P2.
      + split; [assumption|]. split.
        * intros x Hx. apply H2. now apply P3.
        * intros m [<- | Hm]; [|now apply H3].
          apply H2. destruct P5 as [P5|P5]; [assumption|].
          rewrite Hvis in P5. contradiction. }
  destruct (foldM _ _ _) as [v'| |] eqn:Efold; simpl; try discriminate.
  intros [= <-].
  destruct (H (OMap.keys g) (mkVisit [] [] []) v' (fun n Hn => Hn) Efold)
    as [[S1 [S2 S3]] [_ Hall]].
  - split; [|split]; simpl; [tauto | constructor | intros x []].
  - reflexivity.
  - split; [assumption|]. intros n. rewrite S1. split; [apply S3 | apply Hall].
Qed.

Lemma buildDependencyGraph_keys st :
  NoDup (OMap.keys st.(tableRegistry)) ->
  OMap.keys (buildDependencyGraph st) = OMap.keys st.(tableRegistry).
Proof.
  unfold buildDependencyGraph.
  set (F := fun (dependencyGraph : list (string * list string))
                (entry : string * TableData) => _).
  assert (H : forall entries (acc : list (string * list string)),
             NoDup (OMap.keys acc ++ OMap.keys entries)%list ->
             OMap.keys (fold_left F entries acc)
             = (OMap.keys acc ++ OMap.keys entries)%list).
  { induction entries as [|[k t] entries IH]; intros acc Hnd.
    - simpl. now rewrite app_nil_r.
    - cbn [fold_left]. change (OMap.keys ((k, t) :: entries))
        with (k :: OMap.keys entries) in *.
      assert (Hk : OMap.has acc k = false).
      { destruct (OMap.has acc k) eqn:E; [|reflexivity].
        apply has_In_keys in E. apply NoDup_remove_2 in Hnd.
        exfalso. apply Hnd. apply in_or_app. now left. }
      assert (Hstep : OMap.keys (F acc (k, t)) = (OMap.keys acc ++ [k])%list).
      { unfold F. now rewrite OMap_keys_set, Hk. }
      rewrite IH; rewrite Hstep, <- app_assoc; [reflexivity | exact Hnd]. }
  intros Hnd. now rewrite (H st.(tableRegistry) [] Hnd).
Qed.

Lemma computeTopologicalOrder_covers st :
  NoDup (OMap.keys st.(tableRegistry)) ->
  exists order,
    computeTopologicalOrder st = Ok order
    /\ NoDup order
    /\ (forall n, In n order <-> In n (OMap.keys st.(tableRegistry))).
Proof.
  intros Hnd. unfold computeTopologicalOrder.
  destruct (topologicalOrder_returns (buildDependencyGraph st)) as [order Horder].
  exists order. split; [assumption|].
  destruct (topologicalOrder_covers _ _ Horder) as [H1 H2].
  rewrite (buildDependencyGraph_keys st Hnd) in H2. now split.
Qed.

(** X10.  The dependency order always holds every registered table exactly
    once, also when tables refer to one another in a cycle: no table is
    dropped from the output or written twice on account of the order. *)
Theorem computeTopologicalOrder_permutation :
  forall st : State,
    NoDup (OMap.keys st.(tableRegistry)) ->
    exists order,
      computeTopologicalOrder st = Ok order
      /\ Permutation order (OMap.keys st.(tableRegistry)).
Proof.
  intros st Hnd.
  destruct (computeTopologicalOrder_covers st Hnd) as [order [Hrun [H1 H2]]].
  exists order. split; [assumption|]. now apply NoDup_Permutation.
Qed.

Lemma computeTopologicalOrder_permutation_witness :
  buildDependencyGraph cyclicState
  = [("@root", ["@a"]); ("@a", ["@b"]); ("@b", ["@a"])]
  /\ exists order,
       computeTopologicalOrder cyclicState = Ok order
       /\ Permutation order (OMap.keys cyclicState.(tableRegistry)).
Proof.
  split; [vm_compute; reflexivity|].
  apply (computeTopologicalOrder_permutation cyclicState).
  vm_compute. repeat constructor; simpl; intuition discriminate.
Defined.

(** ** Properties that every step of the traversal keeps *)

Section Preservation.

Variable cmp : string -> string -> Z.
Variable P : State -> Prop.

Hypothesis P_cache : forall st k v,
  P st -> P (withCache st (OMap.set st.(arrayReferenceCache) k v)).
Hypothesis P_register : forall st T cols st',
  P st -> registerColumns cmp st T cols = Ok st' -> P st'.
Hypothesis P_addRow : forall st T item row cols key st' index,
  P st -> isObjectLike item = true ->
  addRowToTable st T item row cols key = Ok (st', index) -> P st'.

Lemma processNested_preserves rec item cols : forall st st',
  (forall st0 st0' k x, P st0 -> rec st0 x k = Ok st0' -> P st0') ->
  P st -> processNested rec st item cols = Ok st' -> P st'.
Proof.
  unfold processNested.
  induction cols as [|c cols IH]; intros st st' Hrec Hinv; simpl.
  - now intros [= <-].
  - destruct (getProp item c) as [[x|]| |]; simpl; try discriminate.
    + destruct (isObjectLike x).
      * destruct (rec st x c) as [st1| |] eqn:Erec; simpl; try discriminate.
        apply IH; [assumption|]. now apply (Hrec st st1 c x).
      * simpl. now apply IH.
    + now apply IH.
Qed.

Lemma processObjectValue_preserves rec fields context st st' :
  (forall st0 st0' k x, P st0 -> rec st0 x k = Ok st0' -> P st0') ->
  P st -> processObjectValue cmp rec st fields context = Ok st' -> P st'.
Proof.
  intros Hrec Hinv. unfold processObjectValue.
  destruct (registerColumns cmp st _ _) as [st1| |] eqn:Ereg; simpl;
    try discriminate.
  pose proof (P_register st _ _ st1 Hinv Ereg) as Hinv1.
  destruct (OMap.get (tableRegistry st1) _) as [table|]; [|discriminate].
  destruct (OMap.get (objectToIndexMap st1) _) as [addr|]; [|discriminate].
  destruct (processNested rec st1 (JObject fields) (columns table))
    as [st2| |] eqn:Enested; simpl; try discriminate.
  pose proof (processNested_preserves rec _ _ st1 st2 Hrec Hinv1 Enested) as Hinv2.
  destruct (applyDefaultsToRow st2 (JObject fields) (columns table))
    as [row| |]; simpl; try discriminate.
  destruct (negb _).
  - destruct (addRowToTable st2 _ _ _ _ _) as [[st3 index]| |] eqn:Eadd;
      simpl; try discriminate.
    intros [= <-].
    eapply P_addRow; [exact Hinv2 | | exact Eadd]. reflexivity.
  - now intros [= <-].
Qed.

Lemma processArrayValue_preserves rec array context cacheKey st st' :
  (forall st0 st0' k x, P st0 -> rec st0 x k = Ok st0' -> P st0') ->
  P st ->
  processArrayValue cmp rec st array context cacheKey = Ok st' -> P st'.
Proof.
  intros Hrec Hinv. unfold processArrayValue.
  destruct array as [|first rest]; [intros [= <-]; now apply P_cache|].
  cbv iota beta. remember (first :: rest) as items eqn:Hitems.
  destruct (_ || _ || _)%bool; [intros [= <-]; now apply P_cache|].
  destruct (List.length (extractColumnNames cmp items) =? 0) eqn:Ecols;
    [intros [= <-]; now apply P_cache|].
  destruct (registerColumns cmp st _ _) as [st1| |] eqn:Ereg; simpl;
    try discriminate.
  pose proof (P_register st _ _ st1 Hinv Ereg) as Hinv1.
  destruct (OMap.get (tableRegistry st1) _) as [table|] eqn:Etable; [|discriminate].
  destruct (OMap.get (objectToIndexMap st1) _) as [addr|]; [|discriminate].
  assert (Hnonempty : exists c cols, columns table = c :: cols).
  { apply Nat.eqb_neq in Ecols.
    destruct (extractColumnNames cmp items) as [|c0 cs] eqn:E; [contradiction|].
    pose proof (registerColumns_columns cmp st _ _ st1 table c0 Ereg Etable
                  (or_introl eq_refl)) as Hc.
    destruct (columns table) as [|c cols]; [contradiction | eauto]. }
  destruct Hnonempty as [c [cols Hcols]].
  match goal with |- context [foldM ?f _ _] => set (body := f) end.
  assert (Hloop : forall l acc acc',
             P (fst acc) -> foldM body acc l = Ok acc' -> P (fst acc')).
  { induction l as [|item l IH]; intros [s indices] acc' Hs; simpl.
    - now intros [= <-].
    - destruct (processNested rec s item (columns table)) as [s1| |] eqn:Enested;
        simpl; try discriminate.
      pose proof (processNested_preserves rec _ _ s s1 Hrec Hs Enested) as Hs1.
      destruct (applyDefaultsToRow s1 item (columns table)) as [row| |] eqn:Erow;
        simpl; try discriminate.
      assert (Hitem : isObjectLike item = true).
      { rewrite Hcols in Erow. now apply (applyDefaultsToRow_objectLike _ _ _ _ _ Erow). }
      destruct (OMap.get (deref s1 addr) _) as [rowIndex|].
      + simpl. now apply IH.
      + destruct (addRowToTable s1 _ _ _ _ _) as [[s2 index]| |] eqn:Eadd;
          simpl; try discriminate.
        apply IH. simpl.
        eapply P_addRow; [exact Hs1 | exact Hitem | exact Eadd]. }
  destruct (foldM body (st1, []) items) as [[st2 indices]| |] eqn:Efold;
    simpl; try discriminate.
  intros [= <-]. apply P_cache.
  exact (Hloop items (st1, []) (st2, indices) Hinv1 Efold).
Qed.

Lemma processValue_preserves : forall fuel st v context st',
  P st -> processValue cmp fuel st v context = Ok st' -> P st'.
Proof.
  induction fuel as [|fuel IH]; intros st v context st' Hinv; simpl.
  - destruct (isObjectLike v); simpl; [|now intros [= <-]].
    destruct (OMap.has _ _); [now intros [= <-] | discriminate].
  - destruct (isObjectLike v); simpl; [|now intros [= <-]].
    destruct (OMap.has _ _); [now intros [= <-]|].
    destruct v as [| | | |items|fields]; try (now intros [= <-]).
    + apply processArrayValue_preserves; [|assumption].
      intros st0 st0' k x H0. now apply IH.
    + apply processObjectValue_preserves; [|assumption].
      intros st0 st0' k x H0. now apply IH.
Qed.

End Preservation.

(** ** The invariant of the engine *)

Lemma indexKeys_range keys : forall index m k i,
  OMap.get (indexKeys keys index m) k = Some i ->
  OMap.get m k = Some i \/ (index <= i < index + List.length keys).
Proof.
  unfold indexKeys.
  induction keys as [|key keys IH]; intros index m k i; simpl; [now left|].
  intros H. apply IH in H. destruct H as [H|H]; [|right; lia].
  rewrite OMap_get_set in H. destruct (String.eqb key k).
  - injection H as <-. right. lia.
  - now left.
Qed.

Lemma initialize_engine config : EngineInvariant (initialize config).
Proof.
  constructor; simpl.
  - apply initialize_invariant.
  - intros T H. discriminate.
  - intros T table H. discriminate.
  - intros T a table key i H. discriminate.
Qed.

Lemma withCache_engine st k v :
  EngineInvariant st ->
  EngineInvariant (withCache st (OMap.set st.(arrayReferenceCache) k v)).
Proof.
  intros H. constructor; try apply H.
  apply withCache_invariant, H.
Qed.

Lemma createNewTable_engine st T cols :
  EngineInvariant st -> EngineInvariant (createNewTable st T cols).
Proof.
  intros H. constructor.
  - apply createNewTable_invariant, H.
  - rewrite createNewTable_spec. simpl. intros T0.
    rewrite !OMap_has_set. destruct (String.eqb T T0); [reflexivity|].
    apply (eng_map H).
  - rewrite createNewTable_spec. simpl. intros T0 table.
    rewrite !OMap_get_set. destruct (String.eqb T T0).
    + now intros [= <-].
    + apply (eng_counter H).
  - rewrite createNewTable_spec. intros T0 a table key i.
    cbn [objectToIndexMap tableRegistry]. rewrite !OMap_get_set.
    destruct (String.eqb T T0).
    + intros [= <-] _. unfold deref. cbn [mapStore].
      rewrite app_nth2 by lia. rewrite Nat.sub_diag. discriminate.
    + intros Ha Ht. unfold deref. cbn [mapStore].
      rewrite app_nth1 by (apply (proj1 (inv_store (eng_state H)) T0 a Ha)).
      now apply (eng_range H T0).
Qed.

Lemma rebuildTableWithNewColumns_engine st T cols st' :
  EngineInvariant st ->
  rebuildTableWithNewColumns st T cols = Ok st' -> EngineInvariant st'.
Proof.
  intros H Hrun. constructor.
  - now apply (rebuildTableWithNewColumns_invariant st T cols st' (eng_state H)).
  - revert Hrun. unfold rebuildTableWithNewColumns.
    destruct (OMap.get (tableRegistry st) T) as [table|] eqn:Eget; [|discriminate].
    destruct (rebuildRows _ _ _ _ _) as [[newRows newMap]| |]; simpl;
      try discriminate.
    intros [= <-]. simpl. intros T0. rewrite !OMap_has_set.
    destruct (String.eqb T T0) eqn:E; [reflexivity|]. simpl. apply (eng_map H).
  - revert Hrun. unfold rebuildTableWithNewColumns.
    destruct (OMap.get (tableRegistry st) T) as [table|] eqn:Eget; [|discriminate].
    destruct (rebuildRows _ _ _ _ _) as [[newRows newMap]| |] eqn:Erows; simpl;
      try discriminate.
    intros [= <-]. simpl. intros T0 table0. rewrite OMap_set_set, OMap_get_set.
    destruct (String.eqb T T0) eqn:E.
    + apply String.eqb_eq in E. subst T0. intros [= <-]. simpl.
      rewrite (eng_counter H T table Eget). f_equal.
      rewrite (rebuildRows_length _ _ _ _ _ _ _ Erows).
      apply (inv_tables (eng_state H) T table Eget).
    + apply (eng_counter H).
  - destruct (OMap.get (tableRegistry st) T) as [table|] eqn:Eget;
      [|unfold rebuildTableWithNewColumns in Hrun; rewrite Eget in Hrun;
        discriminate].
    destruct (inv_tables (eng_state H) T table Eget) as [Hlen Hitems].
    destruct (rebuildTableWithNewColumns_spec st T table cols Eget Hitems)
      as [newRows [keys [Hrows [Hkeys Hspec]]]].
    rewrite Hspec in Hrun. injection Hrun as <-.
    intros T0 a table0 key i. cbn [objectToIndexMap tableRegistry].
    rewrite !OMap_get_set. destruct (String.eqb T T0).
    + intros [= <-] [= <-]. unfold deref. cbn [mapStore rows].
      rewrite app_nth2 by lia. rewrite Nat.sub_diag. cbn [nth].
      intros Hi. apply indexKeys_range in Hi. destruct Hi as [Hi|Hi];
        [discriminate|].
      rewrite (mapM_length _ _ _ Hrows). rewrite (mapM_length _ _ _ Hkeys) in Hi.
      lia.
    + intros Ha Ht. unfold deref. cbn [mapStore].
      rewrite app_nth1 by (apply (proj1 (inv_store (eng_state H)) T0 a Ha)).
      now apply (eng_range H T0).
Qed.

Lemma registerColumns_engine cmp st T cols st' :
  EngineInvariant st ->
  registerColumns cmp st T cols = Ok st' -> EngineInvariant st'.
Proof.
  intros H. unfold registerColumns. destruct (negb _).
  - intros [= <-]. now apply createNewTable_engine.
  - unfold mergeTableColumns.
    destruct (OMap.get (tableRegistry st) T) as [table|]; [|discriminate].
    destruct (hasColumnsChanged _ _).
    + now apply rebuildTableWithNewColumns_engine.
    + now intros [= <-].
Qed.

Lemma addRowToTable_engine st T item row cols key st' index :
  EngineInvariant st -> isObjectLike item = true ->
  addRowToTable st T item row cols key = Ok (st', index) -> EngineInvariant st'.
Proof.
  intros H Hitem Hrun. constructor.
  - now apply (addRowToTable_invariant st T item row cols key st' index
                 (eng_state H)).
  - revert Hrun. unfold addRowToTable.
    destruct (renderCells st row cols) as [cells| |]; simpl; try discriminate.
    destruct (OMap.get (tableRegistry st) T) as [table|] eqn:Eget; [|discriminate].
    destruct (OMap.get (objectToIndexMap st) T) as [addr|] eqn:Emap; [|discriminate].
    intros [= <- _]. simpl. intros T0. rewrite OMap_has_set.
    destruct (String.eqb T T0) eqn:E; [|apply (eng_map H)].
    apply String.eqb_eq in E. subst T0. intros _. unfold OMap.has. now rewrite Emap.
  - revert Hrun. unfold addRowToTable.
    destruct (renderCells st row cols) as [cells| |]; simpl; try discriminate.
    destruct (OMap.get (tableRegistry st) T) as [table|] eqn:Eget; [|discriminate].
    destruct (OMap.get (objectToIndexMap st) T) as [addr|] eqn:Emap; [|discriminate].
    intros [= <- _]. simpl. intros T0 table0. rewrite !OMap_get_set.
    destruct (String.eqb T T0); [|apply (eng_counter H)].
    intros [= <-]. simpl. rewrite length_app. reflexivity.
  - revert Hrun. unfold addRowToTable.
    destruct (renderCells st row cols) as [cells| |]; simpl; try discriminate.
    destruct (OMap.get (tableRegistry st) T) as [table|] eqn:Eget; [|discriminate].
    destruct (OMap.get (objectToIndexMap st) T) as [addr|] eqn:Emap; [|discriminate].
    intros [= <- _]. intros T0 a table0 k i.
    cbn [objectToIndexMap tableRegistry withCounters withRegistry storeSet
         withStore].
    rewrite OMap_get_set. unfold deref.
    cbn [mapStore withCounters withRegistry storeSet withStore].
    destruct (inv_store (eng_state H)) as [Hbound Hinj].
    destruct (String.eqb T T0) eqn:E.
    + apply String.eqb_eq in E. subst T0. rewrite Emap.
      intros [= <-] [= <-]. cbn [rows]. rewrite length_app. simpl.
      rewrite nth_updateNth by (apply (Hbound T addr Emap)).
      rewrite OMap_get_set. destruct (String.eqb key k).
      * intros [= <-]. lia.
      * intros Hi. pose proof (eng_range H T addr table k i Emap Eget Hi). lia.
    + intros Ha Ht.
      assert (Hne : a <> addr).
      { intros ->. apply String.eqb_neq in E. apply E.
        now apply (Hinj T T0 addr). }
      rewrite nth_updateNth_neq by exact Hne.
      now apply (eng_range H T0 a table0 k i).
Qed.

Lemma processValue_engine cmp fuel st v context st' :
  EngineInvariant st ->
  processValue cmp fuel st v context = Ok st' -> EngineInvariant st'.
Proof.
  apply (processValue_preserves cmp EngineInvariant).
  - apply withCache_engine.
  - intros s T cols s'. apply registerColumns_engine.
  - apply addRowToTable_engine.
Qed.

(** ** Inputs on which the traversal returns *)

Lemma registerColumns_has cmp st T cols st' T0 :
  registerColumns cmp st T cols = Ok st' ->
  (OMap.has st.(tableRegistry) T0 = true -> OMap.has st'.(tableRegistry) T0 = true)
  /\ OMap.has st'.(tableRegistry) T = true.
Proof.
  unfold registerColumns. destruct (OMap.has (tableRegistry st) T) eqn:Ehas; simpl.
  - unfold mergeTableColumns.
    destruct (OMap.get (tableRegistry st) T) as [table|]; [|discriminate].
    destruct (hasColumnsChanged _ _).
    + unfold rebuildTableWithNewColumns.
      destruct (OMap.get (tableRegistry st) T) as [table'|]; [|discriminate].
      destruct (rebuildRows _ _ _ _ _) as [[newRows newMap]| |]; simpl;
        try discriminate.
      intros [= <-]. simpl. rewrite !OMap_has_set, String.eqb_refl.
      split; [|reflexivity]. intros ->. now rewrite !orb_true_r.
    + intros [= <-]. now split.
  - intros [= <-]. rewrite createNewTable_spec. simpl.
    rewrite !OMap_has_set, String.eqb_refl. split; [|reflexivity].
    intros ->. now rewrite orb_true_r.
Qed.

Lemma addRowToTable_has st T item row cols key st' index T0 :
  addRowToTable st T item row cols key = Ok (st', index) ->
  OMap.has st.(tableRegistry) T0 = true -> OMap.has st'.(tableRegistry) T0 = true.
Proof.
  unfold addRowToTable.
  destruct (renderCells st row cols) as [cells| |]; simpl; try discriminate.
  destruct (OMap.get (tableRegistry st) T) as [table|]; [|discriminate].
  destruct (OMap.get (objectToIndexMap st) T) as [addr|]; [|discriminate].
  intros [= <- _]. simpl. rewrite OMap_has_set. intros ->. now rewrite orb_true_r.
Qed.

Lemma processValue_engineWith cmp T fuel st v context st' :
  EngineWith T st ->
  processValue cmp fuel st v context = Ok st' -> EngineWith T st'.
Proof.
  apply (processValue_preserves cmp (EngineWith T)).
  - intros s k x [H1 H2]. split; [now apply withCache_engine | exact H2].
  - intros s T1 cols s' [H1 H2] Hrun. split.
    + now apply (registerColumns_engine cmp s T1 cols).
    + now apply (proj1 (registerColumns_has cmp s T1 cols s' T Hrun)).
  - intros s T1 item row cols key s' index [H1 H2] Hitem Hrun. split.
    + now apply (addRowToTable_engine s T1 item row cols key s' index).
    + now apply (addRowToTable_has s T1 item row cols key s' index T Hrun).
Qed.

Lemma registerColumns_total cmp st T cols :
  EngineInvariant st -> exists st', registerColumns cmp st T cols = Ok st'.
Proof.
  intros H. unfold registerColumns.
  destruct (OMap.has (tableRegistry st) T) eqn:Ehas; simpl; [|eauto].
  unfold mergeTableColumns. unfold OMap.has in Ehas.
  destruct (OMap.get (tableRegistry st) T) as [table|] eqn:Eget; [|discriminate].
  destruct (hasColumnsChanged _ _); [|eauto].
  destruct (inv_tables (eng_state H) T table Eget) as [_ Hitems].
  destruct (rebuildTableWithNewColumns_spec st T table
              (sortColumnNames cmp
                 (columns table
                    ++ filter (fun column => negb (mem column (columns table)))
                         cols)%list) Eget Hitems)
    as [newRows [keys [_ [_ Hspec]]]].
  rewrite Hspec. eauto.
Qed.

Lemma addRowToTable_total st T item row cols key :
  EngineWith T st ->
  exists st' index, addRowToTable st T item row cols key = Ok (st', index).
Proof.
  intros [H Hhas]. pose proof (eng_map H T Hhas) as Hmap.
  unfold OMap.has in Hhas, Hmap.
  destruct (OMap.get (tableRegistry st) T) as [table|] eqn:Eget; [|discriminate].
  destruct (OMap.get (objectToIndexMap st) T) as [addr|] eqn:Emap; [|discriminate].
  destruct (addRowToTable_spec st T item row cols key table addr Eget Emap)
    as [cells [_ Hspec]].
  rewrite Hspec. eauto.
Qed.

Lemma getProp_total item c :
  isObjectLike item = true -> exists o, getProp item c = Ok o.
Proof.
  destruct item as [| | | |items|fields]; try discriminate; intros _; simpl.
  - destruct (JS.arrayIndex c); [destruct (_ <? _)%N | destruct (String.eqb _ _)];
      eauto.
  - eauto.
Qed.

Lemma getProp_wellShaped item c x :
  wellShaped item = true -> getProp item c = Ok (Some x) -> wellShaped x = true.
Proof.
  destruct item as [| | |s|items|fields]; simpl; try discriminate.
  - intros _. destruct (JS.arrayIndex c).
    + destruct (_ <? _)%N; [|discriminate].
      destruct (String.get _ s); simpl; [|discriminate]. now intros [= <-].
    + destruct (String.eqb _ _); [|discriminate]. now intros [= <-].
  - intros H. apply andb_true_iff in H. destruct H as [_ H].
    destruct (JS.arrayIndex c).
    + destruct (_ <? _)%N; [|discriminate]. intros [= Hx].
      apply nth_error_In in Hx. rewrite forallb_forall in H. now apply H.
    + destruct (String.eqb _ _); [|discriminate]. now intros [= <-].
  - intros H [= Hx]. apply OMap_get_In in Hx. rewrite forallb_forall in H.
    now apply (H (c, x)).
Qed.

Section Totality.

Variable cmp : string -> string -> Z.
Variable rec : State -> JSONValue -> string -> Result State.
Variable n : nat.

Hypothesis rec_total : forall st x k,
  EngineInvariant st -> wellShaped x = true -> depth x <= n ->
  exists st', rec st x k = Ok st'.
Hypothesis rec_keeps : forall T st x k st',
  EngineWith T st -> rec st x k = Ok st' -> EngineWith T st'.

Lemma processNested_total T item cols : forall st,
  EngineWith T st -> isObjectLike item = true -> wellShaped item = true ->
  Nat.pred (depth item) <= n ->
  exists st', processNested rec st item cols = Ok st' /\ EngineWith T st'.
Proof.
  intros st Hst Hitem Hshape Hdepth. unfold processNested.
  revert st Hst. induction cols as [|c cols IH]; intros st Hst; simpl; [eauto|].
  destruct (getProp_total item c Hitem) as [[x|] Eprop]; rewrite Eprop; simpl.
  - destruct (isObjectLike x) eqn:Ex; [|now apply IH].
    destruct (rec_total st x c) as [st1 Erec].
    + apply Hst.
    + now apply (getProp_wellShaped item c).
    + apply getProp_depth in Eprop. lia.
    + rewrite Erec. simpl. apply IH. now apply (rec_keeps T st x c).
  - now apply IH.
Qed.

Lemma processObjectValue_total fields context st :
  EngineInvariant st -> wellShaped (JObject fields) = true ->
  depth (JObject fields) <= S n ->
  exists st', processObjectValue cmp rec st fields context = Ok st'.
Proof.
  intros Hst Hshape Hdepth. unfold processObjectValue.
  set (T := resolveTableName st context).
  destruct (registerColumns_total cmp st T
              (sortColumnNames cmp (OMap.keys fields)) Hst) as [st1 Ereg].
  rewrite Ereg. cbn [bind].
  assert (H1 : EngineWith T st1).
  { split; [exact (registerColumns_engine cmp st T _ st1 Hst Ereg)|].
    exact (proj2 (registerColumns_has cmp st T _ st1 T Ereg)). }
  destruct H1 as [Hst1 Hhas]. pose proof (eng_map Hst1 T Hhas) as Hmap.
  unfold OMap.has in Hhas, Hmap.
  destruct (OMap.get (tableRegistry st1) T) as [table|] eqn:Eget; [|discriminate].
  destruct (OMap.get (objectToIndexMap st1) T) as [addr|] eqn:Emap; [|discriminate].
  destruct (processNested_total T (JObject fields) (columns table) st1)
    as [st2 [Enested Hst2]]; try reflexivity; try assumption.
  { split; [assumption|]. unfold OMap.has. now rewrite Eget. }
  { lia. }
  rewrite Enested. cbn [bind].
  destruct (applyDefaultsToRow_total st2 (JObject fields) (columns table) eq_refl)
    as [row Erow].
  rewrite Erow. cbn [bind].
  destruct (negb _); [|eauto].
  destruct (addRowToTable_total st2 T (JObject fields) row (columns table)
              (generateCanonicalKey st2 row (columns table)) Hst2)
    as [st3 [index Eadd]].
  rewrite Eadd. cbn [bind]. eauto.
Qed.

Lemma processArrayValue_total array context cacheKey st :
  EngineInvariant st -> wellShaped (JArray array) = true ->
  depth (JArray array) <= S n ->
  exists st', processArrayValue cmp rec st array context cacheKey = Ok st'.
Proof.
  intros Hst Hshape Hdepth. unfold processArrayValue.
  destruct array as [|first rest]; [eauto|].
  cbv iota beta. remember (first :: rest) as items eqn:Hitems.
  destruct (_ || _ || _)%bool eqn:Efirst; [eauto|].
  destruct (List.length (extractColumnNames cmp items) =? 0); [eauto|].
  set (T := resolveTableName st context).
  destruct (registerColumns_total cmp st T (extractColumnNames cmp items) Hst)
    as [st1 Ereg].
  rewrite Ereg. cbn [bind].
  assert (H1 : EngineWith T st1).
  { split; [exact (registerColumns_engine cmp st T _ st1 Hst Ereg)|].
    exact (proj2 (registerColumns_has cmp st T _ st1 T Ereg)). }
  pose proof H1 as [Hst1 Hhas]. pose proof (eng_map Hst1 T Hhas) as Hmap.
  unfold OMap.has in Hhas, Hmap.
  destruct (OMap.get (tableRegistry st1) T) as [table|] eqn:Eget; [|discriminate].
  destruct (OMap.get (objectToIndexMap st1) T) as [addr|] eqn:Emap; [|discriminate].
  assert (Hall : forall item, In item items ->
                   isObjectLike item = true /\ wellShaped item = true
                   /\ Nat.pred (depth item) <= n).
  { intros item Hin. cbn [wellShaped] in Hshape.
    apply andb_true_iff in Hshape. destruct Hshape as [Hobj Hsub].
    rewrite forallb_forall in Hsub. split; [|split].
    - subst items. destruct first; try discriminate.
      rewrite forallb_forall in Hobj. now apply Hobj.
    - now apply Hsub.
    - apply depth_element in Hin. lia. }
  match goal with |- context [foldM ?f _ _] => set (body := f) end.
  assert (Hloop : forall l acc,
             (forall item, In item l -> In item items) ->
             EngineWith T (fst acc) ->
             exists acc', foldM body acc l = Ok acc').
  { induction l as [|item l IH]; intros [s indices] Hsub Hs; simpl; [eauto|].
    destruct (Hall item (Hsub item (or_introl eq_refl))) as [Hobj [Hsh Hd]].
    destruct (processNested_total T item (columns table) s Hs Hobj Hsh Hd)
      as [s1 [Enested Hs1]].
    rewrite Enested. cbn [bind].
    destruct (applyDefaultsToRow_total s1 item (columns table) Hobj) as [row Erow].
    rewrite Erow. cbn [bind].
    destruct (OMap.get (deref s1 addr) _) as [rowIndex|].
    - apply IH; [intros x Hx; apply Hsub; now right | exact Hs1].
    - destruct (addRowToTable_total s1 T item row (columns table)
                  (generateCanonicalKey s1 row (columns table)) Hs1)
        as [s2 [index Eadd]].
      rewrite Eadd. cbn [bind]. apply IH; [intros x Hx; apply Hsub; now right|].
      cbn [fst]. destruct Hs1 as [Hs1 Hhas1]. split.
      + exact (addRowToTable_engine s1 T item row _ _ s2 index Hs1 Hobj Eadd).
      + exact (addRowToTable_has s1 T item row _ _ s2 index T Eadd Hhas1). }
  destruct (Hloop items (st1, []) (fun _ H => H) H1) as [[st2 indices] Efold].
  rewrite Efold. cbn [bind]. eauto.
Qed.

End Totality.

Lemma processValue_total cmp : forall fuel st v context,
  EngineInvariant st -> wellShaped v = true -> depth v <= fuel ->
  exists st', processValue cmp fuel st v context = Ok st'.
Proof.
  induction fuel as [|fuel IH]; intros st v context Hst Hshape Hdepth.
  - destruct v; simpl in *; eauto; lia.
  - simpl. destruct (negb (isObjectLike v)); [eauto|].
    destruct (OMap.has _ _); [eauto|].
    destruct v as [| | | |items|fields]; eauto.
    + apply (processArrayValue_total cmp (processValue cmp fuel) fuel IH);
        try assumption.
      intros T s x k s'. apply processValue_engineWith.
    + apply (processObjectValue_total cmp (processValue cmp fuel) fuel IH);
        try assumption.
      intros T s x k s'. apply processValue_engineWith.
Qed.

Lemma buildTabularOutput_total st data :
  exists out, buildTabularOutput st data = Ok out.
Proof.
  unfold buildTabularOutput, computeTopologicalOrder.
  destruct (topologicalOrder_returns (buildDependencyGraph st)) as [order ->].
  cbn [bind].
  assert (H : exists rootLines, buildRootOutput st data = Ok rootLines).
  { destruct data as [| | | |items|entries]; simpl; eauto.
    - destruct (resolveReference_total st (JArray items) "root") as [r ->].
      simpl. eauto.
    - apply mapM_total. intros [key value] _.
      destruct (resolveReference_total st value key) as [r ->]. simpl.
      destruct (matchRootReference r); eauto.
      destruct (String.eqb _ _); eauto.
      destruct (OMap.get _ _); eauto. }
  destruct H as [rootLines ->]. cbn [bind]. eauto.
Qed.

Lemma rootKeys_engine config keys :
  EngineInvariant
    (mkState [] [] [] keys [] [] config.(cfgDefaultValues)
             config.(cfgTableStructure)).
Proof.
  pose proof (initialize_engine config) as H.
  constructor; [constructor|..]; simpl; try apply H;
    try (intros; discriminate); constructor.
Qed.

Lemma parse_start_engine data config :
  EngineInvariant
    (match data with
     | JObject fields =>
         mkState (initialize config).(tableRegistry)
                 (initialize config).(arrayReferenceCache)
                 (initialize config).(tableIndexCounters)
                 (fold_left setAdd (OMap.keys fields)
                            (initialize config).(rootLevelKeys))
                 (initialize config).(objectToIndexMap)
                 (initialize config).(mapStore)
                 (initialize config).(defaultValues)
                 (initialize config).(tableStructure)
     | _ => initialize config
     end).
Proof.
  destruct data; try apply initialize_engine. apply rootKeys_engine.
Qed.



(** ** Inputs on which the traversal throws *)

Lemma processArrayValue_rejects cmp rec st fields rest context cacheKey bad st' :
  fields <> [] -> In bad (JObject fields :: rest) -> isObjectLike bad = false ->
  processArrayValue cmp rec st (JObject fields :: rest) context cacheKey <> Ok st'.
Proof.
  intros Hfields Hbad Hnot. unfold processArrayValue.
  cbv iota beta. remember (JObject fields :: rest) as items eqn:Hitems.
  cbn [typeofObject isArray negb orb].
  assert (Hcol : exists k, In k (extractColumnNames cmp items)).
  { destruct fields as [|[k x] fields]; [congruence|]. exists k.
    apply extractColumnNames_In. exists ((k, x) :: fields).
    split; [subst items; now left | now left]. }
  destruct Hcol as [k Hk].
  destruct (List.length (extractColumnNames cmp items) =? 0) eqn:Ecols.
  { apply Nat.eqb_eq in Ecols.
    destruct (extractColumnNames cmp items); [contradiction | discriminate]. }
  destruct (registerColumns cmp st _ _) as [st1| |] eqn:Ereg; cbn [bind];
    try discriminate.
  destruct (OMap.get (tableRegistry st1) _) as [table|] eqn:Etable; [|discriminate].
  destruct (OMap.get (objectToIndexMap st1) _) as [addr|]; [|discriminate].
  pose proof (registerColumns_columns cmp st _ _ st1 table k Ereg Etable Hk) as Hc.
  destruct (columns table) as [|c cols] eqn:Hcols; [contradiction|].
  match goal with |- context [foldM ?f _ _] => set (body := f) end.
  assert (Hloop : forall l acc acc',
             foldM body acc l = Ok acc' ->
             forall item, In item l -> isObjectLike item = true).
  { induction l as [|item l IH]; intros [s indices] acc' Hfold x Hx;
      [contradiction|].
    simpl in Hfold.
    destruct (processNested rec s item (c :: cols)) as [s1| |];
      cbn [bind] in Hfold; try discriminate.
    destruct (applyDefaultsToRow s1 item (c :: cols)) as [row| |] eqn:Erow;
      cbn [bind] in Hfold; try discriminate.
    destruct Hx as [<-|Hx].
    - now apply (applyDefaultsToRow_objectLike _ _ _ _ _ Erow).
    - destruct (OMap.get (deref s1 addr) _).
      + now apply (IH _ _ Hfold).
      + destruct (addRowToTable s1 _ _ _ _ _) as [a| |]; cbn [bind] in Hfold;
          try discriminate.
        now apply (IH _ _ Hfold). }
  destruct (foldM body (st1, []) items) as [[st2 indices]| |] eqn:Efold;
    cbn [bind]; try discriminate.
  pose proof (Hloop items _ _ Efold bad Hbad) as Hobj. congruence.
Qed.

(** X12.  A list that begins with a record of at least one field and holds
    a scalar or Null anywhere is rejected: its traversal never completes,
    and [parse] throws a TypeError when that list is the whole input. *)
Theorem record_list_with_scalar_throws :
  forall (cmp : string -> string -> Z) (fields : list (string * JSONValue))
         (rest : list JSONValue) (bad : JSONValue),
    fields <> [] -> In bad rest -> isObjectLike bad = false ->
    (forall rec st context cacheKey st',
        processArrayValue cmp rec st (JObject fields :: rest) context cacheKey
        <> Ok st')
    /\ (forall config,
           parse cmp (JArray (JObject fields :: rest)) config = TypeError).
Proof.
  intros cmp fields rest bad Hfields Hbad Hnot. split.
  - intros rec st context cacheKey st'.
    apply (processArrayValue_rejects cmp rec st fields rest context cacheKey bad);
      [assumption | now right | assumption].
  - intros config. unfold parse.
    set (data := JArray (JObject fields :: rest)) in *.
    pose proof (processValue_fuel cmp (depth data) (initialize config) data "root"
                  (le_n _)) as Hfuel.
    destruct (processValue cmp (depth data) (initialize config) data "root")
      as [st2| |] eqn:Erun; cbn [bind] in *.
    + exfalso. revert Erun. unfold data at 1. cbn [depth processValue].
      cbn [isObjectLike negb initialize arrayReferenceCache OMap.has OMap.get].
      apply (processArrayValue_rejects cmp _ _ fields rest _ _ bad);
        [assumption | now right | assumption].
    + reflexivity.
    + exfalso. now apply Hfuel.
Qed.

Lemma record_list_with_scalar_throws_witness :
  parse codeUnitCompare
        (JArray [JObject [("id", JNumber 1)]; JNull])
        (mkConfig [] []) = TypeError.
Proof.
  apply (proj2 (record_list_with_scalar_throws codeUnitCompare
                  [("id", JNumber 1)] [JNull] JNull
                  ltac:(discriminate) (or_introl eq_refl) eq_refl)).
Defined.

(** ** What a completed traversal leaves behind *)

(** X13.  Every state that a completed traversal reaches from the start
    state of [parse] is consistent: table names and memo keys are unique;
    each table has as many rows as stored source records, all of them
    records or lists; its counter is the number of its rows; and it has a
    dedup map of its own, every index of which is the index of one of its
    rows. *)
Theorem traversal_keeps_tables_consistent :
  forall (cmp : string -> string -> Z) (fuel : nat) (config : SCOLTConfig)
         (keys : list string) (v : JSONValue) (context : string) (st' : State),
    processValue cmp fuel (startState config keys) v context = Ok st' ->
    NoDup (OMap.keys st'.(tableRegistry))
    /\ NoDup (OMap.keys st'.(arrayReferenceCache))
    /\ forall T table,
         OMap.get st'.(tableRegistry) T = Some table ->
         List.length table.(rows) = List.length table.(originalData)
         /\ Forall (fun item => isObjectLike item = true) table.(originalData)
         /\ OMap.get st'.(tableIndexCounters) T = Some (List.length table.(rows))
         /\ exists a,
              OMap.get st'.(objectToIndexMap) T = Some a
              /\ a < List.length st'.(mapStore)
              /\ (forall T', OMap.get st'.(objectToIndexMap) T' = Some a -> T' = T)
              /\ (forall key i, OMap.get (deref st' a) key = Some i ->
                                i < List.length table.(rows)).
Proof.
  intros cmp fuel config keys v context st' Hrun.
  pose proof (processValue_engine cmp fuel _ v context st'
                (rootKeys_engine config keys) Hrun) as H.
  split; [apply (eng_state H)|]. split; [apply (eng_state H)|].
  intros T table Hget.
  destruct (inv_tables (eng_state H) T table Hget) as [Hlen Hitems].
  split; [assumption|]. split; [assumption|].
  split; [now apply (eng_counter H)|].
  assert (Hhas : OMap.has st'.(tableRegistry) T = true)
    by (unfold OMap.has; now rewrite Hget).
  pose proof (eng_map H T Hhas) as Hmap. unfold OMap.has in Hmap.
  destruct (OMap.get (objectToIndexMap st') T) as [a|] eqn:Ea; [|discriminate].
  exists a. destruct (inv_store (eng_state H)) as [Hbound Hinj].
  split; [reflexivity|]. split; [now apply (Hbound T)|]. split.
  - intros T' Ha'. now apply (Hinj T' T a).
  - intros key i Hi. now apply (eng_range H T a table key i).
Qed.

Lemma traversal_keeps_tables_consistent_witness :
  NoDup (OMap.keys twoRowState.(tableRegistry))
  /\ NoDup (OMap.keys twoRowState.(arrayReferenceCache))
  /\ forall T table,
       OMap.get twoRowState.(tableRegistry) T = Some table ->
       List.length table.(rows) = List.length table.(originalData)
       /\ Forall (fun item => isObjectLike item = true) table.(originalData)
       /\ OMap.get twoRowState.(tableIndexCounters) T
          = Some (List.length table.(rows))
       /\ exists a,
            OMap.get twoRowState.(objectToIndexMap) T = Some a
            /\ a < List.length twoRowState.(mapStore)
            /\ (forall T', OMap.get twoRowState.(objectToIndexMap) T' = Some a ->
                           T' = T)
            /\ (forall key i, OMap.get (deref twoRowState a) key = Some i ->
                              i < List.length table.(rows)).
Proof.
  apply (traversal_keeps_tables_consistent codeUnitCompare 2 (mkConfig [] []) []
           (JArray [JObject [("id", JNumber 1)]; JObject [("id", JNumber 2)]])
           "t" twoRowState).
  vm_compute. reflexivity.
Defined.

Lemma grownFrom_trans T table table' st :
  incl table.(columns) table'.(columns) ->
  (exists added, table'.(originalData) = (table.(originalData) ++ added)%list) ->
  grownFrom T table' st -> grownFrom T table st.
Proof.
  intros Hcols [added1 Hdata] [t [Hget [Hc [added2 Hd]]]].
  exists t. split; [assumption|]. split.
  - intros c Hin. apply Hc, Hcols, Hin.
  - exists (added1 ++ added2)%list. now rewrite Hd, Hdata, app_assoc.
Qed.

Lemma grownFrom_set T table st st' table' :
  OMap.get st.(tableRegistry) T = Some table' ->
  grownFrom T table' st' -> grownFrom T table st -> grownFrom T table st'.
Proof.
  intros Hget Hnew [t [Hget0 [Hc Hd]]]. rewrite Hget in Hget0.
  injection Hget0 as <-. now apply (grownFrom_trans T table table' st').
Qed.

Lemma registerColumns_grows cmp st T1 cols st' T table :
  grownFrom T table st -> registerColumns cmp st T1 cols = Ok st' ->
  grownFrom T table st'.
Proof.
  intros Hg Hrun. pose proof Hg as [t [Hget [Hc Hd]]].
  destruct (String.eqb T1 T) eqn:E.
  - apply String.eqb_eq in E. subst T1. revert Hrun. unfold registerColumns.
    unfold OMap.has. rewrite Hget. cbn [negb].
    unfold mergeTableColumns. rewrite Hget.
    destruct (hasColumnsChanged _ _); [|now intros [= <-]].
    unfold rebuildTableWithNewColumns. rewrite Hget.
    destruct (rebuildRows _ _ _ _ _) as [[newRows newMap]| |]; simpl;
      try discriminate.
    intros [= <-]. apply (grownFrom_set T table st _ t Hget); [|assumption].
    unfold grownFrom. cbn [tableRegistry withIndexMap withStore withRegistry].
    rewrite OMap_set_set, OMap_get_set_eq.
    eexists. split; [reflexivity|]. cbn [columns originalData]. split.
    + intros c Hin. unfold sortColumnNames. apply sort_In.
      apply in_or_app. now left.
    + exists []. now rewrite app_nil_r.
  - assert (Hsame : OMap.get st'.(tableRegistry) T = OMap.get st.(tableRegistry) T).
    { apply String.eqb_neq in E. revert Hrun. unfold registerColumns.
      destruct (negb _).
      - intros [= <-]. rewrite createNewTable_spec. simpl.
        now apply OMap_get_set_neq.
      - unfold mergeTableColumns.
        destruct (OMap.get (tableRegistry st) T1) as [t1|]; [|discriminate].
        destruct (hasColumnsChanged _ _); [|now intros [= <-]].
        unfold rebuildTableWithNewColumns.
        destruct (OMap.get (tableRegistry st) T1) as [t1'|]; [|discriminate].
        destruct (rebuildRows _ _ _ _ _) as [[newRows newMap]| |]; simpl;
          try discriminate.
        intros [= <-]. simpl. rewrite OMap_set_set. now apply OMap_get_set_neq. }
    exists t. now rewrite Hsame.
Qed.

Lemma addRowToTable_grows st T1 item row cols key st' index T table :
  grownFrom T table st -> addRowToTable st T1 item row cols key = Ok (st', index) ->
  grownFrom T table st'.
Proof.
  intros Hg. pose proof Hg as [t [Hget [Hc Hd]]]. unfold addRowToTable.
  destruct (renderCells st row cols) as [cells| |]; simpl; try discriminate.
  destruct (OMap.get (tableRegistry st) T1) as [t1|] eqn:Eget1; [|discriminate].
  destruct (OMap.get (objectToIndexMap st) T1) as [addr|]; [|discriminate].
  intros [= <- _]. destruct (String.eqb T1 T) eqn:E.
  - apply String.eqb_eq in E. subst T1. rewrite Hget in Eget1.
    injection Eget1 as <-.
    apply (grownFrom_set T table st _ t Hget); [|assumption].
    unfold grownFrom.
    cbn [tableRegistry withCounters storeSet withStore withRegistry].
    rewrite OMap_get_set_eq. eexists. split; [reflexivity|].
    cbn [columns originalData]. split; [intros c Hin; exact Hin|]. eauto.
  - apply String.eqb_neq in E. exists t.
    cbn [tableRegistry withCounters storeSet withStore withRegistry].
    rewrite OMap_get_set_neq by exact E. auto.
Qed.

(** X14.  The traversal only adds: a table that is registered stays
    registered, keeps its columns and its stored source records in their
    places, so that the index of a row never changes, and a memoized key
    stays memoized. *)
Theorem traversal_only_adds :
  forall (cmp : string -> string -> Z) (fuel : nat) (st : State) (v : JSONValue)
         (context : string) (st' : State),
    processValue cmp fuel st v context = Ok st' ->
    (forall T table,
        OMap.get st.(tableRegistry) T = Some table ->
        exists table',
          OMap.get st'.(tableRegistry) T = Some table'
          /\ incl table.(columns) table'.(columns)
          /\ exists added,
               table'.(originalData) = (table.(originalData) ++ added)%list)
    /\ (forall k, OMap.has st.(arrayReferenceCache) k = true ->
                  OMap.has st'.(arrayReferenceCache) k = true).
Proof.
  intros cmp fuel st v context st' Hrun. split.
  - intros T table Hget.
    apply (processValue_preserves cmp (grownFrom T table))
      with (fuel := fuel) (st := st) (v := v) (context := context);
      try assumption.
    + intros s k x H. exact H.
    + intros s T1 cols s' H. now apply registerColumns_grows.
    + intros s T1 item row cols key s' index H _. now apply addRowToTable_grows.
    + exists table. split; [assumption|]. split; [intros c Hc; exact Hc|].
      exists []. now rewrite app_nil_r.
  - intros k Hk.
    apply (processValue_preserves cmp
             (fun s => OMap.has s.(arrayReferenceCache) k = true))
      with (fuel := fuel) (st := st) (v := v) (context := context);
      try assumption.
    + intros s k0 x H. cbn [arrayReferenceCache withCache].
      rewrite OMap_has_set, H. apply orb_true_r.
    + intros s T cols s' H. unfold registerColumns. destruct (negb _).
      * intros [= <-]. now rewrite createNewTable_spec.
      * unfold mergeTableColumns.
        destruct (OMap.get (tableRegistry s) T) as [t|]; [|discriminate].
        destruct (hasColumnsChanged _ _); [|now intros [= <-]].
        unfold rebuildTableWithNewColumns.
        destruct (OMap.get (tableRegistry s) T) as [t'|]; [|discriminate].
        destruct (rebuildRows _ _ _ _ _) as [[newRows newMap]| |]; simpl;
          try discriminate.
        now intros [= <-].
    + intros s T item row cols key s' index H _. unfold addRowToTable.
      destruct (renderCells s row cols) as [cells| |]; simpl; try discriminate.
      destruct (OMap.get (tableRegistry s) T) as [t|]; [|discriminate].
      destruct (OMap.get (objectToIndexMap s) T) as [addr|]; [|discriminate].
      now intros [= <- _].
Qed.

Lemma traversal_only_adds_witness :
  (forall T table,
      OMap.get twoRowState.(tableRegistry) T = Some table ->
      exists table',
        OMap.get (stateOf (processValue codeUnitCompare 2 twoRowState
                             (JArray [JObject [("role", JString "x")]]) "t")).(tableRegistry)
                 T = Some table'
        /\ incl table.(columns) table'.(columns)
        /\ exists added,
             table'.(originalData) = (table.(originalData) ++ added)%list)
  /\ (forall k,
         OMap.has twoRowState.(arrayReferenceCache) k = true ->
         OMap.has (stateOf (processValue codeUnitCompare 2 twoRowState
                              (JArray [JObject [("role", JString "x")]]) "t")).(arrayReferenceCache)
                  k = true).
Proof.
  apply (traversal_only_adds codeUnitCompare 2 twoRowState
           (JArray [JObject [("role", JString "x")]]) "t").
  vm_compute. reflexivity.
Defined.

(** ** References point to rows *)

Lemma hasRows_register cmp st T1 cols st' T n :
  EngineInvariant st -> hasRows T n st ->
  registerColumns cmp st T1 cols = Ok st' -> hasRows T n st'.
Proof.
  intros Heng [t [Hget Hn]] Hrun.
  destruct (registerColumns_grows cmp st T1 cols st' T t) as [t' [Hget' [_ [added Hd]]]];
    [|assumption|].
  { exists t. split; [assumption|]. split; [intros c Hc; exact Hc|].
    exists []. now rewrite app_nil_r. }
  exists t'. split; [assumption|].
  pose proof (registerColumns_engine cmp st T1 cols st' Heng Hrun) as Heng'.
  destruct (inv_tables (eng_state Heng) T t Hget) as [Hlen _].
  destruct (inv_tables (eng_state Heng') T t' Hget') as [Hlen' _].
  rewrite Hlen', Hd, length_app. lia.
Qed.

Lemma hasRows_addRow st T1 item row cols key st' index T n :
  hasRows T n st ->
  addRowToTable st T1 item row cols key = Ok (st', index) -> hasRows T n st'.
Proof.
  intros [t [Hget Hn]]. unfold addRowToTable.
  destruct (renderCells st row cols) as [cells| |]; simpl; try discriminate.
  destruct (OMap.get (tableRegistry st) T1) as [t1|] eqn:Eget1; [|discriminate].
  destruct (OMap.get (objectToIndexMap st) T1) as [addr|]; [|discriminate].
  intros [= <- _]. unfold hasRows. simpl. rewrite OMap_get_set.
  destruct (String.eqb T1 T) eqn:E.
  - apply String.eqb_eq in E. subst T1. rewrite Hget in Eget1.
    injection Eget1 as <-. eexists. split; [reflexivity|]. simpl.
    rewrite length_app. lia.
  - eauto.
Qed.

Lemma ownedMap_cache a T st cache :
  ownedMap a T st -> ownedMap a T (withCache st cache).
Proof. intros H. exact H. Qed.

Lemma ownedMap_alloc a T st st' T1 m :
  ownedMap a T st ->
  st'.(objectToIndexMap)
  = OMap.set st.(objectToIndexMap) T1 (List.length st.(mapStore)) ->
  st'.(mapStore) = (st.(mapStore) ++ [m])%list ->
  (forall i, hasRows T (S i) st -> hasRows T (S i) st') ->
  ownedMap a T st'.
Proof.
  intros [Ha [Hown Hrange]] Hmap Hstore Hrows. split; [|split].
  - rewrite Hstore, length_app. lia.
  - intros T'. rewrite Hmap, OMap_get_set. destruct (String.eqb T1 T').
    + intros [= E]. lia.
    + apply Hown.
  - intros key i. unfold deref. rewrite Hstore, app_nth1 by exact Ha.
    intros Hi. destruct (Hrange key i Hi) as [t [Hget Hlt]].
    destruct (Hrows i) as [t' [Hget' Hlt']]; [exists t; split; [assumption|lia]|].
    exists t'. split; [assumption | lia].
Qed.

Lemma registerColumns_owning cmp a T st T1 cols st' :
  EngineOwning a T st ->
  registerColumns cmp st T1 cols = Ok st' -> EngineOwning a T st'.
Proof.
  intros [Heng Hown] Hrun. split; [now apply (registerColumns_engine cmp st T1 cols)|].
  assert (Hrows : forall i, hasRows T (S i) st -> hasRows T (S i) st').
  { intros i Hi. now apply (hasRows_register cmp st T1 cols st' T (S i)). }
  revert Hrun. unfold registerColumns. destruct (negb _).
  - intros [= <-]. rewrite createNewTable_spec in *.
    now apply (ownedMap_alloc a T st _ T1 []).
  - unfold mergeTableColumns.
    destruct (OMap.get (tableRegistry st) T1) as [t1|] eqn:Eget1; [|discriminate].
    destruct (hasColumnsChanged _ _); [|now intros [= <-]].
    destruct (inv_tables (eng_state Heng) T1 t1 Eget1) as [_ Hitems].
    destruct (rebuildTableWithNewColumns_spec st T1 t1
                (sortColumnNames cmp
                   (columns t1
                      ++ filter (fun column => negb (mem column (columns t1)))
                           cols)%list) Eget1 Hitems)
      as [newRows [keys [_ [_ Hspec]]]].
    rewrite Hspec. intros [= E]. rewrite <- E in *.
    eapply (ownedMap_alloc a T st _ T1); [exact Hown | reflexivity | reflexivity|].
    exact Hrows.
Qed.

Lemma addRowToTable_owning a T st T1 item row cols key st' index :
  EngineOwning a T st -> isObjectLike item = true ->
  addRowToTable st T1 item row cols key = Ok (st', index) ->
  EngineOwning a T st'.
Proof.
  intros [Heng [Ha [Hown Hrange]]] Hitem Hrun.
  split; [now apply (addRowToTable_engine st T1 item row cols key st' index)|].
  assert (Hrows : forall i, hasRows T (S i) st -> hasRows T (S i) st').
  { intros i Hi. now apply (hasRows_addRow st T1 item row cols key st' index T). }
  revert Hrun Hrows. unfold addRowToTable.
  destruct (renderCells st row cols) as [cells| |]; simpl; try discriminate.
  destruct (OMap.get (tableRegistry st) T1) as [t1|] eqn:Eget1; [|discriminate].
  destruct (OMap.get (objectToIndexMap st) T1) as [addr|] eqn:Emap1; [|discriminate].
  intros [= <- _] Hrows. split; [|split].
  - simpl. now rewrite length_updateNth.
  - exact Hown.
  - intros k i. unfold deref.
    cbn [mapStore tableRegistry withCounters storeSet withStore withRegistry].
    destruct (Nat.eq_dec a addr) as [->|Hne].
    + assert (T1 = T) by now apply Hown. subst T1.
      rewrite nth_updateNth by exact Ha. rewrite OMap_get_set_eq.
      rewrite OMap_get_set. destruct (String.eqb key k).
      * intros [= <-]. eexists. split; [reflexivity|].
        simpl. rewrite length_app. simpl. lia.
      * intros Hi. destruct (Hrange k i Hi) as [t [Hget Hlt]].
        rewrite Eget1 in Hget. injection Hget as <-.
        eexists. split; [reflexivity|]. simpl. rewrite length_app. lia.
    + rewrite nth_updateNth_neq by exact Hne.
      intros Hi. destruct (Hrange k i Hi) as [t [Hget Hlt]].
      destruct (Hrows i) as [t' [Hget' Hlt']]; [exists t; split; [assumption|lia]|].
      simpl in Hget'. exists t'. split; [assumption | lia].
Qed.

Lemma processValue_owning cmp a T fuel st v context st' :
  EngineOwning a T st ->
  processValue cmp fuel st v context = Ok st' -> EngineOwning a T st'.
Proof.
  apply (processValue_preserves cmp (EngineOwning a T)).
  - intros s k x [H1 H2]. split; [now apply withCache_engine | exact H2].
  - intros s T1 cols s'. apply registerColumns_owning.
  - intros s T1 item row cols key s' index. apply addRowToTable_owning.
Qed.

Lemma processValue_hasRows cmp T n fuel st v context st' :
  EngineInvariant st -> hasRows T n st ->
  processValue cmp fuel st v context = Ok st' -> hasRows T n st'.
Proof.
  intros Heng Hrows Hrun.
  assert (H : EngineInvariant st' /\ hasRows T n st'); [|apply H].
  apply (processValue_preserves cmp (fun s => EngineInvariant s /\ hasRows T n s))
    with (fuel := fuel) (st := st) (v := v) (context := context);
    try assumption; try (split; assumption).
  - intros s k x [H1 H2]. split; [now apply withCache_engine | exact H2].
  - intros s T1 cols s' [H1 H2] Hr. split.
    + now apply (registerColumns_engine cmp s T1 cols).
    + now apply (hasRows_register cmp s T1 cols s' T n).
  - intros s T1 item row cols key s' index [H1 H2] Hitem Hr. split.
    + now apply (addRowToTable_engine s T1 item row cols key s' index).
    + now apply (hasRows_addRow s T1 item row cols key s' index T n).
Qed.

Lemma processNested_owning cmp a T fuel item cols st st' :
  EngineOwning a T st ->
  processNested (processValue cmp fuel) st item cols = Ok st' ->
  EngineOwning a T st'.
Proof.
  intros H. apply (processNested_preserves (EngineOwning a T)); [|exact H].
  intros s s' k x Hs. now apply processValue_owning.
Qed.

Lemma processNested_hasRows cmp T n fuel item cols st st' :
  EngineInvariant st -> hasRows T n st ->
  processNested (processValue cmp fuel) st item cols = Ok st' ->
  hasRows T n st'.
Proof.
  intros Heng Hrows Hrun.
  assert (H : EngineInvariant st' /\ hasRows T n st'); [|apply H].
  apply (processNested_preserves (fun s => EngineInvariant s /\ hasRows T n s)
           (processValue cmp fuel) item cols st st'); [|split; assumption|assumption].
  intros s s' k x [H1 H2] Hr. split.
  - now apply (processValue_engine cmp fuel s x k).
  - now apply (processValue_hasRows cmp T n fuel s x k).
Qed.

Lemma Forall_hasRows T indices st st' :
  (forall n, hasRows T n st -> hasRows T n st') ->
  (exists table, OMap.get st.(tableRegistry) T = Some table
                 /\ Forall (fun i => i < List.length table.(rows)) indices) ->
  exists table', OMap.get st'.(tableRegistry) T = Some table'
                 /\ Forall (fun i => i < List.length table'.(rows)) indices.
Proof.
  intros Hmono [t [Hget Hall]].
  destruct (Hmono 0) as [t' [Hget' _]]; [exists t; split; [assumption | lia]|].
  exists t'. split; [assumption|].
  apply Forall_forall. intros i Hi. rewrite Forall_forall in Hall.
  specialize (Hall i Hi).
  destruct (Hmono (S i)) as [t'' [Hget'' Hlt]]; [exists t; split; [assumption | lia]|].
  rewrite Hget' in Hget''. injection Hget'' as <-. lia.
Qed.

(** X15.  The reference memoized for a list of records has one row index
    for each element of the list, and every one of these indices is the
    index of a row that the table has when the traversal of the list
    completes. *)
Theorem references_point_to_rows :
  forall (cmp : string -> string -> Z) (fuel : nat) (st : State)
         (fields : list (string * JSONValue)) (rest : list JSONValue)
         (context cacheKey : string) (st' : State),
    EngineInvariant st ->
    extractColumnNames cmp (JObject fields :: rest) <> [] ->
    processArrayValue cmp (processValue cmp fuel) st (JObject fields :: rest)
                      context cacheKey = Ok st' ->
    exists indices table,
      OMap.get st'.(arrayReferenceCache) cacheKey
      = Some (referenceText (resolveTableName st context) indices)
      /\ List.length indices = List.length (JObject fields :: rest)
      /\ OMap.get st'.(tableRegistry) (resolveTableName st context) = Some table
      /\ Forall (fun i => i < List.length table.(rows)) indices.
Proof.
  intros cmp fuel st fields rest context cacheKey st' Heng Hcols.
  unfold processArrayValue. cbv iota beta.
  remember (JObject fields :: rest) as items eqn:Hitems.
  cbn [typeofObject isArray negb orb].
  destruct (List.length (extractColumnNames cmp items) =? 0) eqn:Ecols.
  { apply Nat.eqb_eq in Ecols.
    destruct (extractColumnNames cmp items); [congruence | discriminate]. }
  set (T := resolveTableName st context).
  destruct (registerColumns cmp st T _) as [st1| |] eqn:Ereg; cbn [bind];
    try discriminate.
  pose proof (registerColumns_engine cmp st T _ st1 Heng Ereg) as Heng1.
  destruct (OMap.get (tableRegistry st1) T) as [table|] eqn:Etable; [|discriminate].
  destruct (OMap.get (objectToIndexMap st1) T) as [addr|] eqn:Eaddr; [|discriminate].
  assert (Hnonempty : exists c cols, columns table = c :: cols).
  { destruct (extractColumnNames cmp items) as [|c0 cs] eqn:E; [contradiction|].
    pose proof (registerColumns_columns cmp st _ _ st1 table c0 Ereg Etable
                  (or_introl eq_refl)) as Hc.
    destruct (columns table) as [|c cols]; [contradiction | eauto]. }
  destruct Hnonempty as [c [cols Hcolumns]].
  assert (Hown1 : ownedMap addr T st1).
  { destruct (inv_store (eng_state Heng1)) as [Hbound Hinj]. split; [|split].
    - now apply (Hbound T).
    - intros T' H'. now apply (Hinj T' T addr).
    - intros key i Hi. exists table. split; [assumption|].
      now apply (eng_range Heng1 T addr table key i). }
  match goal with |- context [foldM ?f _ _] => set (body := f) end.
  assert (Hloop : forall l acc acc',
             EngineOwning addr T (fst acc) ->
             (exists t, OMap.get (fst acc).(tableRegistry) T = Some t
                        /\ Forall (fun i => i < List.length t.(rows)) (snd acc)) ->
             foldM body acc l = Ok acc' ->
             (exists t, OMap.get (fst acc').(tableRegistry) T = Some t
                        /\ Forall (fun i => i < List.length t.(rows)) (snd acc'))
             /\ List.length (snd acc') = List.length (snd acc) + List.length l).
  { induction l as [|item l IH]; intros [s indices] acc' Hs Hidx; simpl.
    - intros [= <-]. split; [assumption | simpl; lia].
    - destruct (processNested (processValue cmp fuel) s item (columns table))
        as [s1| |] eqn:Enested; cbn [bind]; try discriminate.
      cbn [fst snd] in Hs, Hidx.
      pose proof (processNested_owning cmp addr T fuel item _ s s1 Hs Enested)
        as Hs1.
      assert (Hidx1 : exists t, OMap.get s1.(tableRegistry) T = Some t
                        /\ Forall (fun i => i < List.length t.(rows)) indices).
      { apply (Forall_hasRows T indices s s1); [|assumption].
        intros n Hn.
        exact (processNested_hasRows cmp T n fuel item _ s s1 (proj1 Hs) Hn
                 Enested). }
      destruct (applyDefaultsToRow s1 item (columns table)) as [row| |] eqn:Erow;
        cbn [bind]; try discriminate.
      assert (Hitem : isObjectLike item = true).
      { rewrite Hcolumns in Erow.
        now apply (applyDefaultsToRow_objectLike _ _ _ _ _ Erow). }
      destruct (OMap.get (deref s1 addr) _) as [rowIndex|] eqn:Eseen.
      + intros Hfold. apply IH in Hfold; cbn [fst snd]; try assumption.
        * destruct Hfold as [H1 H2]. split; [assumption|].
          cbn [fst snd] in H2. rewrite length_app in H2. simpl in *. lia.
        * destruct Hidx1 as [t [Hget Hall]]. exists t. split; [assumption|].
          apply Forall_app. split; [assumption|]. constructor; [|constructor].
          destruct (proj2 (proj2 (proj2 Hs1)) _ _ Eseen) as [t' [Hget' Hlt]].
          rewrite Hget in Hget'. injection Hget' as <-. exact Hlt.
      + destruct (addRowToTable s1 T item row (columns table) _)
          as [[s2 index]| |] eqn:Eadd; cbn [bind]; try discriminate.
        intros Hfold. apply IH in Hfold; cbn [fst snd].
        * destruct Hfold as [H1 H2]. split; [assumption|].
          cbn [fst snd] in H2. rewrite length_app in H2. simpl in *. lia.
        * exact (addRowToTable_owning addr T s1 T item row _ _ s2 index Hs1
                   Hitem Eadd).
        * destruct Hidx1 as [t [Hget Hall]].
          assert (Hmap : exists a, OMap.get (objectToIndexMap s1) T = Some a).
          { revert Eadd. unfold addRowToTable.
            destruct (renderCells s1 row _); simpl; try discriminate.
            rewrite Hget. destruct (OMap.get (objectToIndexMap s1) T); eauto.
            discriminate. }
          destruct Hmap as [a Ha].
          destruct (addRowToTable_spec s1 T item row (columns table)
                      (generateCanonicalKey s1 row (columns table)) t a Hget Ha)
            as [cells [_ Hspec]].
          rewrite Hspec in Eadd. injection Eadd as <- <-.
          eexists. cbn [tableRegistry rowAdded]. rewrite OMap_get_set_eq.
          split; [reflexivity|]. cbn [rows]. rewrite length_app. simpl.
          apply Forall_app. split.
          -- eapply Forall_impl; [|exact Hall]. simpl. intros i Hi. lia.
          -- constructor; [lia | constructor]. }
  destruct (foldM body (st1, []) items) as [[st2 indices]| |] eqn:Efold;
    cbn [bind]; try discriminate.
  intros [= <-].
  destruct (Hloop items (st1, []) (st2, indices)) as [[t [Hget Hall]] Hlen];
    cbn [fst snd]; try assumption.
  - split; assumption.
  - exists table. split; [assumption | constructor].
  - exists indices, t. cbn [arrayReferenceCache tableRegistry withCache].
    rewrite OMap_get_set_eq. split; [reflexivity|].
    split; [cbn [fst snd] in Hlen; simpl in Hlen; exact Hlen|].
    split; assumption.
Qed.

Lemma references_point_to_rows_witness :
  exists indices table,
    OMap.get
      (stateOf (processArrayValue codeUnitCompare (processValue codeUnitCompare 1)
                  (initialize (mkConfig [] []))
                  [JObject [("id", JNumber 1)]; JObject [("id", JNumber 2)];
                   JObject [("id", JNumber 1)]] "t" "k")).(arrayReferenceCache)
      "k" = Some (referenceText "@t" indices)
    /\ List.length indices = 3
    /\ OMap.get
         (stateOf (processArrayValue codeUnitCompare (processValue codeUnitCompare 1)
                     (initialize (mkConfig [] []))
                     [JObject [("id", JNumber 1)]; JObject [("id", JNumber 2)];
                      JObject [("id", JNumber 1)]] "t" "k")).(tableRegistry)
         "@t" = Some table
    /\ Forall (fun i => i < List.length table.(rows)) indices.
Proof.
  apply (references_point_to_rows codeUnitCompare 1 (initialize (mkConfig [] []))
           [("id", JNumber 1)]
           [JObject [("id", JNumber 2)]; JObject [("id", JNumber 1)]] "t" "k").
  - apply initialize_engine.
  - vm_compute. discriminate.
  - vm_compute. reflexivity.
Defined.

(** ** No table is left empty *)

Lemma registerColumns_has_inv cmp st T cols st' T0 :
  registerColumns cmp st T cols = Ok st' ->
  OMap.has st'.(tableRegistry) T0 = true ->
  T0 = T \/ OMap.has st.(tableRegistry) T0 = true.
Proof.
  intros Hrun Hhas. destruct (String.eqb T T0) eqn:E;
    [left; symmetry; now apply String.eqb_eq|right].
  revert Hrun Hhas. unfold registerColumns. destruct (negb _).
  - intros [= <-]. rewrite createNewTable_spec. simpl.
    now rewrite OMap_has_set, E.
  - unfold mergeTableColumns.
    destruct (OMap.get (tableRegistry st) T) as [t1|]; [|discriminate].
    destruct (hasColumnsChanged _ _); [|now intros [= <-]].
    unfold rebuildTableWithNewColumns.
    destruct (OMap.get (tableRegistry st) T) as [t1'|]; [|discriminate].
    destruct (rebuildRows _ _ _ _ _) as [[newRows newMap]| |]; simpl;
      try discriminate.
    intros [= <-]. simpl. now rewrite !OMap_has_set, E.
Qed.

Lemma addRowToTable_has_inv st T item row cols key st' index T0 :
  addRowToTable st T item row cols key = Ok (st', index) ->
  OMap.has st'.(tableRegistry) T0 = true ->
  OMap.has st.(tableRegistry) T0 = true.
Proof.
  unfold addRowToTable.
  destruct (renderCells st row cols) as [cells| |]; simpl; try discriminate.
  destruct (OMap.get (tableRegistry st) T) as [table|] eqn:Eget; [|discriminate].
  destruct (OMap.get (objectToIndexMap st) T) as [addr|]; [|discriminate].
  intros [= <- _]. simpl. rewrite OMap_has_set.
  destruct (String.eqb T T0) eqn:E; [|trivial].
  apply String.eqb_eq in E. subst T0. intros _. unfold OMap.has. now rewrite Eget.
Qed.

Lemma nonEmptyExcept_register cmp st T cols st' pending :
  EngineInvariant st -> nonEmptyExcept pending st ->
  registerColumns cmp st T cols = Ok st' ->
  nonEmptyExcept (T :: pending) st'.
Proof.
  intros Heng Hne Hrun T0 Hhas Hnot.
  destruct (registerColumns_has_inv cmp st T cols st' T0 Hrun Hhas) as [->|Hold].
  - exfalso. apply Hnot. now left.
  - apply (hasRows_register cmp st T cols st' T0 1 Heng); [|assumption].
    apply Hne; [assumption|]. intros Hin. apply Hnot. now right.
Qed.

Lemma nonEmptyExcept_weaken T pending st :
  nonEmptyExcept pending st -> nonEmptyExcept (T :: pending) st.
Proof.
  intros H T0 Hhas Hnot. apply H; [assumption|].
  intros Hin. apply Hnot. now right.
Qed.

Lemma nonEmptyExcept_done T pending st :
  nonEmptyExcept (T :: pending) st -> hasRows T 1 st -> nonEmptyExcept pending st.
Proof.
  intros H Hrows T0 Hhas Hnot. destruct (string_dec T0 T) as [->|Hne];
    [assumption|].
  apply H; [assumption|]. intros [E|Hin]; [congruence | contradiction].
Qed.

Lemma nonEmptyExcept_addRow st T item row cols key st' index pending :
  nonEmptyExcept pending st ->
  addRowToTable st T item row cols key = Ok (st', index) ->
  nonEmptyExcept pending st' /\ hasRows T 1 st'.
Proof.
  intros Hne Hrun. split.
  - intros T0 Hhas Hnot.
    apply (hasRows_addRow st T item row cols key st' index T0 1); [|assumption].
    apply Hne; [|assumption].
    now apply (addRowToTable_has_inv st T item row cols key st' index).
  - revert Hrun. unfold addRowToTable.
    destruct (renderCells st row cols) as [cells| |]; simpl; try discriminate.
    destruct (OMap.get (tableRegistry st) T) as [table|]; [|discriminate].
    destruct (OMap.get (objectToIndexMap st) T) as [addr|]; [|discriminate].
    intros [= <- _]. unfold hasRows. simpl. rewrite OMap_get_set_eq.
    eexists. split; [reflexivity|]. simpl. rewrite length_app. simpl. lia.
Qed.

Lemma ownedMap_seen a T st key i :
  ownedMap a T st -> OMap.get (deref st a) key = Some i -> hasRows T 1 st.
Proof.
  intros [_ [_ Hrange]] Hi. destruct (Hrange key i Hi) as [t [Hget Hlt]].
  exists t. split; [assumption | lia].
Qed.

Lemma registered_owned st T table addr :
  EngineInvariant st ->
  OMap.get st.(tableRegistry) T = Some table ->
  OMap.get st.(objectToIndexMap) T = Some addr ->
  ownedMap addr T st.
Proof.
  intros Heng Hget Hmap.
  destruct (inv_store (eng_state Heng)) as [Hbound Hinj]. split; [|split].
  - now apply (Hbound T).
  - intros T' H'. now apply (Hinj T' T addr).
  - intros key i Hi. exists table. split; [assumption|].
    now apply (eng_range Heng T addr table key i).
Qed.

Lemma processValue_nonEmpty cmp : forall fuel pending st v context st',
  EngineInvariant st -> nonEmptyExcept pending st ->
  processValue cmp fuel st v context = Ok st' ->
  nonEmptyExcept pending st'.
Proof.
  induction fuel as [|fuel IH]; intros pending st v context st' Heng Hne; simpl.
  - destruct (isObjectLike v); simpl; [|now intros [= <-]].
    destruct (OMap.has _ _); [now intros [= <-] | discriminate].
  - destruct (isObjectLike v); simpl; [|now intros [= <-]].
    destruct (OMap.has _ _); [now intros [= <-]|].
    assert (Hnested : forall a T item cols s s',
               EngineOwning a T s /\ nonEmptyExcept (T :: pending) s ->
               processNested (processValue cmp fuel) s item cols = Ok s' ->
               EngineOwning a T s' /\ nonEmptyExcept (T :: pending) s').
    { intros a T item cols s s' Hs Hrun.
      apply (processNested_preserves
               (fun s => EngineOwning a T s /\ nonEmptyExcept (T :: pending) s)
               (processValue cmp fuel) item cols s s'); try assumption.
      intros s0 s0' k x [H1 H2] Hr. split.
      - now apply (processValue_owning cmp a T fuel s0 x k).
      - now apply (IH (T :: pending) s0 x k s0' (proj1 H1)). }
    destruct v as [| | | |items|fields]; try (now intros [= <-]).
    + unfold processArrayValue.
      destruct items as [|first rest]; [now intros [= <-]|].
      cbv iota beta. remember (first :: rest) as items eqn:Hitems.
      destruct (_ || _ || _)%bool; [now intros [= <-]|].
      destruct (List.length (extractColumnNames cmp items) =? 0) eqn:Ecols;
        [now intros [= <-]|].
      set (T := resolveTableName st context).
      destruct (registerColumns cmp st T _) as [st1| |] eqn:Ereg; cbn [bind];
        try discriminate.
      pose proof (registerColumns_engine cmp st T _ st1 Heng Ereg) as Heng1.
      pose proof (nonEmptyExcept_register cmp st T _ st1 pending Heng Hne Ereg)
        as Hne1.
      destruct (OMap.get (tableRegistry st1) T) as [table|] eqn:Etable;
        [|discriminate].
      destruct (OMap.get (objectToIndexMap st1) T) as [addr|] eqn:Eaddr;
        [|discriminate].
      pose proof (registered_owned st1 T table addr Heng1 Etable Eaddr) as Hown1.
      assert (Hnonempty : exists c cols, columns table = c :: cols).
      { apply Nat.eqb_neq in Ecols.
        destruct (extractColumnNames cmp items) as [|c0 cs] eqn:E; [contradiction|].
        pose proof (registerColumns_columns cmp st _ _ st1 table c0 Ereg Etable
                      (or_introl eq_refl)) as Hc.
        destruct (columns table) as [|c cols]; [contradiction | eauto]. }
      destruct Hnonempty as [c [cols Hcolumns]].
      match goal with |- context [foldM ?f _ _] => set (body := f) end.
      assert (Hloop : forall l acc acc',
                 EngineOwning addr T (fst acc) ->
                 nonEmptyExcept (T :: pending) (fst acc) ->
                 foldM body acc l = Ok acc' ->
                 EngineOwning addr T (fst acc')
                 /\ nonEmptyExcept (T :: pending) (fst acc')
                 /\ (l <> [] \/ hasRows T 1 (fst acc) -> hasRows T 1 (fst acc'))).
      { induction l as [|item l IHl]; intros [s indices] acc' Hs Hnes; simpl.
        - intros [= <-]. split; [assumption|]. split; [assumption|].
          intros [H|H]; [congruence | assumption].
        - destruct (processNested (processValue cmp fuel) s item (columns table))
            as [s1| |] eqn:Enested; cbn [bind]; try discriminate.
          cbn [fst] in Hs, Hnes.
          destruct (Hnested addr T item _ s s1 (conj Hs Hnes) Enested)
            as [Hs1 Hnes1].
          destruct (applyDefaultsToRow s1 item (columns table)) as [row| |] eqn:Erow;
            cbn [bind]; try discriminate.
          assert (Hitem : isObjectLike item = true).
          { rewrite Hcolumns in Erow.
            now apply (applyDefaultsToRow_objectLike _ _ _ _ _ Erow). }
          destruct (OMap.get (deref s1 addr) _) as [rowIndex|] eqn:Eseen.
          + cbn [bind]. intros Hfold.
            destruct (IHl (s1, (indices ++ [rowIndex])%list) acc' Hs1 Hnes1 Hfold)
              as [H1 [H2 H3]].
            split; [assumption|]. split; [assumption|]. intros _.
            apply H3. right. cbn [fst].
            exact (ownedMap_seen addr T s1 _ rowIndex (proj2 Hs1) Eseen).
          + destruct (addRowToTable s1 T item row (columns table) _)
              as [[s2 index]| |] eqn:Eadd; cbn [bind]; try discriminate.
            intros Hfold.
            destruct (nonEmptyExcept_addRow s1 T item row _ _ s2 index _ Hnes1 Eadd)
              as [Hnes2 Hrows2].
            pose proof (addRowToTable_owning addr T s1 T item row _ _ s2 index Hs1
                          Hitem Eadd) as Hs2.
            cbn [fst snd] in Hfold.
            destruct (IHl (s2, (indices ++ [index])%list) acc' Hs2 Hnes2 Hfold)
              as [H1 [H2 H3]].
            split; [assumption|]. split; [assumption|]. intros _.
            apply H3. now right. }
      destruct (foldM body (st1, []) items) as [[st2 indices]| |] eqn:Efold;
        cbn [bind]; try discriminate.
      intros [= <-].
      destruct (Hloop items (st1, []) (st2, indices) (conj Heng1 Hown1) Hne1 Efold)
        as [H1 [H2 H3]].
      cbn [fst] in *.
      apply (nonEmptyExcept_done T pending); [exact H2|].
      apply H3. left. subst items. discriminate.
    + unfold processObjectValue.
      set (T := resolveTableName st context).
      destruct (registerColumns cmp st T _) as [st1| |] eqn:Ereg; cbn [bind];
        try discriminate.
      pose proof (registerColumns_engine cmp st T _ st1 Heng Ereg) as Heng1.
      pose proof (nonEmptyExcept_register cmp st T _ st1 pending Heng Hne Ereg)
        as Hne1.
      destruct (OMap.get (tableRegistry st1) T) as [table|] eqn:Etable;
        [|discriminate].
      destruct (OMap.get (objectToIndexMap st1) T) as [addr|] eqn:Eaddr;
        [|discriminate].
      pose proof (registered_owned st1 T table addr Heng1 Etable Eaddr) as Hown1.
      destruct (processNested (processValue cmp fuel) st1 (JObject fields)
                              (columns table)) as [st2| |] eqn:Enested;
        cbn [bind]; try discriminate.
      destruct (Hnested addr T _ _ st1 st2 (conj (conj Heng1 Hown1) Hne1) Enested)
        as [Hs2 Hnes2].
      destruct (applyDefaultsToRow st2 (JObject fields) (columns table))
        as [row| |]; cbn [bind]; try discriminate.
      destruct (OMap.has (deref st2 addr) _) eqn:Eseen; cbn [negb].
      * intros [= <-]. apply (nonEmptyExcept_done T pending); [exact Hnes2|].
        unfold OMap.has in Eseen.
        destruct (OMap.get (deref st2 addr) _) as [i|] eqn:Ei; [|discriminate].
        exact (ownedMap_seen addr T st2 _ i (proj2 Hs2) Ei).
      * destruct (addRowToTable st2 T (JObject fields) row (columns table) _)
          as [[st3 index]| |] eqn:Eadd; cbn [bind]; try discriminate.
        intros [= <-]. cbn [fst].
        destruct (nonEmptyExcept_addRow st2 T _ row _ _ st3 index _ Hnes2 Eadd)
          as [Hnes3 Hrows3].
        now apply (nonEmptyExcept_done T pending).
Qed.

(** X16.  When a traversal completes, no registered table is empty: every
    table that it created holds at least one row, and so does every table
    that held one before. *)
Theorem traversal_leaves_no_empty_table :
  forall (cmp : string -> string -> Z) (fuel : nat) (config : SCOLTConfig)
         (keys : list string) (v : JSONValue) (context : string) (st' : State),
    processValue cmp fuel (startState config keys) v context = Ok st' ->
    forall T table,
      OMap.get st'.(tableRegistry) T = Some table -> table.(rows) <> [].
Proof.
  intros cmp fuel config keys v context st' Hrun T table Hget.
  assert (H : nonEmptyExcept [] st').
  { apply (processValue_nonEmpty cmp fuel [] (startState config keys) v context);
      [apply rootKeys_engine | | assumption].
    intros T0 H0. discriminate. }
  destruct (H T) as [t [Hget' Hlen]].
  - unfold OMap.has. now rewrite Hget.
  - intros [].
  - rewrite Hget in Hget'. injection Hget' as <-.
    destruct (rows table); [simpl in Hlen; lia | discriminate].
Qed.

Lemma traversal_leaves_no_empty_table_witness :
  OMap.get twoRowState.(tableRegistry) "@t" = Some twoRowTable
  /\ twoRowTable.(rows) <> [].
Proof.
  split; [vm_compute; reflexivity|].
  apply (traversal_leaves_no_empty_table codeUnitCompare 2 (mkConfig [] []) []
           (JArray [JObject [("id", JNumber 1)]; JObject [("id", JNumber 2)]])
           "t" twoRowState) with (T := "@t"); vm_compute; reflexivity.
Defined.

(** ** The text for inputs without records *)

(** X17.  When the parsed input is a scalar or null, the text is its plain
    text, that of a string without any quoting, and nothing else is
    written. *)
Theorem parse_scalar_root :
  forall (cmp : string -> string -> Z) (v : JSONValue) (config : SCOLTConfig),
    isObjectLike v = false -> parse cmp v config = Ok (toStringJS v).
Proof.
  intros cmp v config Hv.
  destruct v as [|b|n|s| |]; try discriminate; try reflexivity.
Qed.

Lemma parse_scalar_root_witness :
  parse codeUnitCompare (JString "a, b") (mkConfig [] []) = Ok "a, b".
Proof.
  apply (parse_scalar_root codeUnitCompare (JString "a, b")). reflexivity.
Defined.

Lemma processArrayValue_literal cmp rec st first rest context cacheKey :
  isRecord first = false ->
  processArrayValue cmp rec st (first :: rest) context cacheKey
  = Ok (withCache st
          (OMap.set st.(arrayReferenceCache) cacheKey
             ("[" ++ JS.join "," (map serializeElement (first :: rest)) ++ "]"))).
Proof.
  intros Hfirst. unfold processArrayValue.
  destruct first; try discriminate; reflexivity.
Qed.

Lemma matchReference_bracket s : matchReference (String "["%char s) = None.
Proof. reflexivity. Qed.

(** The text that [buildTabularOutput] gives when no table is registered
    and the input is a list that is memoized. *)
Lemma buildTabularOutput_memoized st items reference :
  st.(tableRegistry) = [] ->
  OMap.get st.(arrayReferenceCache) (stringify (JArray items)) = Some reference ->
  buildTabularOutput st (JArray items) = Ok reference.
Proof.
  intros Hreg Hmemo. unfold buildTabularOutput, computeTopologicalOrder.
  unfold buildDependencyGraph. rewrite Hreg. cbn [fold_left].
  change (topologicalOrder []) with (Ok (@nil string)). cbn [bind flat_map].
  cbn [buildRootOutput]. unfold resolveReference.
  cbn [isObjectLike negb]. rewrite Hmemo. cbn [bind].
  cbn [JS.join String.concat String.eqb]. reflexivity.
Qed.



(** ** Root keys and the names of tables *)

Lemma span_fst_all p : forall s, JS.all p (fst (JS.span p s)) = true.
Proof.
  induction s as [|c s IH]; simpl; [reflexivity|].
  destruct (p c) eqn:E; [|reflexivity].
  destruct (JS.span p s) as [a b]. simpl in *. now rewrite E, IH.
Qed.

Lemma matchRootReference_name reference tableName :
  matchRootReference reference = Some tableName ->
  exists w, tableName = "@" ++ w /\ w <> EmptyString
            /\ JS.all JS.isWordChar w = true.
Proof.
  unfold matchRootReference.
  destruct reference as [|c rest]; [discriminate|].
  destruct c as [[] [] [] [] [] [] [] []]; try discriminate.
  pose proof (span_fst_all JS.isWordChar rest) as Hall.
  destruct (JS.span JS.isWordChar rest) as [w afterName]. simpl in Hall.
  destruct w as [|x w]; [discriminate|].
  destruct afterName as [|b tail].
  - intros [= <-]. exists (String x w). repeat split; [discriminate | assumption].
  - destruct b as [[] [] [] [] [] [] [] []]; try discriminate.
    destruct (JS.any JS.isLineTerminator tail); [discriminate|].
    intros [= <-]. exists (String x w). repeat split; [discriminate | assumption].
Qed.

(** X19.  A key of the root record whose table name has a character
    outside the word characters, or is empty, never gets its table written
    in the root section: whatever its value refers to, its line is the key
    followed by the text of the reference. *)
Theorem root_key_outside_word_chars :
  forall (st : State) (entries : list (string * JSONValue)) (lines : list string),
    buildRootOutput st (JObject entries) = Ok lines ->
    forall (i : nat) (key : string) (value : JSONValue),
      nth_error entries i = Some (key, value) ->
      JS.all JS.isWordChar (slice1 (resolveTableName st key)) = false
      \/ slice1 (resolveTableName st key) = EmptyString ->
      exists reference,
        resolveReference st value key = Ok reference
        /\ nth_error lines i = Some ("#" ++ key ++ ": " ++ reference).
Proof.
  intros st entries lines Hrun i key value Hi Hname.
  cbn [buildRootOutput] in Hrun.
  destruct (mapM_nth _ _ _ Hrun i (key, value) Hi) as [line [Hline Hnth]].
  cbv beta iota in Hline.
  destruct (resolveReference st value key) as [reference| |] eqn:Eref;
    cbn [bind] in Hline; try discriminate.
  exists reference. split; [reflexivity|].
  destruct (matchRootReference reference) as [tableName|] eqn:Ematch;
    [|now injection Hline as <-].
  destruct (matchRootReference_name _ _ Ematch) as [w [-> [Hw Hword]]].
  destruct (String.eqb ("@" ++ w) (resolveTableName st key)) eqn:E;
    [|now injection Hline as <-].
  apply String.eqb_eq in E. rewrite <- E in Hname. cbn [slice1 append] in Hname.
  destruct Hname as [Hname|Hname]; congruence.
Qed.

Lemma root_key_outside_word_chars_witness :
  parse codeUnitCompare
        (JObject [("user-list", JArray [JObject [("id", JNumber 1)];
                                        JObject [("id", JNumber 2)]])])
        (mkConfig [] [])
  = Ok "#user-list: @user-list[0,1]"
  /\ exists reference,
       resolveReference twoRowState (JString "x") "user-list" = Ok reference
       /\ nth_error ["#user-list: x"] 0 = Some ("#user-list: " ++ reference).
Proof.
  split; [vm_compute; reflexivity|].
  apply (root_key_outside_word_chars twoRowState [("user-list", JString "x")]
           ["#user-list: x"] eq_refl 0 "user-list" (JString "x") eq_refl).
  left. reflexivity.
Defined.

(** ** The decimal text of an index *)

Lemma of_lu_nat_N d :
  N.of_nat (DecimalNat.Unsigned.of_lu d) = DecimalPos.Unsigned.of_lu d.
Proof.
  induction d; cbn [DecimalNat.Unsigned.of_lu DecimalPos.Unsigned.of_lu];
    rewrite <- ?IHd; lia.
Qed.

Lemma of_uint_nat_N d : N.of_nat (Nat.of_uint d) = N.of_uint d.
Proof.
  unfold N.of_uint.
  rewrite DecimalNat.Unsigned.of_uint_alt, DecimalPos.Unsigned.of_uint_alt.
  apply of_lu_nat_N.
Qed.

Lemma to_uint_nat_N n : N.to_uint (N.of_nat n) = Nat.to_uint n.
Proof.
  rewrite <- (DecimalNat.Unsigned.of_to n) at 1.
  rewrite of_uint_nat_N, DecimalN.Unsigned.to_of.
  rewrite <- DecimalNat.Unsigned.to_of. now rewrite DecimalNat.Unsigned.of_to.
Qed.

Lemma showZ_of_nat n : JS.showZ (Z.of_nat n) = JS.showNat n.
Proof.
  unfold JS.showZ, JS.showNat. rewrite <- to_uint_nat_N.
  destruct n as [|n]; [reflexivity|].
  cbn [Z.of_nat Z.to_int N.of_nat N.to_uint NilEmpty.string_of_int]. reflexivity.
Qed.

(** ** Resolving what has been traversed *)

Lemma processArrayValue_memoizes cmp rec st array context cacheKey st' :
  processArrayValue cmp rec st array context cacheKey = Ok st' ->
  exists reference, OMap.get st'.(arrayReferenceCache) cacheKey = Some reference.
Proof.
  unfold processArrayValue.
  destruct array as [|first rest].
  { intros [= <-]. simpl. rewrite OMap_get_set_eq. eauto. }
  cbv iota beta. remember (first :: rest) as items eqn:Hitems.
  destruct (_ || _ || _)%bool.
  { intros [= <-]. simpl. rewrite OMap_get_set_eq. eauto. }
  destruct (List.length _ =? 0).
  { intros [= <-]. simpl. rewrite OMap_get_set_eq. eauto. }
  destruct (registerColumns cmp st _ _) as [st1| |]; cbn [bind]; try discriminate.
  destruct (OMap.get (tableRegistry st1) _) as [table|]; [|discriminate].
  destruct (OMap.get (objectToIndexMap st1) _) as [addr|]; [|discriminate].
  destruct (foldM _ _ _) as [[st2 indices]| |]; cbn [bind]; try discriminate.
  intros [= <-]. simpl. rewrite OMap_get_set_eq. eauto.
Qed.

(** X20.  A list whose traversal has completed is memoized under its JSON
    text, and resolving it afterwards gives the memoized reference under
    every context: the table that the context names is not consulted. *)
Theorem traversed_list_resolves_to_memo :
  forall (cmp : string -> string -> Z) (fuel : nat) (st : State)
         (items : list JSONValue) (context : string) (st' : State),
    processValue cmp fuel st (JArray items) context = Ok st' ->
    exists reference,
      OMap.get st'.(arrayReferenceCache) (stringify (JArray items))
      = Some reference
      /\ forall context', resolveReference st' (JArray items) context'
                          = Ok reference.
Proof.
  intros cmp fuel st items context st' Hrun.
  assert (H : exists reference,
             OMap.get st'.(arrayReferenceCache) (stringify (JArray items))
             = Some reference).
  { destruct fuel as [|fuel]; cbn [processValue isObjectLike negb] in Hrun;
      destruct (OMap.has (arrayReferenceCache st) (stringify (JArray items)))
        eqn:Ehas; try discriminate.
    - injection Hrun as <-. unfold OMap.has in Ehas.
      destruct (OMap.get _ _); [eauto | discriminate].
    - injection Hrun as <-. unfold OMap.has in Ehas.
      destruct (OMap.get _ _); [eauto | discriminate].
    - now apply processArrayValue_memoizes in Hrun. }
  destruct H as [reference H]. exists reference. split; [assumption|].
  intros context'. unfold resolveReference. cbn [isObjectLike negb].
  now rewrite H.
Qed.

Lemma traversed_list_resolves_to_memo_witness :
  exists reference,
    OMap.get twoRowState.(arrayReferenceCache)
      (stringify (JArray [JObject [("id", JNumber 1)]; JObject [("id", JNumber 2)]]))
    = Some reference
    /\ forall context',
         resolveReference twoRowState
           (JArray [JObject [("id", JNumber 1)]; JObject [("id", JNumber 2)]])
           context' = Ok reference.
Proof.
  apply (traversed_list_resolves_to_memo codeUnitCompare 2
           (initialize (mkConfig [] []))
           [JObject [("id", JNumber 1)]; JObject [("id", JNumber 2)]] "t").
  vm_compute. reflexivity.
Defined.

(** X21.  In a consistent state, take a record that is not memoized and
    whose table is registered, neither the context nor a column of the
    table being a name inherited from Object.prototype.  The table has a
    dedup map.  If that map holds the canonical key of the record, under
    the columns of the table and after defaults, resolution gives the
    reference to the row index stored there, which is the index of an
    existing row.  Otherwise it gives the reference to the last row, and
    the index -1 when the table has no row. *)
Theorem record_resolves_to_row :
  forall (st : State) (fields : list (string * JSONValue)) (context : string)
         (table : TableData),
    EngineInvariant st ->
    ownName context = true ->
    (forall c, In c table.(columns) -> ownName c = true) ->
    OMap.get st.(arrayReferenceCache) (stringify (JObject fields)) = None ->
    OMap.get st.(tableRegistry) (resolveTableName st context) = Some table ->
    exists canonicalKeyMap,
      OMap.get st.(objectToIndexMap) (resolveTableName st context)
      = Some canonicalKeyMap
      /\ match OMap.get (deref st canonicalKeyMap)
                        (recordKey st table.(columns) fields) with
         | Some i =>
             i < List.length table.(rows)
             /\ resolveReference st (JObject fields) context
                = Ok (referenceText (resolveTableName st context) [i])
         | None =>
             (table.(rows) <> [] ->
              resolveReference st (JObject fields) context
              = Ok (referenceText (resolveTableName st context)
                                  [List.length table.(rows) - 1]))
             /\ (table.(rows) = [] ->
                 resolveReference st (JObject fields) context
                 = Ok (resolveTableName st context ++ "[-1]"))
         end.
Proof.
  intros st fields context table Heng _ _ Hmemo Hget.
  assert (Hhas : OMap.has st.(tableRegistry) (resolveTableName st context) = true)
    by (unfold OMap.has; now rewrite Hget).
  pose proof (eng_map Heng _ Hhas) as Hmap. unfold OMap.has in Hmap.
  destruct (OMap.get (objectToIndexMap st) _) as [addr|] eqn:Eaddr; [|discriminate].
  exists addr. split; [reflexivity|].
  unfold resolveReference. cbn [isObjectLike negb isArray]. rewrite Hmemo, Hget.
  rewrite applyDefaultsToRow_record. cbn [bind]. rewrite Eaddr.
  fold (normalizedRowOf st table.(columns) fields).
  fold (recordKey st table.(columns) fields).
  destruct (OMap.get (deref st addr) _) as [i|] eqn:Ei.
  - split; [|reflexivity].
    exact (eng_range Heng _ addr table _ i Eaddr Hget Ei).
  - split.
    + intros Hrows. destruct (rows table) as [|row rest] eqn:Erows; [congruence|].
      unfold referenceText. cbn [map JS.join String.concat].
      replace (Z.of_nat (List.length (row :: rest)) - 1)%Z
        with (Z.of_nat (List.length (row :: rest) - 1))
        by (simpl List.length; lia).
      now rewrite showZ_of_nat.
    + intros ->. reflexivity.
Qed.

Lemma record_resolves_to_row_witness :
  exists canonicalKeyMap,
    OMap.get twoRowState.(objectToIndexMap) "@t" = Some canonicalKeyMap
    /\ match OMap.get (deref twoRowState canonicalKeyMap)
                      (recordKey twoRowState ["id"] [("id", JNumber 2)]) with
       | Some i =>
           i < 2
           /\ resolveReference twoRowState (JObject [("id", JNumber 2)]) "t"
              = Ok (referenceText "@t" [i])
       | None =>
           (twoRowTable.(rows) <> [] ->
            resolveReference twoRowState (JObject [("id", JNumber 2)]) "t"
            = Ok (referenceText "@t" [1]))
           /\ (twoRowTable.(rows) = [] ->
               resolveReference twoRowState (JObject [("id", JNumber 2)]) "t"
               = Ok ("@t" ++ "[-1]"))
       end.
Proof.
  apply (record_resolves_to_row twoRowState [("id", JNumber 2)] "t" twoRowTable).
  - apply (processValue_engine codeUnitCompare 2 (initialize (mkConfig [] []))
             (JArray [JObject [("id", JNumber 1)]; JObject [("id", JNumber 2)]])
             "t" twoRowState (initialize_engine _)).
    vm_compute. reflexivity.
  - reflexivity.
  - intros c [<-|[]]. reflexivity.
  - vm_compute. reflexivity.
  - vm_compute. reflexivity.
Defined.

(** ** Strings that spell a reference *)

Lemma any_app p a b : JS.any p (a ++ b) = JS.any p a || JS.any p b.
Proof.
  induction a as [|c a IH]; simpl; [reflexivity|]. now rewrite IH, orb_assoc.
Qed.

Lemma wordChars_plain w :
  JS.all JS.isWordChar w = true -> JS.any needsQuotes w = false.
Proof.
  induction w as [|c w IH]; simpl; [reflexivity|].
  intros H. apply andb_true_iff in H. destruct H as [Hc Hw].
  rewrite (IH Hw), orb_false_r. clear - Hc.
  destruct c as [[] [] [] [] [] [] [] []]; try reflexivity; discriminate.
Qed.

(** X22.  A string value that spells a reference to the single row of a
    table is not told apart from a reference: its cell is written without
    quotes, and [optimizeTableReferences] rewrites that cell to the bare
    table name, as it does a reference that lists every row. *)
Theorem string_spelling_reference_is_rewritten :
  forall (st : State) (w : string) (table : TableData),
    w <> EmptyString -> JS.all JS.isWordChar w = true ->
    OMap.get st.(tableRegistry) ("@" ++ w) = Some table ->
    List.length table.(rows) = 1 ->
    serializePrimitive (JString (referenceText ("@" ++ w) [0]))
    = referenceText ("@" ++ w) [0]
    /\ optimizeCell st (serializePrimitive (JString (referenceText ("@" ++ w) [0])))
       = "@" ++ w.
Proof.
  intros st w table Hw Hword Hget Hlen.
  assert (Hplain : serializePrimitive (JString (referenceText ("@" ++ w) [0]))
                   = referenceText ("@" ++ w) [0]).
  { rewrite serializePrimitive_string. unfold referenceText.
    cbn [map JS.join String.concat].
    change (("@" ++ w) ++ "[" ++ JS.showNat 0 ++ "]")
      with (String "@"%char (w ++ "[0]")).
    cbn [JS.all JS.any]. rewrite any_app, (wordChars_plain w Hword).
    reflexivity. }
  split; [exact Hplain|]. rewrite Hplain, optimizeCell_compacted.
  apply (proj1 (compacted_referenceText st.(tableRegistry) w [0] table Hw Hword
                  ltac:(discriminate) Hget)).
  rewrite Hlen. apply Permutation_refl.
Qed.

Lemma string_spelling_reference_is_rewritten_witness :
  parse codeUnitCompare
        (JObject [("t", JArray [JObject [("id", JNumber 7)]]);
                  ("notes", JArray [JObject [("text", JString "@t[0]")];
                                    JObject [("text", JString "see @t[0]")]])])
        (mkConfig [] [])
  = Ok (JS.join newline
          ["#t{id}: 7"; "#notes{text}:"; "  @t"; "  " ++ JS.dquote ++ "see @t[0]"
                                                    ++ JS.dquote])
  /\ (serializePrimitive (JString (referenceText "@t" [0])) = referenceText "@t" [0]
      /\ optimizeCell
           (stateOf (processValue codeUnitCompare 2 (initialize (mkConfig [] []))
                       (JArray [JObject [("id", JNumber 7)]]) "t"))
           (serializePrimitive (JString (referenceText "@t" [0])))
         = "@t").
Proof.
  split; [vm_compute; reflexivity|].
  apply (string_spelling_reference_is_rewritten
           (stateOf (processValue codeUnitCompare 2 (initialize (mkConfig [] []))
                       (JArray [JObject [("id", JNumber 7)]]) "t"))
           "t" (mkTable ["id"] [["7"]] [JObject [("id", JNumber 7)]]));
    [discriminate | reflexivity | vm_compute; reflexivity | reflexivity].
Defined.

(** ** Lists of flat records *)

Lemma get_combine_seq keys : forall start k,
  OMap.get (combine keys (seq start (List.length keys))) k
  = None <-> mem k keys = false.
Proof.
  induction keys as [|k0 keys IH]; intros start k; simpl; [tauto|].
  rewrite (String.eqb_sym k k0).
  destruct (String.eqb k0 k); simpl; [split; discriminate|]. apply IH.
Qed.

Lemma set_combine_fresh keys : forall start k,
  mem k keys = false ->
  OMap.set (combine keys (seq start (List.length keys))) k
           (start + List.length keys)
  = combine (keys ++ [k]) (seq start (List.length (keys ++ [k]))).
Proof.
  induction keys as [|k0 keys IH]; intros start k; simpl.
  - intros _. now rewrite Nat.add_0_r.
  - rewrite (String.eqb_sym k k0). destruct (String.eqb k0 k); simpl;
      [discriminate|].
    intros H. f_equal. rewrite <- (IH (S start) k H). f_equal. lia.
Qed.

Lemma updateNth_app_last {A} (l : list A) x f :
  updateNth (l ++ [x]) (List.length l) f = (l ++ [f x])%list.
Proof. induction l as [|y l IH]; simpl; [reflexivity | now rewrite IH]. Qed.

Lemma normalizedValue_scalar st fields c :
  scalarDefaults st -> flatRecord fields ->
  isObjectLike (normalizedValue st fields c) = false.
Proof.
  intros Hd Hf. unfold normalizedValue.
  assert (H1 : forall v, OMap.get fields c = Some v -> isObjectLike v = false).
  { intros v Hv. apply OMap_get_In in Hv. unfold flatRecord in Hf.
    rewrite Forall_forall in Hf. apply (Hf (c, v) Hv). }
  assert (H2 : forall v, OMap.get st.(defaultValues) c = Some v ->
                         isObjectLike v = false).
  { intros v Hv. apply OMap_get_In in Hv. unfold scalarDefaults in Hd.
    rewrite Forall_forall in Hd. apply (Hd (c, v) Hv). }
  destruct (OMap.get fields c) as [v|]; simpl.
  - specialize (H1 v eq_refl). destruct v; try discriminate; try reflexivity.
    destruct (OMap.get (defaultValues st) c) as [d|]; simpl; [|reflexivity].
    specialize (H2 d eq_refl). destruct d; try discriminate; reflexivity.
  - destruct (OMap.get (defaultValues st) c) as [d|]; simpl; [|reflexivity].
    specialize (H2 d eq_refl). destruct d; try discriminate; reflexivity.
Qed.

Lemma renderCells_flat st0 st cols fields :
  st.(defaultValues) = st0.(defaultValues) ->
  scalarDefaults st0 -> flatRecord fields ->
  renderCells st (normalizedRowOf st0 cols fields) cols
  = Ok (flatCells st0 cols fields).
Proof.
  intros Hsame Hd Hf. unfold renderCells, flatCells. apply mapM_Ok.
  intros c Hc. unfold normalizedRowOf. rewrite fold_objSet_get.
  assert (Hm : mem c cols = true) by now apply mem_In.
  rewrite Hm.
  pose proof (normalizedValue_scalar st0 fields c Hd Hf) as Hv.
  destruct (normalizedValue st0 fields c); try discriminate; reflexivity.
Qed.

Lemma flatState_deref st T cols distinct :
  deref (flatState st T cols distinct) (List.length st.(mapStore))
  = combine (map (recordKey st cols) distinct) (seq 0 (List.length distinct)).
Proof.
  unfold deref, flatState. cbn [mapStore].
  rewrite app_nth2 by lia. now rewrite Nat.sub_diag.
Qed.

Lemma flatState_add st T cols distinct fields :
  mem (recordKey st cols fields) (map (recordKey st cols) distinct) = false ->
  rowAdded (flatState st T cols distinct) T
           (mkTable cols (map (flatCells st cols) distinct) (map JObject distinct))
           (List.length st.(mapStore)) (JObject fields)
           (flatCells st cols fields) (recordKey st cols fields)
  = flatState st T cols (distinct ++ [fields]).
Proof.
  intros Hfresh. unfold rowAdded, flatState.
  cbn [tableRegistry arrayReferenceCache tableIndexCounters rootLevelKeys
       objectToIndexMap mapStore defaultValues tableStructure columns rows
       originalData].
  rewrite !OMap_set_set, !map_app, !length_map, length_app.
  cbn [map List.length]. f_equal.
  rewrite updateNth_app_last. f_equal. f_equal.
  pose proof (set_combine_fresh (map (recordKey st cols) distinct) 0 _ Hfresh)
    as H.
  rewrite !length_app, !length_map in H. cbn [List.length] in H.
  rewrite Nat.add_0_l in H. exact H.
Qed.

Section FlatLoop.

Variable cmp : string -> string -> Z.
Variable rec : State -> JSONValue -> string -> Result State.
Variable st : State.
Variable T : string.
Variable cols : list string.

Hypothesis defaults_scalar : scalarDefaults st.

(** One turn of the loop of [processArrayValue] on a flat record. *)
Lemma flat_turn distinct indices fields :
  flatRecord fields ->
  exists index,
    (st' <- processNested rec (flatState st T cols distinct) (JObject fields) cols ;;
     normalizedRow <- applyDefaultsToRow st' (JObject fields) cols ;;
     let canonicalKey := generateCanonicalKey st' normalizedRow cols in
     match OMap.get (deref st' (List.length st.(mapStore))) canonicalKey with
     | Some rowIndex => Ok (st', (indices ++ [rowIndex])%list)
     | None =>
         a <- addRowToTable st' T (JObject fields) normalizedRow cols
                canonicalKey ;;
         Ok (fst a, (indices ++ [snd a])%list)
     end)
    = Ok (flatState st T cols (addDistinct (recordKey st cols) distinct fields),
          (indices ++ [index])%list).
Proof.
  intros Hflat.
  rewrite (processNested_flat rec _ fields cols Hflat). cbn [bind].
  rewrite applyDefaultsToRow_record. cbn [bind].
  change (fold_left
            (fun row c =>
               objSet row c (normalizedValue (flatState st T cols distinct) fields c))
            cols [])
    with (normalizedRowOf st cols fields).
  change (generateCanonicalKey (flatState st T cols distinct)
                               (normalizedRowOf st cols fields) cols)
    with (recordKey st cols fields).
  rewrite flatState_deref. unfold addDistinct.
  destruct (OMap.get _ (recordKey st cols fields)) as [i|] eqn:Eseen.
  - assert (Hmem : mem (recordKey st cols fields)
                       (map (recordKey st cols) distinct) = true).
    { destruct (mem _ _) eqn:E; [reflexivity|].
      pose proof (proj2 (get_combine_seq (map (recordKey st cols) distinct) 0
                           (recordKey st cols fields))) as H.
      rewrite length_map in H. rewrite (H E) in Eseen. discriminate. }
    rewrite Hmem. eauto.
  - assert (Hmem : mem (recordKey st cols fields)
                       (map (recordKey st cols) distinct) = false).
    { pose proof (proj1 (get_combine_seq (map (recordKey st cols) distinct) 0
                           (recordKey st cols fields))) as H.
      rewrite length_map in H. now apply H. }
    rewrite Hmem.
    destruct (addRowToTable_spec (flatState st T cols distinct) T (JObject fields)
                (normalizedRowOf st cols fields) cols (recordKey st cols fields)
                (mkTable cols (map (flatCells st cols) distinct)
                         (map JObject distinct))
                (List.length st.(mapStore)))
      as [cells [Hcells Hadd]].
    { unfold flatState. cbn [tableRegistry]. apply OMap_get_set_eq. }
    { unfold flatState. cbn [objectToIndexMap]. apply OMap_get_set_eq. }
    rewrite (renderCells_flat st (flatState st T cols distinct) cols fields
               eq_refl defaults_scalar Hflat) in Hcells.
    injection Hcells as <-.
    rewrite Hadd. cbn [bind fst snd]. rewrite (flatState_add _ _ _ _ _ Hmem).
    eauto.
Qed.

End FlatLoop.

Lemma processArrayValue_flat cmp rec st records context cacheKey :
  records <> [] ->
  extractColumnNames cmp (map JObject records) <> [] ->
  Forall flatRecord records -> scalarDefaults st ->
  OMap.has st.(tableRegistry) (resolveTableName st context) = false ->
  exists indices,
    List.length indices = List.length records
    /\ processArrayValue cmp rec st (map JObject records) context cacheKey
       = Ok (withCache
               (flatState st (resolveTableName st context)
                          (extractColumnNames cmp (map JObject records))
                          (distinctBy (recordKey st
                                         (extractColumnNames cmp
                                            (map JObject records)))
                                      records))
               (OMap.set st.(arrayReferenceCache) cacheKey
                  (referenceText (resolveTableName st context) indices))).
Proof.
  intros Hne Hcols Hflat Hd Habsent.
  set (T := resolveTableName st context) in *.
  set (cols := extractColumnNames cmp (map JObject records)) in *.
  assert (Hlen : (List.length cols =? 0) = false).
  { apply Nat.eqb_neq. destruct cols; [congruence | discriminate]. }
  unfold processArrayValue.
  destruct records as [|first rest]; [congruence|].
  change (map JObject (first :: rest)) with (JObject first :: map JObject rest).
  cbv iota beta. cbn [typeofObject isArray negb orb]. fold T.
  change (JObject first :: map JObject rest) with (map JObject (first :: rest)).
  fold cols. rewrite Hlen. unfold registerColumns. rewrite Habsent.
  cbn [negb bind].
  change (createNewTable st T cols) with (flatState st T cols []).
  assert (Hreg : OMap.get (tableRegistry (flatState st T cols [])) T
                 = Some (mkTable cols [] [])).
  { unfold flatState. cbn [tableRegistry map]. apply OMap_get_set_eq. }
  assert (Hmap : OMap.get (objectToIndexMap (flatState st T cols [])) T
                 = Some (List.length st.(mapStore))).
  { unfold flatState. cbn [objectToIndexMap]. apply OMap_get_set_eq. }
  rewrite Hreg, Hmap. cbn [columns].
  match goal with |- context [foldM ?f _ _] => set (body := f) end.
  assert (Hloop : forall l distinct indices,
             Forall flatRecord l ->
             exists indices',
               List.length indices' = List.length indices + List.length l
               /\ foldM body (flatState st T cols distinct, indices)
                        (map JObject l)
                  = Ok (flatState st T cols
                          (fold_left (addDistinct (recordKey st cols)) l distinct),
                        indices')).
  { induction l as [|fields l IH]; intros distinct indices Hl.
    - exists indices. split; [simpl; lia | reflexivity].
    - inversion Hl as [|? ? Hfields Hrest]; subst.
      destruct (flat_turn rec st T cols Hd distinct indices fields Hfields)
        as [index Hturn].
      destruct (IH (addDistinct (recordKey st cols) distinct fields)
                   (indices ++ [index])%list Hrest) as [indices' [Hlen' Hfold]].
      exists indices'. split.
      + rewrite Hlen', length_app. simpl. lia.
      + cbn [map foldM fold_left].
        match goal with
        | |- bind ?e ?k = _ =>
            replace e
              with (@Ok (State * list nat)
                      (flatState st T cols
                         (addDistinct (recordKey st cols) distinct fields),
                       (indices ++ [index])%list))
              by (symmetry; exact Hturn)
        end.
        cbn [bind]. exact Hfold. }
  destruct (Hloop (first :: rest) [] [] Hflat) as [indices [Hlen' Hfold]].
  rewrite Hfold. cbn [bind]. exists indices. split; [exact Hlen'|].
  reflexivity.
Qed.

(** ** The text for lists of flat records *)

Lemma compacted_reference_either registry w indices :
  w <> EmptyString -> JS.all JS.isWordChar w = true -> indices <> [] ->
  compacted registry (referenceText ("@" ++ w) indices) = "@" ++ w
  \/ compacted registry (referenceText ("@" ++ w) indices)
     = referenceText ("@" ++ w) indices.
Proof.
  intros Hw Hword Hne. unfold compacted, compaction.
  rewrite (matchReference_referenceText w indices Hw Hword Hne).
  destruct (OMap.get registry ("@" ++ w)); [|now right].
  destruct (isSequentialFullTableReference _ _); [now left | now right].
Qed.

(** The tables section is empty when every table is the root table or the
    table of a root key. *)
Lemma buildTabularOutput_root_section st rootData rootLines :
  NoDup (OMap.keys st.(tableRegistry)) ->
  (forall tableName,
      In tableName (OMap.keys st.(tableRegistry)) ->
      tableName = "@root" \/ mem (slice1 tableName) st.(rootLevelKeys) = true) ->
  buildRootOutput st rootData = Ok rootLines ->
  buildTabularOutput st rootData = Ok (JS.join newline rootLines).
Proof.
  intros Hnd Hskip Hroot. unfold buildTabularOutput.
  destruct (computeTopologicalOrder_covers st Hnd) as [order [-> [_ Hin]]].
  cbn [bind]. rewrite Hroot. cbn [bind].
  match goal with
  | |- context [flat_map ?f order] =>
      assert (Hnone : flat_map f order = [])
  end.
  { assert (H : forall l, (forall n, In n l -> In n order) ->
                          flat_map
                            (fun tableName =>
                               if String.eqb tableName "@root" then []
                               else if mem (slice1 tableName) st.(rootLevelKeys)
                                    then []
                                    else match OMap.get st.(tableRegistry) tableName with
                                         | Some table =>
                                             match table.(rows) with
                                             | [] => []
                                             | _ => [formatTableOutput tableName table]
                                             end
                                         | None => []
                                         end) l = []).
    { induction l as [|n l IH]; intros Hl; [reflexivity|].
      cbn [flat_map]. rewrite IH by (intros x Hx; apply Hl; now right).
      rewrite app_nil_r.
      destruct (Hskip n) as [->|Hkey].
      - apply Hin, Hl. now left.
      - reflexivity.
      - destruct (String.eqb n "@root"); [reflexivity|]. now rewrite Hkey. }
    apply H. auto. }
  rewrite Hnone. reflexivity.
Qed.

(** X23.  A list of flat records given as the whole input, none of whose
    keys is a name inherited from Object.prototype, is written as a
    bare reference to the root table: the text is the name of that table,
    with or without its row indices, and none of the values of the records
    is written. *)
Theorem parse_flat_records_root :
  forall (cmp : string -> string -> Z) (config : SCOLTConfig)
         (records : list (list (string * JSONValue))),
    ownKeys (JArray (map JObject records)) = true ->
    records <> [] ->
    extractColumnNames cmp (map JObject records) <> [] ->
    Forall flatRecord records ->
    scalarDefaults (initialize config) ->
    OMap.get config.(cfgTableStructure) "root" = None ->
    exists indices,
      List.length indices = List.length records
      /\ (parse cmp (JArray (map JObject records)) config = Ok "@root"
          \/ parse cmp (JArray (map JObject records)) config
             = Ok (referenceText "@root" indices)).
Proof.
  intros cmp config records _ Hne Hcols Hflat Hd Hname.
  set (st0 := initialize config).
  set (data := JArray (map JObject records)).
  assert (HT : resolveTableName st0 "root" = "@root").
  { unfold resolveTableName, st0. cbn [tableStructure initialize].
    now rewrite Hname. }
  destruct (processArrayValue_flat cmp
              (processValue cmp
                 (fold_right (fun x d => Nat.max (depth x) d) 0
                             (map JObject records)))
              st0 records "root" (stringify data) Hne Hcols Hflat Hd)
    as [indices [Hlen Hrun]].
  { rewrite HT. reflexivity. }
  rewrite HT in Hrun.
  exists indices. split; [exact Hlen|].
  set (cols := extractColumnNames cmp (map JObject records)) in *.
  set (distinct := distinctBy (recordKey st0 cols) records) in *.
  set (reference := referenceText "@root" indices) in *.
  set (st2 := withCache (flatState st0 "@root" cols distinct)
                        (OMap.set st0.(arrayReferenceCache) (stringify data)
                                  reference)) in *.
  assert (Hparse : parse cmp data config
                   = buildTabularOutput
                       (optimizeTableReferences (compactArrayReferences st2)) data).
  { unfold parse. unfold data at 1 2 3. cbn [depth processValue].
    cbn [isObjectLike negb]. fold st0.
    change (OMap.has (arrayReferenceCache st0) _) with false. cbv iota.
    fold data. rewrite Hrun. reflexivity. }
  assert (Hnd2 : NoDup (OMap.keys st2.(arrayReferenceCache))).
  { cbn. constructor; [intros [] | constructor]. }
  assert (Hndr : NoDup (OMap.keys st2.(tableRegistry))).
  { cbn. constructor; [intros [] | constructor]. }
  rewrite (compactArrayReferences_map st2 Hnd2) in Hparse.
  rewrite optimizeTableReferences_map in Hparse by exact Hndr.
  set (reference' := compacted st2.(tableRegistry) reference) in *.
  assert (Hout : parse cmp data config = Ok reference').
  { rewrite Hparse.
    rewrite (buildTabularOutput_root_section _ data [reference']).
    - reflexivity.
    - cbn. constructor; [intros [] | constructor].
    - cbn. intros tableName [<-|[]]. now left.
    - unfold data. cbn [buildRootOutput]. unfold resolveReference.
      cbn [isObjectLike negb]. fold data.
      cbn [arrayReferenceCache withRegistry withCache st2 map compactedEntry
           fst snd OMap.set st0 initialize OMap.get].
      rewrite String.eqb_refl. reflexivity. }
  rewrite Hout. unfold reference', reference.
  assert (Hindices : indices <> []).
  { destruct indices; [|discriminate]. destruct records; [congruence|].
    simpl in Hlen. discriminate. }
  destruct (compacted_reference_either st2.(tableRegistry) "root" indices
              ltac:(discriminate) eq_refl Hindices) as [E|E].
  - left. f_equal. exact E.
  - right. f_equal. exact E.
Qed.

Lemma parse_flat_records_root_witness :
  exists indices,
    List.length indices = 2
    /\ (parse codeUnitCompare
              (JArray (map JObject [[("id", JNumber 1); ("name", JString "Ann")];
                                    [("id", JNumber 2); ("name", JString "Bob")]]))
              (mkConfig [] []) = Ok "@root"
        \/ parse codeUnitCompare
                 (JArray (map JObject [[("id", JNumber 1); ("name", JString "Ann")];
                                       [("id", JNumber 2); ("name", JString "Bob")]]))
                 (mkConfig [] []) = Ok (referenceText "@root" indices)).
Proof.
  apply (parse_flat_records_root codeUnitCompare (mkConfig [] [])
           [[("id", JNumber 1); ("name", JString "Ann")];
            [("id", JNumber 2); ("name", JString "Bob")]]).
  - reflexivity.
  - discriminate.
  - vm_compute. discriminate.
  - repeat constructor.
  - constructor.
  - reflexivity.
Defined.

(** ** The text for a root key that holds a list of flat records *)

Lemma distinctBy_incl {A} (key : A -> string) l :
  forall x, In x (distinctBy key l) -> In x l.
Proof.
  unfold distinctBy.
  assert (H : forall l acc x,
             In x (fold_left (addDistinct key) l acc) -> In x acc \/ In x l).
  { clear l. induction l as [|y l IH]; intros acc x; simpl; [tauto|].
    intros Hx. apply IH in Hx. destruct Hx as [Hx|Hx]; [|tauto].
    unfold addDistinct in Hx. destruct (mem _ _); [tauto|].
    apply in_app_or in Hx. destruct Hx as [Hx|[<-|[]]]; tauto. }
  intros x Hx. apply H in Hx. destruct Hx as [[]|Hx]. exact Hx.
Qed.

Lemma rootName_differs key :
  key <> "root" -> String.eqb "@root" ("@" ++ key) = false.
Proof.
  intros Hkey. apply String.eqb_neq. intros H. apply Hkey.
  now injection H as <-.
Qed.

(** The traversal of the record [{key: records}] from the start state of
    [parse]. *)
Lemma traversal_under_key cmp config key records :
  config.(cfgTableStructure) = [] ->
  scalarDefaults (initialize config) ->
  key <> "root" ->
  records <> [] ->
  extractColumnNames cmp (map JObject records) <> [] ->
  Forall flatRecord records ->
  let data := JObject [(key, JArray (map JObject records))] in
  let cols := extractColumnNames cmp (map JObject records) in
  let distinct := distinctBy (recordKey (initialize config) cols) records in
  exists st' indices,
    processValue cmp (depth data) (startState config [key]) data "root" = Ok st'
    /\ indices <> []
    /\ st'.(tableRegistry)
       = [("@root",
           mkTable [key] [[referenceText ("@" ++ key) indices]] [data]);
          ("@" ++ key,
           mkTable cols (map (flatCells (initialize config) cols) distinct)
                   (map JObject distinct))]
    /\ st'.(arrayReferenceCache)
       = [(stringify (JArray (map JObject records)),
           referenceText ("@" ++ key) indices)]
    /\ st'.(rootLevelKeys) = [key]
    /\ st'.(tableStructure) = [].
Proof.
  intros Hts Hd Hkey Hne Hcols Hflat data cols distinct.
  set (arr := JArray (map JObject records)).
  set (sR := createNewTable (startState config [key]) "@root" [key]).
  assert (HTk : resolveTableName sR key = "@" ++ key).
  { unfold resolveTableName, sR. rewrite createNewTable_spec.
    cbn [tableStructure startState]. now rewrite Hts. }
  assert (HdR : scalarDefaults sR) by exact Hd.
  destruct (processArrayValue_flat cmp
              (processValue cmp
                 (fold_right (fun x d => Nat.max (depth x) d) 0
                             (map JObject records)))
              sR records key (stringify arr) Hne Hcols Hflat HdR)
    as [indices [Hlen Hrun]].
  { rewrite HTk. unfold sR. rewrite createNewTable_spec.
    cbn [tableRegistry startState OMap.set]. unfold OMap.has. cbn [OMap.get].
    now rewrite (rootName_differs key Hkey). }
  rewrite HTk in Hrun. fold cols in Hrun.
  set (reference := referenceText ("@" ++ key) indices) in *.
  change (distinctBy (recordKey sR cols) records) with distinct in Hrun.
  set (s3 := withCache (flatState sR ("@" ++ key) cols distinct)
                       (OMap.set sR.(arrayReferenceCache) (stringify arr)
                                 reference)) in *.
  assert (Hnested : processValue cmp
                      (S (fold_right (fun x d => Nat.max (depth x) d) 0
                                     (map JObject records)))
                      sR arr key = Ok s3).
  { unfold arr at 1. cbn [processValue]. cbn [isObjectLike negb].
    change (OMap.has (arrayReferenceCache sR) _) with false. cbv iota.
    fold arr. exact Hrun. }
  assert (Hreg3 : s3.(tableRegistry)
                  = [("@root", mkTable [key] [] []);
                     ("@" ++ key,
                      mkTable cols (map (flatCells sR cols) distinct)
                              (map JObject distinct))]).
  { unfold s3, flatState, sR. rewrite createNewTable_spec.
    cbn [tableRegistry withCache startState OMap.set].
    now rewrite (rootName_differs key Hkey). }
  assert (Hmap3 : OMap.get s3.(objectToIndexMap) "@root" = Some 0).
  { unfold s3, flatState, sR. rewrite createNewTable_spec.
    cbn [objectToIndexMap withCache startState OMap.set mapStore List.length].
    rewrite (rootName_differs key Hkey). reflexivity. }
  assert (Hstore3 : deref s3 0 = []).
  { unfold s3, flatState, sR, deref. rewrite createNewTable_spec. reflexivity. }
  assert (Hcache3 : s3.(arrayReferenceCache) = [(stringify arr, reference)]).
  { unfold s3, sR. rewrite createNewTable_spec. reflexivity. }
  set (row := [(key, arr)]).
  assert (Hrow : applyDefaultsToRow s3 data [key] = Ok row).
  { unfold data. rewrite applyDefaultsToRow_record. cbn [fold_left].
    unfold normalizedValue. cbn [OMap.get]. rewrite String.eqb_refl.
    reflexivity. }
  assert (Hcell : renderCells s3 row [key] = Ok [reference]).
  { unfold renderCells, row. cbn [mapM OMap.get]. rewrite String.eqb_refl.
    cbn [typeofObject arr]. unfold resolveReference.
    cbn [isObjectLike negb arr]. fold arr. rewrite Hcache3.
    cbn [OMap.get]. rewrite String.eqb_refl. reflexivity. }
  assert (Hget3 : OMap.get s3.(tableRegistry) "@root"
                  = Some (mkTable [key] [] [])).
  { rewrite Hreg3. reflexivity. }
  destruct (addRowToTable_spec s3 "@root" data row [key]
              (generateCanonicalKey s3 row [key]) (mkTable [key] [] []) 0
              Hget3 Hmap3) as [cells [Hcells Hadd]].
  rewrite Hcell in Hcells. injection Hcells as <-.
  eexists. exists indices. split; [|split; [|split; [|split; [|split]]]].
  - unfold data at 1 2. cbn [depth processValue fold_right].
    cbn [isObjectLike negb startState arrayReferenceCache OMap.has OMap.get].
    unfold processObjectValue.
    assert (HTr : resolveTableName (startState config [key]) "root" = "@root").
    { unfold resolveTableName. cbn [tableStructure startState]. now rewrite Hts. }
    rewrite HTr. cbn [OMap.keys map fst]. unfold sortColumnNames.
    cbn [JS.sort JS.insert]. unfold registerColumns.
    cbn [tableRegistry startState OMap.has OMap.get negb bind]. fold sR.
    assert (HgetR : OMap.get sR.(tableRegistry) "@root"
                    = Some (mkTable [key] [] [])).
    { unfold sR. rewrite createNewTable_spec. reflexivity. }
    assert (HmapR : OMap.get sR.(objectToIndexMap) "@root" = Some 0).
    { unfold sR. rewrite createNewTable_spec. reflexivity. }
    rewrite HgetR, HmapR. cbn [columns].
    unfold processNested. cbn [foldM getProp OMap.get]. rewrite String.eqb_refl.
    cbn [bind isObjectLike].
    rewrite Nat.max_0_r. fold arr. rewrite Hnested. cbn [bind].
    change (JObject [(key, arr)]) with data. rewrite Hrow.
    cbn [bind].
    rewrite Hstore3. cbn [OMap.has OMap.get negb]. rewrite Hadd. cbn [bind fst].
    reflexivity.
  - destruct indices; [|discriminate]. destruct records; [congruence|].
    simpl in Hlen. discriminate.
  - unfold rowAdded. cbn [tableRegistry]. rewrite Hreg3.
    cbn [OMap.set]. rewrite String.eqb_refl. reflexivity.
  - unfold rowAdded. cbn [arrayReferenceCache]. exact Hcache3.
  - reflexivity.
  - unfold rowAdded. cbn [tableStructure]. unfold s3, flatState, sR.
    rewrite createNewTable_spec. cbn [tableStructure withCache startState].
    exact Hts.
Qed.

Lemma all_any_false (p q : ascii -> bool) s :
  (forall c, p c = true -> q c = false) ->
  JS.all p s = true -> JS.any q s = false.
Proof.
  intros Hpq. induction s as [|c s IH]; simpl; [reflexivity|].
  intros H. apply andb_prop in H. destruct H as [Hc Hs].
  now rewrite (Hpq c Hc), (IH Hs).
Qed.

Lemma isIndexChar_sameLine c :
  isIndexChar c = true -> JS.isLineTerminator c = false.
Proof.
  unfold isIndexChar, JS.isDigit, JS.isLineTerminator, JS.code.
  destruct c as [[] [] [] [] [] [] [] []]; simpl; congruence.
Qed.

(** The pattern of the root section recognizes a table name of word
    characters, alone or followed by its row indices. *)
Lemma matchRootReference_name_alone w :
  w <> EmptyString -> JS.all JS.isWordChar w = true ->
  matchRootReference ("@" ++ w) = Some ("@" ++ w).
Proof.
  intros Hw Hword. unfold matchRootReference.
  change ("@" ++ w) with (String "@"%char w). cbv iota.
  rewrite <- (append_nil_r w) at 1.
  rewrite (span_app JS.isWordChar w EmptyString Hword) by exact I.
  destruct w; [congruence | reflexivity].
Qed.

Lemma matchRootReference_referenceText w indices :
  w <> EmptyString -> JS.all JS.isWordChar w = true ->
  matchRootReference (referenceText ("@" ++ w) indices) = Some ("@" ++ w).
Proof.
  intros Hw Hword. unfold referenceText, matchRootReference.
  change (("@" ++ w) ++ "[" ++ JS.join "," (map JS.showNat indices) ++ "]")
    with (String "@"%char
            (w ++ String "["%char (JS.join "," (map JS.showNat indices) ++ "]"))).
  cbv iota.
  rewrite (span_app JS.isWordChar w _ Hword) by reflexivity.
  destruct w as [|c w]; [congruence|].
  rewrite any_app.
  rewrite (all_any_false isIndexChar JS.isLineTerminator _ isIndexChar_sameLine
             (join_indexChars indices)).
  reflexivity.
Qed.


